(** * ESPResSo core excerpts: integrator, minimizer, layered cells,
      quartic and affinity bonds, MMM2D near tuning, dipolar P3M setters.

    A shallow embedding of the C++ sources.  Conventions used throughout:

    - a C++ [double] is an exact rational ([Q]): rounding, infinities and
      NaN are not represented, and [x / 0] is [0] as in [Qdiv];
    - a C++ [int] is a [Z]; overflow of [int] arithmetic is not represented;
    - [Utils::Vector3d] is a record of three components, read and written by
      index the way the [for (j = 0; j < 3; j++)] loops of the sources do;
    - functions of libm and of other translation units ([sqrt], [exp], [pow],
      [K1], the random generator, ...) are [Variable]s of the enclosing
      [Section]; nothing is assumed about them unless a [Hypothesis] says so;
    - an output parameter ([double *force]) is modelled by passing the old
      contents in and returning the new contents. *)

From Stdlib Require Import QArith Qabs Qround ZArith List Bool Lia Lqa.
Import ListNotations.

Local Open Scope Q_scope.

(** ** Comparisons on doubles *)

Definition Qltb (a b : Q) : bool := negb (Qle_bool b a).
Definition Qgtb (a b : Q) : bool := Qltb b a.
Definition Qleb (a b : Q) : bool := Qle_bool a b.
Definition Qgeb (a b : Q) : bool := Qle_bool b a.

Lemma Qltb_lt (a b : Q) : Qltb a b = true <-> a < b.
Proof.
  unfold Qltb. rewrite negb_true_iff.
  split; intro H.
  - apply Qnot_le_lt. intro Hle. apply Qle_bool_iff in Hle. congruence.
  - destruct (Qle_bool b a) eqn:E; [|reflexivity].
    apply Qle_bool_iff in E. exfalso. apply (Qlt_not_le _ _ H E).
Qed.

Lemma Qltb_ge (a b : Q) : Qltb a b = false <-> b <= a.
Proof.
  unfold Qltb. rewrite negb_false_iff. apply Qle_bool_iff.
Qed.

Lemma Qgtb_gt (a b : Q) : Qgtb a b = true <-> b < a.
Proof. apply Qltb_lt. Qed.

Lemma Qgtb_le (a b : Q) : Qgtb a b = false <-> a <= b.
Proof. apply Qltb_ge. Qed.

Lemma Qleb_le (a b : Q) : Qleb a b = true <-> a <= b.
Proof. apply Qle_bool_iff. Qed.

Lemma Qgeb_ge (a b : Q) : Qgeb a b = true <-> b <= a.
Proof. apply Qle_bool_iff. Qed.

Lemma Qgeb_lt (a b : Q) : Qgeb a b = false <-> a < b.
Proof.
  unfold Qgeb. split; intro H.
  - apply Qnot_le_lt. intro Hle. apply Qle_bool_iff in Hle. congruence.
  - destruct (Qle_bool b a) eqn:E; [|reflexivity].
    apply Qle_bool_iff in E. exfalso. apply (Qlt_not_le _ _ H E).
Qed.

(** [Utils::sqr]. *)
Definition sqr (x : Q) : Q := x * x.

(** A square root that is exact on squares of rationals; it stands for libm's
    [sqrt] when the model is run on concrete inputs. *)
Definition sqrt_exact (q : Q) : Q :=
  Z.sqrt (Qnum q * Zpos (Qden q)) # Qden q.

Lemma sqrt_exact_nonneg (q : Q) : 0 <= sqrt_exact q.
Proof.
  unfold sqrt_exact, Qle. simpl. rewrite Z.mul_1_r. apply Z.sqrt_nonneg.
Qed.

(** ** Utils::Vector3d *)

Record Vector3d : Type := mkV { vx : Q; vy : Q; vz : Q }.

Definition vget (v : Vector3d) (j : nat) : Q :=
  match j with
  | O => vx v
  | S O => vy v
  | _ => vz v
  end.

Definition vset (v : Vector3d) (j : nat) (a : Q) : Vector3d :=
  match j with
  | O => mkV a (vy v) (vz v)
  | S O => mkV (vx v) a (vz v)
  | _ => mkV (vx v) (vy v) a
  end.

Definition vadd (a b : Vector3d) : Vector3d :=
  mkV (vx a + vx b) (vy a + vy b) (vz a + vz b).

Definition vsub (a b : Vector3d) : Vector3d :=
  mkV (vx a - vx b) (vy a - vy b) (vz a - vz b).

Definition vscale (c : Q) (a : Vector3d) : Vector3d :=
  mkV (c * vx a) (c * vy a) (c * vz a).

Definition norm2 (a : Vector3d) : Q :=
  vx a * vx a + vy a * vy a + vz a * vz a.

(** Component-wise equality of doubles. *)
Definition veq (a b : Vector3d) : Prop :=
  vx a == vx b /\ vy a == vy b /\ vz a == vz b.

Lemma vget_vset_same (v : Vector3d) (j : nat) (a : Q) :
  vget (vset v j a) j = a.
Proof. destruct j as [|[|j]]; reflexivity. Qed.

Lemma vget_vset_other (v : Vector3d) (i j : nat) (a : Q) :
  (i < 3)%nat -> (j < 3)%nat -> i <> j -> vget (vset v j a) i = vget v i.
Proof.
  intros Hi Hj Hij.
  destruct i as [|[|[|i]]]; destruct j as [|[|[|j]]]; try lia; reflexivity.
Qed.

Lemma norm2_nonneg (a : Vector3d) : 0 <= norm2 a.
Proof. unfold norm2. nra. Qed.

(** ** Quartic bond potential (bonded_interactions/quartic.hpp) *)

Module Quartic.

Record Quartic_bond_parameters : Type := mkQuartic {
  k0 : Q;
  k1 : Q;
  r : Q;
  r_cut : Q
}.

Section Quartic.

Variable sqrt : Q -> Q.

(** [Utils::Vector3d::norm]. *)
Definition norm (v : Vector3d) : Q := sqrt (norm2 v).

(** [calc_quartic_pair_force]: the return value and the contents of
    [force] after the call. *)
Definition calc_quartic_pair_force (iaparams : Quartic_bond_parameters)
    (dx : Vector3d) (force : Vector3d) : Z * Vector3d :=
  let dist := norm dx in
  if Qgtb (r_cut iaparams) 0 && Qgtb dist (r_cut iaparams) then
    (1%Z, force)
  else
    let dr := dist - r iaparams in
    let fac := (k0 iaparams * dr + k1 iaparams * dr * dr * dr) / dist in
    (0%Z, mkV (- fac * vx dx) (- fac * vy dx) (- fac * vz dx)).

(** [quartic_pair_energy]: the return value and the contents of
    [_energy] after the call. *)
Definition quartic_pair_energy (iaparams : Quartic_bond_parameters)
    (dx : Vector3d) (_energy : Q) : Z * Q :=
  let dist := norm dx in
  if Qgtb (r_cut iaparams) 0 && Qgtb dist (r_cut iaparams) then
    (1%Z, _energy)
  else
    let dr2 := sqr (dist - r iaparams) in
    (0%Z, (1#2) * k0 iaparams * dr2 + (1#4) * k1 iaparams * sqr dr2).

(** The bond is reported broken exactly when the cutoff is active and the
    distance is strictly beyond it. *)
Lemma quartic_broken_iff (ia : Quartic_bond_parameters) (dx : Vector3d) :
  Qgtb (r_cut ia) 0 && Qgtb (norm dx) (r_cut ia) = true
  <-> (0 < r_cut ia /\ r_cut ia < norm dx).
Proof.
  rewrite andb_true_iff, !Qgtb_gt. tauto.
Qed.

Lemma quartic_not_broken_iff (ia : Quartic_bond_parameters) (dx : Vector3d) :
  Qgtb (r_cut ia) 0 && Qgtb (norm dx) (r_cut ia) = false
  <-> ~ (0 < r_cut ia /\ r_cut ia < norm dx).
Proof.
  rewrite <- quartic_broken_iff.
  destruct (Qgtb (r_cut ia) 0 && Qgtb (norm dx) (r_cut ia)); split; intro H;
    try reflexivity; try discriminate.
  - exfalso. apply H. reflexivity.
Qed.

(** The closed formulas of the potential, as the documentation writes them. *)
Definition quartic_energy_formula (ia : Quartic_bond_parameters) (d : Q) : Q :=
  (1#2) * k0 ia * (d - r ia) ^ 2 + (1#4) * k1 ia * (d - r ia) ^ 4.

Definition quartic_force_formula (ia : Quartic_bond_parameters) (d : Q)
    (dx : Vector3d) : Vector3d :=
  vscale (- ((k0 ia * (d - r ia) + k1 ia * (d - r ia) ^ 3) / d)) dx.

(** C4 (amended): with [r_cut > 0] the bond is reported broken (return value
    1, outputs untouched) exactly for distances strictly beyond [r_cut]; at
    any other distance, the distance [r_cut] itself included, and for every
    distance when [r_cut <= 0], both functions return 0, the energy is
    [1/2 k0 (r-r0)^2 + 1/4 k1 (r-r0)^4] and the force is
    [-(k0 (r-r0) + k1 (r-r0)^3)/r * dx]. *)
Theorem quartic_cutoff_strict (ia : Quartic_bond_parameters) (dx force : Vector3d)
    (e : Q) :
  (0 < r_cut ia /\ r_cut ia < norm dx ->
     calc_quartic_pair_force ia dx force = (1%Z, force) /\
     quartic_pair_energy ia dx e = (1%Z, e))
  /\
  (~ (0 < r_cut ia /\ r_cut ia < norm dx) ->
     fst (calc_quartic_pair_force ia dx force) = 0%Z /\
     veq (snd (calc_quartic_pair_force ia dx force))
         (quartic_force_formula ia (norm dx) dx) /\
     fst (quartic_pair_energy ia dx e) = 0%Z /\
     snd (quartic_pair_energy ia dx e) == quartic_energy_formula ia (norm dx))
  /\
  (r_cut ia <= 0 ->
     fst (calc_quartic_pair_force ia dx force) = 0%Z /\
     fst (quartic_pair_energy ia dx e) = 0%Z).
Proof.
  assert (Hno : ~ (0 < r_cut ia /\ r_cut ia < norm dx) ->
     fst (calc_quartic_pair_force ia dx force) = 0%Z /\
     veq (snd (calc_quartic_pair_force ia dx force))
         (quartic_force_formula ia (norm dx) dx) /\
     fst (quartic_pair_energy ia dx e) = 0%Z /\
     snd (quartic_pair_energy ia dx e) == quartic_energy_formula ia (norm dx)).
  { intro Hn. apply quartic_not_broken_iff in Hn.
    unfold calc_quartic_pair_force, quartic_pair_energy.
    rewrite Hn. cbn [fst snd].
    unfold veq, quartic_force_formula, quartic_energy_formula, vscale, sqr.
    cbn [vx vy vz].
    assert (Hfac : forall d,
      (k0 ia * (d - r ia) + k1 ia * (d - r ia) * (d - r ia) * (d - r ia)) / d
      == (k0 ia * (d - r ia) + k1 ia * (d - r ia) ^ 3) / d).
    { intro d. apply Qdiv_comp; [ring | reflexivity]. }
    repeat split; try reflexivity; try (rewrite Hfac; reflexivity); ring. }
  split; [|split].
  - intro Hb. apply quartic_broken_iff in Hb.
    unfold calc_quartic_pair_force, quartic_pair_energy.
    rewrite Hb. split; reflexivity.
  - exact Hno.
  - intro Hle. destruct Hno as (H1 & _ & H3 & _).
    + intros [Hpos _]. apply (Qlt_not_le _ _ Hpos Hle).
    + split; assumption.
Qed.

End Quartic.

(** The claim as the documentation states it ("at or beyond [r_cut]") fails at
    the cutoff itself: [dx = (3,4,0)] has length 5, and with [r_cut = 5] the
    force routine returns 0. *)
Lemma quartic_at_cutoff_not_broken :
  let ia := mkQuartic 1 0 1 5 in
  let dx := mkV 3 4 0 in
  0 < r_cut ia /\ r_cut ia <= norm sqrt_exact dx /\
  fst (calc_quartic_pair_force sqrt_exact ia dx (mkV 0 0 0)) = 0%Z /\
  fst (quartic_pair_energy sqrt_exact ia dx 0) = 0%Z.
Proof.
  cbv zeta. split; [reflexivity | split; [| split]].
  - vm_compute. discriminate.
  - vm_compute. reflexivity.
  - vm_compute. reflexivity.
Qed.

(** The documented test case: [r_cut = 2.5], [k0 = 1], [k1 = 0], [r0 = 1];
    a pair at distance 3 is broken, a pair at distance 1.5 has energy 0.125. *)
Lemma quartic_cutoff_strict_witness :
  calc_quartic_pair_force sqrt_exact (mkQuartic 1 0 1 (5#2)) (mkV 3 0 0) (mkV 7 7 7)
    = (1%Z, mkV 7 7 7)
  /\ snd (quartic_pair_energy sqrt_exact (mkQuartic 1 0 1 (5#2)) (mkV (3#2) 0 0) 7)
     == 1#8.
Proof.
  split.
  - apply (quartic_cutoff_strict sqrt_exact (mkQuartic 1 0 1 (5#2))
             (mkV 3 0 0) (mkV 7 7 7) 7).
    split; vm_compute; reflexivity.
  - destruct (quartic_cutoff_strict sqrt_exact (mkQuartic 1 0 1 (5#2))
                (mkV (3#2) 0 0) (mkV 7 7 7) 7) as (_ & H & _).
    destruct H as (_ & _ & _ & He).
    + intros [_ Hlt]. vm_compute in Hlt. discriminate.
    + rewrite He. vm_compute. reflexivity.
Defined.

(** *** Symmetry, rest length and sign of the quartic potential *)

Definition vneg (v : Vector3d) : Vector3d := mkV (- vx v) (- vy v) (- vz v).

Lemma Qmult_opp_opp_eq (x : Q) : (- x) * (- x) = x * x.
Proof.
  destruct x as [n d]. unfold Qmult, Qopp. cbn [Qnum Qden].
  f_equal. apply Z.mul_opp_opp.
Qed.

Lemma norm2_vneg (v : Vector3d) : norm2 (vneg v) = norm2 v.
Proof.
  unfold norm2, vneg. cbn [vx vy vz]. rewrite !Qmult_opp_opp_eq. reflexivity.
Qed.

Section QuarticSymmetry.

Variable sqrt : Q -> Q.

(** X1: the quartic bond is symmetric under exchange of the two particles:
    for [dx] and [-dx] both routines report the same status, the energy is
    the same, and the force changes sign. *)
Theorem quartic_exchange_symmetry (ia : Quartic_bond_parameters)
    (dx force : Vector3d) (e : Q) :
  fst (calc_quartic_pair_force sqrt ia (vneg dx) force)
    = fst (calc_quartic_pair_force sqrt ia dx force) /\
  quartic_pair_energy sqrt ia (vneg dx) e = quartic_pair_energy sqrt ia dx e /\
  (fst (calc_quartic_pair_force sqrt ia dx force) = 0%Z ->
   veq (snd (calc_quartic_pair_force sqrt ia (vneg dx) force))
       (vneg (snd (calc_quartic_pair_force sqrt ia dx force)))).
Proof.
  unfold calc_quartic_pair_force, quartic_pair_energy, norm.
  rewrite norm2_vneg.
  destruct (Qgtb (r_cut ia) 0 && Qgtb (sqrt (norm2 dx)) (r_cut ia)).
  - cbn [fst snd]. split; [reflexivity | split; [reflexivity | discriminate]].
  - cbn [fst snd]. split; [reflexivity | split; [reflexivity |]].
    intros _. unfold veq, vneg. cbn [vx vy vz]. repeat split; ring.
Qed.

(** X2: whenever the bond is not broken, the energy is not negative for
    non-negative [k0] and [k1]; at the rest length ([dist = r0]) the energy
    vanishes, and so do all three force components when the rest length is
    positive.  (At [dist = 0] the force is a quotient by zero, of which
    nothing is said.) *)
Theorem quartic_rest_length (ia : Quartic_bond_parameters)
    (dx force : Vector3d) (e : Q) :
  fst (quartic_pair_energy sqrt ia dx e) = 0%Z ->
  (0 <= k0 ia -> 0 <= k1 ia -> 0 <= snd (quartic_pair_energy sqrt ia dx e)) /\
  (norm sqrt dx == r ia ->
   snd (quartic_pair_energy sqrt ia dx e) == 0 /\
   fst (calc_quartic_pair_force sqrt ia dx force) = 0%Z /\
   (0 < r ia ->
    veq (snd (calc_quartic_pair_force sqrt ia dx force)) (mkV 0 0 0))).
Proof.
  unfold calc_quartic_pair_force, quartic_pair_energy.
  destruct (Qgtb (r_cut ia) 0 && Qgtb (norm sqrt dx) (r_cut ia));
    cbn [fst snd]; [discriminate|]. intros _. split.
  - intros H0 H1. unfold sqr.
    set (dr := norm sqrt dx - r ia).
    assert (H2 : 0 <= dr * dr) by nra.
    assert (H4 : 0 <= dr * dr * (dr * dr)) by nra.
    assert (Ha : 0 <= k0 ia * (dr * dr)) by (apply Qmult_le_0_compat; assumption).
    assert (Hb : 0 <= k1 ia * (dr * dr * (dr * dr)))
      by (apply Qmult_le_0_compat; assumption).
    lra.
  - intro Hr.
    assert (Hd : norm sqrt dx - r ia == 0) by (rewrite Hr; ring).
    split; [|split; [reflexivity|]].
    + unfold sqr. rewrite Hd. ring.
    + intro Hpos.
      assert (Hdist : ~ norm sqrt dx == 0) by (rewrite Hr; lra).
      assert (Hfac : (k0 ia * (norm sqrt dx - r ia)
                      + k1 ia * (norm sqrt dx - r ia) * (norm sqrt dx - r ia)
                        * (norm sqrt dx - r ia)) / norm sqrt dx == 0).
      { rewrite Hd. field. exact Hdist. }
      unfold veq. cbn [vx vy vz]. rewrite Hfac. repeat split; ring.
Qed.

End QuarticSymmetry.

(** The pair [(3, 4, 0)] at its rest length 5. *)
Lemma quartic_rest_length_witness :
  snd (quartic_pair_energy sqrt_exact (mkQuartic 1 2 5 0) (mkV 3 4 0) 7) == 0 /\
  veq (snd (calc_quartic_pair_force sqrt_exact (mkQuartic 1 2 5 0) (mkV 3 4 0)
              (mkV 7 7 7)))
      (mkV 0 0 0).
Proof.
  destruct (quartic_rest_length sqrt_exact (mkQuartic 1 2 5 0) (mkV 3 4 0)
              (mkV 7 7 7) 7) as [_ H].
  - vm_compute. reflexivity.
  - destruct H as (He & _ & Hf).
    + vm_compute. reflexivity.
    + split; [exact He | apply Hf; vm_compute; reflexivity].
Defined.

End Quartic.

(** ** Particles (particle_data.hpp, as far as the modelled code reads it) *)

(** Rotational degrees of freedom: orientation quaternion and angular
    velocity.  They are only ever updated by routines of rotation.cpp. *)
Record RotState : Type := mkRot {
  quat : Q * Q * Q * Q;
  omega : Vector3d
}.

Record Particle : Type := mkParticle {
  identity : Z;
  mass : Q;
  ext_flag : Z;              (* p.p.ext_flag, a bit mask *)
  is_virtual : bool;         (* p.p.is_virtual *)
  bond_site : Vector3d;      (* p.p.bond_site *)
  pos : Vector3d;            (* p.r.p *)
  vel : Vector3d;            (* p.m.v *)
  frc : Vector3d;            (* p.f.f *)
  torque : Vector3d;         (* p.f.torque *)
  img : Z * Z * Z;           (* p.l.i *)
  p_old : Vector3d;          (* p.l.p_old *)
  rot : RotState
}.

Definition set_pos (p : Particle) (a : Vector3d) : Particle :=
  mkParticle (identity p) (mass p) (ext_flag p) (is_virtual p) (bond_site p)
             a (vel p) (frc p) (torque p) (img p) (p_old p) (rot p).

Definition set_vel (p : Particle) (a : Vector3d) : Particle :=
  mkParticle (identity p) (mass p) (ext_flag p) (is_virtual p) (bond_site p)
             (pos p) a (frc p) (torque p) (img p) (p_old p) (rot p).

Definition set_p_old (p : Particle) (a : Vector3d) : Particle :=
  mkParticle (identity p) (mass p) (ext_flag p) (is_virtual p) (bond_site p)
             (pos p) (vel p) (frc p) (torque p) (img p) a (rot p).

Definition set_bond_site (p : Particle) (a : Vector3d) : Particle :=
  mkParticle (identity p) (mass p) (ext_flag p) (is_virtual p) a
             (pos p) (vel p) (frc p) (torque p) (img p) (p_old p) (rot p).

Definition set_rot (p : Particle) (a : RotState) : Particle :=
  mkParticle (identity p) (mass p) (ext_flag p) (is_virtual p) (bond_site p)
             (pos p) (vel p) (frc p) (torque p) (img p) (p_old p) a.

(** [p.p.ext_flag & COORD_FIXED(j)], for a given table of the three masks. *)
Definition coord_fixed (COORD_FIXED : nat -> Z) (p : Particle) (j : nat) : bool :=
  negb (Z.land (ext_flag p) (COORD_FIXED j) =? 0)%Z.

(** Concrete inputs on which the model is run: the masks [COORD_FIXED(coord)]
    as particle_data.hpp defines them, [2L << coord]; *)
Definition COORD_FIXED_mask (j : nat) : Z := Z.shiftl 2 (Z.of_nat j).

(** a free particle at the origin with force [(10, 1/2, 0)], and a copy whose
    x coordinate is fixed. *)
Definition free_particle : Particle :=
  mkParticle 0 1 0 false (mkV (-1) (-1) (-1)) (mkV 0 0 0) (mkV 0 0 0)
             (mkV 10 (1#2) 0) (mkV 0 0 0) (0, 0, 0)%Z (mkV 0 0 0)
             (mkRot (1, 0, 0, 0) (mkV 0 0 0)).

Definition x_fixed_particle : Particle :=
  mkParticle 1 1 2 false (mkV (-1) (-1) (-1)) (mkV 0 0 0) (mkV 0 0 0)
             (mkV 10 (1#2) 0) (mkV 0 0 0) (0, 0, 0)%Z (mkV 0 0 0)
             (mkRot (1, 0, 0, 0) (mkV 0 0 0)).

(** The three Cartesian axes, in the order the loops visit them. *)
Definition axes : list nat := [0%nat; 1%nat; 2%nat].

(** Diagnostics pushed on the runtime-error queue by the modelled code. *)
Inductive RuntimeError : Type :=
| Err_time_step_not_set
| Err_piston_not_set
| Err_volume_negative (piston dt p_diff : Q).

(** [Cells::RESORT_LOCAL] requested through [set_resort_particles]. *)
Definition RESORT_NONE : Z := 0.
Definition RESORT_LOCAL : Z := 1.

(** Modelled from the spec: [set_resort_particles] (cells.cpp) is not part of
    the sources at hand; it marks the neighbour list invalid by raising the
    resort level kept by the cell system (the local resort flag). *)
Definition set_resort_particles (level flag : Z) : Z := Z.lor flag level.

(** The particles of the local cells together with the resort level the cell
    system keeps for them. *)
Record Cells : Type := mkCells {
  particles : list Particle;
  resort_particles : Z
}.

(** [std::max]. *)
Definition dmax (a b : Q) : Q := if Qltb a b then b else a.

(** ** Steepest descent energy minimizer (minimize_energy.cpp) *)

Module MinimizeEnergy.

Record MinimizeEnergyParameters : Type := mkParams {
  f_max : Q;
  gamma : Q;
  max_steps : Z;
  max_displacement : Q
}.

(** [boost::algorithm::clamp (val, lo, hi)]: [lo] when [val < lo], else [hi]
    when [hi < val], else [val]. *)
Definition clamp (val lo hi : Q) : Q :=
  if Qltb val lo then lo else if Qltb hi val then hi else val.

Section Minimize.

Variable sqrt : Q -> Q.
Variable COORD_FIXED : nat -> Z.
(** [local_rotate_particle (p, axis, angle)] of rotation.cpp: the new
    orientation of [p]. *)
Variable local_rotate_particle : Particle -> Vector3d -> Q -> RotState.
(** [mpi::all_reduce (comm_cart, x, mpi::maximum<double>())]. *)
Variable all_reduce_max : Q -> Q.
(** [std::numeric_limits<double>::max ()]. *)
Variable DBL_MAX : Q.

Variable params : MinimizeEnergyParameters.

(** The body of the loop over the Cartesian coordinates, for coordinate [j];
    [f] accumulates the squared force on the particle. *)
Definition sd_axis (pf : Particle * Q) (j : nat) : Particle * Q :=
  let (p, f) := pf in
  if negb (coord_fixed COORD_FIXED p j) then
    if negb (is_virtual p) then
      let f' := f + sqr (vget (frc p) j) in
      let dp := clamp (gamma params * vget (frc p) j)
                      (- max_displacement params) (max_displacement params) in
      (set_pos p (vset (pos p) j (vget (pos p) j + dp)), f')
    else (p, f)
  else (p, f).

(** The rotational increment of one particle ([#ifdef ROTATION]); returns the
    particle and the squared torque [t]. *)
Definition sd_rotate (p : Particle) : Particle * Q :=
  let dq := vscale (gamma params) (torque p) in
  let t := norm2 (torque p) in
  let l := sqrt (norm2 dq) in
  if Qgtb l 0 then
    let axis := mkV (vx dq / l) (vy dq / l) (vz dq / l) in
    let angle := clamp l (- max_displacement params) (max_displacement params) in
    (set_rot p (local_rotate_particle p axis angle), t)
  else (p, t).

(** The body of the loop over the particles; [fmax] is the running maximum. *)
Definition sd_particle (fmax : Q) (p : Particle) : Particle * Q :=
  let (p1, f) := fold_left sd_axis axes (p, 0) in
  let (p2, t) := sd_rotate p1 in
  let fmax1 := dmax fmax t in
  (p2, dmax fmax1 f).

Fixpoint sd_particles (ps : list Particle) (fmax : Q) : list Particle * Q :=
  match ps with
  | [] => ([], fmax)
  | p :: tl =>
      let (p', fm) := sd_particle fmax p in
      let (tl', fm') := sd_particles tl fm in
      (p' :: tl', fm')
  end.

(** [steepest_descent_step]: the cells after the step and the return value
    (whether the minimization has converged). *)
Definition steepest_descent_step (c : Cells) : Cells * bool :=
  let (ps, fmax) := sd_particles (particles c) (- DBL_MAX) in
  let c' := mkCells ps (set_resort_particles RESORT_LOCAL (resort_particles c)) in
  let f_max_global := all_reduce_max fmax in
  (c', Qltb (sqrt f_max_global) (f_max params)).

(** What the step does to coordinate [j] of the position of [p]. *)
Definition sd_moves (p : Particle) (j : nat) : bool :=
  negb (coord_fixed COORD_FIXED p j) && negb (is_virtual p).

(** The positional increment the step applies to a free coordinate. *)
Definition sd_increment (p : Particle) (j : nat) : Q :=
  clamp (gamma params * vget (frc p) j)
        (- max_displacement params) (max_displacement params).

Lemma clamp_symmetric_abs (v m : Q) : Qabs (clamp v (- m) m) <= Qabs m.
Proof.
  unfold clamp.
  destruct (Qltb v (- m)) eqn:E1.
  - rewrite Qabs_opp. apply Qle_refl.
  - destruct (Qltb m v) eqn:E2.
    + apply Qle_refl.
    + apply Qltb_ge in E1. apply Qltb_ge in E2.
      assert (Hm : 0 <= m) by lra.
      rewrite (Qabs_pos m Hm).
      apply Qabs_Qle_condition. split; assumption.
Qed.

Lemma sd_axes_pos (p : Particle) (j : nat) :
  (j < 3)%nat ->
  vget (pos (fst (fold_left sd_axis axes (p, 0)))) j =
  if sd_moves p j then vget (pos p) j + sd_increment p j else vget (pos p) j.
Proof.
  intro Hj. unfold axes, sd_moves, sd_increment. cbn [fold_left].
  unfold sd_axis, coord_fixed. destruct p as [id m ef iv bs ps vl fr tq im po ro].
  cbn [ext_flag is_virtual pos frc set_pos].
  destruct j as [|[|[|j]]]; try lia;
  destruct iv;
    destruct (Z.land ef (COORD_FIXED 0) =? 0)%Z;
    cbn [negb andb ext_flag is_virtual pos frc set_pos fst];
    destruct (Z.land ef (COORD_FIXED 1) =? 0)%Z;
    cbn [negb andb ext_flag is_virtual pos frc set_pos fst];
    destruct (Z.land ef (COORD_FIXED 2) =? 0)%Z;
    cbn [negb andb ext_flag is_virtual pos frc set_pos fst];
    reflexivity.
Qed.

Lemma sd_rotate_pos (p : Particle) : pos (fst (sd_rotate p)) = pos p.
Proof.
  unfold sd_rotate. destruct (Qgtb _ 0); reflexivity.
Qed.

Lemma sd_particle_pos (fmax : Q) (p : Particle) (j : nat) :
  (j < 3)%nat ->
  vget (pos (fst (sd_particle fmax p))) j =
  if sd_moves p j then vget (pos p) j + sd_increment p j else vget (pos p) j.
Proof.
  intro Hj. unfold sd_particle.
  pose proof (sd_axes_pos p j Hj) as H.
  destruct (fold_left sd_axis axes (p, 0)) as [p1 f].
  pose proof (sd_rotate_pos p1) as Hr.
  destruct (sd_rotate p1) as [p2 t].
  cbn [fst] in *. rewrite Hr. exact H.
Qed.

(** How one step relates the position of a particle before ([p]) and after
    ([p']) along coordinate [j]. *)
Definition sd_axis_spec (p p' : Particle) (j : nat) : Prop :=
  (sd_moves p j = true ->
     vget (pos p') j = vget (pos p) j + sd_increment p j /\
     Qabs (vget (pos p') j - vget (pos p) j) <= Qabs (max_displacement params) /\
     (0 <= max_displacement params ->
      Qabs (vget (pos p') j - vget (pos p) j) <= max_displacement params))
  /\ (sd_moves p j = false -> vget (pos p') j = vget (pos p) j).

Lemma sd_particle_spec (fmax : Q) (p : Particle) (j : nat) :
  (j < 3)%nat -> sd_axis_spec p (fst (sd_particle fmax p)) j.
Proof.
  intro Hj. unfold sd_axis_spec.
  rewrite (sd_particle_pos fmax p j Hj).
  split; intro Hm; rewrite Hm; [|reflexivity].
  assert (Hb : Qabs (vget (pos p) j + sd_increment p j - vget (pos p) j)
               <= Qabs (max_displacement params)).
  { assert (He : vget (pos p) j + sd_increment p j - vget (pos p) j
                 == sd_increment p j) by ring.
    rewrite He. apply clamp_symmetric_abs. }
  split; [reflexivity | split; [exact Hb |]].
  intro Hpos. rewrite (Qabs_pos _ Hpos) in Hb. exact Hb.
Qed.

Lemma sd_particles_spec (ps : list Particle) (fmax : Q) :
  Forall2 (fun p p' => forall j, (j < 3)%nat -> sd_axis_spec p p' j)
          ps (fst (sd_particles ps fmax)).
Proof.
  revert fmax. induction ps as [|p tl IH]; intro fmax; cbn [sd_particles].
  - constructor.
  - pose proof (sd_particle_spec fmax p) as Hp.
    destruct (sd_particle fmax p) as [p' fm].
    specialize (IH fm).
    destruct (sd_particles tl fm) as [tl' fm'].
    cbn [fst] in *. constructor; assumption.
Qed.

(** C5: in one [steepest_descent_step], every coordinate [j] of every
    particle that is neither fixed nor on a virtual site moves by exactly
    [clamp (gamma * F_j, -max_displacement, +max_displacement)], hence by no
    more than [max_displacement] in magnitude; fixed coordinates and virtual
    sites keep their position. *)
Theorem steepest_descent_step_clamped (c : Cells) :
  Forall2 (fun p p' => forall j, (j < 3)%nat -> sd_axis_spec p p' j)
          (particles c) (particles (fst (steepest_descent_step c))).
Proof.
  unfold steepest_descent_step.
  pose proof (sd_particles_spec (particles c) (- DBL_MAX)) as H.
  destruct (sd_particles (particles c) (- DBL_MAX)) as [ps fm].
  exact H.
Qed.

End Minimize.

(** One step with [gamma = 1] and [max_displacement = 1] on these two
    particles: the free one moves by [(1, 1/2, 0)] (the x increment 10 is
    cropped), the other one keeps its x coordinate. *)
Lemma steepest_descent_step_clamped_witness :
  let step := steepest_descent_step sqrt_exact COORD_FIXED_mask
                (fun p _ _ => rot p) (fun x => x) 1000 (mkParams (1#10) 1 10 1) in
  let c := mkCells [free_particle; x_fixed_particle] 0 in
  Forall2 (fun p p' => forall j, (j < 3)%nat ->
             sd_axis_spec COORD_FIXED_mask (mkParams (1#10) 1 10 1) p p' j)
          (particles c) (particles (fst (step c)))
  /\ map pos (particles (fst (step c))) = [mkV (0 + 1) (0 + (1 * (1#2))) (0 + 1 * 0);
                                           mkV 0 (0 + (1 * (1#2))) (0 + 1 * 0)].
Proof.
  cbv zeta. split.
  - apply (steepest_descent_step_clamped sqrt_exact COORD_FIXED_mask
             (fun p _ _ => rot p) (fun x => x) 1000 (mkParams (1#10) 1 10 1)).
  - vm_compute. reflexivity.
Defined.

(** *** What a steepest descent step keeps, and what its maximum bounds *)

Section MinimizeFrame.

Variable sqrt : Q -> Q.
Variable COORD_FIXED : nat -> Z.
Variable local_rotate_particle : Particle -> Vector3d -> Q -> RotState.
Variable all_reduce_max : Q -> Q.
Variable DBL_MAX : Q.
Variable params : MinimizeEnergyParameters.

(** Everything of a particle but its position and orientation. *)
Definition same_but_pos_rot (p p' : Particle) : Prop :=
  identity p' = identity p /\ mass p' = mass p /\ ext_flag p' = ext_flag p /\
  is_virtual p' = is_virtual p /\ bond_site p' = bond_site p /\
  vel p' = vel p /\ frc p' = frc p /\ torque p' = torque p /\
  img p' = img p /\ p_old p' = p_old p.

Lemma same_but_pos_rot_refl (p : Particle) : same_but_pos_rot p p.
Proof. unfold same_but_pos_rot. repeat split. Qed.

Lemma same_but_pos_rot_trans (p q r : Particle) :
  same_but_pos_rot p q -> same_but_pos_rot q r -> same_but_pos_rot p r.
Proof.
  unfold same_but_pos_rot.
  intros (a1 & a2 & a3 & a4 & a5 & a6 & a7 & a8 & a9 & a10)
         (b1 & b2 & b3 & b4 & b5 & b6 & b7 & b8 & b9 & b10).
  repeat split; congruence.
Qed.

Lemma sd_axis_frame (p : Particle) (f : Q) (j : nat) :
  same_but_pos_rot p (fst (sd_axis COORD_FIXED params (p, f) j)).
Proof.
  unfold sd_axis.
  destruct (negb (coord_fixed COORD_FIXED p j));
    [destruct (negb (is_virtual p))|]; cbn [fst];
    unfold same_but_pos_rot; repeat split.
Qed.

Lemma sd_axes_frame (l : list nat) :
  forall (p : Particle) (f : Q),
  same_but_pos_rot p (fst (fold_left (sd_axis COORD_FIXED params) l (p, f))).
Proof.
  induction l as [|j l IH]; intros p f; cbn [fold_left].
  - apply same_but_pos_rot_refl.
  - pose proof (sd_axis_frame p f j) as H.
    destruct (sd_axis COORD_FIXED params (p, f) j) as [p1 f1]. cbn [fst] in H.
    apply (same_but_pos_rot_trans _ _ _ H). apply IH.
Qed.

Lemma sd_rotate_frame (p : Particle) :
  same_but_pos_rot p (fst (sd_rotate sqrt local_rotate_particle params p)).
Proof.
  unfold sd_rotate. destruct (Qgtb _ 0); cbn [fst];
    unfold same_but_pos_rot; repeat split.
Qed.

Lemma sd_particle_frame (fmax : Q) (p : Particle) :
  same_but_pos_rot p
    (fst (sd_particle sqrt COORD_FIXED local_rotate_particle params fmax p)).
Proof.
  unfold sd_particle.
  pose proof (sd_axes_frame axes p 0) as H.
  destruct (fold_left (sd_axis COORD_FIXED params) axes (p, 0)) as [p1 f].
  pose proof (sd_rotate_frame p1) as Hr.
  destruct (sd_rotate sqrt local_rotate_particle params p1) as [p2 t].
  cbn [fst] in *. apply (same_but_pos_rot_trans _ _ _ H Hr).
Qed.

(** X3: a steepest descent step keeps the particles in place in the list
    and touches nothing of a particle but its position and orientation
    (velocity, force, torque, mass, flags, bond site, image counts and
    [p_old] are as before), and it always requests a local resort. *)
Theorem steepest_descent_step_frame (c : Cells) :
  let c' := fst (steepest_descent_step sqrt COORD_FIXED local_rotate_particle
                   all_reduce_max DBL_MAX params c) in
  Forall2 same_but_pos_rot (particles c) (particles c') /\
  length (particles c') = length (particles c) /\
  Z.testbit (resort_particles c') 0 = true.
Proof.
  cbv zeta. unfold steepest_descent_step.
  assert (H : forall ps fm,
            Forall2 same_but_pos_rot ps
              (fst (sd_particles sqrt COORD_FIXED local_rotate_particle params
                      ps fm))).
  { induction ps as [|p tl IH]; intro fm; cbn [sd_particles].
    - constructor.
    - pose proof (sd_particle_frame fm p) as Hp.
      destruct (sd_particle _ _ _ _ fm p) as [p' fm1].
      specialize (IH fm1).
      destruct (sd_particles _ _ _ _ tl fm1) as [tl' fm2].
      cbn [fst] in *. constructor; assumption. }
  specialize (H (particles c) (- DBL_MAX)).
  destruct (sd_particles _ _ _ _ (particles c) (- DBL_MAX)) as [ps fm].
  cbn [fst particles resort_particles] in *.
  split; [exact H | split].
  - symmetry. apply (Forall2_length H).
  - unfold set_resort_particles, RESORT_LOCAL.
    rewrite Z.lor_spec. apply orb_true_r.
Qed.

(** The squared force on the free coordinates of a particle, as the step
    accumulates it in [f]. *)
Definition free_force2 (p : Particle) : Q :=
  (if sd_moves COORD_FIXED p 0 then sqr (vget (frc p) 0) else 0)
  + (if sd_moves COORD_FIXED p 1 then sqr (vget (frc p) 1) else 0)
  + (if sd_moves COORD_FIXED p 2 then sqr (vget (frc p) 2) else 0).

Lemma sd_axes_force2 (p : Particle) :
  snd (fold_left (sd_axis COORD_FIXED params) axes (p, 0)) == free_force2 p.
Proof.
  unfold axes, free_force2, sd_moves. cbn [fold_left].
  unfold sd_axis, coord_fixed.
  destruct p as [id m ef iv bs ps vl fr tq im po ro].
  cbn [ext_flag is_virtual pos frc set_pos].
  destruct iv;
    destruct (Z.land ef (COORD_FIXED 0) =? 0)%Z;
    cbn [negb andb ext_flag is_virtual pos frc set_pos fst snd];
    destruct (Z.land ef (COORD_FIXED 1) =? 0)%Z;
    cbn [negb andb ext_flag is_virtual pos frc set_pos fst snd];
    destruct (Z.land ef (COORD_FIXED 2) =? 0)%Z;
    cbn [negb andb ext_flag is_virtual pos frc set_pos fst snd];
    ring.
Qed.

Lemma dmax_ge_l (x y : Q) : x <= dmax x y.
Proof.
  unfold dmax. destruct (Qltb x y) eqn:E; [|apply Qle_refl].
  apply Qltb_lt in E. apply Qlt_le_weak. exact E.
Qed.

Lemma dmax_ge_r (x y : Q) : y <= dmax x y.
Proof.
  unfold dmax. destruct (Qltb x y) eqn:E; [apply Qle_refl|].
  apply Qltb_ge in E. exact E.
Qed.

Lemma sd_particle_fmax (fmax : Q) (p : Particle) :
  let fm := snd (sd_particle sqrt COORD_FIXED local_rotate_particle params fmax p) in
  fmax <= fm /\ free_force2 p <= fm /\ norm2 (torque p) <= fm.
Proof.
  cbv zeta. unfold sd_particle.
  pose proof (sd_axes_force2 p) as Hf.
  pose proof (sd_axes_frame axes p 0) as Hfr.
  destruct (fold_left (sd_axis COORD_FIXED params) axes (p, 0)) as [p1 f].
  cbn [fst snd] in *.
  assert (Ht : torque p1 = torque p) by apply Hfr.
  assert (Hrt : snd (sd_rotate sqrt local_rotate_particle params p1)
                = norm2 (torque p1)).
  { unfold sd_rotate. destruct (Qgtb _ 0); reflexivity. }
  destruct (sd_rotate sqrt local_rotate_particle params p1) as [p2 t].
  cbn [fst snd] in *. subst t. rewrite Ht.
  split; [|split].
  - apply (Qle_trans _ (dmax fmax (norm2 (torque p)))); apply dmax_ge_l.
  - rewrite <- Hf. apply dmax_ge_r.
  - apply (Qle_trans _ (dmax fmax (norm2 (torque p))));
      [apply dmax_ge_r | apply dmax_ge_l].
Qed.

(** X4: the maximum a steepest descent step tracks is at least its initial
    value and bounds, for every particle, the squared force on its free
    coordinates and its squared torque. *)
Theorem steepest_descent_max_dominates (ps : list Particle) (fmax : Q) :
  let fm := snd (sd_particles sqrt COORD_FIXED local_rotate_particle params
                   ps fmax) in
  fmax <= fm /\
  Forall (fun p => free_force2 p <= fm /\ norm2 (torque p) <= fm) ps.
Proof.
  revert fmax. induction ps as [|p tl IH]; intro fmax; cbn [sd_particles].
  - cbn [snd]. split; [apply Qle_refl | constructor].
  - pose proof (sd_particle_fmax fmax p) as Hp. cbv zeta in Hp.
    destruct (sd_particle _ _ _ _ fmax p) as [p' fm1]. cbn [snd] in Hp.
    specialize (IH fm1). cbv zeta in IH.
    destruct (sd_particles _ _ _ _ tl fm1) as [tl' fm2]. cbn [snd] in *.
    destruct Hp as (H1 & H2 & H3). destruct IH as (H4 & H5).
    split; [apply (Qle_trans _ fm1); assumption|].
    constructor; [split; apply (Qle_trans _ fm1); assumption | exact H5].
Qed.

End MinimizeFrame.

End MinimizeEnergy.

(** ** Molecular dynamics integrator (integrate.cpp) *)

Module Integrate.

Inductive IntegMethod : Type :=
| INTEG_METHOD_NPT_ISO
| INTEG_METHOD_NVT
| INTEG_METHOD_STEEPEST_DESCENT.

Definition is_npt (m : IntegMethod) : bool :=
  match m with INTEG_METHOD_NPT_ISO => true | _ => false end.

Definition is_steepest_descent (m : IntegMethod) : bool :=
  match m with INTEG_METHOD_STEEPEST_DESCENT => true | _ => false end.

(** The variables integrate.cpp defines and is the only writer of during
    [integrate_vv]. *)
Record Globals : Type := mkGlobals {
  integ_switch : IntegMethod;
  time_step : Q;
  sim_time : Q;
  skin : Q;
  skin2 : Q;
  verlet_reuse : Q;
  set_py_interrupt : bool
}.

Definition set_sim_time (g : Globals) (t : Q) : Globals :=
  mkGlobals (integ_switch g) (time_step g) t (skin g) (skin2 g)
            (verlet_reuse g) (set_py_interrupt g).

Definition set_skin2 (g : Globals) (x : Q) : Globals :=
  mkGlobals (integ_switch g) (time_step g) (sim_time g) (skin g) x
            (verlet_reuse g) (set_py_interrupt g).

Definition set_verlet_reuse (g : Globals) (x : Q) : Globals :=
  mkGlobals (integ_switch g) (time_step g) (sim_time g) (skin g) (skin2 g)
            x (set_py_interrupt g).

Definition set_set_py_interrupt (g : Globals) (b : bool) : Globals :=
  mkGlobals (integ_switch g) (time_step g) (sim_time g) (skin g) (skin2 g)
            (verlet_reuse g) b.

(** [nptiso_struct] (npt.hpp). *)
Record nptiso_struct : Type := mkNpt {
  piston : Q;
  inv_piston : Q;
  volume : Q;
  p_ext : Q;
  p_inst : Q;
  p_inst_av : Q;
  p_diff : Q;
  p_vir : Vector3d;
  p_vel : Vector3d;
  geometry : Z;
  nptgeom_dir : nat -> Z;
  dimension : Z;
  cubic_box : Z;
  non_const_dim : Z;
  invalidate_p_vel : Z
}.

Definition set_inv_piston (n : nptiso_struct) (x : Q) : nptiso_struct :=
  mkNpt (piston n) x (volume n) (p_ext n) (p_inst n) (p_inst_av n) (p_diff n)
        (p_vir n) (p_vel n) (geometry n) (nptgeom_dir n) (dimension n)
        (cubic_box n) (non_const_dim n) (invalidate_p_vel n).

Definition set_volume (n : nptiso_struct) (x : Q) : nptiso_struct :=
  mkNpt (piston n) (inv_piston n) x (p_ext n) (p_inst n) (p_inst_av n) (p_diff n)
        (p_vir n) (p_vel n) (geometry n) (nptgeom_dir n) (dimension n)
        (cubic_box n) (non_const_dim n) (invalidate_p_vel n).

Definition set_p_inst (n : nptiso_struct) (x : Q) : nptiso_struct :=
  mkNpt (piston n) (inv_piston n) (volume n) (p_ext n) x (p_inst_av n) (p_diff n)
        (p_vir n) (p_vel n) (geometry n) (nptgeom_dir n) (dimension n)
        (cubic_box n) (non_const_dim n) (invalidate_p_vel n).

Definition set_p_inst_av (n : nptiso_struct) (x : Q) : nptiso_struct :=
  mkNpt (piston n) (inv_piston n) (volume n) (p_ext n) (p_inst n) x (p_diff n)
        (p_vir n) (p_vel n) (geometry n) (nptgeom_dir n) (dimension n)
        (cubic_box n) (non_const_dim n) (invalidate_p_vel n).

Definition set_p_diff (n : nptiso_struct) (x : Q) : nptiso_struct :=
  mkNpt (piston n) (inv_piston n) (volume n) (p_ext n) (p_inst n) (p_inst_av n) x
        (p_vir n) (p_vel n) (geometry n) (nptgeom_dir n) (dimension n)
        (cubic_box n) (non_const_dim n) (invalidate_p_vel n).

Definition set_p_vir (n : nptiso_struct) (x : Vector3d) : nptiso_struct :=
  mkNpt (piston n) (inv_piston n) (volume n) (p_ext n) (p_inst n) (p_inst_av n)
        (p_diff n) x (p_vel n) (geometry n) (nptgeom_dir n) (dimension n)
        (cubic_box n) (non_const_dim n) (invalidate_p_vel n).

Definition set_p_vel (n : nptiso_struct) (x : Vector3d) : nptiso_struct :=
  mkNpt (piston n) (inv_piston n) (volume n) (p_ext n) (p_inst n) (p_inst_av n)
        (p_diff n) (p_vir n) x (geometry n) (nptgeom_dir n) (dimension n)
        (cubic_box n) (non_const_dim n) (invalidate_p_vel n).

Definition set_invalidate_p_vel (n : nptiso_struct) (x : Z) : nptiso_struct :=
  mkNpt (piston n) (inv_piston n) (volume n) (p_ext n) (p_inst n) (p_inst_av n)
        (p_diff n) (p_vir n) (p_vel n) (geometry n) (nptgeom_dir n) (dimension n)
        (cubic_box n) (non_const_dim n) x.

(** [nptiso.geometry & nptiso.nptgeom_dir[j]]. *)
Definition npt_dir (n : nptiso_struct) (j : nat) : bool :=
  negb (Z.land (geometry n) (nptgeom_dir n j) =? 0)%Z.

(** [box_geo.length()[nptiso.non_const_dim]]. *)
Definition box_non_const (box : Vector3d) (n : nptiso_struct) : Q :=
  vget box (Z.to_nat (non_const_dim n)).

Section Integrator.

(** State owned by other translation units (cell structure, thermostat,
    lattice Boltzmann fluid, collision queue, ...), not looked into here. *)
Variable Ext : Type.

(** Everything [integrate_vv] reads or writes besides its own [Globals]. *)
Record System : Type := mkSystem {
  cells : Cells;
  box_l : Vector3d;
  nptiso : nptiso_struct;
  this_node : Z;
  recalc_forces : Z;
  n_verlet_updates : Z;
  runtime_errors : list RuntimeError;
  ext : Ext
}.

Definition set_cells (s : System) (c : Cells) : System :=
  mkSystem c (box_l s) (nptiso s) (this_node s) (recalc_forces s)
           (n_verlet_updates s) (runtime_errors s) (ext s).

Definition set_box_l (s : System) (b : Vector3d) : System :=
  mkSystem (cells s) b (nptiso s) (this_node s) (recalc_forces s)
           (n_verlet_updates s) (runtime_errors s) (ext s).

Definition set_nptiso (s : System) (n : nptiso_struct) : System :=
  mkSystem (cells s) (box_l s) n (this_node s) (recalc_forces s)
           (n_verlet_updates s) (runtime_errors s) (ext s).

Definition set_n_verlet_updates (s : System) (n : Z) : System :=
  mkSystem (cells s) (box_l s) (nptiso s) (this_node s) (recalc_forces s)
           n (runtime_errors s) (ext s).

Definition set_ext (s : System) (e : Ext) : System :=
  mkSystem (cells s) (box_l s) (nptiso s) (this_node s) (recalc_forces s)
           (n_verlet_updates s) (runtime_errors s) e.

(** [runtimeErrorMsg () << ...]. *)
Definition runtimeErrorMsg (s : System) (e : RuntimeError) : System :=
  mkSystem (cells s) (box_l s) (nptiso s) (this_node s) (recalc_forces s)
           (n_verlet_updates s) (runtime_errors s ++ [e]) (ext s).

Definition integrator_sanity_checks (g : Globals) (s : System) : System :=
  if Qltb (time_step g) 0.0 then runtimeErrorMsg s Err_time_step_not_set else s.

Definition integrator_npt_sanity_checks (g : Globals) (s : System) : System :=
  if is_npt (integ_switch g) then
    if Qleb (piston (nptiso s)) 0.0 then runtimeErrorMsg s Err_piston_not_set
    else s
  else s.

(** *** Routines of libm and of other translation units *)

Variable pow : Q -> Q -> Q.
Variable sqrt : Q -> Q.
Variable COORD_FIXED : nat -> Z.
Variable DBL_MAX : Q.
Variable propagate_omega_quat_particle : Particle -> RotState.
Variable local_rotate_particle : Particle -> Vector3d -> Q -> RotState.
Variable friction_therm0_nptiso : Q -> Q.
Variable friction_thermV_nptiso : Q -> Q.
(** [MPI_Reduce (x, MPI_SUM)] seen from the root, [MPI_Bcast] of the scale
    factors and of the box seen from the other ranks, and
    [mpi::all_reduce (x, maximum)]. *)
Variable mpi_reduce_sum : Q -> Q.
Variable mpi_bcast_scal : Vector3d.
Variable mpi_bcast_box : Vector3d.
Variable mpi_bcast_q : Q -> Q.
Variable all_reduce_max : Q -> Q.
(** Collective calls and hooks of the cell system, the force layer, the
    thermostats, the lattice Boltzmann fluid, virtual sites, constraints and
    collision detection. *)
Variable on_integration_start : System -> System.
Variable check_runtime_errors : System -> bool.
Variable thermo_heat_up thermo_cool_down : System -> System.
Variable lb_lbcoupling_deactivate lb_lbcoupling_activate : System -> System.
Variable lb_lbfluid_propagate lb_lbcoupling_propagate : System -> System.
Variable virtual_sites_is_relative : System -> bool.
Variable virtual_sites_need_ghost_comm_before_vel_update : System -> bool.
Variable virtual_sites_update : bool -> System -> System.
Variable virtual_sites_after_force_calc : System -> System.
Variable virtual_sites_after_lb_propagation : System -> System.
Variable ghost_communicator_update_ghost_pos : System -> System.
Variable cells_update_ghosts : System -> System.
Variable force_calc : System -> System.
Variable convert_initial_torques : System -> System.
Variable convert_torques_propagate_omega : System -> System.
Variable n_rigidbonds : System -> Z.
Variable n_part : System -> Z.
Variable save_old_pos correct_pos_shake correct_vel_shake : System -> System.
Variable handle_collisions : System -> System.
Variable thermo_switch : System -> Z.
Variable THERMO_LANGEVIN THERMO_DPD : Z.
Variable langevin_rng_counter_increment dpd_rng_counter_increment : System -> System.
Variable grid_changed_box_l : Vector3d -> Ext -> Ext.
Variable recalc_maximal_cutoff : Ext -> Ext.
Variable cells_on_geometry_change : Ext -> Ext.
(** [ctrl_C == 1] as observed at the end of step [k]: whether the signal
    handler has run since the flag was last reset. *)
Variable sigint_caught : nat -> bool.

(** [integrate_ensemble_init]; [None] stands for the [errexit ()] of the
    internal error "dimension not yet set". *)
Definition integrate_ensemble_init (g : Globals) (s : System) : option System :=
  if is_npt (integ_switch g) then
    let n1 := set_p_inst_av
                (set_inv_piston (nptiso s) (1 / (1.0 * piston (nptiso s)))) 0.0 in
    if (dimension n1 =? 0)%Z then None
    else
      let n2 := set_volume n1
                  (pow (box_non_const (box_l s) n1) (inject_Z (dimension n1))) in
      let n3 := if negb (recalc_forces s =? 0)%Z
                then set_p_vel (set_p_vir (set_p_inst n2 0.0) (mkV 0.0 0.0 0.0))
                               (mkV 0.0 0.0 0.0)
                else n2 in
      Some (set_nptiso s n3)
  else Some s.

(** *** Velocity Verlet propagators *)

(** Step 1 and 2 for coordinate [j] of one particle (NVT). *)
Definition vel_pos_axis (g : Globals) (p : Particle) (j : nat) : Particle :=
  if negb (coord_fixed COORD_FIXED p j) then
    let p1 := set_vel p (vset (vel p) j
                (vget (vel p) j + (1#2) * time_step g * vget (frc p) j / mass p)) in
    set_pos p1 (vset (pos p1) j (vget (pos p1) j + time_step g * vget (vel p1) j))
  else p.

(** The Verlet criterion as [propagate_vel_pos] writes it. *)
Definition verlet_criterion (g : Globals) (p : Particle) : bool :=
  Qgtb (sqr (vx (pos p) - vx (p_old p)) + sqr (vy (pos p) - vy (p_old p)) +
        sqr (vz (pos p) - vz (p_old p)))
       (skin2 g).

(** The body of the particle loop of [propagate_vel_pos]: the particle after
    the move and whether it called [set_resort_particles (RESORT_LOCAL)]. *)
Definition propagate_vel_pos_particle (g : Globals) (p : Particle)
    : Particle * bool :=
  let p0 := set_rot p (propagate_omega_quat_particle p) in
  if is_virtual p0 then (p0, false)
  else
    let p1 := fold_left (vel_pos_axis g) axes p0 in
    (p1, verlet_criterion g p1).

Fixpoint propagate_vel_pos_list (g : Globals) (ps : list Particle) (flag : Z)
    : list Particle * Z :=
  match ps with
  | [] => ([], flag)
  | p :: tl =>
      let (p', r) := propagate_vel_pos_particle g p in
      let flag1 := if r then set_resort_particles RESORT_LOCAL flag else flag in
      let (tl', flag') := propagate_vel_pos_list g tl flag1 in
      (p' :: tl', flag')
  end.

Definition propagate_vel_pos (g : Globals) (s : System) : System :=
  let (ps, flag) := propagate_vel_pos_list g (particles (cells s))
                                           (resort_particles (cells s)) in
  set_cells s (mkCells ps flag).

(** Step 1 for coordinate [j] of one particle; [pv] is [nptiso.p_vel]. *)
Definition vel_axis (g : Globals) (n : nptiso_struct)
    (st : Particle * Vector3d) (j : nat) : Particle * Vector3d :=
  let (p, pv) := st in
  if negb (coord_fixed COORD_FIXED p j) then
    if is_npt (integ_switch g) && npt_dir n j then
      let v' := vget (vel p) j
                + (vget (frc p) j * (1#2) * time_step g / mass p
                   + friction_therm0_nptiso (vget (vel p) j) / mass p) in
      (set_vel p (vset (vel p) j v'),
       vset pv j (vget pv j + sqr (v' * time_step g) * mass p))
    else
      (set_vel p (vset (vel p) j
         (vget (vel p) j + (1#2) * time_step g * vget (frc p) j / mass p)), pv)
  else (p, pv).

Definition propagate_vel_particle (g : Globals) (n : nptiso_struct)
    (p : Particle) (pv : Vector3d) : Particle * Vector3d :=
  let p0 := set_rot p (propagate_omega_quat_particle p) in
  if is_virtual p0 then (p0, pv) else fold_left (vel_axis g n) axes (p0, pv).

Fixpoint propagate_vel_list (g : Globals) (n : nptiso_struct)
    (ps : list Particle) (pv : Vector3d) : list Particle * Vector3d :=
  match ps with
  | [] => ([], pv)
  | p :: tl =>
      let (p', pv1) := propagate_vel_particle g n p pv in
      let (tl', pv') := propagate_vel_list g n tl pv1 in
      (p' :: tl', pv')
  end.

Definition propagate_vel (g : Globals) (s : System) : System :=
  let n0 := set_p_vel (nptiso s) (mkV 0 0 0) in
  let (ps, pv) := propagate_vel_list g n0 (particles (cells s)) (p_vel n0) in
  set_nptiso (set_cells s (mkCells ps (resort_particles (cells s))))
             (set_p_vel n0 pv).

(** One pass of the loop over [i] in [finalize_p_inst_npt]. *)
Definition finalize_axis (g : Globals) (n : nptiso_struct) (i : nat)
    : nptiso_struct :=
  if npt_dir n i then
    let pv := vset (p_vel n) i (vget (p_vel n) i / sqr (time_step g)) in
    let n1 := set_p_vel n pv in
    set_p_inst n1 (p_inst n1 + (vget (p_vir n1) i + vget (p_vel n1) i))
  else n.

Definition finalize_p_inst_npt (g : Globals) (s : System) : System :=
  if is_npt (integ_switch g) then
    let n1 := set_p_inst (nptiso s) 0 in
    let n2 := fold_left (finalize_axis g) axes n1 in
    let p_tmp := mpi_reduce_sum (p_inst n2) in
    if (this_node s =? 0)%Z then
      let n3 := set_p_inst n2 (p_tmp / (inject_Z (dimension n2) * volume n2)) in
      let n4 := set_p_diff n3
                  (p_diff n3 + (p_inst n3 - p_ext n3) * (1#2) * time_step g
                   + friction_thermV_nptiso (p_diff n3)) in
      set_nptiso s n4
    else set_nptiso s n2
  else s.

(** The block of [propagate_press_box_pos_and_rescale_npt] that rank 0 runs
    to advance the piston volume: the system afterwards, the scale factors
    [scal[0..2]] and [L_new]. *)
Definition npt_update_volume (g : Globals) (s : System)
    : System * Vector3d * Q :=
  let half := inv_piston (nptiso s) * p_diff (nptiso s) * (1#2) * time_step g in
  let n1 := set_volume (nptiso s) (volume (nptiso s) + half) in
  let scal2 := sqr (box_non_const (box_l s) n1)
               / pow (volume n1) (2 / inject_Z (dimension n1)) in
  let n2 := set_volume n1 (volume n1 + half) in
  let '(s3, scal2') :=
    if Qltb (volume n2) 0 then
      let s' := runtimeErrorMsg s
                  (Err_volume_negative (piston n2) (time_step g) (p_diff n2)) in
      (set_nptiso s'
         (set_volume n2 (vx (box_l s) * vy (box_l s) * vz (box_l s))), 1)
    else (set_nptiso s n2, scal2) in
  let L_new := pow (volume (nptiso s3)) (1 / inject_Z (dimension (nptiso s3))) in
  let scal1 := L_new / box_non_const (box_l s3) (nptiso s3) in
  let scal0 := 1 / scal1 in
  (s3, mkV scal0 scal1 scal2', L_new).

(** Drift with rescaling for coordinate [j] of one particle. *)
Definition rescale_axis (g : Globals) (n : nptiso_struct) (scal : Vector3d)
    (p : Particle) (j : nat) : Particle :=
  if negb (coord_fixed COORD_FIXED p j) then
    if npt_dir n j then
      let p1 := set_pos p (vset (pos p) j
                  (vget scal 1 * (vget (pos p) j
                                  + vget scal 2 * vget (vel p) j * time_step g))) in
      let p2 := set_p_old p1 (vset (p_old p1) j (vget (p_old p1) j * vget scal 1)) in
      set_vel p2 (vset (vel p2) j (vget (vel p2) j * vget scal 0))
    else
      set_pos p (vset (pos p) j (vget (pos p) j + vget (vel p) j * time_step g))
  else p.

Definition rescale_particle (g : Globals) (n : nptiso_struct) (scal : Vector3d)
    (p : Particle) : Particle :=
  if is_virtual p then p else fold_left (rescale_axis g n scal) axes p.

(** One pass of the loop that builds [new_box]. *)
Definition new_box_axis (n : nptiso_struct) (L_new : Q) (b : Vector3d) (i : nat)
    : Vector3d :=
  if npt_dir n i then vset b i L_new
  else if negb (cubic_box n =? 0)%Z then vset b i L_new
  else b.

Definition propagate_press_box_pos_and_rescale_npt (g : Globals) (s : System)
    : System :=
  if is_npt (integ_switch g) then
    let s1 := finalize_p_inst_npt g s in
    let '(s2, scal, L_new) :=
      if (this_node s1 =? 0)%Z then npt_update_volume g s1
      else (s1, mpi_bcast_scal, 0) in
    let ps := map (rescale_particle g (nptiso s2) scal) (particles (cells s2)) in
    let c := mkCells ps (set_resort_particles RESORT_LOCAL
                           (resort_particles (cells s2))) in
    let s3 := set_cells s2 c in
    let s4 :=
      if (this_node s3 =? 0)%Z then
        set_box_l s3 (fold_left (new_box_axis (nptiso s3) L_new) axes (box_l s3))
      else set_box_l s3 mpi_bcast_box in
    set_ext s4 (cells_on_geometry_change
                  (recalc_maximal_cutoff (grid_changed_box_l (box_l s4) (ext s4))))
  else s.

(** Step 2 for coordinate [j] of one particle (the branch of [propagate_pos]
    that is not NPT). *)
Definition pos_axis (g : Globals) (p : Particle) (j : nat) : Particle :=
  if negb (coord_fixed COORD_FIXED p j) then
    set_pos p (vset (pos p) j (vget (pos p) j + time_step g * vget (vel p) j))
  else p.

Definition propagate_pos_particle (g : Globals) (p : Particle) : Particle * bool :=
  if is_virtual p then (p, false)
  else
    let p1 := fold_left (pos_axis g) axes p in
    (p1, Qgtb (norm2 (vsub (pos p1) (p_old p1))) (skin2 g)).

Fixpoint propagate_pos_list (g : Globals) (ps : list Particle) (flag : Z)
    : list Particle * Z :=
  match ps with
  | [] => ([], flag)
  | p :: tl =>
      let (p', r) := propagate_pos_particle g p in
      let flag1 := if r then set_resort_particles RESORT_LOCAL flag else flag in
      let (tl', flag') := propagate_pos_list g tl flag1 in
      (p' :: tl', flag')
  end.

Definition propagate_pos (g : Globals) (s : System) : System :=
  if is_npt (integ_switch g) then propagate_press_box_pos_and_rescale_npt g s
  else
    let (ps, flag) := propagate_pos_list g (particles (cells s))
                                         (resort_particles (cells s)) in
    set_cells s (mkCells ps flag).

(** Step 4 for coordinate [j] of one particle. *)
Definition vel_finalize_axis (g : Globals) (n : nptiso_struct)
    (st : Particle * Vector3d) (j : nat) : Particle * Vector3d :=
  let (p, pv) := st in
  if negb (coord_fixed COORD_FIXED p j) then
    if is_npt (integ_switch g) && npt_dir n j then
      let pv' := vset pv j (vget pv j + sqr (vget (vel p) j * time_step g) * mass p) in
      (set_vel p (vset (vel p) j
         (vget (vel p) j
          + ((1#2) * time_step g / mass p * vget (frc p) j
             + friction_therm0_nptiso (vget (vel p) j) / mass p))), pv')
    else
      (set_vel p (vset (vel p) j
         (vget (vel p) j + (1#2) * time_step g * vget (frc p) j / mass p)), pv)
  else (p, pv).

Fixpoint vel_finalize_list (g : Globals) (n : nptiso_struct)
    (ps : list Particle) (pv : Vector3d) : list Particle * Vector3d :=
  match ps with
  | [] => ([], pv)
  | p :: tl =>
      let (p', pv1) :=
        if is_virtual p then (p, pv)
        else fold_left (vel_finalize_axis g n) axes (p, pv) in
      let (tl', pv') := vel_finalize_list g n tl pv1 in
      (p' :: tl', pv')
  end.

Definition propagate_vel_finalize_p_inst (g : Globals) (s : System) : System :=
  let n0 := if is_npt (integ_switch g) then set_p_vel (nptiso s) (mkV 0 0 0)
            else nptiso s in
  let (ps, pv) := vel_finalize_list g n0 (particles (cells s)) (p_vel n0) in
  finalize_p_inst_npt g
    (set_nptiso (set_cells s (mkCells ps (resort_particles (cells s))))
                (set_p_vel n0 pv)).

Definition philox_counter_increment (s : System) : System :=
  if negb (Z.land (thermo_switch s) THERMO_LANGEVIN =? 0)%Z then
    langevin_rng_counter_increment s
  else if negb (Z.land (thermo_switch s) THERMO_DPD =? 0)%Z then
    dpd_rng_counter_increment s
  else s.

(** *** The integration loop *)

(** [steepest_descent_step (particles)] on the local cells of the system. *)
Definition steepest_descent_step (sd : MinimizeEnergy.MinimizeEnergyParameters)
    (s : System) : System * bool :=
  let (c, converged) :=
    MinimizeEnergy.steepest_descent_step sqrt COORD_FIXED local_rotate_particle
      all_reduce_max DBL_MAX sd (cells s) in
  (set_cells s c, converged).

(** Steps 1 and 2 of one pass of the loop: the globals and the system after
    them, and whether the pass left the loop ([break]). *)
Definition integration_step_12 (sd : MinimizeEnergy.MinimizeEnergyParameters)
    (g : Globals) (s : System) : Globals * System * bool :=
  match integ_switch g with
  | INTEG_METHOD_NPT_ISO =>
      let s1 := propagate_pos g (propagate_vel g s) in
      (set_sim_time g (sim_time g + time_step g), s1, false)
  | INTEG_METHOD_STEEPEST_DESCENT =>
      let (s1, converged) := steepest_descent_step sd s in
      (g, s1, converged)
  | INTEG_METHOD_NVT =>
      let s1 := propagate_vel_pos g s in
      (set_sim_time g (sim_time g + time_step g), s1, false)
  end.

(** One pass of the integration loop; [step] is the loop counter. *)
Definition integration_step (sd : MinimizeEnergy.MinimizeEnergyParameters)
    (step : nat) (g : Globals) (s : System) : Globals * System * bool :=
  let s0 := if negb (n_rigidbonds s =? 0)%Z then save_old_pos s else s in
  let '(g1, s1, brk) := integration_step_12 sd g s0 in
  if brk then (g1, s1, true)
  else
    let s2 := philox_counter_increment s1 in
    let s3 := if negb (n_rigidbonds s2 =? 0)%Z
              then correct_pos_shake (cells_update_ghosts s2) else s2 in
    let s4 := if (0 <? n_part s3)%Z then lb_lbcoupling_activate s3 else s3 in
    let s5 := if virtual_sites_is_relative s4
              then ghost_communicator_update_ghost_pos s4 else s4 in
    let s6 := virtual_sites_update true s5 in
    let s7 := cells_update_ghosts s6 in
    let s8 := virtual_sites_after_force_calc (force_calc s7) in
    let s9 := if negb (is_steepest_descent (integ_switch g1))
              then convert_torques_propagate_omega
                     (propagate_vel_finalize_p_inst g1 s8)
              else s8 in
    let s10 := if negb (n_rigidbonds s9 =? 0)%Z
               then correct_vel_shake (ghost_communicator_update_ghost_pos s9)
               else s9 in
    let s11 := if negb (is_steepest_descent (integ_switch g1))
               then virtual_sites_after_lb_propagation
                      (lb_lbcoupling_propagate (lb_lbfluid_propagate s10))
               else s10 in
    let s12 := if (this_node s11 =? 0)%Z && is_npt (integ_switch g1)
               then set_nptiso s11
                      (set_p_inst_av (nptiso s11)
                         (p_inst_av (nptiso s11) + p_inst (nptiso s11)))
               else s11 in
    let s13 := if negb (is_steepest_descent (integ_switch g1))
               then handle_collisions s12 else s12 in
    if check_runtime_errors s13 then (g1, s13, true)
    else if sigint_caught step then (set_set_py_interrupt g1 true, s13, true)
    else (g1, s13, false).

(** [for (int step = 0; step < n_steps; step++)], started at counter [step]
    with [fuel] passes left; returns the number of passes entered so far. *)
Fixpoint integration_loop (sd : MinimizeEnergy.MinimizeEnergyParameters)
    (fuel step : nat) (g : Globals) (s : System) : Globals * System * nat :=
  match fuel with
  | O => (g, s, step)
  | S fuel' =>
      let '(g1, s1, brk) := integration_step sd step g s in
      if brk then (g1, s1, S step)
      else integration_loop sd fuel' (S step) g1 s1
  end.

(** The initial force calculation of [integrate_vv]. *)
Definition initial_force_calc (g : Globals) (s : System) : System :=
  let a := lb_lbcoupling_deactivate (thermo_heat_up s) in
  let b := if virtual_sites_is_relative a
           then ghost_communicator_update_ghost_pos a else a in
  let c := force_calc (cells_update_ghosts (virtual_sites_update true b)) in
  let d := if negb (is_steepest_descent (integ_switch g))
           then convert_initial_torques c else c in
  thermo_cool_down d.

(** The Verlet list criterion set up by [integrate_vv] before the loop. *)
Definition verlet_list_criterion (g : Globals) : Globals :=
  set_skin2 g (sqr ((1#2) * skin g)).

(** What [integrate_vv] does after the loop. *)
Definition integrate_finish (n_steps : Z) (g : Globals) (s : System)
    : Globals * System :=
  let s1 := if virtual_sites_need_ghost_comm_before_vel_update s
            then ghost_communicator_update_ghost_pos s else s in
  let s2 := virtual_sites_update false s1 in
  let g1 := set_verlet_reuse g
              (if (0 <? n_verlet_updates s2)%Z
               then inject_Z n_steps / inject_Z (n_verlet_updates s2)
               else 0) in
  if is_npt (integ_switch g1) then
    let root := (this_node s2 =? 0)%Z in
    let bcast := fun x : Q => if root then x else mpi_bcast_q x in
    let n1 := set_invalidate_p_vel (nptiso s2) 0 in
    let n2 := set_p_inst n1 (bcast (p_inst n1)) in
    let n3 := set_p_diff n2 (bcast (p_diff n2)) in
    let n4 := set_volume n3 (bcast (volume n3)) in
    let n5 := if root
              then set_p_inst_av n4 (p_inst_av n4 / (1 * inject_Z n_steps))
              else n4 in
    (g1, set_nptiso s2 (set_p_inst_av n5 (bcast (p_inst_av n5))))
  else (g1, s2).

Definition integrate_vv (sd : MinimizeEnergy.MinimizeEnergyParameters)
    (n_steps reuse_forces : Z) (g : Globals) (s : System) : Globals * System :=
  let s0 := on_integration_start s in
  if check_runtime_errors s0 then (g, s0)
  else
    let g1 := verlet_list_criterion g in
    let s1 := if (reuse_forces =? -1)%Z
                 || (negb (recalc_forces s0 =? 0)%Z && negb (reuse_forces =? 1)%Z)
              then initial_force_calc g1 s0 else s0 in
    if check_runtime_errors s1 then (g1, s1)
    else
      let s2 := set_n_verlet_updates s1 0 in
      let '(g2, s3, _) := integration_loop sd (Z.to_nat n_steps) 0 g1 s2 in
      integrate_finish n_steps g2 s3.

(** *** The simulation clock *)

(** What one pass of the loop adds to [sim_time] in mode [m]. *)
Definition clock_increment (m : IntegMethod) (dt : Q) : Q :=
  match m with
  | INTEG_METHOD_STEEPEST_DESCENT => 0
  | _ => dt
  end.

Lemma integration_step_12_clock (sd : MinimizeEnergy.MinimizeEnergyParameters)
    (g : Globals) (s : System) :
  let g' := fst (fst (integration_step_12 sd g s)) in
  integ_switch g' = integ_switch g /\ time_step g' = time_step g /\
  sim_time g' = match integ_switch g with
                | INTEG_METHOD_STEEPEST_DESCENT => sim_time g
                | _ => sim_time g + time_step g
                end.
Proof.
  unfold integration_step_12.
  destruct (integ_switch g) eqn:E; cbn.
  - repeat split; assumption || reflexivity.
  - repeat split; assumption || reflexivity.
  - destruct (steepest_descent_step sd s) as [s1 conv]. cbn.
    rewrite E. repeat split; reflexivity.
Qed.

Lemma integration_step_clock (sd : MinimizeEnergy.MinimizeEnergyParameters)
    (step : nat) (g : Globals) (s : System) :
  let g' := fst (fst (integration_step sd step g s)) in
  integ_switch g' = integ_switch g /\ time_step g' = time_step g /\
  sim_time g' = match integ_switch g with
                | INTEG_METHOD_STEEPEST_DESCENT => sim_time g
                | _ => sim_time g + time_step g
                end.
Proof.
  unfold integration_step.
  set (s0 := if negb (n_rigidbonds s =? 0)%Z then save_old_pos s else s).
  pose proof (integration_step_12_clock sd g s0) as H.
  destruct (integration_step_12 sd g s0) as [[g1 s1] brk].
  cbn [fst] in H.
  destruct brk; [exact H|].
  destruct (check_runtime_errors _); [exact H|].
  destruct (sigint_caught step); exact H.
Qed.

Lemma integration_loop_clock (sd : MinimizeEnergy.MinimizeEnergyParameters)
    (fuel : nat) :
  forall (step : nat) (g : Globals) (s : System),
  let r := integration_loop sd fuel step g s in
  let g' := fst (fst r) in
  let k := snd r in
  (step <= k <= step + fuel)%nat /\
  integ_switch g' = integ_switch g /\ time_step g' = time_step g /\
  sim_time g' ==
    sim_time g + inject_Z (Z.of_nat (k - step))
                 * clock_increment (integ_switch g) (time_step g).
Proof.
  induction fuel as [|fuel IH]; intros step g s; cbn [integration_loop].
  - cbn [fst snd]. rewrite Nat.sub_diag. cbn [Z.of_nat].
    repeat split; try lia. ring.
  - pose proof (integration_step_clock sd step g s) as H.
    destruct (integration_step sd step g s) as [[g1 s1] brk].
    cbn [fst] in H. destruct H as (Hm & Hdt & Ht).
    destruct brk.
    + cbn [fst snd]. repeat split; try lia; try assumption.
      replace (S step - step)%nat with 1%nat by lia. rewrite Ht.
      destruct (integ_switch g); cbn [clock_increment Z.of_nat]; ring.
    + specialize (IH (S step) g1 s1). cbn zeta in IH.
      destruct (integration_loop sd fuel (S step) g1 s1) as [[g2 s2] k].
      cbn [fst snd] in *. destruct IH as (Hk & Hm2 & Hdt2 & Ht2).
      repeat split; try lia; try congruence.
      rewrite Ht2, Hm, Hdt, Ht.
      replace (k - step)%nat with (S (k - S step)) by lia.
      rewrite Nat2Z.inj_succ. unfold Z.succ. rewrite inject_Z_plus.
      destruct (integ_switch g); cbn [clock_increment]; ring.
Qed.

(** C10: within the integration loop, every pass advances [sim_time] by
    [time_step] in the NVT and NPT modes, and a steepest descent pass leaves
    it unchanged; so after the loop the clock stands at its initial value
    plus [time_step] times the number [k] of passes made (NVT, NPT), or at
    its initial value (steepest descent). *)
Theorem sim_time_advances_only_in_nvt_npt
    (sd : MinimizeEnergy.MinimizeEnergyParameters)
    (n step : nat) (g : Globals) (s : System) :
  (sim_time (fst (fst (integration_step sd step g s))) =
     match integ_switch g with
     | INTEG_METHOD_NPT_ISO => sim_time g + time_step g
     | INTEG_METHOD_NVT => sim_time g + time_step g
     | INTEG_METHOD_STEEPEST_DESCENT => sim_time g
     end)
  /\
  (let r := integration_loop sd n 0 g s in
   (snd r <= n)%nat /\
   match integ_switch g with
   | INTEG_METHOD_NPT_ISO | INTEG_METHOD_NVT =>
       sim_time (fst (fst r)) == sim_time g + inject_Z (Z.of_nat (snd r)) * time_step g
   | INTEG_METHOD_STEEPEST_DESCENT =>
       sim_time (fst (fst r)) == sim_time g
   end).
Proof.
  split.
  - destruct (integration_step_clock sd step g s) as (_ & _ & H).
    rewrite H. destruct (integ_switch g); reflexivity.
  - cbn zeta.
    destruct (integration_loop_clock sd n 0 g s) as (Hk & _ & _ & H).
    rewrite Nat.sub_0_r in H. split; [lia|].
    destruct (integ_switch g); cbn [clock_increment] in H; rewrite H; ring.
Qed.

(** *** The Verlet criterion *)

Lemma verlet_criterion_drift (g : Globals) (p : Particle) :
  verlet_criterion g p = true <-> skin2 g < norm2 (vsub (pos p) (p_old p)).
Proof.
  unfold verlet_criterion. rewrite Qgtb_gt. reflexivity.
Qed.

Lemma half_skin_squared (sk d : Q) :
  0 <= sk -> 0 <= d -> (sqr ((1#2) * sk) < d * d <-> (1#2) * sk < d).
Proof.
  unfold sqr. intros Hs Hd. split; intro H; nra.
Qed.

(** C1 (amended): with the criterion [integrate_vv] installs,
    [skin2 = (skin/2)^2], the move of a particle in [propagate_vel_pos]
    requests a local resort exactly when the particle is not a virtual site
    and the square of its distance from [p_old] exceeds [(skin/2)^2], that
    is when it has drifted more than half the skin; virtual sites never
    request one. *)
Theorem verlet_criterion_half_skin (g : Globals) (p : Particle) :
  let g1 := verlet_list_criterion g in
  let p' := fst (propagate_vel_pos_particle g1 p) in
  let flag := snd (propagate_vel_pos_particle g1 p) in
  let drift2 := norm2 (vsub (pos p') (p_old p')) in
  (is_virtual p = true -> flag = false) /\
  (is_virtual p = false ->
     (flag = true <-> sqr ((1#2) * skin g) < drift2) /\
     (forall d : Q, 0 <= d -> d * d == drift2 -> 0 <= skin g ->
        (flag = true <-> (1#2) * skin g < d))).
Proof.
  cbv zeta. unfold propagate_vel_pos_particle.
  change (is_virtual (set_rot p (propagate_omega_quat_particle p)))
    with (is_virtual p).
  split; intro Hv; rewrite Hv; cbn [fst snd]; [reflexivity|].
  set (p1 := fold_left _ axes _).
  assert (Hflag : verlet_criterion (verlet_list_criterion g) p1 = true <->
                  sqr ((1#2) * skin g) < norm2 (vsub (pos p1) (p_old p1))).
  { rewrite verlet_criterion_drift. reflexivity. }
  split; [exact Hflag|].
  intros d Hd Hdd Hs. rewrite Hflag, <- Hdd.
  apply half_skin_squared; assumption.
Qed.

(** The same criterion in the branch of [propagate_pos] that is not NPT. *)
Lemma propagate_pos_half_skin (g : Globals) (p : Particle) :
  let g1 := verlet_list_criterion g in
  let p' := fst (propagate_pos_particle g1 p) in
  is_virtual p = false ->
  (snd (propagate_pos_particle g1 p) = true
   <-> sqr ((1#2) * skin g) < norm2 (vsub (pos p') (p_old p'))).
Proof.
  cbv zeta. intro Hv. unfold propagate_pos_particle. rewrite Hv.
  cbn [fst snd]. rewrite Qgtb_gt. reflexivity.
Qed.

(** The resort level after [propagate_vel_pos] is raised exactly when one of
    the particles requested it. *)
Lemma propagate_vel_pos_list_flag (g : Globals) (ps : list Particle) :
  forall flag : Z,
  snd (propagate_vel_pos_list g ps flag) =
  if existsb (fun p => snd (propagate_vel_pos_particle g p)) ps
  then set_resort_particles RESORT_LOCAL flag else flag.
Proof.
  induction ps as [|p tl IH]; intro flag; cbn [propagate_vel_pos_list existsb].
  - reflexivity.
  - destruct (propagate_vel_pos_particle g p) as [p' r]. cbn [snd].
    specialize (IH (if r then set_resort_particles RESORT_LOCAL flag else flag)).
    destruct (propagate_vel_pos_list g tl _) as [tl' flag']. cbn [snd] in *.
    rewrite IH. destruct r; cbn [orb]; [|reflexivity].
    destruct (existsb _ tl); [|reflexivity].
    unfold set_resort_particles. rewrite <- Z.lor_assoc, Z.lor_diag. reflexivity.
Qed.

(** *** The NPT volume guard *)

Lemma finalize_p_inst_npt_frame (g : Globals) (s : System) :
  let s1 := finalize_p_inst_npt g s in
  cells s1 = cells s /\ box_l s1 = box_l s /\ this_node s1 = this_node s /\
  runtime_errors s1 = runtime_errors s /\ ext s1 = ext s.
Proof.
  cbv zeta. unfold finalize_p_inst_npt.
  destruct (is_npt (integ_switch g)); [|repeat split].
  destruct (this_node s =? 0)%Z; repeat split.
Qed.

(** The piston volume after the two half steps. *)
Definition volume_after_half_steps (g : Globals) (s : System) : Q :=
  let half := inv_piston (nptiso s) * p_diff (nptiso s) * (1#2) * time_step g in
  volume (nptiso s) + half + half.

(** The actual volume of the box. *)
Definition box_volume (s : System) : Q :=
  vx (box_l s) * vy (box_l s) * vz (box_l s).

Lemma npt_update_volume_negative (g : Globals) (s : System) :
  volume_after_half_steps g s < 0 ->
  let r := npt_update_volume g s in
  let s' := fst (fst r) in
  vget (snd (fst r)) 2 = 1 /\
  volume (nptiso s') = box_volume s /\
  runtime_errors s' =
    runtime_errors s
    ++ [Err_volume_negative (piston (nptiso s)) (time_step g) (p_diff (nptiso s))] /\
  cells s' = cells s /\ box_l s' = box_l s /\ this_node s' = this_node s /\
  ext s' = ext s.
Proof.
  unfold volume_after_half_steps. cbv zeta. intro Hneg.
  apply Qltb_lt in Hneg.
  unfold npt_update_volume. cbn [volume set_volume].
  rewrite Hneg. cbn. repeat split.
Qed.

(** C3: on the rank that advances the piston, whenever the volume after the
    two half steps is negative, [propagate_press_box_pos_and_rescale_npt]
    reports the diagnostic, resets the volume to the product of the three
    current box lengths and forces [scal[2]] to 1: the particles are moved
    with that scale factor, and the volume it leaves behind is the box
    volume, which is not negative when the box lengths are not. *)
Theorem npt_negative_volume_guard (g : Globals) (s : System) :
  integ_switch g = INTEG_METHOD_NPT_ISO ->
  this_node s = 0%Z ->
  volume_after_half_steps g (finalize_p_inst_npt g s) < 0 ->
  let s1 := finalize_p_inst_npt g s in
  let r := npt_update_volume g s1 in
  let scal := snd (fst r) in
  let s' := propagate_press_box_pos_and_rescale_npt g s in
  vget scal 2 = 1 /\
  volume (nptiso (fst (fst r))) = box_volume s /\
  volume (nptiso s') = box_volume s /\
  runtime_errors s' =
    runtime_errors s
    ++ [Err_volume_negative (piston (nptiso s1)) (time_step g) (p_diff (nptiso s1))] /\
  particles (cells s') =
    map (rescale_particle g (nptiso (fst (fst r))) scal) (particles (cells s)) /\
  (0 <= vx (box_l s) -> 0 <= vy (box_l s) -> 0 <= vz (box_l s) ->
   0 <= volume (nptiso s')).
Proof.
  intros Hnpt Hroot Hneg. cbv zeta.
  destruct (finalize_p_inst_npt_frame g s) as (Hc & Hb & Hn & He & Hx).
  destruct (npt_update_volume_negative g _ Hneg) as
      (Hs2 & Hv & Herr & Hc2 & Hb2 & Hn2 & Hx2).
  assert (Hbv : box_volume (finalize_p_inst_npt g s) = box_volume s).
  { unfold box_volume. rewrite Hb. reflexivity. }
  assert (Hfinal :
    let s' := propagate_press_box_pos_and_rescale_npt g s in
    volume (nptiso s') = box_volume s /\
    runtime_errors s' =
      runtime_errors s
      ++ [Err_volume_negative (piston (nptiso (finalize_p_inst_npt g s)))
            (time_step g) (p_diff (nptiso (finalize_p_inst_npt g s)))] /\
    particles (cells s') =
      map (rescale_particle g
             (nptiso (fst (fst (npt_update_volume g (finalize_p_inst_npt g s)))))
             (snd (fst (npt_update_volume g (finalize_p_inst_npt g s)))))
          (particles (cells s))).
  { cbv zeta. unfold propagate_press_box_pos_and_rescale_npt.
    rewrite Hnpt. cbn [is_npt]. rewrite Hn, Hroot. cbn [Z.eqb].
    destruct (npt_update_volume g (finalize_p_inst_npt g s)) as [[s2 scal] L_new].
    cbn [fst snd] in *.
    cbn [this_node set_cells set_box_l set_ext set_nptiso nptiso cells
         particles runtime_errors].
    rewrite Hn2, Hn, Hroot. cbn [Z.eqb].
    cbn [this_node set_cells set_box_l set_ext set_nptiso nptiso cells
         particles runtime_errors].
    rewrite Hv, Hbv, Herr, He, Hc2, Hc. repeat split. }
  cbv zeta in Hfinal. destruct Hfinal as (Hvol & Herrs & Hps).
  repeat split; try assumption.
  - rewrite Hv. exact Hbv.
  - intros Hx0 Hy0 Hz0. rewrite Hvol. unfold box_volume.
    apply Qmult_le_0_compat; [apply Qmult_le_0_compat|]; assumption.
Qed.

(** *** [integrate_vv] as a whole, and the energy minimization built on it *)

Lemma integration_step_skin (sd : MinimizeEnergy.MinimizeEnergyParameters)
    (step : nat) (g : Globals) (s : System) :
  let g' := fst (fst (integration_step sd step g s)) in
  skin g' = skin g /\ skin2 g' = skin2 g /\ verlet_reuse g' = verlet_reuse g.
Proof.
  unfold integration_step.
  set (s0 := if negb (n_rigidbonds s =? 0)%Z then save_old_pos s else s).
  assert (H : let g1 := fst (fst (integration_step_12 sd g s0)) in
              skin g1 = skin g /\ skin2 g1 = skin2 g /\
              verlet_reuse g1 = verlet_reuse g).
  { unfold integration_step_12. destruct (integ_switch g); cbn.
    - repeat split.
    - repeat split.
    - destruct (steepest_descent_step sd s0). cbn. repeat split. }
  cbv zeta in H.
  destruct (integration_step_12 sd g s0) as [[g1 s1] brk]. cbn [fst] in H.
  destruct brk; [exact H|].
  destruct (check_runtime_errors _); [exact H|].
  destruct (sigint_caught step); exact H.
Qed.

Lemma integration_loop_skin (sd : MinimizeEnergy.MinimizeEnergyParameters)
    (fuel : nat) :
  forall (step : nat) (g : Globals) (s : System),
  let g' := fst (fst (integration_loop sd fuel step g s)) in
  skin g' = skin g /\ skin2 g' = skin2 g /\ verlet_reuse g' = verlet_reuse g.
Proof.
  induction fuel as [|fuel IH]; intros step g s; cbn [integration_loop].
  - cbn. repeat split.
  - pose proof (integration_step_skin sd step g s) as H. cbv zeta in H.
    destruct (integration_step sd step g s) as [[g1 s1] brk]. cbn [fst] in H.
    destruct brk; [exact H|].
    specialize (IH (S step) g1 s1). cbv zeta in IH.
    destruct (integration_loop sd fuel (S step) g1 s1) as [[g2 s2] k].
    cbn [fst] in *. destruct H as (H1 & H2 & H3). destruct IH as (I1 & I2 & I3).
    repeat split; congruence.
Qed.

Lemma integrate_finish_globals (n_steps : Z) (g : Globals) (s : System) :
  let g' := fst (integrate_finish n_steps g s) in
  integ_switch g' = integ_switch g /\ time_step g' = time_step g /\
  sim_time g' = sim_time g /\ skin g' = skin g /\ skin2 g' = skin2 g /\
  set_py_interrupt g' = set_py_interrupt g.
Proof.
  cbv zeta. unfold integrate_finish. cbv zeta.
  cbn [integ_switch set_verlet_reuse].
  destruct (is_npt (integ_switch g)); cbn; repeat split.
Qed.

(** X5: [integrate_vv] never changes the integrator mode, the time step or
    the skin.  When the start hook leaves a runtime error it returns at once
    with its own variables untouched; otherwise the Verlet criterion is
    [skin2 = (skin/2)^2] on return, and the clock has advanced by [k] times
    the increment of the mode ([time_step] for NVT and NPT, 0 for steepest
    descent) for some number [k <= n_steps] of passes. *)
Theorem integrate_vv_globals (sd : MinimizeEnergy.MinimizeEnergyParameters)
    (n_steps reuse_forces : Z) (g : Globals) (s : System) :
  let r := integrate_vv sd n_steps reuse_forces g s in
  let g' := fst r in
  integ_switch g' = integ_switch g /\ time_step g' = time_step g /\
  skin g' = skin g /\
  (check_runtime_errors (on_integration_start s) = true ->
     r = (g, on_integration_start s)) /\
  (check_runtime_errors (on_integration_start s) = false ->
     skin2 g' = sqr ((1#2) * skin g)) /\
  (exists k : nat,
     (k <= Z.to_nat n_steps)%nat /\
     sim_time g' ==
       sim_time g
       + inject_Z (Z.of_nat k) * clock_increment (integ_switch g) (time_step g)).
Proof.
  cbv zeta. unfold integrate_vv.
  destruct (check_runtime_errors (on_integration_start s)) eqn:E0.
  { cbn [fst]. repeat split; try discriminate.
    exists 0%nat. split; [lia|]. cbn [Z.of_nat]. ring. }
  cbv zeta.
  set (g1 := verlet_list_criterion g).
  set (s1 := if (reuse_forces =? -1)%Z
                || (negb (recalc_forces (on_integration_start s) =? 0)%Z
                    && negb (reuse_forces =? 1)%Z)
             then initial_force_calc g1 (on_integration_start s)
             else on_integration_start s).
  destruct (check_runtime_errors s1) eqn:E1.
  { cbn [fst]. repeat split; try discriminate.
    exists 0%nat. split; [lia|]. unfold g1, verlet_list_criterion, set_skin2.
    cbn [Z.of_nat sim_time]. ring. }
  pose proof (integration_loop_clock sd (Z.to_nat n_steps) 0 g1
                (set_n_verlet_updates s1 0)) as Hc.
  pose proof (integration_loop_skin sd (Z.to_nat n_steps) 0 g1
                (set_n_verlet_updates s1 0)) as Hs.
  cbv zeta in Hc, Hs.
  destruct (integration_loop sd (Z.to_nat n_steps) 0 g1
              (set_n_verlet_updates s1 0)) as [[g2 s3] k].
  cbn [fst snd] in Hc, Hs.
  destruct Hc as (Hk & Hm & Hdt & Ht). destruct Hs as (Hsk & Hsk2 & _).
  pose proof (integrate_finish_globals n_steps g2 s3) as Hf. cbv zeta in Hf.
  destruct Hf as (F1 & F2 & F3 & F4 & F5 & _).
  rewrite F1, F2, F3, F4, F5, Hm, Hdt, Hsk, Hsk2.
  repeat split; try discriminate.
  exists k. split; [lia|].
  rewrite Ht. rewrite Nat.sub_0_r. reflexivity.
Qed.

Definition set_integ_switch (g : Globals) (m : IntegMethod) : Globals :=
  mkGlobals m (time_step g) (sim_time g) (skin g) (skin2 g) (verlet_reuse g)
            (set_py_interrupt g).

(** The contents of a freshly allocated [MinimizeEnergyParameters], and
    [MPI_Bcast] of the parameters as seen from this rank. *)
Variable fresh_params : MinimizeEnergy.MinimizeEnergyParameters.
Variable mpi_bcast_params :
  MinimizeEnergy.MinimizeEnergyParameters -> MinimizeEnergy.MinimizeEnergyParameters.

(** [minimize_energy_init] (minimize_energy.cpp); the static pointer
    [params] is [None] while it is null. *)
Definition minimize_energy_init (f_max gamma : Q) (max_steps : Z)
    (max_displacement : Q)
    (params : option MinimizeEnergy.MinimizeEnergyParameters)
    : option MinimizeEnergy.MinimizeEnergyParameters :=
  Some (MinimizeEnergy.mkParams f_max gamma max_steps max_displacement).

(** [minimize_energy] (minimize_energy.cpp). *)
Definition minimize_energy
    (params : option MinimizeEnergy.MinimizeEnergyParameters)
    (g : Globals) (s : System)
    : option MinimizeEnergy.MinimizeEnergyParameters * Globals * System :=
  let p := match params with Some p => p | None => fresh_params end in
  let p1 := mpi_bcast_params p in
  let integ_switch_old := integ_switch g in
  let g1 := set_integ_switch g INTEG_METHOD_STEEPEST_DESCENT in
  let (g2, s2) := integrate_vv p1 (MinimizeEnergy.max_steps p1) (-1) g1 s in
  (Some p1, set_integ_switch g2 integ_switch_old, s2).

(** X6: an energy minimization leaves the integrator mode as it found it,
    whatever it was, and never advances the simulation clock; time step and
    skin are untouched as well, and the parameters used are the broadcast
    ones. *)
Theorem minimize_energy_restores
    (params : option MinimizeEnergy.MinimizeEnergyParameters)
    (g : Globals) (s : System) :
  let r := minimize_energy params g s in
  let g' := snd (fst r) in
  integ_switch g' = integ_switch g /\ sim_time g' == sim_time g /\
  time_step g' = time_step g /\ skin g' = skin g /\
  fst (fst r) =
    Some (mpi_bcast_params
            (match params with Some p => p | None => fresh_params end)).
Proof.
  cbv zeta. unfold minimize_energy. cbv zeta.
  set (p1 := mpi_bcast_params _).
  set (g1 := set_integ_switch g INTEG_METHOD_STEEPEST_DESCENT).
  pose proof (integrate_vv_globals p1 (MinimizeEnergy.max_steps p1) (-1) g1 s)
    as H. cbv zeta in H.
  destruct (integrate_vv p1 (MinimizeEnergy.max_steps p1) (-1) g1 s) as [g2 s2].
  cbn [fst snd] in *.
  destruct H as (_ & Hdt & Hsk & _ & _ & k & _ & Ht).
  cbn [integ_switch time_step sim_time skin set_integ_switch].
  repeat split; try assumption.
  rewrite Ht. unfold g1. cbn [integ_switch sim_time set_integ_switch
                              clock_increment]. ring.
Qed.

(** *** Kinematics of [propagate_vel_pos] *)

(** Coordinate [j] of particle [p] is integrated: not fixed, and [p] is not
    a virtual site. *)
Definition integrates (p : Particle) (j : nat) : bool :=
  negb (is_virtual p) && negb (coord_fixed COORD_FIXED p j).

Lemma vel_pos_axes (g : Globals) (p : Particle) (j : nat) :
  (j < 3)%nat ->
  let p' := fold_left (vel_pos_axis g) axes p in
  let v' := vget (vel p) j + (1#2) * time_step g * vget (frc p) j / mass p in
  vget (vel p') j = (if negb (coord_fixed COORD_FIXED p j) then v'
                     else vget (vel p) j) /\
  vget (pos p') j = (if negb (coord_fixed COORD_FIXED p j)
                     then vget (pos p) j + time_step g * v'
                     else vget (pos p) j) /\
  frc p' = frc p /\ p_old p' = p_old p /\ mass p' = mass p /\
  is_virtual p' = is_virtual p /\ rot p' = rot p.
Proof.
  intro Hj. cbv zeta. unfold axes. cbn [fold_left].
  unfold vel_pos_axis, coord_fixed.
  destruct p as [id m ef iv bs ps vl fr tq im po ro].
  cbn [ext_flag is_virtual pos vel frc mass p_old rot set_pos set_vel].
  destruct j as [|[|[|j]]]; try lia;
    destruct (Z.land ef (COORD_FIXED 0) =? 0)%Z;
    cbn [negb ext_flag is_virtual pos vel frc mass p_old rot set_pos set_vel];
    destruct (Z.land ef (COORD_FIXED 1) =? 0)%Z;
    cbn [negb ext_flag is_virtual pos vel frc mass p_old rot set_pos set_vel];
    destruct (Z.land ef (COORD_FIXED 2) =? 0)%Z;
    cbn [negb ext_flag is_virtual pos vel frc mass p_old rot set_pos set_vel];
    repeat split.
Qed.

(** X7: in [propagate_vel_pos] a coordinate that is integrated gets the half
    kick [v' = v + dt/2 * f/m] and then the drift [p' = p + dt * v']; fixed
    coordinates and virtual sites keep both velocity and position; forces
    and [p_old] are never written. *)
Theorem propagate_vel_pos_kinematics (g : Globals) (p : Particle) (j : nat) :
  (j < 3)%nat ->
  let p' := fst (propagate_vel_pos_particle g p) in
  let v' := vget (vel p) j + (1#2) * time_step g * vget (frc p) j / mass p in
  (integrates p j = true ->
     vget (vel p') j = v' /\ vget (pos p') j = vget (pos p) j + time_step g * v') /\
  (integrates p j = false ->
     vget (vel p') j = vget (vel p) j /\ vget (pos p') j = vget (pos p) j) /\
  frc p' = frc p /\ p_old p' = p_old p.
Proof.
  intro Hj. cbv zeta. unfold propagate_vel_pos_particle, integrates.
  change (is_virtual (set_rot p (propagate_omega_quat_particle p)))
    with (is_virtual p).
  destruct (is_virtual p) eqn:Ev; cbn [fst negb andb].
  - repeat split; try discriminate.
  - pose proof (vel_pos_axes g (set_rot p (propagate_omega_quat_particle p)) j Hj)
      as H. cbv zeta in H.
    destruct H as (Hv & Hp & Hf & Ho & _).
    change (coord_fixed COORD_FIXED (set_rot p (propagate_omega_quat_particle p)) j)
      with (coord_fixed COORD_FIXED p j) in Hv, Hp.
    cbn [vel pos frc mass p_old set_rot] in Hv, Hp, Hf, Ho.
    rewrite Hv, Hp, Hf, Ho.
    destruct (coord_fixed COORD_FIXED p j); cbn [negb];
      repeat split; try discriminate.
Qed.

(** Everything of a particle but its position, velocity and rotational
    state. *)
Definition same_but_motion (p p' : Particle) : Prop :=
  identity p' = identity p /\ mass p' = mass p /\ ext_flag p' = ext_flag p /\
  is_virtual p' = is_virtual p /\ bond_site p' = bond_site p /\
  frc p' = frc p /\ torque p' = torque p /\ img p' = img p /\
  p_old p' = p_old p.

Lemma propagate_vel_pos_particle_frame (g : Globals) (p : Particle) :
  same_but_motion p (fst (propagate_vel_pos_particle g p)).
Proof.
  unfold propagate_vel_pos_particle, same_but_motion.
  set (ro := propagate_omega_quat_particle p).
  destruct p as [id m ef iv bs ps vl fr tq im po r0].
  unfold set_rot. cbn [identity mass ext_flag is_virtual bond_site pos vel frc
                       torque img p_old].
  destruct iv; cbn [fst].
  - cbn [identity mass ext_flag is_virtual bond_site frc torque img p_old].
    repeat split.
  - unfold axes. cbn [fold_left]. unfold vel_pos_axis, coord_fixed.
    cbn [ext_flag pos vel frc mass set_pos set_vel].
    destruct (Z.land ef (COORD_FIXED 0) =? 0)%Z;
      cbn [negb ext_flag pos vel frc mass set_pos set_vel identity is_virtual
           bond_site torque img p_old rot];
      destruct (Z.land ef (COORD_FIXED 1) =? 0)%Z;
      cbn [negb ext_flag pos vel frc mass set_pos set_vel identity is_virtual
           bond_site torque img p_old rot];
      destruct (Z.land ef (COORD_FIXED 2) =? 0)%Z;
      cbn [negb ext_flag pos vel frc mass set_pos set_vel identity is_virtual
           bond_site torque img p_old rot];
      repeat split.
Qed.

Lemma propagate_vel_pos_list_map (g : Globals) (ps : list Particle) :
  forall flag : Z,
  fst (propagate_vel_pos_list g ps flag)
  = map (fun p => fst (propagate_vel_pos_particle g p)) ps.
Proof.
  induction ps as [|p tl IH]; intro flag; cbn [propagate_vel_pos_list map].
  - reflexivity.
  - destruct (propagate_vel_pos_particle g p) as [p' r]. cbn [fst].
    specialize (IH (if r then set_resort_particles RESORT_LOCAL flag else flag)).
    destruct (propagate_vel_pos_list g tl _) as [tl' flag'].
    cbn [fst] in *. rewrite IH. reflexivity.
Qed.

(** X8: [propagate_vel_pos] keeps every particle in its place in the list:
    the k-th particle afterwards is the k-th particle before after its own
    move, with the same identity, mass, flags, bond site, force, torque,
    image count and [p_old].  The resort level afterwards is the old one
    with [RESORT_LOCAL] added exactly when at least one particle met the
    Verlet criterion on its move; otherwise the level is unchanged. *)
Theorem propagate_vel_pos_resort (g : Globals) (s : System) :
  let s' := propagate_vel_pos g s in
  particles (cells s')
  = map (fun p => fst (propagate_vel_pos_particle g p)) (particles (cells s)) /\
  Forall2 same_but_motion (particles (cells s)) (particles (cells s')) /\
  resort_particles (cells s') =
    (if existsb (fun p => snd (propagate_vel_pos_particle g p))
                (particles (cells s))
     then Z.lor (resort_particles (cells s)) RESORT_LOCAL
     else resort_particles (cells s)) /\
  box_l s' = box_l s /\ nptiso s' = nptiso s /\
  runtime_errors s' = runtime_errors s.
Proof.
  cbv zeta. unfold propagate_vel_pos.
  pose proof (propagate_vel_pos_list_flag g (particles (cells s))
                (resort_particles (cells s))) as Hflag.
  pose proof (propagate_vel_pos_list_map g (particles (cells s))
                (resort_particles (cells s))) as Hmap.
  destruct (propagate_vel_pos_list g (particles (cells s))
              (resort_particles (cells s))) as [ps flag].
  cbn [fst snd] in *. cbn. rewrite Hmap, Hflag.
  split; [reflexivity|]. split; [|repeat split].
  clear Hmap Hflag. induction (particles (cells s)) as [|p tl IH]; cbn [map].
  - constructor.
  - constructor; [apply propagate_vel_pos_particle_frame | exact IH].
Qed.

(** *** Selecting the NPT integrator *)

Inductive ES_code : Type := ES_OK | ES_ERROR.

(** The messages [integrate_set_npt_isotropic] can report. *)
Inductive NptMessage : Type :=
| Msg_set_piston
| Msg_electrostatics_cubic
| Msg_magnetostatics_cubic
| Msg_no_fluctuating_direction
| Msg_reverting_to_nvt.

Definition set_pressure_piston (n : nptiso_struct) (pe pi : Q) : nptiso_struct :=
  mkNpt pi (inv_piston n) (volume n) pe (p_inst n) (p_inst_av n) (p_diff n)
        (p_vir n) (p_vel n) (geometry n) (nptgeom_dir n) (dimension n)
        (cubic_box n) (non_const_dim n) (invalidate_p_vel n).

Definition set_cubic_box (n : nptiso_struct) (c : Z) : nptiso_struct :=
  mkNpt (piston n) (inv_piston n) (volume n) (p_ext n) (p_inst n) (p_inst_av n)
        (p_diff n) (p_vir n) (p_vel n) (geometry n) (nptgeom_dir n) (dimension n)
        c (non_const_dim n) (invalidate_p_vel n).

Definition set_geometry (n : nptiso_struct) (geo dim ncd : Z) : nptiso_struct :=
  mkNpt (piston n) (inv_piston n) (volume n) (p_ext n) (p_inst n) (p_inst_av n)
        (p_diff n) (p_vir n) (p_vel n) geo (nptgeom_dir n) dim
        (cubic_box n) ncd (invalidate_p_vel n).

(** [NPTGEOM_XDIR], [NPTGEOM_YDIR], [NPTGEOM_ZDIR] (npt.hpp) and the
    prefactors [coulomb.prefactor] and [dipole.prefactor]. *)
Variable NPTGEOM_XDIR NPTGEOM_YDIR NPTGEOM_ZDIR : Z.
Variable coulomb_prefactor dipole_prefactor : Q.

(** One of the three [if (xdir)] blocks: add [mask] to the geometry, count
    the dimension, remember the axis. *)
Definition npt_add_direction (dir mask axis : Z) (n : nptiso_struct)
    : nptiso_struct :=
  if negb (dir =? 0)%Z
  then set_geometry n (Z.lor (geometry n) mask) (dimension n + 1) axis
  else n.

(** The choice of the fluctuating directions. *)
Definition npt_select_geometry (xdir ydir zdir : Z) (n : nptiso_struct)
    : nptiso_struct :=
  if negb (xdir =? 0)%Z || negb (ydir =? 0)%Z || negb (zdir =? 0)%Z then
    npt_add_direction zdir NPTGEOM_ZDIR 2
      (npt_add_direction ydir NPTGEOM_YDIR 1
         (npt_add_direction xdir NPTGEOM_XDIR 0 (set_geometry n 0 0 (-1))))
  else
    set_geometry n
      (Z.lor (Z.lor (Z.lor 0 NPTGEOM_XDIR) NPTGEOM_YDIR) NPTGEOM_ZDIR) 3 2.

(** [integrate_set_npt_isotropic]: the return value, the messages reported,
    and the state afterwards.  The broadcasts do not change the state of the
    calling rank. *)
Definition integrate_set_npt_isotropic (ext_pressure piston : Q)
    (xdir ydir zdir : Z) (cubic : bool) (g : Globals) (s : System)
    : ES_code * list NptMessage * Globals * System :=
  let n0 := set_pressure_piston (set_cubic_box (nptiso s) 0) ext_pressure piston in
  if Qleb (Integrate.piston n0) 0.0 then
    (ES_ERROR, [Msg_set_piston], g, set_nptiso s n0)
  else
    let n1 := npt_select_geometry xdir ydir zdir n0 in
    let n2 := if cubic then set_cubic_box n1 1 else n1 in
    let s2 := set_nptiso s n2 in
    if (dimension n2 <? 3)%Z && (cubic_box n2 =? 0)%Z && Qgtb coulomb_prefactor 0
    then (ES_ERROR, [Msg_electrostatics_cubic],
          set_integ_switch g INTEG_METHOD_NVT, s2)
    else if (dimension n2 <? 3)%Z && (cubic_box n2 =? 0)%Z
            && Qgtb dipole_prefactor 0
    then (ES_ERROR, [Msg_magnetostatics_cubic],
          set_integ_switch g INTEG_METHOD_NVT, s2)
    else if (dimension n2 =? 0)%Z || (non_const_dim n2 =? -1)%Z
    then (ES_ERROR, [Msg_no_fluctuating_direction; Msg_reverting_to_nvt],
          set_integ_switch g INTEG_METHOD_NVT, s2)
    else (ES_OK, [], set_integ_switch g INTEG_METHOD_NPT_ISO, s2).

(** The number of directions requested, 3 when none is. *)
Definition requested_dimension (xdir ydir zdir : Z) : Z :=
  if negb (xdir =? 0)%Z || negb (ydir =? 0)%Z || negb (zdir =? 0)%Z
  then (Z.b2z (negb (xdir =? 0)) + Z.b2z (negb (ydir =? 0))
        + Z.b2z (negb (zdir =? 0)))%Z
  else 3%Z.

Lemma npt_select_geometry_dimension (xdir ydir zdir : Z) (n : nptiso_struct) :
  let n' := npt_select_geometry xdir ydir zdir n in
  dimension n' = requested_dimension xdir ydir zdir /\
  (1 <= dimension n' <= 3)%Z /\ (0 <= non_const_dim n' <= 2)%Z /\
  cubic_box n' = cubic_box n /\ piston n' = piston n /\ p_ext n' = p_ext n.
Proof.
  cbv zeta. unfold npt_select_geometry, requested_dimension, npt_add_direction.
  destruct (xdir =? 0)%Z; destruct (ydir =? 0)%Z; destruct (zdir =? 0)%Z;
    cbn; repeat split; discriminate.
Qed.

(** X9: [integrate_set_npt_isotropic] rejects a piston mass that is not
    positive without touching the integrator mode.  Otherwise the dimension
    it stores is the number of directions requested (3 when none is), always
    between 1 and 3, so that the message "enable at least one component" is
    never reported; the call succeeds and selects NPT unless fewer than 3
    directions fluctuate without the cubic-box option while electrostatics
    or magnetostatics are active, in which case the mode is reset to NVT. *)
Theorem integrate_set_npt_isotropic_outcome (ext_pressure piston : Q)
    (xdir ydir zdir : Z) (cubic : bool) (g : Globals) (s : System) :
  let r := integrate_set_npt_isotropic ext_pressure piston xdir ydir zdir
             cubic g s in
  let code := fst (fst (fst r)) in
  let msgs := snd (fst (fst r)) in
  let g' := snd (fst r) in
  let n' := nptiso (snd r) in
  let blocked := ((requested_dimension xdir ydir zdir <? 3)%Z && negb cubic
                  && (Qgtb coulomb_prefactor 0 || Qgtb dipole_prefactor 0)) in
  ~ In Msg_no_fluctuating_direction msgs /\
  (piston <= 0 -> code = ES_ERROR /\ g' = g) /\
  (0 < piston ->
     dimension n' = requested_dimension xdir ydir zdir /\
     (1 <= dimension n' <= 3)%Z /\ (0 <= non_const_dim n' <= 2)%Z /\
     Integrate.piston n' = piston /\ p_ext n' = ext_pressure /\
     cubic_box n' = Z.b2z cubic /\
     (blocked = false ->
        code = ES_OK /\ integ_switch g' = INTEG_METHOD_NPT_ISO) /\
     (blocked = true ->
        code = ES_ERROR /\ integ_switch g' = INTEG_METHOD_NVT)).
Proof.
  cbv zeta. unfold integrate_set_npt_isotropic. cbv zeta.
  set (n0 := set_pressure_piston (set_cubic_box (nptiso s) 0) ext_pressure piston).
  change (Integrate.piston n0) with piston.
  destruct (Qleb piston 0.0) eqn:Ep.
  { cbn [fst snd]. apply Qleb_le in Ep. split; [|split].
    - intros [H|[]]. discriminate.
    - intros _. split; reflexivity.
    - intro H. exfalso. lra. }
  assert (Hpos : ~ piston <= 0).
  { intro H. assert (H' : piston <= 0.0) by lra.
    apply Qleb_le in H'. congruence. }
  destruct (npt_select_geometry_dimension xdir ydir zdir n0)
    as (Hd & Hr & Hn & Hc & Hpi & Hpe).
  set (n1 := npt_select_geometry xdir ydir zdir n0) in *.
  set (n2 := if cubic then set_cubic_box n1 1 else n1).
  assert (H2 : dimension n2 = dimension n1 /\ non_const_dim n2 = non_const_dim n1
               /\ Integrate.piston n2 = piston /\ p_ext n2 = ext_pressure
               /\ cubic_box n2 = Z.b2z cubic).
  { unfold n2. destruct cubic; cbn; rewrite ?Hc, ?Hpi, ?Hpe; repeat split. }
  destruct H2 as (D2 & N2 & P2 & E2 & C2).
  assert (Hdead : ((dimension n2 =? 0)%Z || (non_const_dim n2 =? -1)%Z) = false).
  { rewrite D2, N2.
    destruct (Z.eqb_spec (dimension n1) 0); [lia|].
    destruct (Z.eqb_spec (non_const_dim n1) (-1)); [lia|]. reflexivity. }
  rewrite Hdead, C2, D2, Hd.
  assert (Hcub : (Z.b2z cubic =? 0)%Z = negb cubic) by (destruct cubic; reflexivity).
  rewrite Hcub.
  destruct ((requested_dimension xdir ydir zdir <? 3)%Z && negb cubic);
    destruct (Qgtb coulomb_prefactor 0); destruct (Qgtb dipole_prefactor 0);
    cbn [andb orb fst snd nptiso set_nptiso integ_switch set_integ_switch];
    rewrite ?D2, ?N2, ?P2, ?E2, ?C2, ?Hd;
    (split; [cbn; intuition discriminate |
             split; [intro H; contradiction | intros _]]);
    (split; [reflexivity |
     split; [rewrite <- Hd; exact Hr |
     split; [exact Hn |
     split; [reflexivity |
     split; [reflexivity |
     split; [reflexivity |
     split; intro H; try discriminate H; split; reflexivity]]]]]]).
Qed.

(** *** The NPT box update when the volume stays non-negative *)

Lemma new_box_axes (n : nptiso_struct) (L_new : Q) (b : Vector3d) (i : nat) :
  (i < 3)%nat ->
  vget (fold_left (new_box_axis n L_new) axes b) i =
  if npt_dir n i || negb (cubic_box n =? 0)%Z then L_new else vget b i.
Proof.
  intro Hi. unfold axes. cbn [fold_left]. unfold new_box_axis.
  destruct i as [|[|[|i]]]; try lia;
    destruct (npt_dir n 0); destruct (npt_dir n 1); destruct (npt_dir n 2);
    destruct (negb (cubic_box n =? 0)%Z); reflexivity.
Qed.

(** X10: on the rank that advances the piston, when the volume after the
    two half steps is not negative, the box update reports nothing, leaves
    the volume at [V + 2 * (inv_piston * p_diff * dt / 2)], and sets the
    length of every fluctuating axis (of every axis with the cubic-box
    option) to [L_new = pow (volume, 1/dimension)], the other axes keeping
    their length; it always requests a local resort. *)
Theorem npt_box_update (g : Globals) (s : System) (i : nat) :
  integ_switch g = INTEG_METHOD_NPT_ISO ->
  this_node s = 0%Z ->
  0 <= volume_after_half_steps g (finalize_p_inst_npt g s) ->
  (i < 3)%nat ->
  let s1 := finalize_p_inst_npt g s in
  let s' := propagate_press_box_pos_and_rescale_npt g s in
  let n' := nptiso s' in
  volume n' = volume_after_half_steps g s1 /\
  runtime_errors s' = runtime_errors s /\
  vget (box_l s') i =
    (if npt_dir n' i || negb (cubic_box n' =? 0)%Z
     then pow (volume n') (1 / inject_Z (dimension n'))
     else vget (box_l s) i) /\
  Z.testbit (resort_particles (cells s')) 0 = true /\
  length (particles (cells s')) = length (particles (cells s)).
Proof.
  intros Hnpt Hroot Hpos Hi. cbv zeta.
  destruct (finalize_p_inst_npt_frame g s) as (Hc & Hb & Hn & He & Hx).
  unfold propagate_press_box_pos_and_rescale_npt.
  rewrite Hnpt. cbn [is_npt]. rewrite Hn, Hroot. cbn [Z.eqb].
  set (s1 := finalize_p_inst_npt g s) in *.
  unfold npt_update_volume. cbv zeta.
  assert (Hge : Qltb (volume_after_half_steps g s1) 0 = false)
    by (apply Qltb_ge; exact Hpos).
  unfold volume_after_half_steps in Hge. cbv zeta in Hge.
  cbn [volume set_volume]. rewrite Hge.
  cbn [this_node set_cells set_box_l set_ext set_nptiso nptiso cells
       particles runtime_errors box_l resort_particles volume set_volume
       dimension cubic_box].
  rewrite Hn, Hroot. cbn [Z.eqb].
  cbn [this_node set_cells set_box_l set_ext set_nptiso nptiso cells
       particles runtime_errors box_l resort_particles volume set_volume
       dimension cubic_box].
  rewrite (new_box_axes _ _ _ i Hi), He, Hb, Hc.
  split; [reflexivity | split; [reflexivity | split; [reflexivity | split]]].
  - unfold set_resort_particles, RESORT_LOCAL. rewrite Z.lor_spec.
    apply orb_true_r.
  - apply length_map.
Qed.


(** *** The fused propagator *)

(** Outside NPT, the half kick of [propagate_vel] followed by the drift of
    [propagate_pos] moves a particle as [propagate_vel_pos] does, with the
    same verdict of the Verlet criterion; [nptiso.p_vel] is not touched. *)
Lemma vel_axis_mk (g : Globals) (n : nptiso_struct) (id : Z) (m : Q) (ef : Z)
    (virt : bool) (site x v f tq : Vector3d) (im : Z * Z * Z) (old : Vector3d)
    (rt : RotState) (pv : Vector3d) (j : nat) :
  is_npt (integ_switch g) = false ->
  vel_axis g n (mkParticle id m ef virt site x v f tq im old rt, pv) j
  = (mkParticle id m ef virt site x
       (if negb (Z.land ef (COORD_FIXED j) =? 0)%Z then v
        else vset v j (vget v j + (1#2) * time_step g * vget f j / m))
       f tq im old rt, pv).
Proof.
  intro Hnpt. unfold vel_axis, coord_fixed, set_vel. rewrite Hnpt.
  cbn [andb ext_flag identity mass is_virtual bond_site pos vel frc torque img
       p_old rot].
  destruct (negb (Z.land ef (COORD_FIXED j) =? 0)%Z); reflexivity.
Qed.

Lemma pos_axis_mk (g : Globals) (id : Z) (m : Q) (ef : Z)
    (virt : bool) (site x v f tq : Vector3d) (im : Z * Z * Z) (old : Vector3d)
    (rt : RotState) (j : nat) :
  pos_axis g (mkParticle id m ef virt site x v f tq im old rt) j
  = mkParticle id m ef virt site
      (if negb (Z.land ef (COORD_FIXED j) =? 0)%Z then x
       else vset x j (vget x j + time_step g * vget v j))
      v f tq im old rt.
Proof.
  unfold pos_axis, coord_fixed, set_pos.
  cbn [ext_flag identity mass is_virtual bond_site pos vel frc torque img
       p_old rot].
  destruct (negb (Z.land ef (COORD_FIXED j) =? 0)%Z); reflexivity.
Qed.

Lemma vel_pos_axis_mk (g : Globals) (id : Z) (m : Q) (ef : Z)
    (virt : bool) (site x v f tq : Vector3d) (im : Z * Z * Z) (old : Vector3d)
    (rt : RotState) (j : nat) :
  vel_pos_axis g (mkParticle id m ef virt site x v f tq im old rt) j
  = mkParticle id m ef virt site
      (if negb (Z.land ef (COORD_FIXED j) =? 0)%Z then x
       else vset x j
              (vget x j
               + time_step g
                 * vget (vset v j (vget v j
                                   + (1#2) * time_step g * vget f j / m)) j))
      (if negb (Z.land ef (COORD_FIXED j) =? 0)%Z then v
       else vset v j (vget v j + (1#2) * time_step g * vget f j / m))
      f tq im old rt.
Proof.
  unfold vel_pos_axis, coord_fixed, set_pos, set_vel.
  cbn [ext_flag identity mass is_virtual bond_site pos vel frc torque img
       p_old rot].
  destruct (negb (Z.land ef (COORD_FIXED j) =? 0)%Z); reflexivity.
Qed.

Lemma propagate_vel_then_pos_particle (g : Globals) (n : nptiso_struct)
    (p : Particle) (pv : Vector3d) :
  is_npt (integ_switch g) = false ->
  snd (propagate_vel_particle g n p pv) = pv /\
  propagate_pos_particle g (fst (propagate_vel_particle g n p pv))
  = propagate_vel_pos_particle g p.
Proof.
  intro Hnpt.
  unfold propagate_vel_particle, propagate_pos_particle,
    propagate_vel_pos_particle, verlet_criterion.
  set (r := propagate_omega_quat_particle p). clearbody r.
  destruct p as [id m ef virt site x v f tq im old rt].
  unfold set_rot. cbn [is_virtual identity mass ext_flag bond_site pos vel frc
                       torque img p_old rot].
  destruct virt; [split; reflexivity|].
  unfold axes. cbn [fold_left].
  rewrite !vel_axis_mk by exact Hnpt. cbn [fst snd is_virtual].
  rewrite !pos_axis_mk, !vel_pos_axis_mk.
  cbn [pos p_old].
  destruct x as [x0 x1 x2]. destruct v as [v0 v1 v2].
  destruct (negb (Z.land ef (COORD_FIXED 0) =? 0)%Z);
    destruct (negb (Z.land ef (COORD_FIXED 1) =? 0)%Z);
    destruct (negb (Z.land ef (COORD_FIXED 2) =? 0)%Z);
    cbn [vget vset vx vy vz]; split; reflexivity.
Qed.

Lemma propagate_vel_then_pos_list (g : Globals) (n : nptiso_struct) :
  is_npt (integ_switch g) = false ->
  forall (ps : list Particle) (pv : Vector3d) (flag : Z),
  snd (propagate_vel_list g n ps pv) = pv /\
  propagate_pos_list g (fst (propagate_vel_list g n ps pv)) flag
  = propagate_vel_pos_list g ps flag.
Proof.
  intro Hnpt. induction ps as [|p ps IH]; intros pv flag.
  - split; reflexivity.
  - cbn [propagate_vel_list propagate_vel_pos_list].
    destruct (propagate_vel_then_pos_particle g n p pv Hnpt) as [Hpv Hp].
    destruct (propagate_vel_particle g n p pv) as [p1 pv1].
    cbn [fst snd] in Hpv, Hp. subst pv1.
    destruct (IH pv (if snd (propagate_vel_pos_particle g p)
                     then set_resort_particles RESORT_LOCAL flag else flag))
      as [Hpv' Hl].
    destruct (propagate_vel_list g n ps pv) as [ps1 pv2].
    cbn [fst snd] in Hpv', Hl |- *. subst pv2.
    split; [reflexivity|].
    cbn [propagate_pos_list]. rewrite Hp.
    destruct (propagate_vel_pos_particle g p) as [p' r]. cbn [snd] in Hl.
    rewrite Hl. reflexivity.
Qed.

(** X29: outside NPT, [propagate_vel] followed by [propagate_pos] is
    [propagate_vel_pos]: the two steps of the velocity Verlet scheme and
    their fused form leave the same particles, in the same order, and the
    same resort level.  They differ in one variable only: [propagate_vel]
    resets [nptiso.p_vel] to zero, also when the NPT integrator is not in
    use, and [propagate_vel_pos] leaves it alone. *)
Theorem propagate_vel_pos_fused (g : Globals) (s : System) :
  is_npt (integ_switch g) = false ->
  propagate_pos g (propagate_vel g s)
  = set_nptiso (propagate_vel_pos g s) (set_p_vel (nptiso s) (mkV 0 0 0)).
Proof.
  intro Hnpt. unfold propagate_pos, propagate_vel, propagate_vel_pos.
  rewrite Hnpt.
  destruct (propagate_vel_then_pos_list g (set_p_vel (nptiso s) (mkV 0 0 0))
              Hnpt (particles (cells s))
              (p_vel (set_p_vel (nptiso s) (mkV 0 0 0)))
              (resort_particles (cells s))) as [Hpv Hl].
  destruct (propagate_vel_list g (set_p_vel (nptiso s) (mkV 0 0 0))
              (particles (cells s))
              (p_vel (set_p_vel (nptiso s) (mkV 0 0 0)))) as [ps1 pv1].
  cbn [fst snd] in Hpv, Hl. subst pv1.
  cbn [cells set_nptiso set_cells particles resort_particles].
  rewrite Hl.
  destruct (propagate_vel_pos_list g (particles (cells s))
              (resort_particles (cells s))) as [ps flag].
  unfold set_nptiso, set_cells, set_p_vel.
  cbn [cells box_l nptiso this_node recalc_forces n_verlet_updates
       runtime_errors ext p_vel].
  destruct s as [c b n tn rf nv re ex]. destruct n.
  reflexivity.
Qed.

End Integrator.

(** *** The model on concrete inputs *)

(** A power function that is exact for integral exponents. *)
Definition pow_int (x y : Q) : Q := Qpower x (Qfloor y).

(** A particle at the origin, last resorted there, moving with velocity
    [(3/4, 0, 0)] and no force. *)
Definition drifting_particle : Particle :=
  mkParticle 0 1 0 false (mkV (-1) (-1) (-1)) (mkV 0 0 0) (mkV (3#4) 0 0)
             (mkV 0 0 0) (mkV 0 0 0) (0, 0, 0)%Z (mkV 0 0 0)
             (mkRot (1, 0, 0, 0) (mkV 0 0 0)).

(** NVT with [time_step = 1] and [skin = 1]. *)
Definition nvt_globals : Globals :=
  mkGlobals INTEG_METHOD_NVT 1 0 1 0 0 false.

(** The claim as the documentation states it (threshold [skin]) fails: after
    one move with [skin = 1] the particle is at distance [3/4 <= skin] from
    [p_old], and it has requested the resort. *)
Lemma verlet_flag_set_within_skin :
  let g := verlet_list_criterion nvt_globals in
  let r := propagate_vel_pos_particle COORD_FIXED_mask rot g drifting_particle in
  let d := 3#4 in
  0 <= d /\ d * d == norm2 (vsub (pos (fst r)) (p_old (fst r))) /\
  d <= skin g /\ snd r = true.
Proof.
  cbv zeta. repeat split; vm_compute; congruence.
Qed.

Lemma verlet_criterion_half_skin_witness :
  snd (propagate_vel_pos_particle COORD_FIXED_mask rot
         (verlet_list_criterion nvt_globals) drifting_particle) = true.
Proof.
  destruct (verlet_criterion_half_skin COORD_FIXED_mask rot nvt_globals
              drifting_particle) as [_ H].
  destruct (H eq_refl) as [_ Hd].
  apply (Hd (3#4)).
  - vm_compute. discriminate.
  - vm_compute. reflexivity.
  - vm_compute. discriminate.
  - vm_compute. reflexivity.
Defined.

(** NPT on rank 0 with only the x axis fluctuating, a box of [2 x 1 x 1] and
    a pressure difference that drives the volume to [2 - 10 < 0]. *)
Definition npt_globals : Globals :=
  mkGlobals INTEG_METHOD_NPT_ISO 1 0 1 (1#4) 0 false.

Definition npt_system : System unit :=
  mkSystem unit (mkCells [drifting_particle] 0) (mkV 2 1 1)
    (mkNpt 1 1 2 0 0 0 (-10) (mkV 0 0 0) (mkV 0 0 0) 1
           (fun j => Z.shiftl 1 (Z.of_nat j)) 1 0 0 0)
    0 0 0 [] tt.

Lemma npt_negative_volume_guard_witness :
  let s' := propagate_press_box_pos_and_rescale_npt unit pow_int
              COORD_FIXED_mask (fun _ => 0) (fun x => x) (mkV 1 1 1) (mkV 1 1 1)
              (fun _ e => e) (fun e => e) (fun e => e) npt_globals npt_system in
  volume (nptiso unit s') = box_volume unit npt_system /\
  (exists pd : Q,
     runtime_errors unit s' = [Err_volume_negative 1 1 pd] /\ pd == -10) /\
  0 <= volume (nptiso unit s').
Proof.
  cbv zeta.
  destruct (npt_negative_volume_guard unit pow_int COORD_FIXED_mask
              (fun _ => 0) (fun x => x) (mkV 1 1 1) (mkV 1 1 1)
              (fun _ e => e) (fun e => e) (fun e => e) npt_globals npt_system)
    as (_ & _ & Hv & He & _ & Hpos).
  - reflexivity.
  - reflexivity.
  - vm_compute. reflexivity.
  - split; [exact Hv | split].
    + rewrite He. eexists. split; [vm_compute; reflexivity | vm_compute; reflexivity].
    + apply Hpos; vm_compute; discriminate.
Defined.

(** Three passes of the loop on one free particle, with every hook of the
    other translation units doing nothing, no runtime error and no
    interrupt: the clock goes from 0 to 3 in NVT and stays at 0 in a
    steepest descent run. *)
Definition nvt_system : System unit :=
  mkSystem unit (mkCells [drifting_particle] 0) (mkV 2 1 1)
    (mkNpt 1 1 2 0 0 0 0 (mkV 0 0 0) (mkV 0 0 0) 1
           (fun j => Z.shiftl 1 (Z.of_nat j)) 1 0 0 0)
    0 0 0 [] tt.

Definition sd_globals : Globals :=
  mkGlobals INTEG_METHOD_STEEPEST_DESCENT 1 0 1 0 0 false.

Definition quiet (s : System unit) : System unit := s.

Lemma sim_time_advances_only_in_nvt_npt_witness :
  let loop := integration_loop unit pow_int sqrt_exact COORD_FIXED_mask 1000
                rot (fun p _ _ => rot p) (fun _ => 0) (fun _ => 0) (fun x => x)
                (mkV 1 1 1) (mkV 1 1 1) (fun x => x) (fun _ => false)
                quiet quiet quiet (fun _ => false) (fun _ => quiet)
                quiet quiet quiet quiet quiet quiet
                (fun _ => 0%Z) (fun _ => 1%Z) quiet quiet quiet quiet
                (fun _ => 0%Z) 1%Z 2%Z quiet quiet
                (fun _ e => e) (fun e => e) (fun e => e) (fun _ => false)
                (MinimizeEnergy.mkParams 0 1 10 1) in
  sim_time (fst (fst (loop 3%nat 0%nat nvt_globals nvt_system))) == 3 /\
  sim_time (fst (fst (loop 3%nat 0%nat sd_globals nvt_system))) == 0.
Proof.
  cbv zeta. split.
  - destruct (sim_time_advances_only_in_nvt_npt unit pow_int sqrt_exact
                COORD_FIXED_mask 1000
                rot (fun p _ _ => rot p) (fun _ => 0) (fun _ => 0) (fun x => x)
                (mkV 1 1 1) (mkV 1 1 1) (fun x => x) (fun _ => false)
                quiet quiet quiet (fun _ => false) (fun _ => quiet)
                quiet quiet quiet quiet quiet quiet
                (fun _ => 0%Z) (fun _ => 1%Z) quiet quiet quiet quiet
                (fun _ => 0%Z) 1%Z 2%Z quiet quiet
                (fun _ e => e) (fun e => e) (fun e => e) (fun _ => false)
                (MinimizeEnergy.mkParams 0 1 10 1) 3 0 nvt_globals nvt_system)
      as [_ [_ H]].
    cbn [integ_switch nvt_globals] in H. rewrite H. vm_compute. reflexivity.
  - destruct (sim_time_advances_only_in_nvt_npt unit pow_int sqrt_exact
                COORD_FIXED_mask 1000
                rot (fun p _ _ => rot p) (fun _ => 0) (fun _ => 0) (fun x => x)
                (mkV 1 1 1) (mkV 1 1 1) (fun x => x) (fun _ => false)
                quiet quiet quiet (fun _ => false) (fun _ => quiet)
                quiet quiet quiet quiet quiet quiet
                (fun _ => 0%Z) (fun _ => 1%Z) quiet quiet quiet quiet
                (fun _ => 0%Z) 1%Z 2%Z quiet quiet
                (fun _ e => e) (fun e => e) (fun e => e) (fun _ => false)
                (MinimizeEnergy.mkParams 0 1 10 1) 3 0 sd_globals nvt_system)
      as [_ [_ H]].
    cbn [integ_switch sd_globals] in H. rewrite H. vm_compute. reflexivity.
Defined.

Lemma npt_box_update_witness :
  let s' := propagate_press_box_pos_and_rescale_npt unit pow_int
              COORD_FIXED_mask (fun _ => 0) (fun x => x) (mkV 1 1 1) (mkV 1 1 1)
              (fun _ e => e) (fun e => e) (fun e => e) npt_globals
              (set_nptiso unit npt_system
                 (set_p_diff (nptiso unit npt_system) 1)) in
  volume (nptiso unit s') == 3 /\ vget (box_l unit s') 0 == 3 /\
  vget (box_l unit s') 1 == 1.
Proof.
  cbv zeta.
  pose (s0 := set_nptiso unit npt_system (set_p_diff (nptiso unit npt_system) 1)).
  split; [|split].
  - destruct (npt_box_update unit pow_int COORD_FIXED_mask (fun _ => 0)
                (fun x => x) (mkV 1 1 1) (mkV 1 1 1) (fun _ e => e) (fun e => e)
                (fun e => e) npt_globals s0 0%nat) as (Hv & _).
    + reflexivity.
    + reflexivity.
    + vm_compute. discriminate.
    + lia.
    + fold s0. rewrite Hv. vm_compute. reflexivity.
  - vm_compute. reflexivity.
  - vm_compute. reflexivity.
Defined.


(** A free particle of mass 1 at the origin with velocity 3/4 along x and no
    force, one step of length 1: it moves by its velocity. *)
Lemma propagate_vel_pos_kinematics_witness :
  let p' := fst (propagate_vel_pos_particle COORD_FIXED_mask rot nvt_globals
                   drifting_particle) in
  vget (vel p') 0 =
    vget (vel drifting_particle) 0
    + (1#2) * time_step nvt_globals * vget (frc drifting_particle) 0
      / mass drifting_particle /\
  vget (pos p') 0 =
    vget (pos drifting_particle) 0
    + time_step nvt_globals
      * (vget (vel drifting_particle) 0
         + (1#2) * time_step nvt_globals * vget (frc drifting_particle) 0
           / mass drifting_particle).
Proof.
  destruct (propagate_vel_pos_kinematics COORD_FIXED_mask rot nvt_globals
              drifting_particle 0) as (H & _).
  - lia.
  - apply H. reflexivity.
Defined.


(** *** The entry point [python_integrate] *)

Inductive PyMessage : Type :=
  | Msg_reuse_and_recalculate
  | Msg_illegal_number_of_steps
  | Msg_cannot_determine_skin.

(** [std::min] on doubles. *)
Definition min_double (a b : Q) : Q := if Qltb b a then b else a.

(** [*boost::min_element (cell_structure.max_range)]. *)
Definition min_element (v : Vector3d) : Q :=
  min_double (min_double (vx v) (vy v)) (vz v).

Lemma min_double_le (a b : Q) : min_double a b <= a /\ min_double a b <= b.
Proof.
  unfold min_double. destruct (Qltb b a) eqn:E.
  - apply Qltb_lt in E. split; lra.
  - apply Qltb_ge in E. split; lra.
Qed.

Lemma min_element_le (v : Vector3d) (i : nat) :
  (i < 3)%nat -> min_element v <= vget v i.
Proof.
  intro Hi. unfold min_element.
  pose proof (min_double_le (min_double (vx v) (vy v)) (vz v)) as [H1 H2].
  pose proof (min_double_le (vx v) (vy v)) as [H3 H4].
  destruct i as [|[|[|i]]]; [| | |lia]; cbn [vget]; lra.
Qed.

Section PythonIntegrate.

(** The state the hooks work on. *)
Variable World : Type.
(** [mpi_integrate (steps, reuse_forces)]: the number of runtime errors and
    the state afterwards. *)
Variable mpi_integrate : Z -> Z -> World -> Z * World.
(** [Accumulators::auto_update_next_update] and [Accumulators::auto_update]. *)
Variable auto_update_next_update : World -> Z.
Variable auto_update : Z -> World -> World.
(** [mpi_bcast_parameter (FIELD_SKIN)]. *)
Variable mpi_bcast_skin : World -> World.

(** [skin], [skin_set], [max_cut] and [cell_structure.max_range], the state
    of the hooks, the messages reported, and the calls of [mpi_integrate]
    made so far with their arguments [(steps, reuse_forces)]. *)
Record PyState : Type := mkPy {
  py_skin : Q;
  skin_set : bool;
  max_cut : Q;
  max_range : Vector3d;
  world : World;
  py_messages : list PyMessage;
  calls : list (Z * Z)
}.

Definition py_report (st : PyState) (m : PyMessage) : PyState :=
  mkPy (py_skin st) (skin_set st) (max_cut st) (max_range st) (world st)
       (py_messages st ++ [m]) (calls st).

Definition py_set_skin (st : PyState) (x : Q) : PyState :=
  mkPy x (skin_set st) (max_cut st) (max_range st) (world st)
       (py_messages st) (calls st).

Definition py_set_world (st : PyState) (w : World) : PyState :=
  mkPy (py_skin st) (skin_set st) (max_cut st) (max_range st) w
       (py_messages st) (calls st).

(** A call of [mpi_integrate]: its return value and the state afterwards. *)
Definition py_mpi_integrate (steps reuse_forces : Z) (st : PyState)
    : Z * PyState :=
  let (err, w) := mpi_integrate steps reuse_forces (world st) in
  (err, mkPy (py_skin st) (skin_set st) (max_cut st) (max_range st) w
             (py_messages st) (calls st ++ [(steps, reuse_forces)])).

(** [for (int i = 0; i < n_steps;)]: [None] while the loop is still running
    after [fuel] passes, otherwise whether it was left by [return ES_ERROR]
    and the state. *)
Fixpoint py_loop (fuel : nat) (n_steps i reuse_forces : Z) (st : PyState)
    : option (bool * PyState) :=
  if (i <? n_steps)%Z then
    match fuel with
    | O => None
    | S fuel' =>
        let steps := Z.min (n_steps - i) (auto_update_next_update (world st)) in
        let (err, st1) := py_mpi_integrate steps reuse_forces st in
        if negb (err =? 0)%Z then Some (true, st1)
        else
          let st2 := py_set_world st1 (auto_update steps (world st1)) in
          py_loop fuel' n_steps (i + steps)%Z 1%Z st2
    end
  else Some (false, st).

(** [python_integrate]. *)
Definition python_integrate (fuel : nat) (n_steps : Z)
    (recalc_forces reuse_forces_par : bool) (st : PyState)
    : option (ES_code * PyState) :=
  let reuse_forces := if reuse_forces_par then 1%Z else 0%Z in
  let st := if recalc_forces && negb (reuse_forces =? 0)%Z
            then py_report st Msg_reuse_and_recalculate else st in
  let reuse_forces := if recalc_forces then (-1)%Z else reuse_forces in
  if (n_steps <? 0)%Z then
    Some (ES_ERROR, py_report st Msg_illegal_number_of_steps)
  else
    let guess :=
      if negb (skin_set st) then
        if Qleb (max_cut st) 0.0 then None
        else Some (py_set_world
                     (py_set_skin st
                        (min_double (0.4 * max_cut st)
                                    (min_element (max_range st) - max_cut st)))
                     (mpi_bcast_skin (world st)))
      else Some st in
    match guess with
    | None => Some (ES_ERROR, py_report st Msg_cannot_determine_skin)
    | Some st1 =>
        match py_loop fuel n_steps 0 reuse_forces st1 with
        | None => None
        | Some (true, st2) => Some (ES_ERROR, st2)
        | Some (false, st2) =>
            if (n_steps =? 0)%Z then
              let (err, st3) := py_mpi_integrate 0 reuse_forces st2 in
              if negb (err =? 0)%Z then Some (ES_ERROR, st3)
              else Some (ES_OK, st3)
            else Some (ES_OK, st2)
        end
    end.

(** The steps of a list of calls, added up. *)
Definition total_steps (l : list (Z * Z)) : Z :=
  fold_right (fun c acc => (fst c + acc)%Z) 0%Z l.

Lemma total_steps_app (l1 l2 : list (Z * Z)) :
  total_steps (l1 ++ l2) = (total_steps l1 + total_steps l2)%Z.
Proof.
  induction l1 as [|c l1 IH]; cbn [app total_steps fold_right].
  - unfold total_steps. cbn. lia.
  - fold (total_steps (l1 ++ l2)). fold (total_steps l1). rewrite IH. lia.
Qed.

(** The loop with accumulator updates due after at least one step: it ends
    within [n_steps - i] passes; each call integrates at least one step,
    all calls but the first reuse the forces, and the steps add up to
    [n_steps - i] unless a call fails. *)
Lemma py_loop_spec (n_steps : Z) (fuel : nat) :
  (forall w, (1 <= auto_update_next_update w)%Z) ->
  forall (i reuse_forces : Z) (st : PyState),
  (0 <= i)%Z ->
  (n_steps - i <= Z.of_nat fuel)%Z ->
  exists failed st' l,
    py_loop fuel n_steps i reuse_forces st = Some (failed, st') /\
    calls st' = calls st ++ l /\
    py_skin st' = py_skin st /\ py_messages st' = py_messages st /\
    Forall (fun c => (1 <= fst c)%Z) l /\
    (forall k c, nth_error l k = Some c ->
       snd c = if (k =? 0)%nat then reuse_forces else 1%Z) /\
    (i < n_steps -> l <> [])%Z /\
    (failed = false -> (i + total_steps l = Z.max i n_steps)%Z) /\
    (failed = true -> (i + total_steps l <= n_steps)%Z).
Proof.
  intro Hnext.
  induction fuel as [|fuel IH]; intros i reuse_forces st Hi Hfuel.
  - cbn [py_loop]. destruct (Z.ltb_spec i n_steps); [lia|].
    exists false, st, []. rewrite app_nil_r.
    repeat split; try reflexivity; try constructor; try lia.
    + intros k c Hk. destruct k; discriminate Hk.
    + intros _. cbn. lia.
  - cbn [py_loop]. destruct (Z.ltb_spec i n_steps) as [Hlt|Hge].
    + set (steps := Z.min (n_steps - i) (auto_update_next_update (world st))).
      assert (Hsteps : (1 <= steps <= n_steps - i)%Z).
      { unfold steps. pose proof (Hnext (world st)). lia. }
      unfold py_mpi_integrate.
      destruct (mpi_integrate steps reuse_forces (world st)) as [err w] eqn:Ecall.
      destruct (Z.eqb_spec err 0) as [Eerr|Eerr]; cbn [negb].
      * destruct (IH (i + steps)%Z 1%Z
                    (py_set_world
                       (mkPy (py_skin st) (skin_set st) (max_cut st)
                             (max_range st) w (py_messages st)
                             (calls st ++ [(steps, reuse_forces)]))
                       (auto_update steps
                          (world (mkPy (py_skin st) (skin_set st) (max_cut st)
                                       (max_range st) w (py_messages st)
                                       (calls st ++ [(steps, reuse_forces)])))))
                    ltac:(lia) ltac:(lia))
          as (failed & st' & l & Hrun & Hcalls & Hskin & Hmsg & Hall & Hreuse
              & _ & Hok & Hfail).
        exists failed, st', ((steps, reuse_forces) :: l).
        split; [exact Hrun|].
        cbn [calls py_set_world py_skin py_messages] in Hcalls, Hskin, Hmsg.
        split; [rewrite Hcalls, <- app_assoc; reflexivity|].
        split; [exact Hskin|]. split; [exact Hmsg|].
        split; [constructor; [cbn [fst]; lia | exact Hall]|].
        split.
        { intros k c Hk. destruct k as [|k].
          - injection Hk as <-. reflexivity.
          - cbn [nth_error] in Hk. specialize (Hreuse k c Hk).
            cbn [Nat.eqb]. destruct (k =? 0)%nat; exact Hreuse. }
        split; [intros _; discriminate|].
        unfold total_steps in *. cbn [fold_right fst].
        split; intro Hf; [specialize (Hok Hf) | specialize (Hfail Hf)]; lia.
      * exists true,
          (mkPy (py_skin st) (skin_set st) (max_cut st) (max_range st) w
                (py_messages st) (calls st ++ [(steps, reuse_forces)])),
          [(steps, reuse_forces)].
        split; [reflexivity|]. cbn [calls py_skin py_messages].
        split; [reflexivity|]. split; [reflexivity|]. split; [reflexivity|].
        split; [constructor; [cbn [fst]; lia | constructor]|].
        split.
        { intros k c Hk. destruct k as [|[|k]]; try discriminate Hk.
          injection Hk as <-. reflexivity. }
        split; [intros _; discriminate|].
        unfold total_steps. cbn [fold_right fst].
        split; intro Hf; [discriminate Hf | lia].
    + exists false, st, []. rewrite app_nil_r.
      repeat split; try reflexivity; try constructor; try lia.
      * intros k c Hk. destruct k; discriminate Hk.
      * intros _. cbn. lia.
Qed.


Lemma py_loop_skin (n_steps : Z) (fuel : nat) :
  forall (i reuse_forces : Z) (st : PyState) (failed : bool) (st' : PyState),
  py_loop fuel n_steps i reuse_forces st = Some (failed, st') ->
  py_skin st' = py_skin st /\ skin_set st' = skin_set st /\
  max_cut st' = max_cut st /\ max_range st' = max_range st.
Proof.
  induction fuel as [|fuel IH]; intros i reuse_forces st failed st';
    cbn [py_loop]; destruct (i <? n_steps)%Z;
    try discriminate;
    try (intro H; injection H as <- <-; repeat split; reflexivity).
  unfold py_mpi_integrate.
  destruct (mpi_integrate _ _ _) as [err w].
  destruct (negb (err =? 0)%Z).
  - intro H. injection H as <- <-. repeat split; reflexivity.
  - intro H. apply IH in H. exact H.
Qed.

(** The value of [reuse_forces] the first call of [mpi_integrate] gets. *)
Definition first_reuse (recalc_forces reuse_forces_par : bool) : Z :=
  if recalc_forces then (-1)%Z else if reuse_forces_par then 1%Z else 0%Z.

(** X27: [python_integrate] for [n_steps >= 0] with a skin that is set or
    can be guessed, when accumulator updates are due after one step at the
    earliest: it returns, having called [mpi_integrate] at least once; the
    first call gets [reuse_forces = -1] when forces are to be recalculated
    and the caller's flag otherwise, every later call gets 1; for
    [n_steps > 0] every call integrates at least one step, for
    [n_steps = 0] there is the single call [mpi_integrate (0, ...)]; with
    [ES_OK] the steps of the calls add up to [n_steps], with [ES_ERROR] to
    [n_steps] at most.  The only message it may report is the one about
    reusing and recalculating forces at once, which does not stop it. *)
Theorem python_integrate_chunks (fuel : nat) (n_steps : Z)
    (recalc_forces reuse_forces_par : bool) (st : PyState) :
  (forall w, (1 <= auto_update_next_update w)%Z) ->
  (0 <= n_steps <= Z.of_nat fuel)%Z ->
  skin_set st = true \/ 0 < max_cut st ->
  exists code st' l,
    python_integrate fuel n_steps recalc_forces reuse_forces_par st
      = Some (code, st') /\
    calls st' = calls st ++ l /\ l <> [] /\
    (forall k c, nth_error l k = Some c ->
       snd c = if (k =? 0)%nat
               then first_reuse recalc_forces reuse_forces_par else 1%Z) /\
    ((0 < n_steps)%Z -> Forall (fun c => (1 <= fst c)%Z) l) /\
    (n_steps = 0%Z ->
     l = [(0%Z, first_reuse recalc_forces reuse_forces_par)]) /\
    (code = ES_OK -> total_steps l = n_steps) /\
    (code = ES_ERROR -> (total_steps l <= n_steps)%Z) /\
    py_messages st'
      = py_messages st
        ++ (if recalc_forces && reuse_forces_par
            then [Msg_reuse_and_recalculate] else []).
Proof.
  intros Hnext Hn Hskin. unfold python_integrate.
  destruct (Z.ltb_spec n_steps 0) as [Hneg|_]; [lia|].
  set (reuse := if recalc_forces then (-1)%Z
                else if reuse_forces_par then 1%Z else 0%Z).
  change (first_reuse recalc_forces reuse_forces_par) with reuse.
  set (st0 := if recalc_forces
                 && negb ((if reuse_forces_par then 1 else 0) =? 0)%Z
              then py_report st Msg_reuse_and_recalculate else st).
  assert (Hst0 : calls st0 = calls st /\ skin_set st0 = skin_set st /\
                 max_cut st0 = max_cut st /\
                 py_messages st0
                   = py_messages st
                     ++ (if recalc_forces && reuse_forces_par
                         then [Msg_reuse_and_recalculate] else [])).
  { unfold st0. destruct recalc_forces, reuse_forces_par;
      cbn [andb negb Z.eqb py_report calls skin_set max_cut py_messages];
      rewrite ?app_nil_r; repeat split; reflexivity. }
  destruct Hst0 as (Hc0 & Hs0 & Hm0 & Hmsg0).
  set (st1 := py_set_world
                (py_set_skin st0
                   (min_double (0.4 * max_cut st0)
                               (min_element (max_range st0) - max_cut st0)))
                (mpi_bcast_skin (world st0))).
  assert (Hguess :
    exists st2,
      (if negb (skin_set st0) then
         if Qleb (max_cut st0) 0.0 then None else Some st1
       else Some st0) = Some st2 /\
      calls st2 = calls st /\ py_messages st2 = py_messages st0).
  { destruct (skin_set st0) eqn:Eset; cbn [negb].
    - exists st0. repeat split; [exact Hc0].
    - destruct (Qleb (max_cut st0) 0.0) eqn:Ecut.
      + exfalso. apply Qleb_le in Ecut. rewrite Hm0 in Ecut.
        destruct Hskin as [H|H]; [congruence | lra].
      + exists st1. repeat split; [exact Hc0]. }
  destruct Hguess as (st2 & -> & Hc2 & Hmsg2).
  destruct (py_loop_spec n_steps fuel Hnext 0%Z reuse st2 ltac:(lia) ltac:(lia))
    as (failed & st3 & l & Hrun & Hcalls & _ & Hmsg3 & Hall & Hreuse & Hne
        & Hok & Hfail).
  rewrite Hrun. rewrite Hc2 in Hcalls. rewrite Hmsg2, Hmsg0 in Hmsg3.
  destruct failed.
  - (* a call in the loop failed *)
    exists ES_ERROR, st3, l. split; [reflexivity|]. split; [exact Hcalls|].
    assert (Hpos : (0 < n_steps)%Z).
    { destruct (Z.ltb_spec 0 n_steps) as [H|H]; [exact H|].
      exfalso. assert (n_steps = 0%Z) by lia. subst n_steps.
      cbn in Hrun. destruct fuel; cbn in Hrun; discriminate Hrun. }
    split; [apply Hne; exact Hpos|]. split; [exact Hreuse|].
    split; [intros _; exact Hall|]. split; [lia|].
    split; [discriminate|]. split; [|exact Hmsg3].
    intros _. specialize (Hfail eq_refl). lia.
  - specialize (Hok eq_refl).
    destruct (Z.eqb_spec n_steps 0) as [Ezero|Enz].
    + (* no steps: the single call *)
      subst n_steps.
      assert (Hst3 : st3 = st2).
      { destruct fuel; cbn [py_loop Z.ltb Z.compare] in Hrun;
          injection Hrun as <-; reflexivity. }
      subst st3.
      assert (Hl : l = []).
      { apply (app_inv_head (calls st)). rewrite app_nil_r.
        rewrite <- Hcalls. exact Hc2. }
      subst l. rewrite app_nil_r in Hcalls.
      unfold py_mpi_integrate.
      destruct (mpi_integrate 0 reuse (world st2)) as [err w].
      exists (if negb (err =? 0)%Z then ES_ERROR else ES_OK),
        (mkPy (py_skin st2) (skin_set st2) (max_cut st2) (max_range st2) w
              (py_messages st2) (calls st2 ++ [(0%Z, reuse)])),
        [(0%Z, reuse)].
      split; [destruct (negb (err =? 0)%Z); reflexivity|].
      cbn [calls py_messages]. rewrite Hcalls.
      split; [reflexivity|]. split; [discriminate|].
      split.
      { intros k c Hk. destruct k as [|[|k]]; try discriminate Hk.
        injection Hk as <-. reflexivity. }
      split; [lia|]. split; [reflexivity|].
      split; [intros _; reflexivity|].
      split; [intros _; cbn; lia | exact Hmsg3].
    + exists ES_OK, st3, l. split; [reflexivity|]. split; [exact Hcalls|].
      split; [apply Hne; lia|]. split; [exact Hreuse|].
      split; [intros _; exact Hall|]. split; [lia|].
      split; [intros _; lia|]. split; [discriminate | exact Hmsg3].
Qed.

(** X28: what [python_integrate] refuses, and the skin it guesses.  A
    negative [n_steps] gives [ES_ERROR] with the message "illegal number of
    steps" and no call of [mpi_integrate].  With [n_steps >= 0], a skin that
    was never set and [max_cut <= 0] give [ES_ERROR] with the message
    "cannot automatically determine skin", again without any call; the skin
    is left as it was.  With [max_cut > 0] the skin is guessed before the
    first call as [min (0.4 * max_cut, min (max_range) - max_cut)]: it is at
    most [0.4 * max_cut], and [skin + max_cut] fits into the range of the
    cell system along every axis.  A skin that was set is never changed. *)
Theorem python_integrate_skin (fuel : nat) (n_steps : Z)
    (recalc_forces reuse_forces_par : bool) (st : PyState) :
  let r := python_integrate fuel n_steps recalc_forces reuse_forces_par st in
  let pre := py_messages st
             ++ (if recalc_forces && reuse_forces_par
                 then [Msg_reuse_and_recalculate] else []) in
  let refused (m : PyMessage) :=
    r = Some (ES_ERROR,
              mkPy (py_skin st) (skin_set st) (max_cut st) (max_range st)
                   (world st) (pre ++ [m]) (calls st)) in
  ((n_steps < 0)%Z -> refused Msg_illegal_number_of_steps) /\
  ((0 <= n_steps)%Z -> skin_set st = false -> max_cut st <= 0 ->
   refused Msg_cannot_determine_skin) /\
  (forall code st', r = Some (code, st') ->
   (0 <= n_steps)%Z ->
   (skin_set st = true -> py_skin st' = py_skin st) /\
   (skin_set st = false -> 0 < max_cut st ->
    py_skin st'
      = min_double (0.4 * max_cut st)
                   (min_element (max_range st) - max_cut st) /\
    py_skin st' <= 0.4 * max_cut st /\
    forall i, (i < 3)%nat ->
      py_skin st' + max_cut st <= vget (max_range st) i)).
Proof.
  cbv zeta. unfold python_integrate.
  set (st0 := if recalc_forces
                 && negb ((if reuse_forces_par then 1 else 0) =? 0)%Z
              then py_report st Msg_reuse_and_recalculate else st).
  assert (Hst0 : st0 = mkPy (py_skin st) (skin_set st) (max_cut st)
                            (max_range st) (world st)
                            (py_messages st
                             ++ (if recalc_forces && reuse_forces_par
                                 then [Msg_reuse_and_recalculate] else []))
                            (calls st)).
  { unfold st0. destruct recalc_forces, reuse_forces_par;
      cbn [andb negb Z.eqb py_report]; rewrite ?app_nil_r;
      destruct st; reflexivity. }
  clearbody st0. subst st0.
  cbn [skin_set max_cut max_range world py_report py_set_skin py_set_world
       py_skin py_messages calls].
  split; [|split].
  - intro Hneg. apply Z.ltb_lt in Hneg. rewrite Hneg. reflexivity.
  - intros Hn Hset Hcut. apply Z.ltb_ge in Hn. rewrite Hn, Hset. cbn [negb].
    assert (E : Qleb (max_cut st) 0.0 = true) by (apply Qleb_le; lra).
    rewrite E. reflexivity.
  - intros code st' Hrun Hn. apply Z.ltb_ge in Hn. rewrite Hn in Hrun.
    assert (Hfinish :
      forall (st1 : PyState) (reuse : Z),
        match py_loop fuel n_steps 0 reuse st1 with
        | Some (true, st2) => Some (ES_ERROR, st2)
        | Some (false, st2) =>
            if (n_steps =? 0)%Z
            then
              let (err, st3) := py_mpi_integrate 0 reuse st2 in
              if negb (err =? 0)%Z then Some (ES_ERROR, st3)
              else Some (ES_OK, st3)
            else Some (ES_OK, st2)
        | None => None
        end = Some (code, st') ->
        py_skin st' = py_skin st1).
    { intros st1 reuse H.
      destruct (py_loop fuel n_steps 0 reuse st1) as [[failed st2]|] eqn:El;
        [|discriminate H].
      apply py_loop_skin in El. destruct El as [El _].
      destruct failed; [injection H as <- <-; exact El|].
      destruct (n_steps =? 0)%Z; [|injection H as <- <-; exact El].
      unfold py_mpi_integrate in H.
      destruct (mpi_integrate 0 reuse (world st2)) as [err w].
      destruct (negb (err =? 0)%Z); injection H as <- <-; exact El. }
    destruct (skin_set st) eqn:Eset; cbn [negb] in Hrun.
    + apply Hfinish in Hrun. cbn [py_skin] in Hrun.
      split; [intros _; exact Hrun | discriminate].
    + split; [discriminate|]. intros _ Hcut.
      assert (E : Qleb (max_cut st) 0.0 = false).
      { destruct (Qleb (max_cut st) 0.0) eqn:E'; [|reflexivity].
        apply Qleb_le in E'. exfalso. lra. }
      rewrite E in Hrun. apply Hfinish in Hrun.
      unfold py_set_world, py_set_skin in Hrun. cbn [py_skin] in Hrun.
      rewrite Hrun. split; [reflexivity|].
      pose proof (min_double_le (0.4 * max_cut st)
                    (min_element (max_range st) - max_cut st)) as [Hl Hr].
      split; [exact Hl|]. intros i Hi.
      pose proof (min_element_le (max_range st) i Hi). lra.
Qed.

End PythonIntegrate.


(** Ten steps with forces recalculated and an accumulator update due every
    four steps: three calls of 4, 4 and 2 steps. *)
Lemma python_integrate_chunks_witness :
  exists st',
    python_integrate unit (fun _ _ w => (0%Z, w)) (fun _ => 4%Z)
      (fun _ w => w) (fun w => w) 10 10 true false
      (mkPy unit 1 true 1 (mkV 5 5 5) tt [] [])
      = Some (ES_OK, st') /\
    calls unit st' = [(4, -1); (4, 1); (2, 1)]%Z /\
    total_steps (calls unit st') = 10%Z.
Proof.
  destruct (python_integrate_chunks unit (fun _ _ w => (0%Z, w))
              (fun _ => 4%Z) (fun _ w => w) (fun w => w) 10 10 true false
              (mkPy unit 1 true 1 (mkV 5 5 5) tt [] []))
    as (code & st' & l & Hrun & Hcalls & _ & _ & _ & _ & Hok & _).
  - intros w. lia.
  - lia.
  - left. reflexivity.
  - vm_compute in Hrun. injection Hrun as <- <-.
    eexists. split; [vm_compute; reflexivity|].
    split; [reflexivity|].
    cbn [calls app] in Hcalls. rewrite Hcalls. apply Hok. reflexivity.
Defined.


(** The drifting particle under NVT: kick and drift, or the fused move. *)
Lemma propagate_vel_pos_fused_witness :
  cells unit
    (propagate_pos unit pow_int COORD_FIXED_mask (fun _ => 0) (fun x => x)
       (mkV 1 1 1) (mkV 1 1 1) (fun _ e => e) (fun e => e) (fun e => e)
       nvt_globals
       (propagate_vel unit COORD_FIXED_mask rot (fun _ => 0) nvt_globals
          nvt_system))
  = cells unit (propagate_vel_pos unit COORD_FIXED_mask rot nvt_globals
                  nvt_system).
Proof.
  rewrite (propagate_vel_pos_fused unit pow_int COORD_FIXED_mask rot
             (fun _ => 0) (fun _ => 0) (fun x => x) (mkV 1 1 1) (mkV 1 1 1)
             (fun _ e => e) (fun e => e) (fun e => e) nvt_globals nvt_system
             eq_refl).
  reflexivity.
Defined.

End Integrate.

(** ** Layered cell system (layered.cpp) *)

Module Layered.

Definition LAYERED_BOTTOM : Z := 1.
Definition LAYERED_TOP : Z := 2.
Definition LAYERED_PERIODIC : Z := 4.
Definition LAYERED_BTM_MASK : Z := Z.lor LAYERED_BOTTOM LAYERED_PERIODIC.
Definition LAYERED_TOP_MASK : Z := Z.lor LAYERED_TOP LAYERED_PERIODIC.

(** The file-scope variables of layered.cpp and the lower corner of the local
    box, [local_geo.my_left ()]. *)
Record LayeredState : Type := mkLayered {
  layered_flags : Z;
  n_layers : Z;
  layer_h : Q;
  layer_h_i : Q;
  my_left : Vector3d
}.

(** Node has a neighbor above (modulo [n_nodes]). *)
Definition LAYERED_TOP_NEIGHBOR (st : LayeredState) : bool :=
  negb (Z.land (layered_flags st) LAYERED_TOP_MASK =? LAYERED_TOP)%Z.

(** Node has a neighbor below (modulo [n_nodes]). *)
Definition LAYERED_BTM_NEIGHBOR (st : LayeredState) : bool :=
  negb (Z.land (layered_flags st) LAYERED_BTM_MASK =? LAYERED_BOTTOM)%Z.

(** [layered_position_to_cell]: the index [c] of the cell [&cells[c]]
    returned, or [None] for [nullptr]. *)
Definition layered_position_to_cell (st : LayeredState) (pos : Vector3d)
    : option Z :=
  let cpos := (Qfloor ((vget pos 2 - vget (my_left st) 2) * layer_h_i st) + 1)%Z in
  if (cpos <? 1)%Z then
    if negb (LAYERED_BTM_NEIGHBOR st) then Some 1%Z else None
  else if (n_layers st <? cpos)%Z then
    if negb (LAYERED_TOP_NEIGHBOR st) then Some (n_layers st) else None
  else Some cpos.

(** The flags as [layered_topology_init] sets them for rank [this_node] of
    [n_nodes], with [periodic] the periodicity of the box along z. *)
Definition layered_topology_flags (this_node n_nodes : Z) (periodic : bool) : Z :=
  let f0 := 0%Z in
  let f1 := if (this_node =? 0)%Z then Z.lor f0 LAYERED_BOTTOM else f0 in
  let f2 := if (this_node =? n_nodes - 1)%Z then Z.lor f1 LAYERED_TOP else f1 in
  if periodic then Z.lor f2 LAYERED_PERIODIC else f2.

(** The cell index the documentation gives for height [z]. *)
Definition cell_index (st : LayeredState) (z : Q) : Z :=
  (Qfloor ((z - vz (my_left st)) * (1 / layer_h st)) + 1)%Z.

(** With the flags of [layered_topology_init], a rank lacks a neighbor below
    exactly when it is the lowest one and z is not periodic, and lacks a
    neighbor above exactly when it is the highest one and z is not periodic. *)
Lemma layered_neighbors (this_node n_nodes : Z) (periodic : bool)
    (h hi : Q) (n : Z) (l : Vector3d) :
  let st := mkLayered (layered_topology_flags this_node n_nodes periodic) n h hi l in
  LAYERED_BTM_NEIGHBOR st = negb ((this_node =? 0)%Z && negb periodic) /\
  LAYERED_TOP_NEIGHBOR st = negb ((this_node =? n_nodes - 1)%Z && negb periodic).
Proof.
  cbv zeta. unfold LAYERED_BTM_NEIGHBOR, LAYERED_TOP_NEIGHBOR,
    layered_topology_flags. cbn [layered_flags].
  destruct (this_node =? 0)%Z; destruct (this_node =? n_nodes - 1)%Z;
    destruct periodic; split; reflexivity.
Qed.

(** C6: [layered_position_to_cell] maps a position of height [z] to the
    cell of index [floor ((z - local z origin) * (1/layer_h)) + 1]; an index
    below 1 (above [n_layers]) is clamped to 1 (to [n_layers]) exactly when
    the rank has no neighbor below (above), and otherwise no cell is
    returned. *)
Theorem layered_position_to_cell_spec (st : LayeredState) (pos : Vector3d) :
  layer_h_i st == 1 / layer_h st ->
  (0 <= n_layers st)%Z ->
  let idx := cell_index st (vz pos) in
  ((1 <= idx <= n_layers st)%Z ->
     layered_position_to_cell st pos = Some idx) /\
  ((idx < 1)%Z ->
     (LAYERED_BTM_NEIGHBOR st = false ->
        layered_position_to_cell st pos = Some 1%Z) /\
     (LAYERED_BTM_NEIGHBOR st = true ->
        layered_position_to_cell st pos = None)) /\
  ((n_layers st < idx)%Z ->
     (LAYERED_TOP_NEIGHBOR st = false ->
        layered_position_to_cell st pos = Some (n_layers st)) /\
     (LAYERED_TOP_NEIGHBOR st = true ->
        layered_position_to_cell st pos = None)).
Proof.
  intros Hinv Hn. cbv zeta.
  assert (Hidx : (Qfloor ((vget pos 2 - vget (my_left st) 2) * layer_h_i st) + 1)%Z
                 = cell_index st (vz pos)).
  { unfold cell_index. cbn [vget]. f_equal. apply Qfloor_comp.
    rewrite Hinv. reflexivity. }
  unfold layered_position_to_cell. rewrite Hidx.
  set (idx := cell_index st (vz pos)).
  split; [|split].
  - intros [H1 H2].
    destruct (Z.ltb_spec idx 1); [lia|].
    destruct (Z.ltb_spec (n_layers st) idx); [lia|]. reflexivity.
  - intro H1. destruct (Z.ltb_spec idx 1); [|lia].
    split; intro Hb; rewrite Hb; reflexivity.
  - intro H2. destruct (Z.ltb_spec idx 1); [lia|].
    destruct (Z.ltb_spec (n_layers st) idx); [|lia].
    split; intro Hb; rewrite Hb; reflexivity.
Qed.

(** The lowest of two ranks, z not periodic, four layers of height 1/2
    starting at z = 0: the midpoint z = 1 lies in cell 3, a position just
    below the box is filed in cell 1, one above the box belongs to the rank
    above. *)
Definition bottom_rank : LayeredState :=
  mkLayered (layered_topology_flags 0 2 false) 4 (1#2) 2 (mkV 0 0 0).

Lemma layered_position_to_cell_spec_witness :
  layered_position_to_cell bottom_rank (mkV 0 0 1) = Some 3%Z /\
  layered_position_to_cell bottom_rank (mkV 0 0 (-1#10)) = Some 1%Z /\
  layered_position_to_cell bottom_rank (mkV 0 0 (21#10)) = None.
Proof.
  assert (Hinv : layer_h_i bottom_rank == 1 / layer_h bottom_rank)
    by (vm_compute; reflexivity).
  assert (Hn : (0 <= n_layers bottom_rank)%Z) by (vm_compute; discriminate).
  split; [|split].
  - destruct (layered_position_to_cell_spec bottom_rank (mkV 0 0 1) Hinv Hn)
      as (H & _ & _).
    apply H. vm_compute. split; discriminate.
  - destruct (layered_position_to_cell_spec bottom_rank (mkV 0 0 (-1#10)) Hinv Hn)
      as (_ & H & _).
    apply H; vm_compute; reflexivity.
  - destruct (layered_position_to_cell_spec bottom_rank (mkV 0 0 (21#10)) Hinv Hn)
      as (_ & _ & H).
    apply H; vm_compute; reflexivity.
Defined.

(** *** The topology set up by [layered_topology_init] *)

(** The part of [layered_topology_init] that determines the file-scope
    variables: [n_layers] (on the rank that determines it; the broadcast
    leaves it as it is there), the flags, the neighbours [top] and [btm],
    [layer_h] and [layer_h_i].  [local_len_z] is [local_geo.length ()[2]];
    the boolean tells whether the message "maximal interaction range larger
    than local box length" was reported. *)
Record Topology : Type := mkTopology {
  lstate : LayeredState;
  top : Z;
  btm : Z;
  range_error : bool
}.

Definition determine_layers (range local_len_z : Q) (max_num_cells : Z)
    : Z * bool :=
  if Qgtb range 0 then
    let n0 := Qfloor (local_len_z / range) in
    let (n1, err) := if (n0 <? 1)%Z then (1%Z, true) else (n0, false) in
    let n2 := if (max_num_cells - 2 <? n1)%Z
              then Z.max (max_num_cells - 2) 0 else n1 in
    (n2, err)
  else (1%Z, false).

Definition layered_topology_vars (this_node n_nodes : Z) (periodic : bool)
    (determine_n_layers : bool) (n_layers_old : Z) (range : Q)
    (local_len_z : Q) (max_num_cells : Z) (left : Vector3d) : Topology :=
  let (n, err) := if (this_node =? 0)%Z && determine_n_layers
                  then determine_layers range local_len_z max_num_cells
                  else (n_layers_old, false) in
  let flags := layered_topology_flags this_node n_nodes periodic in
  let top0 := (this_node + 1)%Z in
  let top := if (top0 =? n_nodes)%Z
                && negb (Z.land flags LAYERED_PERIODIC =? 0)%Z
             then 0%Z else top0 in
  let btm0 := (this_node - 1)%Z in
  let btm := if (btm0 =? -1)%Z
                && negb (Z.land flags LAYERED_PERIODIC =? 0)%Z
             then (n_nodes - 1)%Z else btm0 in
  let h := local_len_z / inject_Z n in
  mkTopology (mkLayered flags n h (1 / h) left) top btm err.

(** X11: the number of layers determined on rank 0 lies between 1 and
    [max_num_cells - 2] whenever at least 3 cells are allowed; and unless
    the range error is reported, a layer is at least as thick as the
    interaction range: [range * n_layers <= local z length]. *)
Theorem determine_layers_bounds (range local_len_z : Q) (max_num_cells : Z) :
  (3 <= max_num_cells)%Z ->
  let n := fst (determine_layers range local_len_z max_num_cells) in
  let err := snd (determine_layers range local_len_z max_num_cells) in
  (1 <= n <= max_num_cells - 2)%Z /\
  (0 < range -> err = false -> range * inject_Z n <= local_len_z) /\
  (err = true <-> 0 < range /\ local_len_z < range).
Proof.
  intro Hmax. cbv zeta. unfold determine_layers.
  destruct (Qgtb range 0) eqn:Er.
  - apply Qgtb_gt in Er.
    pose proof (Qfloor_le (local_len_z / range)) as Hfl.
    pose proof (Qlt_floor (local_len_z / range)) as Hfu.
    assert (Hdiv : local_len_z / range * range == local_len_z).
    { field. intro H0. lra. }
    set (n0 := Qfloor (local_len_z / range)) in *.
    destruct (Z.ltb_spec n0 1) as [Hlt|Hge].
    + (* the range does not fit *)
      cbn [fst snd].
      destruct (Z.ltb_spec (max_num_cells - 2) 1) as [Hc|Hc]; [lia|].
      cbn [fst snd]. split; [lia|]. split; [intros _ E; discriminate|].
      split; [intros _|intros _; reflexivity].
      split; [exact Er|].
      assert (H1 : inject_Z (n0 + 1) <= inject_Z 1).
      { rewrite <- Zle_Qle. lia. }
      change (inject_Z 1) with 1 in H1.
      assert (H2 : local_len_z / range < 1) by lra.
      assert (H3 : local_len_z / range * range < 1 * range).
      { apply Qmult_lt_compat_r; assumption. }
      lra.
    + cbn [fst snd].
      assert (Hn0 : range * inject_Z n0 <= local_len_z).
      { assert (H3 : inject_Z n0 * range <= local_len_z / range * range).
        { apply Qmult_le_compat_r; [exact Hfl | lra]. }
        lra. }
      assert (Hfit : ~ local_len_z < range).
      { intro H. assert (H1 : 1 <= inject_Z n0).
        { change (inject_Z 1 <= inject_Z n0). rewrite <- Zle_Qle. exact Hge. }
        assert (H2 : range * 1 <= range * inject_Z n0).
        { rewrite !(Qmult_comm range). apply Qmult_le_compat_r; lra. }
        lra. }
      destruct (Z.ltb_spec (max_num_cells - 2) n0) as [Hcap|Hcap]; cbn [fst snd].
      * split; [lia|]. split.
        -- intros _ _.
           assert (H1 : inject_Z (Z.max (max_num_cells - 2) 0) <= inject_Z n0).
           { rewrite <- Zle_Qle. lia. }
           assert (H2 : range * inject_Z (Z.max (max_num_cells - 2) 0)
                        <= range * inject_Z n0).
           { rewrite !(Qmult_comm range). apply Qmult_le_compat_r; lra. }
           lra.
        -- split; [discriminate | intros [_ H]; contradiction].
      * split; [lia|]. split; [intros _ _; exact Hn0|].
        split; [discriminate | intros [_ H]; contradiction].
  - apply Qgtb_le in Er. cbn [fst snd].
    split; [lia|]. split; [intros H; exfalso; lra|].
    split; [discriminate | intros [H _]; exfalso; lra].
Qed.

Lemma determine_layers_bounds_witness :
  fst (determine_layers 2.5 10 32) = 4%Z /\
  snd (determine_layers 2.5 10 32) = false.
Proof.
  destruct (determine_layers_bounds 2.5 10 32) as (_ & _ & _).
  - lia.
  - vm_compute. split; reflexivity.
Defined.

(** X12: [layered_position_to_cell] never returns a ghost cell: with at
    least one layer, an index it returns lies in [1, n_layers]; and on a
    rank without neighbours (a single rank, z not periodic) it returns a
    cell for every position. *)
Theorem layered_position_to_cell_local (st : LayeredState) (pos : Vector3d) :
  (1 <= n_layers st)%Z ->
  (forall c, layered_position_to_cell st pos = Some c ->
             (1 <= c <= n_layers st)%Z) /\
  (LAYERED_BTM_NEIGHBOR st = false -> LAYERED_TOP_NEIGHBOR st = false ->
   exists c, layered_position_to_cell st pos = Some c).
Proof.
  intro Hn. unfold layered_position_to_cell. cbv zeta.
  set (cpos := (Qfloor _ + 1)%Z).
  split.
  - intros c.
    destruct (Z.ltb_spec cpos 1).
    + destruct (negb (LAYERED_BTM_NEIGHBOR st)); [|discriminate].
      intro E. injection E as <-. lia.
    + destruct (Z.ltb_spec (n_layers st) cpos).
      * destruct (negb (LAYERED_TOP_NEIGHBOR st)); [|discriminate].
        intro E. injection E as <-. lia.
      * intro E. injection E as <-. lia.
  - intros Hb Ht. rewrite Hb, Ht. cbn [negb].
    destruct (cpos <? 1)%Z; [eexists; reflexivity|].
    destruct (n_layers st <? cpos)%Z; eexists; reflexivity.
Qed.

Lemma layered_position_to_cell_local_witness :
  exists c, layered_position_to_cell
              (mkLayered (layered_topology_flags 0 1 false) 4 (1#2) 2 (mkV 0 0 0))
              (mkV 0 0 100) = Some c /\ (1 <= c <= 4)%Z.
Proof.
  destruct (layered_position_to_cell_local
              (mkLayered (layered_topology_flags 0 1 false) 4 (1#2) 2 (mkV 0 0 0))
              (mkV 0 0 100)) as [Hr He].
  - vm_compute. discriminate.
  - destruct He as [c Hc]; [reflexivity | reflexivity |].
    exists c. split; [exact Hc | apply Hr; exact Hc].
Defined.


(** *** The ghost communicators built by [layered_prepare_comm] *)

Inductive GhostType : Type := GHOST_SEND | GHOST_RECV | GHOST_LOCL.

(** One [GhostCommunication]: its type with the flags
    [GHOST_PREFETCH | GHOST_PSTSTORE] (always set together here), the partner
    rank, the cells transferred (as indices into [cells]; [None] is a pointer
    not assigned yet) and the shift.  [n_part_lists] is the length of
    [part_lists]. *)
Record GhostCommunication : Type := mkComm {
  gtype : GhostType;
  prefetch_pststore : bool;
  node : Z;
  part_lists : list (option Z);
  shift : Vector3d
}.

Record GhostCommunicator : Type := mkCommunicator {
  data_parts : Z;
  comm : list GhostCommunication
}.

(** A store into an array: [None] when the index is out of range. *)
Fixpoint store {A : Type} (l : list A) (i : nat) (x : A) : option (list A) :=
  match l, i with
  | [], _ => None
  | _ :: t, O => Some (x :: t)
  | a :: t, S j => option_map (cons a) (store t j x)
  end.

Definition obind {A B : Type} (x : option A) (f : A -> option B) : option B :=
  match x with
  | Some a => f a
  | None => None
  end.

(** Assignments to [comm->comm[c]]. *)
Definition update_comm (cm : GhostCommunicator) (c : nat)
    (f : GhostCommunication -> option GhostCommunication)
    : option GhostCommunicator :=
  obind (nth_error (comm cm) c) (fun e =>
  obind (f e) (fun e' =>
  option_map (mkCommunicator (data_parts cm)) (store (comm cm) c e'))).

Definition set_type (ty : GhostType) (pre : bool) (e : GhostCommunication)
    : GhostCommunication :=
  mkComm ty pre (node e) (part_lists e) (shift e).

Definition set_node (nd : Z) (e : GhostCommunication) : GhostCommunication :=
  mkComm (gtype e) (prefetch_pststore e) nd (part_lists e) (shift e).

Definition alloc_part_lists (k : nat) (e : GhostCommunication)
    : GhostCommunication :=
  mkComm (gtype e) (prefetch_pststore e) (node e) (repeat None k) (shift e).

Definition set_part_list (i : nat) (cell : Z) (e : GhostCommunication)
    : option GhostCommunication :=
  option_map (fun l => mkComm (gtype e) (prefetch_pststore e) (node e) l (shift e))
             (store (part_lists e) i (Some cell)).

Definition set_shift (v : Vector3d) (e : GhostCommunication)
    : GhostCommunication :=
  mkComm (gtype e) (prefetch_pststore e) (node e) (part_lists e) v.

Definition or_data_parts (bits : Z) (cm : GhostCommunicator)
    : GhostCommunicator :=
  mkCommunicator (Z.lor (data_parts cm) bits) (comm cm).

Section PrepareComm.

Variables GHOSTTRANS_FORCE GHOSTTRANS_POSITION GHOSTTRANS_POSSHFTD : Z.

(** [prepare_comm] of ghosts.cpp: sets [data_parts] and allocates [num]
    communications. *)
Variable prepare_comm : Z -> nat -> GhostCommunicator.

Variables this_node n_nodes : Z.

(** [tp] holds [layered_flags], [n_layers], [top] and [btm];
    [box_len_z] is [box_geo.length ()[2]]. *)
Variable tp : Topology.
Variable box_len_z : Q.

(** How many communications to do. *)
Definition layered_comm_count : Z :=
  if (1 <? n_nodes)%Z then
    let n := 4%Z in
    let n := if negb (LAYERED_TOP_NEIGHBOR (lstate tp)) then (n - 2)%Z else n in
    let n := if negb (LAYERED_BTM_NEIGHBOR (lstate tp)) then (n - 2)%Z else n in
    n
  else if negb (Z.land (layered_flags (lstate tp)) LAYERED_PERIODIC =? 0)%Z
       then 2%Z else 0%Z.

(** [for (c = 0; c < n; c++)]: the cell pointer arrays of [k] entries each;
    on a single rank the partner is set here as well. *)
Definition alloc_loop (n k : nat) (local : bool) (cm : GhostCommunicator)
    : option GhostCommunicator :=
  fold_left (fun acc c =>
    obind acc (fun cm =>
      update_comm cm c (fun e =>
        let e1 := alloc_part_lists k e in
        Some (if local then set_node this_node e1 else e1))))
    (seq 0 n) (Some cm).

(** The body shared by the four transfers of the parallel case: type,
    partner and cell of [comm->comm[c]], for a sender that does not transfer
    forces also the shift, then [c++]. *)
Definition transfer (ty : GhostType) (pre : bool) (nd : Z) (cell : Z)
    (sh : option Q) (x : GhostCommunicator * nat)
    : option (GhostCommunicator * nat) :=
  let (cm, c) := x in
  option_map (fun cm' => (cm', S c))
    (update_comm cm c (fun e =>
       let e1 := set_node nd (set_type ty pre e) in
       obind (set_part_list 0 cell e1) (fun e2 =>
       Some (match sh with
             | Some z => set_shift (mkV 0 0 z) e2
             | None => e2
             end)))).

Definition downwards (dp : Z) (even_odd : Z) (x : GhostCommunicator * nat)
    : option (GhostCommunicator * nat) :=
  let st := lstate tp in
  let force := (dp =? GHOSTTRANS_FORCE)%Z in
  (* send *)
  obind
    (if (Z.rem this_node 2 =? even_odd)%Z && LAYERED_BTM_NEIGHBOR st then
       let pre := (snd x =? 1)%nat in
       if force then transfer GHOST_SEND pre (btm tp) 0 None x
       else
         if (Z.land (layered_flags st) LAYERED_BTM_MASK =? LAYERED_BTM_MASK)%Z
            && negb (Z.land dp GHOSTTRANS_POSITION =? 0)%Z
         then transfer GHOST_SEND pre (btm tp) 1 (Some box_len_z)
                (or_data_parts GHOSTTRANS_POSSHFTD (fst x), snd x)
         else transfer GHOST_SEND pre (btm tp) 1 (Some 0) x
     else Some x)
    (fun x =>
  (* recv *)
  if (Z.rem (top tp) 2 =? even_odd)%Z && LAYERED_TOP_NEIGHBOR st then
    let pre := (snd x =? 0)%nat in
    if force then transfer GHOST_RECV pre (top tp) (n_layers st) None x
    else transfer GHOST_RECV pre (top tp) (n_layers st + 1) None x
  else Some x).

Definition upwards (dp : Z) (even_odd : Z) (x : GhostCommunicator * nat)
    : option (GhostCommunicator * nat) :=
  let st := lstate tp in
  let force := (dp =? GHOSTTRANS_FORCE)%Z in
  (* send *)
  obind
    (if (Z.rem this_node 2 =? even_odd)%Z && LAYERED_TOP_NEIGHBOR st then
       let pre := (Nat.modulo (snd x) 2 =? 1)%nat in
       if force then transfer GHOST_SEND pre (top tp) (n_layers st + 1) None x
       else
         if (Z.land (layered_flags st) LAYERED_TOP_MASK =? LAYERED_TOP_MASK)%Z
            && negb (Z.land dp GHOSTTRANS_POSITION =? 0)%Z
         then transfer GHOST_SEND pre (top tp) (n_layers st) (Some (- box_len_z))
                (or_data_parts GHOSTTRANS_POSSHFTD (fst x), snd x)
         else transfer GHOST_SEND pre (top tp) (n_layers st) (Some 0) x
     else Some x)
    (fun x =>
  (* recv *)
  if (Z.rem (btm tp) 2 =? even_odd)%Z && LAYERED_BTM_NEIGHBOR st then
    let pre := (Nat.modulo (snd x) 2 =? 0)%nat in
    if force then transfer GHOST_RECV pre (btm tp) 1 None x
    else transfer GHOST_RECV pre (btm tp) 0 None x
  else Some x).

(** A local transfer of the single-rank case, written to [comm->comm[c]]. *)
Definition local_transfer (dp : Z) (from to : Z) (from_force to_force : Z)
    (z : Q) (c : nat) (cm : GhostCommunicator) : option GhostCommunicator :=
  let force := (dp =? GHOSTTRANS_FORCE)%Z in
  obind
    (update_comm cm c (fun e =>
       let e1 := set_type GHOST_LOCL false e in
       if force then
         obind (set_part_list 0 from_force e1) (set_part_list 1 to_force)
       else
         obind (set_part_list 0 from e1) (fun e2 =>
         obind (set_part_list 1 to e2) (fun e3 =>
         Some (set_shift (mkV 0 0 z) e3)))))
    (fun cm' =>
       Some (if negb force && negb (Z.land dp GHOSTTRANS_POSITION =? 0)%Z
             then or_data_parts GHOSTTRANS_POSSHFTD cm' else cm')).

(** [layered_prepare_comm]: the communicator built, or [None] when a store
    falls outside the communications allocated. *)
Definition layered_prepare_comm (dp : Z) : option GhostCommunicator :=
  let st := lstate tp in
  let n := Z.to_nat layered_comm_count in
  if (1 <? n_nodes)%Z then
    obind (alloc_loop n 1 false (prepare_comm dp n)) (fun cm =>
    obind (downwards dp 0 (cm, 0%nat)) (fun x =>
    obind (downwards dp 1 x) (fun x =>
    obind (upwards dp 0 x) (fun x =>
    obind (upwards dp 1 x) (fun x =>
    Some (fst x))))))
  else
    let cm0 := prepare_comm dp n in
    if negb (n =? 0)%nat then
      obind (alloc_loop n 2 true cm0) (fun cm =>
      (* downwards *)
      obind (local_transfer dp 1 (n_layers st + 1) 0 (n_layers st)
               box_len_z 0 cm) (fun cm =>
      (* upwards *)
      local_transfer dp (n_layers st) 0 (n_layers st + 1) 1
        (- box_len_z) 1 cm))
    else Some cm0.

(** What a finished communication looks like: a partner rank that exists,
    cells of the local array [cells[0 .. n_layers + 1]], and between ranks
    one cell sent to or received from another rank, on a single rank a local
    copy between two cells. *)
Definition well_formed (e : GhostCommunication) : Prop :=
  (0 <= node e < n_nodes)%Z /\
  Forall (fun c => exists k, c = Some k /\
                             (0 <= k <= n_layers (lstate tp) + 1)%Z)
         (part_lists e) /\
  if (1 <? n_nodes)%Z
  then gtype e <> GHOST_LOCL /\ node e <> this_node /\
       length (part_lists e) = 1%nat
  else gtype e = GHOST_LOCL /\ node e = this_node /\
       length (part_lists e) = 2%nat.

Definition count_type (ty : GhostType) (l : list GhostCommunication) : nat :=
  length (filter (fun e => match gtype e, ty with
                           | GHOST_SEND, GHOST_SEND => true
                           | GHOST_RECV, GHOST_RECV => true
                           | GHOST_LOCL, GHOST_LOCL => true
                           | _, _ => false
                           end) l).


Lemma rem2_cases (z : Z) :
  (0 <= z)%Z ->
  ((Z.rem z 2 =? 0)%Z = true /\ (Z.rem z 2 =? 1)%Z = false) \/
  ((Z.rem z 2 =? 0)%Z = false /\ (Z.rem z 2 =? 1)%Z = true).
Proof.
  intro H. pose proof (Z.rem_bound_pos z 2 H ltac:(lia)) as Hb.
  destruct (Z.eqb_spec (Z.rem z 2) 0); destruct (Z.eqb_spec (Z.rem z 2) 1);
    [lia | left; split; reflexivity | right; split; reflexivity | lia].
Qed.

Ltac comm_run :=
  match goal with
  | |- exists cm, ?X = Some cm /\ _ =>
      let v := eval cbv -[Z.add Z.lor Qopp btm top lstate n_layers shift
                          layered_flags] in X in
      change X with v
  | |- ?X = Some _ -> _ =>
      let v := eval cbv -[Z.add Z.lor Qopp btm top lstate n_layers shift
                          layered_flags] in X in
      change X with v
  end.

Ltac comm_entry_ok :=
  unfold well_formed; cbn [node part_lists gtype length];
  repeat match goal with
         | |- _ /\ _ => split
         | |- Forall _ [] => constructor
         | |- Forall _ (_ :: _) => constructor
         | |- exists k, Some ?c = Some k /\ _ => exists c; split; [reflexivity|]
         | |- context [(1 <? ?n)%Z] =>
             first [ replace (1 <? n)%Z with true by (symmetry; apply Z.ltb_lt; lia)
                   | replace (1 <? n)%Z with false by (symmetry; apply Z.ltb_ge; lia) ]
         | |- _ <> _ => first [discriminate | lia]
         | |- _ = _ => first [reflexivity | lia]
         | |- (_ <= _)%Z => lia
         | |- (_ < _)%Z => lia
         end.

(** With partner ranks that exist whenever the flags announce a neighbour,
    [layered_prepare_comm] stays within the communications it allocated and
    fills each of them. *)
Lemma layered_prepare_comm_fills (dp : Z) :
  (0 <= this_node < n_nodes)%Z ->
  (0 <= n_layers (lstate tp))%Z ->
  (forall d n, length (comm (prepare_comm d n)) = n) ->
  (LAYERED_BTM_NEIGHBOR (lstate tp) = true -> (1 < n_nodes)%Z ->
   (0 <= btm tp < n_nodes)%Z /\ btm tp <> this_node) ->
  (LAYERED_TOP_NEIGHBOR (lstate tp) = true -> (1 < n_nodes)%Z ->
   (0 <= top tp < n_nodes)%Z /\ top tp <> this_node) ->
  exists cm,
    layered_prepare_comm dp = Some cm /\
    length (comm cm) = Z.to_nat layered_comm_count /\
    Forall well_formed (comm cm) /\
    count_type GHOST_SEND (comm cm) = count_type GHOST_RECV (comm cm).
Proof.
  intros Hrank Hn Hlen Hb Ht.
  unfold layered_prepare_comm, layered_comm_count.
  destruct (Z.ltb_spec 1 n_nodes) as [Hmany|Hone].
  - unfold downwards, upwards.
    destruct (rem2_cases this_node) as [[E0 E1]|[E0 E1]]; [lia| |];
      rewrite ?E0, ?E1; clear E0 E1;
      destruct (LAYERED_BTM_NEIGHBOR (lstate tp)) eqn:Eb;
      destruct (LAYERED_TOP_NEIGHBOR (lstate tp)) eqn:Et;
      cbn [negb andb]; rewrite ?andb_false_r, ?andb_true_r;
      try (destruct (Hb eq_refl Hmany) as [Hb1 Hb2];
           destruct (rem2_cases (btm tp)) as [[B0 B1]|[B0 B1]]; [lia| |];
           rewrite ?B0, ?B1; clear B0 B1);
      try (destruct (Ht eq_refl Hmany) as [Ht1 Ht2];
           destruct (rem2_cases (top tp)) as [[T0 T1]|[T0 T1]]; [lia| |];
           rewrite ?T0, ?T1; clear T0 T1);
      destruct (dp =? GHOSTTRANS_FORCE)%Z;
      destruct ((Z.land (layered_flags (lstate tp)) LAYERED_BTM_MASK
                 =? LAYERED_BTM_MASK)%Z
                && negb (Z.land dp GHOSTTRANS_POSITION =? 0)%Z);
      destruct ((Z.land (layered_flags (lstate tp)) LAYERED_TOP_MASK
                 =? LAYERED_TOP_MASK)%Z
                && negb (Z.land dp GHOSTTRANS_POSITION =? 0)%Z);
      match goal with
      | |- context [prepare_comm dp ?k] =>
          let k' := eval compute in k in
          change k with k';
          pose proof (Hlen dp k') as Hl;
          destruct (prepare_comm dp k') as [d0 l]
      end;
      cbn [comm length] in Hl;
      destruct l as [|e1 [|e2 [|e3 [|e4 [|e5 l]]]]]; try discriminate Hl;
      clear Hl; comm_run;
      (eexists; split; [reflexivity|]; split; [reflexivity|];
       split; [|reflexivity]; repeat constructor; comm_entry_ok).
  - assert (n_nodes = 1%Z) by lia. assert (this_node = 0%Z) by lia.
    destruct (Z.land (layered_flags (lstate tp)) LAYERED_PERIODIC =? 0)%Z;
      cbn [negb];
      match goal with
      | |- context [prepare_comm dp ?k] =>
          let k' := eval compute in k in
          change k with k';
          pose proof (Hlen dp k') as Hl;
          destruct (prepare_comm dp k') as [d0 l]
      end;
      cbn [comm length] in Hl;
      destruct l as [|e1 [|e2 [|e3 l]]]; try discriminate Hl; clear Hl.
    + comm_run. eexists. split; [reflexivity|]. split; [reflexivity|].
      split; [constructor | reflexivity].
    + unfold local_transfer.
      destruct (dp =? GHOSTTRANS_FORCE)%Z;
        destruct (Z.land dp GHOSTTRANS_POSITION =? 0)%Z; comm_run;
        (eexists; split; [reflexivity|]; split; [reflexivity|];
         split; [|reflexivity]; repeat constructor; comm_entry_ok).
Qed.


(** The flags [GHOST_PREFETCH | GHOST_PSTSTORE] come in pairs: whenever a
    communication carries them it is a receive, and the communication that
    follows it is a send carrying them as well. *)
Fixpoint prefetch_paired (l : list GhostCommunication) : bool :=
  match l with
  | [] => true
  | e :: t =>
      if prefetch_pststore e then
        match gtype e, t with
        | GHOST_RECV, e' :: t' =>
            match gtype e' with
            | GHOST_SEND => prefetch_pststore e' && prefetch_paired t'
            | _ => false
            end
        | _, _ => false
        end
      else prefetch_paired t
  end.

Lemma layered_prepare_comm_pairs (dp : Z) :
  (0 <= this_node < n_nodes)%Z ->
  (forall d n, length (comm (prepare_comm d n)) = n) ->
  (LAYERED_BTM_NEIGHBOR (lstate tp) = true -> (1 < n_nodes)%Z ->
   (0 <= btm tp < n_nodes)%Z /\ btm tp <> this_node) ->
  (LAYERED_TOP_NEIGHBOR (lstate tp) = true -> (1 < n_nodes)%Z ->
   (0 <= top tp < n_nodes)%Z /\ top tp <> this_node) ->
  forall cm,
    layered_prepare_comm dp = Some cm -> prefetch_paired (comm cm) = true.
Proof.
  intros Hrank Hlen Hb Ht cm.
  unfold layered_prepare_comm, layered_comm_count.
  destruct (Z.ltb_spec 1 n_nodes) as [Hmany|Hone].
  - unfold downwards, upwards.
    destruct (rem2_cases this_node) as [[E0 E1]|[E0 E1]]; [lia| |];
      rewrite ?E0, ?E1;
      destruct (LAYERED_BTM_NEIGHBOR (lstate tp)) eqn:Eb;
      destruct (LAYERED_TOP_NEIGHBOR (lstate tp)) eqn:Et;
      cbn [negb andb]; rewrite ?andb_false_r, ?andb_true_r;
      try (destruct (Hb eq_refl Hmany) as [Hb1 Hb2];
           destruct (rem2_cases (btm tp)) as [[B0 B1]|[B0 B1]]; [lia| |];
           rewrite ?B0, ?B1);
      try (destruct (Ht eq_refl Hmany) as [Ht1 Ht2];
           destruct (rem2_cases (top tp)) as [[T0 T1]|[T0 T1]]; [lia| |];
           rewrite ?T0, ?T1);
      destruct (dp =? GHOSTTRANS_FORCE)%Z;
      destruct ((Z.land (layered_flags (lstate tp)) LAYERED_BTM_MASK
                 =? LAYERED_BTM_MASK)%Z
                && negb (Z.land dp GHOSTTRANS_POSITION =? 0)%Z);
      destruct ((Z.land (layered_flags (lstate tp)) LAYERED_TOP_MASK
                 =? LAYERED_TOP_MASK)%Z
                && negb (Z.land dp GHOSTTRANS_POSITION =? 0)%Z);
      match goal with
      | |- context [prepare_comm dp ?k] =>
          let k' := eval compute in k in
          change k with k';
          pose proof (Hlen dp k') as Hl;
          destruct (prepare_comm dp k') as [d0 l]
      end;
      cbn [comm length] in Hl;
      destruct l as [|e1 [|e2 [|e3 [|e4 [|e5 l]]]]]; try discriminate Hl;
      clear Hl;
      match goal with
      | |- ?X = Some cm -> _ =>
      let v := eval cbv -[Z.add Z.lor Qopp btm top lstate n_layers shift
                          layered_flags] in X in
      change X with v
      end; intro H; injection H as <-; reflexivity.
  - destruct (Z.land (layered_flags (lstate tp)) LAYERED_PERIODIC =? 0)%Z;
      cbn [negb];
      match goal with
      | |- context [prepare_comm dp ?k] =>
          let k' := eval compute in k in
          change k with k';
          pose proof (Hlen dp k') as Hl;
          destruct (prepare_comm dp k') as [d0 l]
      end;
      cbn [comm length] in Hl;
      destruct l as [|e1 [|e2 [|e3 l]]]; try discriminate Hl; clear Hl.
    + cbn. intro H. injection H as <-. reflexivity.
    + unfold local_transfer.
      destruct (dp =? GHOSTTRANS_FORCE)%Z;
        destruct (Z.land dp GHOSTTRANS_POSITION =? 0)%Z;
        match goal with
        | |- ?X = Some cm -> _ =>
            let v := eval cbv -[Z.add Z.lor Qopp btm top lstate n_layers shift
                                layered_flags] in X in
            change X with v
        end; intro H; injection H as <-; reflexivity.
Qed.


(** What a rank exchanges with one neighbour, in the order of its
    communicator.  With the rank above it receives (downward phase), then
    sends (upward phase); with the rank below it sends, then receives.  Two
    ranks along a periodic axis are above and below each other: the even one
    starts by sending, the odd one by receiving. *)
Lemma layered_prepare_comm_views (dp : Z) (cm : GhostCommunicator) :
  (0 <= this_node)%Z -> (1 < n_nodes)%Z ->
  (forall d n, length (comm (prepare_comm d n)) = n) ->
  (LAYERED_BTM_NEIGHBOR (lstate tp) = true -> (0 <= btm tp)%Z /\ True) ->
  (LAYERED_TOP_NEIGHBOR (lstate tp) = true -> (0 <= top tp)%Z /\ True) ->
  layered_prepare_comm dp = Some cm ->
  (LAYERED_TOP_NEIGHBOR (lstate tp) = true ->
   (LAYERED_BTM_NEIGHBOR (lstate tp) = true -> btm tp <> top tp) ->
   map gtype (filter (fun e => (node e =? top tp)%Z) (comm cm))
   = [GHOST_RECV; GHOST_SEND]) /\
  (LAYERED_BTM_NEIGHBOR (lstate tp) = true ->
   (LAYERED_TOP_NEIGHBOR (lstate tp) = true -> top tp <> btm tp) ->
   map gtype (filter (fun e => (node e =? btm tp)%Z) (comm cm))
   = [GHOST_SEND; GHOST_RECV]) /\
  (LAYERED_BTM_NEIGHBOR (lstate tp) = true ->
   LAYERED_TOP_NEIGHBOR (lstate tp) = true ->
   btm tp = top tp ->
   Z.rem (top tp) 2 = (1 - Z.rem this_node 2)%Z ->
   map gtype (filter (fun e => (node e =? top tp)%Z) (comm cm))
   = if (Z.rem this_node 2 =? 0)%Z
     then [GHOST_SEND; GHOST_RECV; GHOST_SEND; GHOST_RECV]
     else [GHOST_RECV; GHOST_SEND; GHOST_RECV; GHOST_SEND]).
Proof.
  intros Hrank Hmany Hlen Hb Ht.
  unfold layered_prepare_comm, layered_comm_count.
  destruct (Z.ltb_spec 1 n_nodes) as [_|Hone]; [|lia].
  unfold downwards, upwards.
  destruct (rem2_cases this_node) as [[E0 E1]|[E0 E1]]; [lia| |];
    rewrite ?E0, ?E1;
    destruct (LAYERED_BTM_NEIGHBOR (lstate tp)) eqn:Eb;
    destruct (LAYERED_TOP_NEIGHBOR (lstate tp)) eqn:Et;
    cbn [negb andb]; rewrite ?andb_false_r, ?andb_true_r;
    try (destruct (Hb eq_refl) as [Hb1 _];
         destruct (rem2_cases (btm tp)) as [[B0 B1]|[B0 B1]]; [lia| |];
         rewrite ?B0, ?B1);
    try (destruct (Ht eq_refl) as [Ht1 _];
         destruct (rem2_cases (top tp)) as [[T0 T1]|[T0 T1]]; [lia| |];
         rewrite ?T0, ?T1);
    destruct (dp =? GHOSTTRANS_FORCE)%Z;
    destruct ((Z.land (layered_flags (lstate tp)) LAYERED_BTM_MASK
               =? LAYERED_BTM_MASK)%Z
              && negb (Z.land dp GHOSTTRANS_POSITION =? 0)%Z);
    destruct ((Z.land (layered_flags (lstate tp)) LAYERED_TOP_MASK
               =? LAYERED_TOP_MASK)%Z
              && negb (Z.land dp GHOSTTRANS_POSITION =? 0)%Z);
    match goal with
    | |- context [prepare_comm dp ?k] =>
        let k' := eval compute in k in
        change k with k';
        pose proof (Hlen dp k') as Hl;
        destruct (prepare_comm dp k') as [d0 l]
    end;
    cbn [comm length] in Hl;
    destruct l as [|e1 [|e2 [|e3 [|e4 [|e5 l]]]]]; try discriminate Hl;
    clear Hl; comm_run; intro Hrun; injection Hrun as <-;
    ((split; [|split]);
    [ intros Htop Hne; try discriminate Htop;
      try (assert (Hbt : (btm tp =? top tp)%Z = false)
             by (apply Z.eqb_neq; apply Hne; reflexivity))
    | intros Hbtm Hne; try discriminate Hbtm;
      try (assert (Hbt : (top tp =? btm tp)%Z = false)
             by (apply Z.eqb_neq; apply Hne; reflexivity))
    | intros Hbtm Htop Hsame Hpar;
      try discriminate Hbtm; try discriminate Htop;
      try (exfalso; rewrite ?Hsame in *;
           repeat match goal with
                  | H : (_ =? _)%Z = true |- _ => apply Z.eqb_eq in H
                  | H : (_ =? _)%Z = false |- _ => apply Z.eqb_neq in H
                  end; lia);
      rewrite ?Hsame ]);
    repeat (cbn [comm filter map gtype node]; rewrite ?Z.eqb_refl, ?Hbt);
    reflexivity.
Qed.

End PrepareComm.


(** The neighbour ranks [layered_topology_init] computes exist and differ
    from the rank itself, whenever the flags announce the neighbour and there
    is more than one rank. *)
Lemma topology_btm_rank (this_node n_nodes : Z)
    (periodic determine_n_layers : bool) (n_layers_old : Z)
    (range local_len_z : Q) (max_num_cells : Z) (left : Vector3d) :
  let tp := layered_topology_vars this_node n_nodes periodic
              determine_n_layers n_layers_old range local_len_z
              max_num_cells left in
  (0 <= this_node < n_nodes)%Z ->
  LAYERED_BTM_NEIGHBOR (lstate tp) = true -> (1 < n_nodes)%Z ->
  (0 <= btm tp < n_nodes)%Z /\ btm tp <> this_node.
Proof.
  intros tp Hrank. subst tp. unfold layered_topology_vars.
  destruct (if (this_node =? 0)%Z && determine_n_layers then _ else _)
    as [n err].
  cbn [lstate btm]. intros Hb Hmany.
  destruct (layered_neighbors this_node n_nodes periodic
              (local_len_z / inject_Z n) (1 / (local_len_z / inject_Z n))
              n left) as [Eb _].
  cbv zeta in Eb. rewrite Eb in Hb. clear Eb.
  unfold layered_topology_flags.
  destruct (Z.eqb_spec this_node 0) as [E0|E0];
    destruct (Z.eqb_spec (this_node - 1) (-1)); try lia;
    destruct (this_node =? n_nodes - 1)%Z;
    destruct periodic; try discriminate Hb; cbn; lia.
Qed.

Lemma topology_top_rank (this_node n_nodes : Z)
    (periodic determine_n_layers : bool) (n_layers_old : Z)
    (range local_len_z : Q) (max_num_cells : Z) (left : Vector3d) :
  let tp := layered_topology_vars this_node n_nodes periodic
              determine_n_layers n_layers_old range local_len_z
              max_num_cells left in
  (0 <= this_node < n_nodes)%Z ->
  LAYERED_TOP_NEIGHBOR (lstate tp) = true -> (1 < n_nodes)%Z ->
  (0 <= top tp < n_nodes)%Z /\ top tp <> this_node.
Proof.
  intros tp Hrank. subst tp. unfold layered_topology_vars.
  destruct (if (this_node =? 0)%Z && determine_n_layers then _ else _)
    as [n err].
  cbn [lstate top]. intros Ht Hmany.
  destruct (layered_neighbors this_node n_nodes periodic
              (local_len_z / inject_Z n) (1 / (local_len_z / inject_Z n))
              n left) as [_ Et].
  cbv zeta in Et. rewrite Et in Ht. clear Et.
  unfold layered_topology_flags.
  destruct (Z.eqb_spec this_node (n_nodes - 1)) as [E0|E0];
    destruct (Z.eqb_spec (this_node + 1) n_nodes); try lia;
    destruct (this_node =? 0)%Z;
    destruct periodic; try discriminate Ht; cbn; lia.
Qed.

(** X13: on every rank of a topology set up by [layered_topology_init],
    [layered_prepare_comm] writes only communications it has allocated and
    fills all [n] of them; each names an existing partner rank and cells of
    the local array; between ranks each is a send to or a receive from
    another rank with one cell, on a single rank a local copy between two
    cells; and a rank posts as many sends as receives. *)
Theorem layered_prepare_comm_complete
    (GHOSTTRANS_FORCE GHOSTTRANS_POSITION GHOSTTRANS_POSSHFTD : Z)
    (prepare_comm : Z -> nat -> GhostCommunicator)
    (this_node n_nodes : Z) (periodic determine_n_layers : bool)
    (n_layers_old : Z) (range local_len_z : Q) (max_num_cells : Z)
    (left : Vector3d) (box_len_z : Q) (dp : Z) :
  let tp := layered_topology_vars this_node n_nodes periodic
              determine_n_layers n_layers_old range local_len_z
              max_num_cells left in
  (0 <= this_node < n_nodes)%Z ->
  (0 <= n_layers (lstate tp))%Z ->
  (forall d n, length (comm (prepare_comm d n)) = n) ->
  exists cm,
    layered_prepare_comm GHOSTTRANS_FORCE GHOSTTRANS_POSITION
      GHOSTTRANS_POSSHFTD prepare_comm this_node n_nodes tp box_len_z dp
      = Some cm /\
    length (comm cm) = Z.to_nat (layered_comm_count n_nodes tp) /\
    Forall (well_formed this_node n_nodes tp) (comm cm) /\
    count_type GHOST_SEND (comm cm) = count_type GHOST_RECV (comm cm).
Proof.
  intros tp Hrank Hn Hlen.
  apply layered_prepare_comm_fills; try assumption.
  - apply topology_btm_rank; exact Hrank.
  - apply topology_top_rank; exact Hrank.
Qed.

(** Rank 1 of three along a periodic z axis, exchanging positions: four
    communications. *)
Lemma layered_prepare_comm_complete_witness :
  exists cm,
    layered_prepare_comm 1 2 4
      (fun d n => mkCommunicator d
                    (repeat (mkComm GHOST_LOCL false 0 [] (mkV 0 0 0)) n))
      1 3 (layered_topology_vars 1 3 true false 4 1 2 32 (mkV 0 0 0)) 6 2
      = Some cm /\
    length (comm cm) = 4%nat.
Proof.
  destruct (layered_prepare_comm_complete 1 2 4
              (fun d n => mkCommunicator d
                            (repeat (mkComm GHOST_LOCL false 0 [] (mkV 0 0 0)) n))
              1 3 true false 4 1 2 32 (mkV 0 0 0) 6 2)
    as (cm & H1 & H2 & _).
  - lia.
  - vm_compute. discriminate.
  - intros d n. cbn [comm]. apply repeat_length.
  - exists cm. split; [exact H1 | exact H2].
Defined.


(** X14: in a communicator built by [layered_prepare_comm] the flags
    [GHOST_PREFETCH | GHOST_PSTSTORE] come in pairs: a communication that
    carries them is a receive, and the one right after it is a send that
    carries them too; hence no send is flagged without the receive before
    it, and the last communication never prefetches. *)
Theorem layered_prepare_comm_prefetch
    (GHOSTTRANS_FORCE GHOSTTRANS_POSITION GHOSTTRANS_POSSHFTD : Z)
    (prepare_comm : Z -> nat -> GhostCommunicator)
    (this_node n_nodes : Z) (periodic determine_n_layers : bool)
    (n_layers_old : Z) (range local_len_z : Q) (max_num_cells : Z)
    (left : Vector3d) (box_len_z : Q) (dp : Z) :
  let tp := layered_topology_vars this_node n_nodes periodic
              determine_n_layers n_layers_old range local_len_z
              max_num_cells left in
  (0 <= this_node < n_nodes)%Z ->
  (0 <= n_layers (lstate tp))%Z ->
  (forall d n, length (comm (prepare_comm d n)) = n) ->
  exists cm,
    layered_prepare_comm GHOSTTRANS_FORCE GHOSTTRANS_POSITION
      GHOSTTRANS_POSSHFTD prepare_comm this_node n_nodes tp box_len_z dp
      = Some cm /\
    prefetch_paired (comm cm) = true.
Proof.
  intros tp Hrank Hn Hlen.
  assert (Hb := topology_btm_rank this_node n_nodes periodic
                  determine_n_layers n_layers_old range local_len_z
                  max_num_cells left Hrank).
  assert (Ht := topology_top_rank this_node n_nodes periodic
                  determine_n_layers n_layers_old range local_len_z
                  max_num_cells left Hrank).
  destruct (layered_prepare_comm_fills GHOSTTRANS_FORCE GHOSTTRANS_POSITION
              GHOSTTRANS_POSSHFTD prepare_comm this_node n_nodes tp box_len_z
              dp Hrank Hn Hlen Hb Ht) as (cm & Hrun & _).
  exists cm. split; [exact Hrun|].
  exact (layered_prepare_comm_pairs GHOSTTRANS_FORCE GHOSTTRANS_POSITION
           GHOSTTRANS_POSSHFTD prepare_comm this_node n_nodes tp box_len_z dp
           Hrank Hlen Hb Ht cm Hrun).
Qed.

(** Rank 1 of three along a periodic z axis receives with prefetch, then
    sends the prefetched data, in both directions. *)
Lemma layered_prepare_comm_prefetch_witness :
  exists cm,
    layered_prepare_comm 1 2 4
      (fun d n => mkCommunicator d
                    (repeat (mkComm GHOST_LOCL false 0 [] (mkV 0 0 0)) n))
      1 3 (layered_topology_vars 1 3 true false 4 1 2 32 (mkV 0 0 0)) 6 2
      = Some cm /\
    map (fun e => (gtype e, prefetch_pststore e, node e)) (comm cm) =
      [(GHOST_RECV, true, 2%Z); (GHOST_SEND, true, 0%Z);
       (GHOST_RECV, true, 0%Z); (GHOST_SEND, true, 2%Z)] /\
    prefetch_paired (comm cm) = true.
Proof.
  destruct (layered_prepare_comm_prefetch 1 2 4
              (fun d n => mkCommunicator d
                            (repeat (mkComm GHOST_LOCL false 0 [] (mkV 0 0 0)) n))
              1 3 true false 4 1 2 32 (mkV 0 0 0) 6 2)
    as (cm & Hrun & Hp).
  - lia.
  - vm_compute. discriminate.
  - intros d n. cbn [comm]. apply repeat_length.
  - exists cm. split; [exact Hrun|]. split; [|exact Hp].
    vm_compute in Hrun. injection Hrun as <-. reflexivity.
Defined.


(** *** Neighbouring ranks *)

(** The neighbours and the flags of [layered_topology_init] in closed form. *)
Lemma topology_neighbours (this_node n_nodes : Z)
    (periodic determine_n_layers : bool) (n_layers_old : Z)
    (range local_len_z : Q) (max_num_cells : Z) (left : Vector3d) :
  let tp := layered_topology_vars this_node n_nodes periodic
              determine_n_layers n_layers_old range local_len_z
              max_num_cells left in
  top tp = (if (this_node + 1 =? n_nodes)%Z && periodic
            then 0 else this_node + 1)%Z /\
  btm tp = (if (this_node - 1 =? -1)%Z && periodic
            then n_nodes - 1 else this_node - 1)%Z /\
  LAYERED_BTM_NEIGHBOR (lstate tp)
  = negb ((this_node =? 0)%Z && negb periodic) /\
  LAYERED_TOP_NEIGHBOR (lstate tp)
  = negb ((this_node =? n_nodes - 1)%Z && negb periodic).
Proof.
  cbv zeta. unfold layered_topology_vars.
  destruct (if (this_node =? 0)%Z && determine_n_layers then _ else _)
    as [n err].
  cbn [lstate top btm].
  destruct (layered_neighbors this_node n_nodes periodic
              (local_len_z / inject_Z n) (1 / (local_len_z / inject_Z n))
              n left) as [Eb Et].
  cbv zeta in Eb, Et. rewrite Eb, Et.
  assert (Hp : negb (Z.land (layered_topology_flags this_node n_nodes periodic)
                       LAYERED_PERIODIC =? 0)%Z = periodic).
  { unfold layered_topology_flags.
    destruct (this_node =? 0)%Z; destruct (this_node =? n_nodes - 1)%Z;
      destruct periodic; reflexivity. }
  rewrite Hp. repeat split; reflexivity.
Qed.

(** The type of the matching communication on the partner rank. *)
Definition opposite (t : GhostType) : GhostType :=
  match t with
  | GHOST_SEND => GHOST_RECV
  | GHOST_RECV => GHOST_SEND
  | GHOST_LOCL => GHOST_LOCL
  end.

(** The types of the communications of [cm] with rank [partner], in the
    order in which the communicator runs them. *)
Definition exchanged_with (partner : Z) (cm : GhostCommunicator)
    : list GhostType :=
  map gtype (filter (fun e => (node e =? partner)%Z) (comm cm)).

Ltac rank_cases :=
  repeat match goal with
         | |- context [(?a =? ?b)%Z] =>
             destruct (Z.eqb_spec a b); cbn [andb negb] in *
         end;
  cbn [andb negb]; intros; try discriminate; try lia.

(** X30: with more than one rank, the communicators [layered_prepare_comm]
    builds on a rank and on the rank above it fit together: taken in order,
    the communications of the upper rank with the lower one are the
    opposites of those of the lower rank with the upper one, a receive for
    every send and a send for every receive; and the two ranks do
    communicate. *)
Theorem layered_prepare_comm_matching
    (GHOSTTRANS_FORCE GHOSTTRANS_POSITION GHOSTTRANS_POSSHFTD : Z)
    (prepare_comm : Z -> nat -> GhostCommunicator)
    (r n_nodes : Z) (periodic determine_n_layers : bool)
    (n_layers_old : Z) (range local_len_z : Q) (max_num_cells : Z)
    (left_r left_t : Vector3d) (box_len_z : Q) (dp : Z) :
  let tp_r := layered_topology_vars r n_nodes periodic determine_n_layers
                n_layers_old range local_len_z max_num_cells left_r in
  let t := top tp_r in
  let tp_t := layered_topology_vars t n_nodes periodic determine_n_layers
                n_layers_old range local_len_z max_num_cells left_t in
  (0 <= r < n_nodes)%Z -> (1 < n_nodes)%Z ->
  LAYERED_TOP_NEIGHBOR (lstate tp_r) = true ->
  (0 <= n_layers (lstate tp_r))%Z ->
  (0 <= n_layers (lstate tp_t))%Z ->
  (forall d n, length (comm (prepare_comm d n)) = n) ->
  exists cm_r cm_t,
    layered_prepare_comm GHOSTTRANS_FORCE GHOSTTRANS_POSITION
      GHOSTTRANS_POSSHFTD prepare_comm r n_nodes tp_r box_len_z dp
      = Some cm_r /\
    layered_prepare_comm GHOSTTRANS_FORCE GHOSTTRANS_POSITION
      GHOSTTRANS_POSSHFTD prepare_comm t n_nodes tp_t box_len_z dp
      = Some cm_t /\
    exchanged_with r cm_t = map opposite (exchanged_with t cm_r) /\
    exchanged_with t cm_r <> [].
Proof.
  intros tp_r t tp_t Hrank Hmany Htop Hnr Hnt Hlen.
  destruct (topology_neighbours r n_nodes periodic determine_n_layers
              n_layers_old range local_len_z max_num_cells left_r)
    as (Er_top & Er_btm & Er_b & Er_t).
  destruct (topology_neighbours t n_nodes periodic determine_n_layers
              n_layers_old range local_len_z max_num_cells left_t)
    as (Et_top & Et_btm & Et_b & Et_t).
  fold tp_r in Er_top, Er_btm, Er_b, Er_t.
  fold tp_t in Et_top, Et_btm, Et_b, Et_t.
  fold t in Er_top.
  assert (Hb_r := topology_btm_rank r n_nodes periodic determine_n_layers
                    n_layers_old range local_len_z max_num_cells left_r
                    Hrank).
  assert (Ht_r := topology_top_rank r n_nodes periodic determine_n_layers
                    n_layers_old range local_len_z max_num_cells left_r
                    Hrank).
  fold tp_r in Hb_r, Ht_r. fold t in Ht_r.
  destruct (Ht_r Htop Hmany) as [Ht_rank Ht_ne].
  assert (Hb_t := topology_btm_rank t n_nodes periodic determine_n_layers
                    n_layers_old range local_len_z max_num_cells left_t
                    Ht_rank).
  assert (Ht_t := topology_top_rank t n_nodes periodic determine_n_layers
                    n_layers_old range local_len_z max_num_cells left_t
                    Ht_rank).
  fold tp_t in Hb_t, Ht_t.
  destruct (layered_prepare_comm_fills GHOSTTRANS_FORCE GHOSTTRANS_POSITION
              GHOSTTRANS_POSSHFTD prepare_comm r n_nodes tp_r box_len_z
              dp Hrank Hnr Hlen Hb_r Ht_r) as (cm_r & Hrun_r & _).
  destruct (layered_prepare_comm_fills GHOSTTRANS_FORCE GHOSTTRANS_POSITION
              GHOSTTRANS_POSSHFTD prepare_comm t n_nodes tp_t box_len_z
              dp Ht_rank Hnt Hlen Hb_t Ht_t) as (cm_t & Hrun_t & _).
  exists cm_r, cm_t. split; [exact Hrun_r|]. split; [exact Hrun_t|].
  (* the rank above has this rank below it *)
  assert (Hbelow : btm tp_t = r /\ LAYERED_BTM_NEIGHBOR (lstate tp_t) = true).
  { rewrite Et_btm, Et_b. rewrite Er_t in Htop. revert Ht_rank Ht_ne Htop.
    rewrite Er_top.
    destruct (Z.eqb_spec (r + 1) n_nodes); destruct (Z.eqb_spec r (n_nodes - 1));
      try lia; destruct periodic; cbn [andb negb]; intros;
      try discriminate;
      repeat match goal with
             | |- context [(?a =? ?b)%Z] => destruct (Z.eqb_spec a b)
             end; cbn [andb negb]; try lia; split; try reflexivity; lia. }
  destruct Hbelow as [Hbtm_t Hb_true].
  assert (Vr := layered_prepare_comm_views GHOSTTRANS_FORCE GHOSTTRANS_POSITION
                  GHOSTTRANS_POSSHFTD prepare_comm r n_nodes tp_r box_len_z
                  dp cm_r).
  assert (Vt := layered_prepare_comm_views GHOSTTRANS_FORCE GHOSTTRANS_POSITION
                  GHOSTTRANS_POSSHFTD prepare_comm t n_nodes tp_t box_len_z
                  dp cm_t).
  unfold exchanged_with.
  assert (Hb1 : LAYERED_BTM_NEIGHBOR (lstate tp_r) = true ->
                (0 <= btm tp_r)%Z /\ True).
  { intro Hx. destruct (Hb_r Hx Hmany) as [[? ?] ?]. split; [assumption|exact I]. }
  assert (Ht1 : LAYERED_TOP_NEIGHBOR (lstate tp_r) = true ->
                (0 <= top tp_r)%Z /\ True).
  { intros _. split; [apply Ht_rank | exact I]. }
  assert (Hb2 : LAYERED_BTM_NEIGHBOR (lstate tp_t) = true ->
                (0 <= btm tp_t)%Z /\ True).
  { intro Hx. destruct (Hb_t Hx Hmany) as [[? ?] ?]. split; [assumption|exact I]. }
  assert (Ht2 : LAYERED_TOP_NEIGHBOR (lstate tp_t) = true ->
                (0 <= top tp_t)%Z /\ True).
  { intro Hx. destruct (Ht_t Hx Hmany) as [[? ?] ?]. split; [assumption|exact I]. }
  destruct (Vr (proj1 Hrank) Hmany Hlen Hb1 Ht1 Hrun_r) as (Vr1 & _ & Vr3).
  destruct (Vt (proj1 Ht_rank) Hmany Hlen Hb2 Ht2 Hrun_t) as (_ & Vt2 & Vt3).
  clear Vr Vt. fold t in Vr1, Vr3.
  pose proof Htop as Htop'. rewrite Er_t in Htop'.
  destruct (Z.eq_dec n_nodes 2) as [E2|E2];
    [destruct (bool_dec periodic true) as [Ep|Ep]|].
  - (* two ranks along a periodic axis *)
    assert (Hpair : btm tp_r = t /\ top tp_t = r /\
                    LAYERED_BTM_NEIGHBOR (lstate tp_r) = true /\
                    LAYERED_TOP_NEIGHBOR (lstate tp_t) = true /\
                    Z.rem t 2 = (1 - Z.rem r 2)%Z /\
                    Z.rem r 2 = (1 - Z.rem t 2)%Z /\
                    (r = 0 \/ r = 1)%Z).
    { rewrite Er_btm, Et_top, Er_b, Et_t, Er_top, Ep, E2.
      assert (Hr : (r = 0 \/ r = 1)%Z) by lia.
      destruct Hr as [Hr|Hr]; rewrite Hr; cbn;
        repeat split; try reflexivity; lia. }
    destruct Hpair as (P1 & P2 & P3 & P4 & P5 & P6 & P7).
    specialize (Vr3 P3 Htop P1 P5).
    assert (P8 : btm tp_t = top tp_t) by (rewrite Hbtm_t, P2; reflexivity).
    rewrite <- P2 in P6.
    specialize (Vt3 Hb_true P4 P8 P6). rewrite P2 in Vt3.
    rewrite Vt3, Vr3, P5.
    destruct P7 as [Hr|Hr]; rewrite Hr; cbn;
      (split; [reflexivity | discriminate]).
  - (* two ranks, not periodic: the lower and the upper one *)
    rewrite Hbtm_t in Vt2.
    assert (Q1 : LAYERED_BTM_NEIGHBOR (lstate tp_r) = true -> btm tp_r <> t).
    { revert Ht_rank Ht_ne Htop'.
      rewrite ?Er_b, ?Er_btm, ?Er_top.
      destruct periodic; [congruence|]. rank_cases. }
    assert (Q2 : LAYERED_TOP_NEIGHBOR (lstate tp_t) = true -> top tp_t <> r).
    { revert Ht_rank Ht_ne Htop'.
      rewrite ?Et_t, ?Et_top, ?Er_top.
      destruct periodic; [congruence|]. rank_cases. }
    rewrite (Vt2 Hb_true Q2), (Vr1 Htop Q1).
    split; [reflexivity | discriminate].
  - (* three ranks or more: the neighbours differ *)
    rewrite Hbtm_t in Vt2.
    assert (Q1 : LAYERED_BTM_NEIGHBOR (lstate tp_r) = true -> btm tp_r <> t).
    { revert Ht_rank Ht_ne Htop'.
      rewrite ?Er_b, ?Er_btm, ?Er_top.
      destruct periodic; rank_cases. }
    assert (Q2 : LAYERED_TOP_NEIGHBOR (lstate tp_t) = true -> top tp_t <> r).
    { revert Ht_rank Ht_ne Htop'.
      rewrite ?Et_t, ?Et_top, ?Er_top.
      destruct periodic; rank_cases. }
    rewrite (Vt2 Hb_true Q2), (Vr1 Htop Q1).
    split; [reflexivity | discriminate].
Qed.


(** Two ranks along a periodic z axis: rank 0 sends, receives, sends and
    receives, while rank 1 receives, sends, receives and sends. *)
Lemma layered_prepare_comm_matching_witness :
  exists cm_r cm_t,
    layered_prepare_comm 1 2 4
      (fun d n => mkCommunicator d
                    (repeat (mkComm GHOST_LOCL false 0 [] (mkV 0 0 0)) n))
      0 2 (layered_topology_vars 0 2 true false 4 1 2 32 (mkV 0 0 0)) 4 2
      = Some cm_r /\
    layered_prepare_comm 1 2 4
      (fun d n => mkCommunicator d
                    (repeat (mkComm GHOST_LOCL false 0 [] (mkV 0 0 0)) n))
      1 2 (layered_topology_vars 1 2 true false 4 1 2 32 (mkV 0 0 2)) 4 2
      = Some cm_t /\
    exchanged_with 1 cm_r
    = [GHOST_SEND; GHOST_RECV; GHOST_SEND; GHOST_RECV] /\
    exchanged_with 0 cm_t
    = [GHOST_RECV; GHOST_SEND; GHOST_RECV; GHOST_SEND].
Proof.
  destruct (layered_prepare_comm_matching 1 2 4
              (fun d n => mkCommunicator d
                            (repeat (mkComm GHOST_LOCL false 0 [] (mkV 0 0 0)) n))
              0 2 true false 4 1 2 32 (mkV 0 0 0) (mkV 0 0 2) 4 2)
    as (cm_r & cm_t & H1 & H2 & H3 & _).
  - lia.
  - lia.
  - vm_compute. reflexivity.
  - vm_compute. discriminate.
  - vm_compute. discriminate.
  - intros d n. cbn [comm]. apply repeat_length.
  - exists cm_r, cm_t. split; [exact H1|]. split; [exact H2|].
    vm_compute in H1. injection H1 as <-.
    vm_compute in H2. injection H2 as <-.
    split; reflexivity.
Defined.

End Layered.

(** ** MMM2D: tuning of the near formula (mmm2d.cpp) *)

Module MMM2D.

Definition MAXIMAL_B_CUT : Z := 50.
Definition MAXIMAL_POLYGAMMA : Z := 100.
Definition COMPLEX_STEP : Z := 16.
Definition COMPLEX_FAC : Q := inject_Z COMPLEX_STEP / (0.5 + 0.01).

Definition ERROR_LARGE : Z := 1.
Definition ERROR_BOXL : Z := 2.
Definition ERROR_BESSEL : Z := 3.
Definition ERROR_POLY : Z := 4.
Definition ERROR_FARC : Z := 5.
Definition ERROR_SMALL : Z := 6.
Definition ERROR_ICL : Z := 7.

(** The file-scope variables of mmm2d.cpp that the tuning reads or writes,
    and the box lengths. *)
Record MMM2D_state : Type := mkMMM2D {
  ux : Q;
  uy : Q;
  max_near : Q;
  min_far : Q;
  part_error : Q;
  besselCutoff : list Z;
  complexCutoff : list Z;
  bon : list Q;
  box_l : Vector3d
}.

Definition set_part_error (st : MMM2D_state) (x : Q) : MMM2D_state :=
  mkMMM2D (ux st) (uy st) (max_near st) (min_far st) x (besselCutoff st)
          (complexCutoff st) (bon st) (box_l st).

Definition set_besselCutoff (st : MMM2D_state) (l : list Z) : MMM2D_state :=
  mkMMM2D (ux st) (uy st) (max_near st) (min_far st) (part_error st) l
          (complexCutoff st) (bon st) (box_l st).

Definition set_complexCutoff (st : MMM2D_state) (l : list Z) : MMM2D_state :=
  mkMMM2D (ux st) (uy st) (max_near st) (min_far st) (part_error st)
          (besselCutoff st) l (bon st) (box_l st).

Definition set_bon (st : MMM2D_state) (l : list Q) : MMM2D_state :=
  mkMMM2D (ux st) (uy st) (max_near st) (min_far st) (part_error st)
          (besselCutoff st) (complexCutoff st) l (box_l st).

(** The integers [lo, lo+1, ..., hi]. *)
Definition zrange (lo hi : Z) : list Z :=
  map (fun k => (lo + Z.of_nat k)%Z) (seq 0 (Z.to_nat (hi - lo + 1))).

(** BernoulliB[2 n]/(2 n)!(2 Pi)^(2n) up to order 33. *)
Definition bon_table : list Q :=
  [ 1.0000000000000000000;  3.2898681336964528729;  -2.1646464674222763830;
    2.0346861239688982794;  -2.0081547123958886788; 2.0019891502556361707;
    -2.0004921731066160966; 2.0001224962701174097;  -2.0000305645188173037;
    2.0000076345865299997;  -2.0000019079240677456; 2.0000004769010054555;
    -2.0000001192163781025; 2.0000000298031096567;  -2.0000000074506680496;
    2.0000000018626548648;  -2.0000000004656623667; 2.0000000001164154418;
    -2.0000000000291038438; 2.0000000000072759591;  -2.0000000000018189896;
    2.0000000000004547474;  -2.0000000000001136868; 2.0000000000000284217;
    -2.0000000000000071054; 2.0000000000000017764;  -2.0000000000000004441;
    2.0000000000000001110;  -2.0000000000000000278; 2.0000000000000000069;
    -2.0000000000000000017; 2.0000000000000000004;  -2.0000000000000000001;
    2.0000000000000000000 ].

(** [prepareBernoulliNumbers]: the table [bon] after the call. *)
Definition prepareBernoulliNumbers (uy : Q) (bon_order : Z) : list Q :=
  let bon_order := if (bon_order <? 2)%Z then 2%Z else bon_order in
  map (fun l =>
         if (l <? 34)%Z then 2 * uy * nth (Z.to_nat l) bon_table 0
         else if Z.odd l then 4.0 * uy else -4.0 * uy)
      (zrange 1 bon_order).

Section TuneNear.

(** libm and specfunc.cpp. *)
Variable exp log : Q -> Q.
Variable K1 : Q -> Q.
Variable mod_psi_even : Z -> Q -> Q.
(** [M_PI], [M_SQRT2] and [C_2PI] as the headers define them. *)
Variable M_PI M_SQRT2 C_2PI : Q.

(** [sum] of the Bessel loop: the sum over [p = 1 .. P] of
    [p * exp (-exponent * p)]. *)
Definition bessel_sum (exponent : Q) (P : Z) : Q :=
  fold_left (fun sum p => sum + inject_Z p * exp (- exponent * inject_Z p))
            (zrange 1 P) 0.

(** [err] computed by one pass of the Bessel loop for the cutoff [P]. *)
Definition bessel_err (st : MMM2D_state) (P : Z) : Q :=
  let exponent := M_PI * ux st * vget (box_l st) 1 in
  let T := exp exponent / exponent in
  let pref := 8 * ux st * dmax (C_2PI * ux st) 1.0 in
  let L := M_PI * ux st * inject_Z (P - 1) in
  pref * K1 (vget (box_l st) 1 * L)
  * (T * ((L + uy st) / M_PI * vget (box_l st) 0 - 1) + bessel_sum exponent P).

(** The [do ... while] loop on [P]: the value of [P] when the loop is left;
    [rem] bounds the number of further passes. *)
Fixpoint bessel_loop (st : MMM2D_state) (rem : nat) (P : Z) : Z :=
  let err := bessel_err st P in
  let P' := (P + 1)%Z in
  if Qgtb err (part_error st) && (P' - 1 <? MAXIMAL_B_CUT)%Z then
    match rem with
    | O => P'
    | S rem' => bessel_loop st rem' P'
    end
  else P'.

(** The [do ... while] loop on the polygamma order [n]. *)
Fixpoint polygamma_loop (st : MMM2D_state) (uxrhomax2 : Q) (rem : nat)
    (n : Z) (uxrho2m2max : Q) : Z :=
  let err := 2 * inject_Z n * Qabs (mod_psi_even n 0.5) * uxrho2m2max in
  let uxrho2m2max' := uxrho2m2max * uxrhomax2 in
  let n' := (n + 1)%Z in
  if Qgtb err (0.1 * part_error st) && (n' <? MAXIMAL_POLYGAMMA)%Z then
    match rem with
    | O => n'
    | S rem' => polygamma_loop st uxrhomax2 rem' n' uxrho2m2max'
    end
  else n'.

(** [besselCutoff] after [resize (P)] and the loop that fills its first
    [P - 1] entries. *)
Definition fill_besselCutoff (old : list Z) (P : Z) : list Z :=
  map (fun p => (Qfloor (inject_Z P / inject_Z (2 * p)) + 1)%Z) (zrange 1 (P - 1))
  ++ [nth (Z.to_nat (P - 1)) old 0%Z].

(** [complexCutoff[0 .. COMPLEX_STEP]]. *)
Definition fill_complexCutoff (T : Q) : list Z :=
  0%Z :: map (fun i => Qceiling (T / log (inject_Z i / COMPLEX_FAC)))
             (zrange 1 COMPLEX_STEP).

(** [MMM2D_tune_near (error)]: the return value and the state afterwards.
    The tables of modified polygamma functions that [create_mod_psi_up_to]
    extends belong to specfunc.cpp and are not part of the state. *)
Definition MMM2D_tune_near (error : Q) (st : MMM2D_state) : Z * MMM2D_state :=
  if Qgtb (max_near st) (vget (box_l st) 1 / 2) then (ERROR_LARGE, st)
  else if Qltb (min_far st) 0 then (ERROR_SMALL, st)
  else if Qgeb (ux st * vget (box_l st) 1) (3 / M_SQRT2) then (ERROR_BOXL, st)
  else
    let st1 := set_part_error st (error / 3) in
    let P := (bessel_loop st1 (Z.to_nat MAXIMAL_B_CUT) 2 - 1)%Z in
    if (P =? MAXIMAL_B_CUT)%Z then (ERROR_BESSEL, st1)
    else
      let st2 := set_besselCutoff st1 (fill_besselCutoff (besselCutoff st1) P) in
      let T := log (part_error st2 / (16 * M_SQRT2)
                    * vget (box_l st2) 0 * vget (box_l st2) 1) in
      let st3 := set_complexCutoff st2 (fill_complexCutoff T) in
      let st4 := set_bon st3
                   (prepareBernoulliNumbers (uy st3)
                      (nth (Z.to_nat COMPLEX_STEP) (complexCutoff st3) 0%Z)) in
      let uxrhomax2 := sqr (ux st4 * vget (box_l st4) 1) / 2 in
      let n := polygamma_loop st4 uxrhomax2 (Z.to_nat MAXIMAL_POLYGAMMA) 1 1.0 in
      if (n =? MAXIMAL_POLYGAMMA)%Z then (ERROR_POLY, st4)
      else (0%Z, st4).

(** The bound [rem] never cuts the Bessel loop short: any two bounds of at
    least [MAXIMAL_B_CUT - P] passes give the same cutoff. *)
Lemma bessel_loop_enough (st : MMM2D_state) (rem1 : nat) :
  forall (rem2 : nat) (P : Z),
  (MAXIMAL_B_CUT - P <= Z.of_nat rem1)%Z ->
  (MAXIMAL_B_CUT - P <= Z.of_nat rem2)%Z ->
  bessel_loop st rem1 P = bessel_loop st rem2 P.
Proof.
  unfold MAXIMAL_B_CUT.
  induction rem1 as [|rem1 IH]; intros rem2 P H1 H2.
  - destruct rem2 as [|rem2]; [reflexivity|].
    cbn [bessel_loop]. unfold MAXIMAL_B_CUT.
    destruct (Z.ltb_spec (P + 1 - 1) 50); [lia|].
    rewrite andb_false_r. reflexivity.
  - destruct rem2 as [|rem2]; cbn [bessel_loop]; unfold MAXIMAL_B_CUT.
    + destruct (Z.ltb_spec (P + 1 - 1) 50); [lia|].
      rewrite andb_false_r. reflexivity.
    + destruct (Qgtb _ _ && _); [|reflexivity].
      apply IH; lia.
Qed.

Lemma polygamma_loop_enough (st : MMM2D_state) (u : Q) (rem1 : nat) :
  forall (rem2 : nat) (n : Z) (x : Q),
  (MAXIMAL_POLYGAMMA - 1 - n <= Z.of_nat rem1)%Z ->
  (MAXIMAL_POLYGAMMA - 1 - n <= Z.of_nat rem2)%Z ->
  polygamma_loop st u rem1 n x = polygamma_loop st u rem2 n x.
Proof.
  unfold MAXIMAL_POLYGAMMA.
  induction rem1 as [|rem1 IH]; intros rem2 n x H1 H2.
  - destruct rem2 as [|rem2]; [reflexivity|].
    cbn [polygamma_loop]. unfold MAXIMAL_POLYGAMMA.
    destruct (Z.ltb_spec (n + 1) 100); [lia|].
    rewrite andb_false_r. reflexivity.
  - destruct rem2 as [|rem2]; cbn [polygamma_loop]; unfold MAXIMAL_POLYGAMMA.
    + destruct (Z.ltb_spec (n + 1) 100); [lia|].
      rewrite andb_false_r. reflexivity.
    + destruct (Qgtb _ _ && _); [|reflexivity].
      apply IH; lia.
Qed.

(** C7: [MMM2D_tune_near] returns [ERROR_LARGE] (1) when
    [max_near > Ly/2]; [ERROR_SMALL] (6) when [max_near <= Ly/2] and
    [min_far < 0]; [ERROR_BOXL] (2) when in addition to [max_near <= Ly/2]
    and [min_far >= 0] the box has [ux * Ly >= 3/sqrt 2]; and when all three
    preconditions hold none of these three codes is returned (the result is
    0, [ERROR_BESSEL] or [ERROR_POLY]). *)
Theorem MMM2D_tune_near_preconditions (error : Q) (st : MMM2D_state) :
  let Ly := vget (box_l st) 1 in
  let code := fst (MMM2D_tune_near error st) in
  (ERROR_LARGE = 1%Z /\ ERROR_SMALL = 6%Z /\ ERROR_BOXL = 2%Z) /\
  (Ly / 2 < max_near st -> code = ERROR_LARGE) /\
  (max_near st <= Ly / 2 -> min_far st < 0 -> code = ERROR_SMALL) /\
  (max_near st <= Ly / 2 -> 0 <= min_far st -> 3 / M_SQRT2 <= ux st * Ly ->
     code = ERROR_BOXL) /\
  (max_near st <= Ly / 2 -> 0 <= min_far st -> ux st * Ly < 3 / M_SQRT2 ->
     code <> ERROR_LARGE /\ code <> ERROR_SMALL /\ code <> ERROR_BOXL /\
     (code = 0%Z \/ code = ERROR_BESSEL \/ code = ERROR_POLY)).
Proof.
  cbv zeta. unfold MMM2D_tune_near.
  split; [repeat split|].
  split; [|split; [|split]].
  - intro H. apply Qgtb_gt in H. rewrite H. reflexivity.
  - intros H1 H2. apply Qgtb_le in H1. apply Qltb_lt in H2.
    rewrite H1, H2. reflexivity.
  - intros H1 H2 H3. apply Qgtb_le in H1. apply Qltb_ge in H2.
    apply Qgeb_ge in H3. rewrite H1, H2, H3. reflexivity.
  - intros H1 H2 H3. apply Qgtb_le in H1. apply Qltb_ge in H2.
    apply Qgeb_lt in H3. rewrite H1, H2, H3.
    destruct (_ =? MAXIMAL_B_CUT)%Z.
    + cbn [fst]. unfold ERROR_BESSEL, ERROR_LARGE, ERROR_SMALL, ERROR_BOXL.
      repeat split; try discriminate. right; left; reflexivity.
    + destruct (_ =? MAXIMAL_POLYGAMMA)%Z; cbn [fst];
        unfold ERROR_POLY, ERROR_LARGE, ERROR_SMALL, ERROR_BOXL;
        repeat split; try discriminate; auto.
Qed.


(** *** The far formula cutoff and the common parts *)

Definition MAXIMAL_FAR_CUT : Q := 100.

(** [std::min]. *)
Definition dmin (a b : Q) : Q := if Qltb b a then b else a.

Inductive CellStructureType : Type :=
  | CELL_STRUCTURE_NSQUARE
  | CELL_STRUCTURE_LAYERED
  | CELL_STRUCTURE_other.

Inductive CoulombMethod : Type :=
  | COULOMB_NONE
  | COULOMB_MMM2D
  | COULOMB_other.

(** [mmm2d_params]. *)
Record MMM2D_struct : Type := mkParams {
  maxPWerror : Q;
  far_cut : Q;
  far_cut2 : Q;
  far_calculated : Z;
  dielectric_contrast_on : bool;
  const_pot_on : bool;
  pot_diff : Q;
  delta_mid_top : Q;
  delta_mid_bot : Q;
  delta_mult : Q
}.

(** What the common parts of mmm2d.cpp read and write besides the tuning
    state [near]: [mmm2d_params], [cell_structure.type], [n_nodes],
    [n_layers] and [layer_h] of the layered cell system, [skin], and
    [coulomb.method]. *)
Record MMM2D_env : Type := mkEnv {
  near : MMM2D_state;
  mmm2d_params : MMM2D_struct;
  cell_type : CellStructureType;
  n_nodes : Z;
  n_layers : Z;
  layer_h : Q;
  skin : Q;
  coulomb_method : CoulombMethod
}.

Definition set_near (e : MMM2D_env) (st : MMM2D_state) : MMM2D_env :=
  mkEnv st (mmm2d_params e) (cell_type e) (n_nodes e) (n_layers e)
        (layer_h e) (skin e) (coulomb_method e).

Definition set_mmm2d_params (e : MMM2D_env) (p : MMM2D_struct) : MMM2D_env :=
  mkEnv (near e) p (cell_type e) (n_nodes e) (n_layers e)
        (layer_h e) (skin e) (coulomb_method e).

Definition set_coulomb_method (e : MMM2D_env) (m : CoulombMethod) : MMM2D_env :=
  mkEnv (near e) (mmm2d_params e) (cell_type e) (n_nodes e) (n_layers e)
        (layer_h e) (skin e) m.

Definition set_far_cut (p : MMM2D_struct) (x : Q) : MMM2D_struct :=
  mkParams (maxPWerror p) x (far_cut2 p) (far_calculated p)
           (dielectric_contrast_on p) (const_pot_on p) (pot_diff p)
           (delta_mid_top p) (delta_mid_bot p) (delta_mult p).

Definition set_far_cut2 (p : MMM2D_struct) (x : Q) : MMM2D_struct :=
  mkParams (maxPWerror p) (far_cut p) x (far_calculated p)
           (dielectric_contrast_on p) (const_pot_on p) (pot_diff p)
           (delta_mid_top p) (delta_mid_bot p) (delta_mult p).

Definition set_far_calculated (p : MMM2D_struct) (x : Z) : MMM2D_struct :=
  mkParams (maxPWerror p) (far_cut p) (far_cut2 p) x
           (dielectric_contrast_on p) (const_pot_on p) (pot_diff p)
           (delta_mid_top p) (delta_mid_bot p) (delta_mult p).

(** [err] of the far formula for the cutoff [fc]. *)
Definition far_err (e : MMM2D_env) (fc : Q) : Q :=
  exp (-2 * M_PI * fc * min_far (near e)) / min_far (near e)
  * (C_2PI * fc + 2 * (ux (near e) + uy (near e)) + 1 / min_far (near e)).

(** The [do ... while] loop of [MMM2D_tune_far]: [far_cut] when the loop is
    left, [None] when it is still running after [fuel] passes. *)
Fixpoint tune_far_loop (e : MMM2D_env) (error min_inv_boxl : Q) (fuel : nat)
    (fc : Q) : option Q :=
  match fuel with
  | O => None
  | S fuel' =>
      let err := far_err e fc in
      let fc' := fc + min_inv_boxl in
      if Qgtb err error && Qltb (fc' * layer_h e) MAXIMAL_FAR_CUT
      then tune_far_loop e error min_inv_boxl fuel' fc'
      else Some fc'
  end.

(** [MMM2D_tune_far (error)]: the return value and the state afterwards. *)
Definition MMM2D_tune_far (fuel : nat) (error : Q) (e : MMM2D_env)
    : option (Z * MMM2D_env) :=
  let min_inv_boxl := dmin (ux (near e)) (uy (near e)) in
  match tune_far_loop e error min_inv_boxl fuel min_inv_boxl with
  | None => None
  | Some fc =>
      let p1 := set_far_cut (mmm2d_params e) fc in
      if Qgeb (fc * layer_h e) MAXIMAL_FAR_CUT
      then Some (ERROR_FARC, set_mmm2d_params e p1)
      else
        let p2 := set_far_cut p1 (far_cut p1 - min_inv_boxl) in
        let p3 := set_far_cut2 p2 (sqr (far_cut p2)) in
        Some (0%Z, set_mmm2d_params e p3)
  end.

(** The loop leaves after [n + 1] passes for some [n]: all passes before the
    last found the error too large and the next cutoff admissible, the last
    one did not. *)
Lemma tune_far_loop_spec (e : MMM2D_env) (error m : Q) (fuel : nat) :
  forall (fc r : Q),
  tune_far_loop e error m fuel fc = Some r ->
  exists n : nat,
    r == fc + inject_Z (Z.of_nat n + 1) * m /\
    (forall i : nat, (i < n)%nat ->
       exists x, x == fc + inject_Z (Z.of_nat i) * m /\
                 error < far_err e x /\
                 (x + m) * layer_h e < MAXIMAL_FAR_CUT) /\
    exists x, x == fc + inject_Z (Z.of_nat n) * m /\ r = x + m /\
              (far_err e x <= error \/ MAXIMAL_FAR_CUT <= r * layer_h e).
Proof.
  induction fuel as [|fuel IH]; intros fc r; cbn [tune_far_loop].
  - discriminate.
  - destruct (Qgtb (far_err e fc) error) eqn:Eerr;
      [destruct (Qltb ((fc + m) * layer_h e) MAXIMAL_FAR_CUT) eqn:Ecut|];
      cbn [andb].
    + intro Hr. destruct (IH _ _ Hr) as (n & Hn & Hbefore & x & Hx & Hrx & Hlast).
      exists (S n). split; [|split].
      * rewrite Hn. rewrite Nat2Z.inj_succ. unfold Z.succ.
        rewrite !inject_Z_plus. change (inject_Z 1) with 1. ring.
      * intros i Hi. destruct i as [|i].
        -- exists fc. split; [cbn; ring|]. split.
           ++ apply Qgtb_gt. exact Eerr.
           ++ apply Qltb_lt. exact Ecut.
        -- destruct (Hbefore i ltac:(lia)) as (y & Hy & H1 & H2).
           exists y. split; [|split; assumption].
           rewrite Hy. rewrite Nat2Z.inj_succ. unfold Z.succ.
           rewrite !inject_Z_plus. change (inject_Z 1) with 1. ring.
      * exists x. split; [|split; assumption].
        rewrite Hx. rewrite Nat2Z.inj_succ. unfold Z.succ.
        rewrite !inject_Z_plus. change (inject_Z 1) with 1. ring.
    + intro Hr. injection Hr as <-. exists 0%nat. split; [|split].
      * cbn. ring.
      * intros i Hi. lia.
      * exists fc. split; [cbn; ring|]. split; [reflexivity|].
        right. apply Qltb_ge. exact Ecut.
    + intro Hr. injection Hr as <-. exists 0%nat. split; [|split].
      * cbn. ring.
      * intros i Hi. lia.
      * exists fc. split; [cbn; ring|]. split; [reflexivity|].
        left. apply Qgtb_le. exact Eerr.
Qed.

(** With a positive step [m * layer_h] the loop ends: [fuel + 1] passes are
    enough once [fuel] further steps carry the cutoff past the maximum. *)
Lemma tune_far_loop_terminates (e : MMM2D_env) (error m : Q) (fuel : nat) :
  forall fc : Q,
  MAXIMAL_FAR_CUT - (fc + m) * layer_h e
    <= inject_Z (Z.of_nat fuel) * (m * layer_h e) ->
  exists r, tune_far_loop e error m (S fuel) fc = Some r.
Proof.
  induction fuel as [|fuel IH]; intros fc Hfuel.
  - cbn [tune_far_loop].
    destruct (Qltb ((fc + m) * layer_h e) MAXIMAL_FAR_CUT) eqn:Ecut.
    + apply Qltb_lt in Ecut. change (inject_Z (Z.of_nat 0)) with 0 in Hfuel.
      exfalso. lra.
    + rewrite andb_false_r. eexists. reflexivity.
  - change (tune_far_loop e error m (S (S fuel)) fc)
      with (if Qgtb (far_err e fc) error
               && Qltb ((fc + m) * layer_h e) MAXIMAL_FAR_CUT
            then tune_far_loop e error m (S fuel) (fc + m)
            else Some (fc + m)).
    destruct (Qgtb (far_err e fc) error
              && Qltb ((fc + m) * layer_h e) MAXIMAL_FAR_CUT);
      [|eexists; reflexivity].
    apply IH. rewrite Nat2Z.inj_succ in Hfuel. unfold Z.succ in Hfuel.
    rewrite inject_Z_plus in Hfuel. change (inject_Z 1) with 1 in Hfuel.
    lra.
Qed.


(** A number of passes that suffices for the loop of [MMM2D_tune_far]. *)
Definition far_passes (e : MMM2D_env) : nat :=
  S (Z.to_nat (Qceiling (MAXIMAL_FAR_CUT
                         / (dmin (ux (near e)) (uy (near e)) * layer_h e)))).

Lemma far_err_compat (e : MMM2D_env) :
  (forall x y, x == y -> exp x == exp y) ->
  forall x y, x == y -> far_err e x == far_err e y.
Proof.
  intros Hexp x y Hxy. unfold far_err.
  rewrite (Hexp (-2 * M_PI * x * min_far (near e))
                (-2 * M_PI * y * min_far (near e))) by (rewrite Hxy; reflexivity).
  rewrite Hxy. reflexivity.
Qed.

(** X15: [MMM2D_tune_far] ends whenever the step [min (ux, uy) * layer_h] is
    positive, and touches nothing but [far_cut] and [far_cut2].  When it
    returns 0 the cutoff stored is the smallest positive multiple [k * min
    (ux, uy)] whose error estimate does not exceed [error]: the estimate of
    every smaller multiple does; the next multiple is still below
    [MAXIMAL_FAR_CUT / layer_h], and [far_cut2] is its square.  Otherwise it
    returns [ERROR_FARC] with [far_cut * layer_h >= MAXIMAL_FAR_CUT] and
    [far_cut2] as it was. *)
Theorem MMM2D_tune_far_minimal (fuel : nat) (error : Q) (e : MMM2D_env) :
  let m := dmin (ux (near e)) (uy (near e)) in
  (forall x y, x == y -> exp x == exp y) ->
  0 < m * layer_h e ->
  (far_passes e <= fuel)%nat ->
  exists code e',
    MMM2D_tune_far fuel error e = Some (code, e') /\
    e' = set_mmm2d_params e
           (set_far_cut2 (set_far_cut (mmm2d_params e)
                                      (far_cut (mmm2d_params e')))
                         (far_cut2 (mmm2d_params e'))) /\
    (code = 0%Z \/ code = ERROR_FARC) /\
    (code = 0%Z ->
     far_cut2 (mmm2d_params e') = sqr (far_cut (mmm2d_params e')) /\
     far_err e (far_cut (mmm2d_params e')) <= error /\
     (far_cut (mmm2d_params e') + m) * layer_h e < MAXIMAL_FAR_CUT /\
     exists k : nat,
       (1 <= k)%nat /\
       far_cut (mmm2d_params e') == inject_Z (Z.of_nat k) * m /\
       forall j : nat, (1 <= j < k)%nat ->
         error < far_err e (inject_Z (Z.of_nat j) * m)) /\
    (code = ERROR_FARC ->
     MAXIMAL_FAR_CUT <= far_cut (mmm2d_params e') * layer_h e /\
     far_cut2 (mmm2d_params e') = far_cut2 (mmm2d_params e)).
Proof.
  intros m Hexp Hstep Hfuel.
  destruct fuel as [|fuel]; [unfold far_passes in Hfuel; lia|].
  assert (Henough : MAXIMAL_FAR_CUT - (m + m) * layer_h e
                    <= inject_Z (Z.of_nat fuel) * (m * layer_h e)).
  { unfold far_passes in Hfuel. fold m in Hfuel.
    set (q := MAXIMAL_FAR_CUT / (m * layer_h e)) in *.
    assert (Hq : q * (m * layer_h e) == MAXIMAL_FAR_CUT).
    { assert (Hm0 : ~ m == 0) by (intro H0; rewrite H0 in Hstep; lra).
      assert (Hl0 : ~ layer_h e == 0) by (intro H0; rewrite H0 in Hstep; lra).
      unfold q. field. repeat split; assumption. }
    pose proof (Qle_ceiling q) as Hc.
    assert (Hz : (Qceiling q <= Z.of_nat fuel)%Z) by lia.
    rewrite Zle_Qle in Hz.
    assert (H1 : q * (m * layer_h e)
                 <= inject_Z (Z.of_nat fuel) * (m * layer_h e)).
    { apply Qmult_le_compat_r; lra. }
    lra. }
  destruct (tune_far_loop_terminates e error m fuel m Henough) as [r Hr].
  destruct (tune_far_loop_spec e error m (S fuel) m r Hr)
    as (n & Hn & Hbefore & x & Hx & Hrx & Hlast).
  unfold MMM2D_tune_far. fold m. rewrite Hr.
  destruct (Qgeb (r * layer_h e) MAXIMAL_FAR_CUT) eqn:Ecut.
  - (* no admissible cutoff *)
    apply Qgeb_ge in Ecut.
    eexists. eexists. split; [reflexivity|].
    unfold ERROR_FARC.
    cbn [mmm2d_params set_mmm2d_params set_far_cut set_far_cut2 far_cut
         far_cut2 maxPWerror far_calculated dielectric_contrast_on
         const_pot_on pot_diff delta_mid_top delta_mid_bot delta_mult].
    split; [reflexivity|]. split; [right; reflexivity|].
    split; [discriminate|]. intros _. split; [exact Ecut | reflexivity].
  - apply Qgeb_lt in Ecut.
    eexists. eexists. split; [reflexivity|].
    cbn [mmm2d_params set_mmm2d_params set_far_cut set_far_cut2 far_cut
         far_cut2 maxPWerror far_calculated dielectric_contrast_on
         const_pot_on pot_diff delta_mid_top delta_mid_bot delta_mult].
    split; [reflexivity|]. split; [left; reflexivity|].
    split; [|unfold ERROR_FARC; discriminate]. intros _.
    assert (Hfc : r - m == x) by (rewrite Hrx; ring).
    split; [reflexivity|]. split; [|split].
    + rewrite (far_err_compat e Hexp (r - m) x Hfc).
      destruct Hlast as [Hl|Hl]; [exact Hl | exfalso; lra].
    + lra.
    + exists (S n). split; [lia|]. split.
      * rewrite Hfc, Hx. rewrite Nat2Z.inj_succ. unfold Z.succ.
        rewrite inject_Z_plus. change (inject_Z 1) with 1. ring.
      * intros j [Hj1 Hj2].
        destruct (Hbefore (j - 1)%nat ltac:(lia)) as (y & Hy & Herr & _).
        assert (Hjy : inject_Z (Z.of_nat j) * m == y).
        { rewrite Hy. replace (Z.of_nat j) with (Z.of_nat (j - 1) + 1)%Z by lia.
          rewrite inject_Z_plus. change (inject_Z 1) with 1. ring. }
        rewrite (far_err_compat e Hexp _ _ Hjy). exact Herr.
Qed.


Lemma zrange_length (lo hi : Z) :
  length (zrange lo hi) = Z.to_nat (hi - lo + 1).
Proof.
  unfold zrange. rewrite length_map, length_seq. reflexivity.
Qed.

Lemma nth_map_in {A B : Type} (f : A -> B) (l : list A) (d : B) (d' : A) :
  forall i : nat, (i < length l)%nat -> nth i (map f l) d = f (nth i l d').
Proof.
  induction l as [|a l IH]; intros i Hi; cbn [length] in Hi; [lia|].
  destruct i as [|i]; [reflexivity|]. cbn [map nth]. apply IH. lia.
Qed.

Lemma zrange_nth (lo hi : Z) (i : nat) (d : Z) :
  (i < Z.to_nat (hi - lo + 1))%nat ->
  nth i (zrange lo hi) d = (lo + Z.of_nat i)%Z.
Proof.
  intro Hi. unfold zrange.
  rewrite (nth_map_in _ _ d 0%nat) by (rewrite length_seq; exact Hi).
  rewrite seq_nth by exact Hi. reflexivity.
Qed.

(** The Bessel loop leaves with a cutoff that is past its start and at most
    [MAXIMAL_B_CUT + 1]. *)
Lemma bessel_loop_bounds (st : MMM2D_state) (rem : nat) :
  forall P : Z,
  (P <= MAXIMAL_B_CUT)%Z ->
  (P + 1 <= bessel_loop st rem P <= MAXIMAL_B_CUT + 1)%Z.
Proof.
  unfold MAXIMAL_B_CUT.
  induction rem as [|rem IH]; intros P HP; cbn [bessel_loop];
    unfold MAXIMAL_B_CUT;
    destruct (Qgtb (bessel_err st P) (part_error st)); cbn [andb];
    try lia;
    destruct (Z.ltb_spec (P + 1 - 1) 50); try lia.
  specialize (IH (P + 1)%Z ltac:(lia)). lia.
Qed.

(** X16: what [MMM2D_tune_near] leaves behind.  It never writes the box
    constants [ux], [uy], [max_near], [min_far]; when a precondition fails
    nothing is written at all; otherwise [part_error = error / 3].  With
    [ERROR_BESSEL] the tables are as before.  With 0 or [ERROR_POLY] the
    Bessel table has [P] entries for a cutoff [2 <= P < MAXIMAL_B_CUT], its
    first [P - 1] entries are [floor (P / (2 p)) + 1 >= 1] and the last one
    is not written; the complex table has [COMPLEX_STEP + 1] entries
    starting with 0, and [bon] has [max (2, complexCutoff[COMPLEX_STEP])]
    entries. *)
Theorem MMM2D_tune_near_effects (error : Q) (st : MMM2D_state) :
  let code := fst (MMM2D_tune_near error st) in
  let st' := snd (MMM2D_tune_near error st) in
  (ux st' = ux st /\ uy st' = uy st /\ max_near st' = max_near st /\
   min_far st' = min_far st /\ box_l st' = box_l st) /\
  (code = ERROR_LARGE \/ code = ERROR_SMALL \/ code = ERROR_BOXL -> st' = st) /\
  (code = ERROR_BESSEL \/ code = ERROR_POLY \/ code = 0%Z ->
   part_error st' = error / 3) /\
  (code = ERROR_BESSEL ->
   besselCutoff st' = besselCutoff st /\
   complexCutoff st' = complexCutoff st /\ bon st' = bon st) /\
  (code = ERROR_POLY \/ code = 0%Z ->
   exists P : Z,
     (2 <= P < MAXIMAL_B_CUT)%Z /\
     length (besselCutoff st') = Z.to_nat P /\
     (forall p : Z, (1 <= p < P)%Z ->
        nth (Z.to_nat (p - 1)) (besselCutoff st') 0%Z
          = (Qfloor (inject_Z P / inject_Z (2 * p)) + 1)%Z /\
        (1 <= nth (Z.to_nat (p - 1)) (besselCutoff st') 0)%Z) /\
     nth (Z.to_nat (P - 1)) (besselCutoff st') 0%Z
       = nth (Z.to_nat (P - 1)) (besselCutoff st) 0%Z /\
     length (complexCutoff st') = Z.to_nat (COMPLEX_STEP + 1) /\
     nth 0 (complexCutoff st') 1%Z = 0%Z /\
     length (bon st')
       = Z.to_nat (Z.max 2 (nth (Z.to_nat COMPLEX_STEP) (complexCutoff st') 0%Z))).
Proof.
  cbv zeta. unfold MMM2D_tune_near.
  destruct (Qgtb (max_near st) (vget (box_l st) 1 / 2)).
  { cbn [fst snd]. unfold ERROR_LARGE, ERROR_BESSEL, ERROR_POLY.
    repeat split; try reflexivity; intros H;
      repeat (destruct H as [H|H]); discriminate H. }
  destruct (Qltb (min_far st) 0).
  { cbn [fst snd]. unfold ERROR_SMALL, ERROR_BESSEL, ERROR_POLY.
    repeat split; try reflexivity; intros H;
      repeat (destruct H as [H|H]); discriminate H. }
  destruct (Qgeb (ux st * vget (box_l st) 1) (3 / M_SQRT2)).
  { cbn [fst snd]. unfold ERROR_BOXL, ERROR_BESSEL, ERROR_POLY.
    repeat split; try reflexivity; intros H;
      repeat (destruct H as [H|H]); discriminate H. }
  pose proof (bessel_loop_bounds (set_part_error st (error / 3))
                (Z.to_nat MAXIMAL_B_CUT) 2 ltac:(unfold MAXIMAL_B_CUT; lia))
    as HP.
  set (P := (bessel_loop (set_part_error st (error / 3))
               (Z.to_nat MAXIMAL_B_CUT) 2 - 1)%Z) in *.
  destruct (Z.eqb_spec P MAXIMAL_B_CUT) as [EP|EP].
  { cbn [fst snd set_part_error ux uy max_near min_far box_l part_error
         besselCutoff complexCutoff bon].
    unfold ERROR_LARGE, ERROR_SMALL, ERROR_BOXL, ERROR_BESSEL, ERROR_POLY.
    repeat split; try reflexivity; intros H;
      repeat (destruct H as [H|H]); discriminate H. }
  match goal with
  | |- context [if (?n =? MAXIMAL_POLYGAMMA)%Z then _ else _] =>
      generalize (n =? MAXIMAL_POLYGAMMA)%Z
  end.
  intro b.
  assert (Hshape :
    forall code : Z,
      (code = ERROR_POLY \/ code = 0%Z) ->
      forall T : Q,
      let bc := fill_besselCutoff (besselCutoff st) P in
      let cc := fill_complexCutoff T in
      exists P0 : Z,
        (2 <= P0 < MAXIMAL_B_CUT)%Z /\
        length bc = Z.to_nat P0 /\
        (forall p : Z, (1 <= p < P0)%Z ->
           nth (Z.to_nat (p - 1)) bc 0%Z
             = (Qfloor (inject_Z P0 / inject_Z (2 * p)) + 1)%Z /\
           (1 <= nth (Z.to_nat (p - 1)) bc 0)%Z) /\
        nth (Z.to_nat (P0 - 1)) bc 0%Z
          = nth (Z.to_nat (P0 - 1)) (besselCutoff st) 0%Z /\
        length cc = Z.to_nat (COMPLEX_STEP + 1) /\
        nth 0 cc 1%Z = 0%Z /\
        length (prepareBernoulliNumbers (uy st)
                  (nth (Z.to_nat COMPLEX_STEP) cc 0%Z))
          = Z.to_nat (Z.max 2 (nth (Z.to_nat COMPLEX_STEP) cc 0%Z))).
  { intros code _ T bc cc. exists P.
    assert (HP2 : (2 <= P < MAXIMAL_B_CUT)%Z) by (unfold MAXIMAL_B_CUT in *; lia).
    assert (Hlen : length (map (fun p => (Qfloor (inject_Z P / inject_Z (2 * p)) + 1)%Z)
                               (zrange 1 (P - 1))) = Z.to_nat (P - 1)).
    { rewrite length_map, zrange_length. f_equal. lia. }
    split; [exact HP2|]. split; [|split; [|split; [|split; [|split]]]].
    - unfold bc, fill_besselCutoff. rewrite length_app, Hlen. cbn [length]. lia.
    - intros p Hp.
      assert (Hnth : nth (Z.to_nat (p - 1)) bc 0%Z
                     = (Qfloor (inject_Z P / inject_Z (2 * p)) + 1)%Z).
      { unfold bc, fill_besselCutoff.
        rewrite app_nth1 by (rewrite Hlen; lia).
        rewrite (nth_map_in _ _ 0%Z 0%Z) by (rewrite zrange_length; lia).
        rewrite zrange_nth by lia.
        replace (1 + Z.of_nat (Z.to_nat (p - 1)))%Z with p by lia.
        reflexivity. }
      split; [exact Hnth|]. rewrite Hnth.
      assert (H0 : 0 <= inject_Z P / inject_Z (2 * p)).
      { assert (Ha : inject_Z 0 <= inject_Z P) by (rewrite <- Zle_Qle; lia).
        assert (Hb : inject_Z 0 < inject_Z (2 * p)) by (rewrite <- Zlt_Qlt; lia).
        change (inject_Z 0) with 0 in Ha, Hb.
        apply Qle_shift_div_l; [exact Hb | lra]. }
      assert (H1 : (Qfloor 0 <= Qfloor (inject_Z P / inject_Z (2 * p)))%Z)
        by (apply Qfloor_resp_le; exact H0).
      change (Qfloor 0) with 0%Z in H1. lia.
    - unfold bc, fill_besselCutoff.
      rewrite app_nth2 by (rewrite Hlen; lia).
      rewrite Hlen. replace (Z.to_nat (P - 1) - Z.to_nat (P - 1))%nat with 0%nat by lia.
      reflexivity.
    - unfold cc, fill_complexCutoff. cbn [length].
      rewrite length_map, zrange_length. reflexivity.
    - reflexivity.
    - unfold prepareBernoulliNumbers. rewrite length_map, zrange_length.
      destruct (Z.ltb_spec (nth (Z.to_nat COMPLEX_STEP) cc 0%Z) 2); f_equal; lia. }
  destruct b; cbn [fst snd set_part_error set_besselCutoff set_complexCutoff
                   set_bon ux uy max_near min_far box_l part_error
                   besselCutoff complexCutoff bon];
    (split; [repeat split|]);
    (split; [unfold ERROR_LARGE, ERROR_SMALL, ERROR_BOXL, ERROR_POLY;
             intros H; repeat (destruct H as [H|H]); discriminate H|]);
    (split; [intros _; reflexivity|]);
    (split; [unfold ERROR_BESSEL, ERROR_POLY; intros H; discriminate H|]);
    intros H; eapply Hshape; eassumption.
Qed.


(** [ES_OK] and [ES_ERROR] of utils. *)
Variables ES_OK ES_ERROR : Z.

(** [MMM2D_setup_constants]; [None] is [errexit ()].  [ux2], [uy2] and [uz]
    are not part of the state. *)
Definition MMM2D_setup_constants (e : MMM2D_env) : option MMM2D_env :=
  let st := near e in
  let ux' := 1 / vget (box_l st) 0 in
  let uy' := 1 / vget (box_l st) 1 in
  match cell_type e with
  | CELL_STRUCTURE_NSQUARE =>
      Some (set_near e (mkMMM2D ux' uy' (vget (box_l st) 2) 0.0
                          (part_error st) (besselCutoff st)
                          (complexCutoff st) (bon st) (box_l st)))
  | CELL_STRUCTURE_LAYERED =>
      Some (set_near e (mkMMM2D ux' uy' (2 * layer_h e + skin e)
                          (layer_h e - skin e)
                          (part_error st) (besselCutoff st)
                          (complexCutoff st) (bon st) (box_l st)))
  | CELL_STRUCTURE_other => None
  end.

(** The far formula cannot be done. *)
Definition far_formula_off (e : MMM2D_env) : bool :=
  match cell_type e with
  | CELL_STRUCTURE_NSQUARE => true
  | CELL_STRUCTURE_LAYERED => (n_nodes e * n_layers e <? 3)%Z
  | CELL_STRUCTURE_other => false
  end.

(** [MMM2D_set_params]; the broadcast [mpi_bcast_coulomb_params] leaves the
    state of this rank as it is. *)
Definition MMM2D_set_params (fuel : nat) (maxPWerror' far_cut' delta_top
    delta_bot : Q) (const_pot_on' : bool) (pot_diff' : Q) (e : MMM2D_env)
    : option (Z * MMM2D_env) :=
  match cell_type e with
  | CELL_STRUCTURE_other => Some (ES_ERROR, e)
  | _ =>
      let p := mmm2d_params e in
      let p1 :=
        if const_pot_on' then
          mkParams maxPWerror' (far_cut p) (far_cut2 p) (far_calculated p)
                   true true pot_diff' (-1) (-1) 1
        else if negb (Qeq_bool delta_top 0.0) || negb (Qeq_bool delta_bot 0.0)
        then
          mkParams maxPWerror' (far_cut p) (far_cut2 p) (far_calculated p)
                   true false (pot_diff p) delta_top delta_bot
                   (delta_top * delta_bot)
        else
          mkParams maxPWerror' (far_cut p) (far_cut2 p) (far_calculated p)
                   false false (pot_diff p) 0 0 0 in
      match MMM2D_setup_constants (set_mmm2d_params e p1) with
      | None => None
      | Some e1 =>
          let r := MMM2D_tune_near maxPWerror' (near e1) in
          let e2 := set_near e1 (snd r) in
          if negb (fst r =? 0)%Z then Some (fst r, e2)
          else
            let finish (e : MMM2D_env) :=
              Some (ES_OK, set_coulomb_method e COULOMB_MMM2D) in
            if far_formula_off e2 then
              let e3 := set_mmm2d_params e2
                          (set_far_cut (mmm2d_params e2) 0.0) in
              if dielectric_contrast_on (mmm2d_params e3)
              then Some (ERROR_ICL, e3)
              else finish e3
            else
              let e3 := set_mmm2d_params e2
                          (set_far_cut2
                             (set_far_cut (mmm2d_params e2) far_cut')
                             (sqr far_cut')) in
              if Qgtb (far_cut (mmm2d_params e3)) 0 then
                finish (set_mmm2d_params e3
                          (set_far_calculated (mmm2d_params e3) 0))
              else
                match MMM2D_tune_far fuel maxPWerror' e3 with
                | None => None
                | Some (err, e4) =>
                    if negb (err =? 0)%Z then Some (err, e4)
                    else finish (set_mmm2d_params e4
                                   (set_far_calculated (mmm2d_params e4) 1))
                end
      end
  end.


Lemma Qeq_bool_zero_literal (x : Q) : Qeq_bool x 0.0 = Qeq_bool x 0.
Proof.
  destruct (Qeq_bool x 0) eqn:E.
  - apply Qeq_bool_iff. apply Qeq_bool_iff in E. rewrite E. reflexivity.
  - destruct (Qeq_bool x 0.0) eqn:E'; [|reflexivity].
    apply Qeq_bool_iff in E'.
    assert (H : Qeq_bool x 0 = true) by (apply Qeq_bool_iff; rewrite E'; reflexivity).
    congruence.
Qed.

Lemma tune_near_codes (error : Q) (st : MMM2D_state) :
  let code := fst (MMM2D_tune_near error st) in
  code = 0%Z \/ code = ERROR_LARGE \/ code = ERROR_SMALL \/
  code = ERROR_BOXL \/ code = ERROR_BESSEL \/ code = ERROR_POLY.
Proof.
  cbv zeta. unfold MMM2D_tune_near.
  destruct (Qgtb _ _); [cbn [fst]; tauto|].
  destruct (Qltb _ _); [cbn [fst]; tauto|].
  destruct (Qgeb _ _); [cbn [fst]; tauto|].
  destruct (_ =? MAXIMAL_B_CUT)%Z; [cbn [fst]; tauto|].
  destruct (_ =? MAXIMAL_POLYGAMMA)%Z; cbn [fst]; tauto.
Qed.

Lemma tune_far_codes (fuel : nat) (error : Q) (e e' : MMM2D_env) (code : Z) :
  MMM2D_tune_far fuel error e = Some (code, e') ->
  e' = set_mmm2d_params e
         (set_far_cut2 (set_far_cut (mmm2d_params e)
                                    (far_cut (mmm2d_params e')))
                       (far_cut2 (mmm2d_params e'))) /\
  (code = ERROR_FARC \/
   code = 0%Z /\ far_cut2 (mmm2d_params e') = sqr (far_cut (mmm2d_params e'))).
Proof.
  unfold MMM2D_tune_far.
  destruct (tune_far_loop _ _ _ _ _) as [fc|]; [|discriminate].
  destruct (Qgeb _ _); intro H; injection H as <- <-;
    cbn [mmm2d_params set_mmm2d_params set_far_cut set_far_cut2 far_cut
         far_cut2 maxPWerror far_calculated dielectric_contrast_on
         const_pot_on pot_diff delta_mid_top delta_mid_bot delta_mult];
    (split; [reflexivity|]); [left | right; split]; reflexivity.
Qed.

(** The error codes of the tuning routines. *)
Definition tuning_error (code : Z) : Prop :=
  code = ERROR_LARGE \/ code = ERROR_BOXL \/ code = ERROR_BESSEL \/
  code = ERROR_POLY \/ code = ERROR_FARC \/ code = ERROR_SMALL \/
  code = ERROR_ICL.

(** X17: [MMM2D_set_params] refuses a cell system that is neither n-square
    nor layered with [ES_ERROR] before it writes anything.  Otherwise it
    returns whenever a positive [far_cut] is given or the cell system is
    n-square, and whatever it returns, [mmm2d_params] holds [maxPWerror] and
    [const_pot_on] as given, the dielectric contrast is on exactly for a
    constant potential or a non-zero [delta_top] or [delta_bot], and
    [delta_mult = delta_mid_top * delta_mid_bot].  [coulomb.method] becomes
    [COULOMB_MMM2D] only together with [ES_OK]; every other return is one of
    the tuning error codes with [coulomb.method] as before.  On success
    without the far formula [far_cut] is 0 and there is no dielectric
    contrast; a positive [far_cut] is stored as given with
    [far_calculated = 0], otherwise the cutoff is tuned with
    [far_calculated = 1]; [ERROR_ICL] means a dielectric contrast without
    the far formula. *)
Theorem MMM2D_set_params_outcome (fuel : nat) (maxPWerror' far_cut' delta_top
    delta_bot : Q) (const_pot_on' : bool) (pot_diff' : Q) (e : MMM2D_env) :
  let r := MMM2D_set_params fuel maxPWerror' far_cut' delta_top delta_bot
             const_pot_on' pot_diff' e in
  (cell_type e = CELL_STRUCTURE_other -> r = Some (ES_ERROR, e)) /\
  (cell_type e <> CELL_STRUCTURE_other ->
   (0 < far_cut' \/ cell_type e = CELL_STRUCTURE_NSQUARE ->
    exists code e', r = Some (code, e')) /\
   forall code e', r = Some (code, e') ->
     let p' := mmm2d_params e' in
     maxPWerror p' = maxPWerror' /\
     const_pot_on p' = const_pot_on' /\
     dielectric_contrast_on p'
       = const_pot_on' || negb (Qeq_bool delta_top 0)
         || negb (Qeq_bool delta_bot 0) /\
     delta_mult p' == delta_mid_top p' * delta_mid_bot p' /\
     ((code = ES_OK /\ coulomb_method e' = COULOMB_MMM2D /\
       (far_formula_off e = true ->
        far_cut p' == 0 /\ dielectric_contrast_on p' = false) /\
       (far_formula_off e = false -> 0 < far_cut' ->
        far_cut p' = far_cut' /\ far_cut2 p' = sqr far_cut' /\
        far_calculated p' = 0%Z) /\
       (far_formula_off e = false -> far_cut' <= 0 ->
        far_cut2 p' = sqr (far_cut p') /\ far_calculated p' = 1%Z))
      \/
      (tuning_error code /\ coulomb_method e' = coulomb_method e /\
       (code = ERROR_ICL ->
        far_formula_off e = true /\ far_cut p' == 0 /\
        dielectric_contrast_on p' = true)))).
Proof.
  cbv zeta. unfold MMM2D_set_params.
  split; [intro Hc; rewrite Hc; reflexivity|].
  intro Hcell.
  set (p1 := if const_pot_on' then _ else _).
  assert (Hp1 : maxPWerror p1 = maxPWerror' /\
                const_pot_on p1 = const_pot_on' /\
                dielectric_contrast_on p1
                  = const_pot_on' || negb (Qeq_bool delta_top 0)
                    || negb (Qeq_bool delta_bot 0) /\
                delta_mult p1 == delta_mid_top p1 * delta_mid_bot p1).
  { unfold p1. destruct const_pot_on'; cbn [orb].
    - cbn. repeat split; reflexivity.
    - rewrite !Qeq_bool_zero_literal.
      destruct (negb (Qeq_bool delta_top 0) || negb (Qeq_bool delta_bot 0));
        cbn [maxPWerror const_pot_on dielectric_contrast_on delta_mult
             delta_mid_top delta_mid_bot];
        repeat split; reflexivity. }
  clearbody p1.
  destruct Hp1 as (Hmax & Hcp & Hdiel & Hmult).
  destruct e as [st p ct nn nl lh sk cm].
  destruct p1 as [pw fc0 fc20 fcalc diel cpot pdiff dtop dbot dmult].
  cbn [maxPWerror const_pot_on dielectric_contrast_on delta_mult
       delta_mid_top delta_mid_bot] in Hmax, Hcp, Hdiel, Hmult.
  cbn [cell_type] in Hcell |- *.
  unfold MMM2D_setup_constants, far_formula_off, set_mmm2d_params, set_near,
    set_far_cut, set_far_cut2, set_far_calculated, set_coulomb_method.
  cbn [cell_type near mmm2d_params n_nodes n_layers layer_h skin
       coulomb_method].
  destruct ct; [| |congruence].
  - (* n-square: no far formula *)
    match goal with
    | |- context [MMM2D_tune_near maxPWerror' ?s] =>
        pose proof (tune_near_codes maxPWerror' s) as Hcodes;
        cbv zeta in Hcodes;
        destruct (MMM2D_tune_near maxPWerror' s) as [c st']
    end.
    cbn [fst snd] in Hcodes |- *.
    cbn [cell_type near mmm2d_params n_nodes n_layers layer_h skin
         coulomb_method maxPWerror const_pot_on dielectric_contrast_on
         delta_mult delta_mid_top delta_mid_bot far_cut far_cut2
         far_calculated pot_diff].
    destruct (Z.eqb_spec c 0) as [Ec|Ec]; cbn [negb].
    + destruct diel.
      * split; [intros _; eexists; eexists; reflexivity|].
        intros code e' H. injection H as <- <-.
        cbn [mmm2d_params maxPWerror const_pot_on dielectric_contrast_on
             delta_mult delta_mid_top delta_mid_bot far_cut far_cut2
             far_calculated coulomb_method].
        repeat (split; [assumption|]).
        right. unfold tuning_error. split; [tauto|].
        split; [reflexivity|]. intros _.
        split; [reflexivity|]. split; [reflexivity | reflexivity].
      * split; [intros _; eexists; eexists; reflexivity|].
        intros code e' H. injection H as <- <-.
        cbn [mmm2d_params maxPWerror const_pot_on dielectric_contrast_on
             delta_mult delta_mid_top delta_mid_bot far_cut far_cut2
             far_calculated coulomb_method].
        repeat (split; [assumption|]).
        left. split; [reflexivity|]. split; [reflexivity|].
        split; [intros _; split; reflexivity|].
        split; intros H; discriminate H.
    + split; [intros _; eexists; eexists; reflexivity|].
      intros code e' H. injection H as <- <-.
      cbn [mmm2d_params maxPWerror const_pot_on dielectric_contrast_on
           delta_mult delta_mid_top delta_mid_bot far_cut far_cut2
           far_calculated coulomb_method].
      repeat (split; [assumption|]).
      right. unfold tuning_error. split; [tauto|].
      split; [reflexivity|]. unfold ERROR_ICL. intros H.
      unfold ERROR_LARGE, ERROR_SMALL, ERROR_BOXL, ERROR_BESSEL, ERROR_POLY
        in Hcodes. lia.
  - (* layered *)
    match goal with
    | |- context [MMM2D_tune_near maxPWerror' ?s] =>
        pose proof (tune_near_codes maxPWerror' s) as Hcodes;
        cbv zeta in Hcodes;
        destruct (MMM2D_tune_near maxPWerror' s) as [c st']
    end.
    cbn [fst snd] in Hcodes |- *.
    cbn [cell_type near mmm2d_params n_nodes n_layers layer_h skin
         coulomb_method maxPWerror const_pot_on dielectric_contrast_on
         delta_mult delta_mid_top delta_mid_bot far_cut far_cut2
         far_calculated pot_diff].
    destruct (Z.eqb_spec c 0) as [Ec|Ec]; cbn [negb].
    + destruct (nn * nl <? 3)%Z.
      * (* too few layers for the far formula *)
        destruct diel.
        -- split; [intros _; eexists; eexists; reflexivity|].
           intros code e' H. injection H as <- <-.
           cbn [mmm2d_params maxPWerror const_pot_on dielectric_contrast_on
                delta_mult delta_mid_top delta_mid_bot far_cut far_cut2
                far_calculated coulomb_method].
           repeat (split; [assumption|]).
           right. unfold tuning_error. split; [tauto|].
           split; [reflexivity|]. intros _.
           split; [reflexivity|]. split; [reflexivity | reflexivity].
        -- split; [intros _; eexists; eexists; reflexivity|].
           intros code e' H. injection H as <- <-.
           cbn [mmm2d_params maxPWerror const_pot_on dielectric_contrast_on
                delta_mult delta_mid_top delta_mid_bot far_cut far_cut2
                far_calculated coulomb_method].
           repeat (split; [assumption|]).
           left. split; [reflexivity|]. split; [reflexivity|].
           split; [intros _; split; reflexivity|].
           split; intros H; discriminate H.
      * destruct (Qgtb far_cut' 0) eqn:Efc.
        -- (* the cutoff given is used *)
           apply Qgtb_gt in Efc.
           split; [intros _; eexists; eexists; reflexivity|].
           intros code e' H. injection H as <- <-.
           cbn [mmm2d_params maxPWerror const_pot_on dielectric_contrast_on
                delta_mult delta_mid_top delta_mid_bot far_cut far_cut2
                far_calculated coulomb_method].
           repeat (split; [assumption|]).
           left. split; [reflexivity|]. split; [reflexivity|].
           split; [intros H; discriminate H|].
           split; [intros _ _; repeat split; reflexivity|].
           intros _ H. exfalso. lra.
        -- (* the cutoff is tuned *)
           apply Qgtb_le in Efc.
           destruct (MMM2D_tune_far fuel maxPWerror' _) as [[err e4]|] eqn:Efar.
           ++ destruct (tune_far_codes _ _ _ _ _ Efar) as [He4 Herr].
              cbn [mmm2d_params] in He4.
              unfold set_mmm2d_params, set_far_cut, set_far_cut2 in He4.
              cbn [cell_type near mmm2d_params n_nodes n_layers layer_h skin
                   coulomb_method maxPWerror const_pot_on
                   dielectric_contrast_on delta_mult delta_mid_top
                   delta_mid_bot far_cut far_cut2 far_calculated pot_diff]
                in He4.
              set (fc4 := far_cut (mmm2d_params e4)) in *.
              set (fc24 := far_cut2 (mmm2d_params e4)) in *.
              clearbody fc4 fc24. subst e4.
              destruct (Z.eqb_spec err 0) as [Ee|Ee]; cbn [negb].
              ** split; [intros [H|H]; [exfalso; lra | discriminate H]|].
                 intros code e' H. injection H as <- <-.
                 cbn [mmm2d_params maxPWerror const_pot_on
                      dielectric_contrast_on delta_mult delta_mid_top
                      delta_mid_bot far_cut far_cut2 far_calculated
                      coulomb_method].
                 repeat (split; [assumption|]).
                 left. split; [reflexivity|]. split; [reflexivity|].
                 split; [intros H; discriminate H|].
                 split; [intros _ H; exfalso; lra|].
                 intros _ _. split; [|reflexivity].
                 destruct Herr as [Herr|[_ Herr]]; [|exact Herr].
                 unfold ERROR_FARC in Herr. lia.
              ** split; [intros [H|H]; [exfalso; lra | discriminate H]|].
                 intros code e' H. injection H as <- <-.
                 cbn [mmm2d_params maxPWerror const_pot_on
                      dielectric_contrast_on delta_mult delta_mid_top
                      delta_mid_bot far_cut far_cut2 far_calculated
                      coulomb_method].
                 repeat (split; [assumption|]).
                 right. destruct Herr as [Herr|[Herr _]]; [|contradiction].
                 unfold tuning_error. split; [tauto|].
                 split; [reflexivity|].
                 unfold ERROR_ICL, ERROR_FARC in *. intros H. lia.
           ++ split; [intros [H|H]; [exfalso; lra | discriminate H]|].
              intros code e' H. discriminate H.
    + split; [intros _; eexists; eexists; reflexivity|].
      intros code e' H. injection H as <- <-.
      cbn [mmm2d_params maxPWerror const_pot_on dielectric_contrast_on
           delta_mult delta_mid_top delta_mid_bot far_cut far_cut2
           far_calculated coulomb_method].
      repeat (split; [assumption|]).
      right. unfold tuning_error. split; [tauto|].
      split; [reflexivity|]. unfold ERROR_ICL. intros H.
      unfold ERROR_LARGE, ERROR_SMALL, ERROR_BOXL, ERROR_BESSEL, ERROR_POLY
        in Hcodes. lia.
Qed.


(** The messages [MMM2D_sanity_checks] and [MMM2D_init] report through
    [runtimeErrorMsg ()]. *)
Inductive MMM2D_message : Type :=
  | Msg_periodicity
  | Msg_cellsystem
  | Msg_verlet_lists
  | Msg_auto_retuning (err : Z)
  | Msg_IC_layers.

(** [MMM2D_sanity_checks], for the periodicity [(px, py, pz)] of the box and
    [cell_structure.use_verlet_list]. *)
Definition MMM2D_sanity_checks (px py pz use_verlet_list : bool)
    (e : MMM2D_env) : Z * list MMM2D_message :=
  if negb px || negb py || pz then (1%Z, [Msg_periodicity])
  else
    match cell_type e with
    | CELL_STRUCTURE_other => (1%Z, [Msg_cellsystem])
    | _ =>
        if use_verlet_list then (1%Z, [Msg_verlet_lists])
        else (0%Z, [])
    end.

(** [MMM2D_init]: the messages reported and the state afterwards. *)
Definition MMM2D_init (fuel : nat) (px py pz use_verlet_list : bool)
    (e : MMM2D_env) : option (list MMM2D_message * MMM2D_env) :=
  let chk := MMM2D_sanity_checks px py pz use_verlet_list e in
  if negb (fst chk =? 0)%Z then Some (snd chk, e)
  else
    match MMM2D_setup_constants e with
    | None => None
    | Some e1 =>
        let r := MMM2D_tune_near (maxPWerror (mmm2d_params e1)) (near e1) in
        let e2 := set_near e1 (snd r) in
        if negb (fst r =? 0)%Z then
          Some (snd chk ++ [Msg_auto_retuning (fst r)],
                set_coulomb_method e2 COULOMB_NONE)
        else if far_formula_off e2 then
          let e3 := set_mmm2d_params e2 (set_far_cut (mmm2d_params e2) 0.0) in
          if dielectric_contrast_on (mmm2d_params e3)
          then Some (snd chk ++ [Msg_IC_layers], e3)
          else Some (snd chk, e3)
        else if negb (far_calculated (mmm2d_params e2) =? 0)%Z then
          match MMM2D_tune_far fuel (maxPWerror (mmm2d_params e2)) e2 with
          | None => None
          | Some (err, e4) =>
              if negb (err =? 0)%Z then
                Some (snd chk ++ [Msg_auto_retuning err],
                      set_coulomb_method e4 COULOMB_NONE)
              else Some (snd chk, e4)
          end
        else Some (snd chk, e2)
    end.

Ltac init_returns :=
  split; [discriminate|];
  let H := fresh "H" in
  intros ? ? H; injection H as <- <-;
  (split; [cbn; lia|]); (split; [discriminate|]); intros _;
  cbn [mmm2d_params coulomb_method far_cut far_cut2];
  (split; [reflexivity|]).

(** X18: [MMM2D_init] never reaches the [errexit] of
    [MMM2D_setup_constants], and returns whenever the far cutoff is not to
    be tuned.  It reports at most one message.  When a sanity check fails
    (periodicity other than 1 1 0, a cell system that is neither layered nor
    n-square, Verlet lists) it changes nothing.  Otherwise it switches
    [coulomb.method] to [COULOMB_NONE] exactly when it reports a failed
    retuning, and leaves the method alone in every other case; of
    [mmm2d_params] it writes nothing but [far_cut] and [far_cut2]. *)
Theorem MMM2D_init_outcome (fuel : nat) (px py pz use_verlet_list : bool)
    (e : MMM2D_env) :
  let r := MMM2D_init fuel px py pz use_verlet_list e in
  let sane := px && py && negb pz && negb use_verlet_list
              && match cell_type e with
                 | CELL_STRUCTURE_other => false
                 | _ => true
                 end in
  (r = None ->
   sane = true /\ far_formula_off e = false /\
   far_calculated (mmm2d_params e) <> 0%Z) /\
  (forall msgs e', r = Some (msgs, e') ->
   (length msgs <= 1)%nat /\
   (sane = false -> e' = e /\ length msgs = 1%nat) /\
   (sane = true ->
    mmm2d_params e'
      = set_far_cut2 (set_far_cut (mmm2d_params e)
                                  (far_cut (mmm2d_params e')))
                     (far_cut2 (mmm2d_params e')) /\
    ((exists err, msgs = [Msg_auto_retuning err] /\ tuning_error err /\
                  coulomb_method e' = COULOMB_NONE) \/
     ((msgs = [] \/
       msgs = [Msg_IC_layers] /\ far_formula_off e = true /\
       dielectric_contrast_on (mmm2d_params e) = true) /\
      coulomb_method e' = coulomb_method e)))).
Proof.
  cbv zeta. unfold MMM2D_init, MMM2D_sanity_checks.
  destruct e as [st p ct nn nl lh sk cm].
  destruct p as [pw fc0 fc20 fcalc diel cpot pdiff dtop dbot dmult].
  unfold MMM2D_setup_constants, far_formula_off, set_mmm2d_params, set_near,
    set_far_cut, set_far_cut2, set_far_calculated, set_coulomb_method.
  cbn [cell_type near mmm2d_params n_nodes n_layers layer_h skin
       coulomb_method maxPWerror far_calculated dielectric_contrast_on].
  destruct px, py, pz; cbn [negb orb andb fst snd Z.eqb];
    try (split; [discriminate|];
         intros msgs e' H; injection H as <- <-;
         split; [cbn; lia|]; split; [intros _; split; reflexivity|];
         discriminate).
  destruct ct; cbn [fst snd Z.eqb negb andb];
    try (rewrite ?andb_false_r; split; [discriminate|];
         intros msgs e' H; injection H as <- <-;
         split; [cbn; lia|]; split; [intros _; split; reflexivity|];
         discriminate).
  all: destruct use_verlet_list; cbn [fst snd Z.eqb negb andb app];
    try (split; [discriminate|];
         intros msgs e' H; injection H as <- <-;
         split; [cbn; lia|]; split; [intros _; split; reflexivity|];
         discriminate).
  all: match goal with
       | |- context [MMM2D_tune_near ?err ?s] =>
           pose proof (tune_near_codes err s) as Hcodes;
           cbv zeta in Hcodes;
           destruct (MMM2D_tune_near err s) as [c st']
       end;
    cbn [fst snd] in Hcodes |- *;
    cbn [cell_type near mmm2d_params n_nodes n_layers layer_h skin
         coulomb_method maxPWerror const_pot_on dielectric_contrast_on
         delta_mult delta_mid_top delta_mid_bot far_cut far_cut2
         far_calculated pot_diff];
    destruct (Z.eqb_spec c 0) as [Ec|Ec]; cbn [negb].
  - (* n-square, near formula tuned *)
    destruct diel;
      [ init_returns; right; split;
        [right; repeat split; reflexivity | reflexivity]
      | init_returns; right; split; [left; reflexivity | reflexivity] ].
  - split; [discriminate|].
    intros msgs e' H; injection H as <- <-.
    split; [cbn; lia|]. split; [discriminate|]. intros _.
    cbn [mmm2d_params coulomb_method far_cut far_cut2].
    split; [reflexivity|]. left. exists c. split; [reflexivity|].
    split; [unfold tuning_error; tauto | reflexivity].
  - (* layered, near formula tuned *)
    destruct (nn * nl <? 3)%Z.
    + destruct diel;
        [ init_returns; right; split;
          [right; repeat split; reflexivity | reflexivity]
        | init_returns; right; split; [left; reflexivity | reflexivity] ].
    + destruct (Z.eqb_spec fcalc 0) as [Ef|Ef]; cbn [negb].
      * split; [discriminate|].
        intros msgs e' H; injection H as <- <-.
        split; [cbn; lia|]. split; [discriminate|]. intros _.
        cbn [mmm2d_params coulomb_method far_cut far_cut2].
        split; [reflexivity|]. right. split; [left|]; reflexivity.
      * destruct (MMM2D_tune_far fuel pw _) as [[err e4]|] eqn:Efar.
        -- destruct (tune_far_codes _ _ _ _ _ Efar) as [He4 Herr].
           cbn [mmm2d_params] in He4.
           unfold set_mmm2d_params, set_far_cut, set_far_cut2 in He4.
           cbn [cell_type near mmm2d_params n_nodes n_layers layer_h skin
                coulomb_method maxPWerror const_pot_on
                dielectric_contrast_on delta_mult delta_mid_top
                delta_mid_bot far_cut far_cut2 far_calculated pot_diff]
             in He4.
           set (fc4 := far_cut (mmm2d_params e4)) in *.
           set (fc24 := far_cut2 (mmm2d_params e4)) in *.
           clearbody fc4 fc24. subst e4.
           destruct (Z.eqb_spec err 0) as [Ee|Ee]; cbn [negb]; init_returns.
           ++ right. split; [left|]; reflexivity.
           ++ left. exists err. split; [reflexivity|].
              split; [|reflexivity].
              destruct Herr as [Herr|[Herr _]]; [|contradiction].
              unfold tuning_error; tauto.
        -- split; [intros _; split; [reflexivity|]; split;
                   [reflexivity | exact Ef]|].
           intros msgs e' H. discriminate H.
  - split; [discriminate|].
    intros msgs e' H; injection H as <- <-.
    split; [cbn; lia|]. split; [discriminate|]. intros _.
    cbn [mmm2d_params coulomb_method far_cut far_cut2].
    split; [reflexivity|]. left. exists c. split; [reflexivity|].
    split; [unfold tuning_error; tauto | reflexivity].
Qed.

End TuneNear.

(** [M_SQRT2] and [M_PI] as math.h spells them. *)
Definition M_SQRT2_literal : Q := 1.41421356237309504880.
Definition M_PI_literal : Q := 3.14159265358979323846.

(** A box of [1 x 1] with [ux = uy = 1]: a near region of 2 is too large, a
    negative [min_far] is too small. *)
Lemma MMM2D_tune_near_preconditions_witness :
  let tune := MMM2D_tune_near (fun _ => 1) (fun _ => 1) (fun _ => 0)
                (fun _ _ => 0) M_PI_literal M_SQRT2_literal
                (2 * M_PI_literal) 0.01 in
  fst (tune (mkMMM2D 1 1 2 1 0 [] [] [] (mkV 1 1 1))) = 1%Z /\
  fst (tune (mkMMM2D 1 1 0.25 (-1) 0 [] [] [] (mkV 1 1 1))) = 6%Z.
Proof.
  cbv zeta. split.
  - apply (MMM2D_tune_near_preconditions (fun _ => 1) (fun _ => 1) (fun _ => 0)
             (fun _ _ => 0) M_PI_literal M_SQRT2_literal (2 * M_PI_literal) 0.01
             (mkMMM2D 1 1 2 1 0 [] [] [] (mkV 1 1 1))).
    vm_compute. reflexivity.
  - apply (MMM2D_tune_near_preconditions (fun _ => 1) (fun _ => 1) (fun _ => 0)
             (fun _ _ => 0) M_PI_literal M_SQRT2_literal (2 * M_PI_literal) 0.01
             (mkMMM2D 1 1 0.25 (-1) 0 [] [] [] (mkV 1 1 1)));
      vm_compute; congruence.
Defined.


(** A layered system with [ux = uy = 1], [min_far = 1] and [layer_h = 10],
    with [1 / (1 - x)] standing for [exp x] at negative [x]: the error
    estimate at the cutoff [fc] is [(6 fc + 5) / (6 fc + 1)], first below
    [1.2] at [fc = 4]. *)
Definition far_sample : MMM2D_env :=
  mkEnv (mkMMM2D 1 1 0 1 0 [] [] [] (mkV 1 1 1))
        (mkParams 1 10 1 0 false false 0 1 1 1)
        CELL_STRUCTURE_LAYERED 1 4 10 0 COULOMB_NONE.

Lemma MMM2D_tune_far_minimal_witness :
  exists code e',
    MMM2D_tune_far (fun x => 1 / (1 - x)) 3 6 11 1.2 far_sample
      = Some (code, e') /\
    code = 0%Z /\ far_cut (mmm2d_params e') == 4 /\
    far_cut2 (mmm2d_params e') == 16.
Proof.
  destruct (MMM2D_tune_far_minimal (fun x => 1 / (1 - x)) 3 6 11 1.2 far_sample)
    as (code & e' & Hrun & _).
  - intros x y H. rewrite H. reflexivity.
  - vm_compute. reflexivity.
  - vm_compute. lia.
  - exists code, e'. split; [exact Hrun|].
    vm_compute in Hrun. injection Hrun as <- <-.
    split; [reflexivity|]. split; reflexivity.
Defined.

End MMM2D.

(** ** Dipolar P3M (p3m-dipolar.cpp) *)

Module DP3M.

(** Modelled from the spec: the enumeration of dipolar methods (dipole.hpp)
    is not part of the sources at hand; the setter only tells the two P3M
    methods from all others. *)
Inductive DipolarInteraction : Type :=
| DIPOLAR_NONE
| DIPOLAR_P3M
| DIPOLAR_MDLC_P3M
| DIPOLAR_OTHER (tag : Z).

Definition is_p3m_method (m : DipolarInteraction) : bool :=
  match m with
  | DIPOLAR_P3M | DIPOLAR_MDLC_P3M => true
  | _ => false
  end.

(** Modelled from the spec: the parameter block [dp3m.params]
    ([P3MParameters], p3m-common.hpp, not part of the sources at hand): mesh
    dimensions, charge assignment order and its cube, Ewald parameter and
    real-space cutoff in real and box-scaled form, mesh offset, accuracy,
    interpolation order, epsilon, and the derived cutoff and mesh-spacing
    vectors. *)
Record P3MParameters : Type := mkP3M {
  alpha_L : Q;
  r_cut_iL : Q;
  mesh : Z * Z * Z;
  mesh_off : Vector3d;
  cao : Z;
  inter : Z;
  accuracy : Q;
  epsilon : Q;
  cao_cut : Vector3d;
  a : Vector3d;
  ai : Vector3d;
  alpha : Q;
  r_cut : Q;
  cao3 : Z
}.

(** [dp3m.params.mesh[0]]. *)
Definition mesh0 (p : P3MParameters) : Z := fst (fst (mesh p)).

Definition set_r_cut (p : P3MParameters) (rc rc_iL : Q) : P3MParameters :=
  mkP3M (alpha_L p) rc_iL (mesh p) (mesh_off p) (cao p) (inter p) (accuracy p)
        (epsilon p) (cao_cut p) (a p) (ai p) (alpha p) rc (cao3 p).

Definition set_mesh (p : P3MParameters) (m : Z) : P3MParameters :=
  mkP3M (alpha_L p) (r_cut_iL p) (m, m, m) (mesh_off p) (cao p) (inter p)
        (accuracy p) (epsilon p) (cao_cut p) (a p) (ai p) (alpha p) (r_cut p)
        (cao3 p).

Definition set_cao (p : P3MParameters) (c : Z) : P3MParameters :=
  mkP3M (alpha_L p) (r_cut_iL p) (mesh p) (mesh_off p) c (inter p)
        (accuracy p) (epsilon p) (cao_cut p) (a p) (ai p) (alpha p) (r_cut p)
        (cao3 p).

Definition set_alpha (p : P3MParameters) (al al_L : Q) : P3MParameters :=
  mkP3M al_L (r_cut_iL p) (mesh p) (mesh_off p) (cao p) (inter p)
        (accuracy p) (epsilon p) (cao_cut p) (a p) (ai p) al (r_cut p)
        (cao3 p).

Definition set_accuracy (p : P3MParameters) (ac : Q) : P3MParameters :=
  mkP3M (alpha_L p) (r_cut_iL p) (mesh p) (mesh_off p) (cao p) (inter p)
        ac (epsilon p) (cao_cut p) (a p) (ai p) (alpha p) (r_cut p)
        (cao3 p).

(** The global state the setter can reach: the active dipolar method
    ([dipole.method]), the parameter block and the box. *)
Record Dipolar_state : Type := mkDipolar {
  method : DipolarInteraction;
  params : P3MParameters;
  box_l : Vector3d
}.

(** Modelled from the spec: [Dipole::set_method_local] (dipole.cpp) is not
    part of the sources at hand; it makes the given method the active
    dipolar method. *)
Definition set_method_local (m : DipolarInteraction) (st : Dipolar_state)
    : Dipolar_state :=
  mkDipolar m (params st) (box_l st).

Definition set_params (st : Dipolar_state) (p : P3MParameters) : Dipolar_state :=
  mkDipolar (method st) p (box_l st).

Section SetParams.

(** [mpi_bcast_coulomb_params ()] (communication.cpp). *)
Variable mpi_bcast_coulomb_params : Dipolar_state -> Dipolar_state.

(** [dp3m_set_params]: the return value and the state afterwards. *)
Definition dp3m_set_params (r_cut : Q) (mesh cao : Z) (alpha accuracy : Q)
    (st : Dipolar_state) : Z * Dipolar_state :=
  let st0 := if negb (is_p3m_method (method st))
             then set_method_local DIPOLAR_P3M st else st in
  if Qltb r_cut 0 then ((-1)%Z, st0)
  else if (mesh <? 0)%Z then ((-2)%Z, st0)
  else if (cao <? 1)%Z || (7 <? cao)%Z || (mesh <? cao)%Z then ((-3)%Z, st0)
  else
    let p1 := set_r_cut (params st0) r_cut (r_cut * (1 / vget (box_l st0) 0)) in
    let p2 := set_cao (set_mesh p1 mesh) cao in
    let st1 := set_params st0 p2 in
    if negb (Qgtb alpha 0) && negb (Qeq_bool alpha (-1.0)) then ((-4)%Z, st1)
    else
      let st2 := if Qgtb alpha 0
                 then set_params st1
                        (set_alpha (params st1) alpha (alpha * vget (box_l st1) 0))
                 else st1 in
      if negb (Qgeb accuracy 0) && negb (Qeq_bool accuracy (-1.0))
      then ((-5)%Z, st2)
      else
        let st3 := if Qgeb accuracy 0
                   then set_params st2 (set_accuracy (params st2) accuracy)
                   else st2 in
        (0%Z, mpi_bcast_coulomb_params st3).

(** The dipolar method after any call: switched to [DIPOLAR_P3M] unless it
    already was one of the two P3M methods. *)
Definition method_after (st : Dipolar_state) : DipolarInteraction :=
  if is_p3m_method (method st) then method st else DIPOLAR_P3M.

(** The charge assignment order is rejected. *)
Definition cao_invalid (mesh cao : Z) : Prop :=
  (cao < 1 \/ 7 < cao \/ mesh < cao)%Z.

Lemma st0_method (st : Dipolar_state) :
  method (if negb (is_p3m_method (method st))
          then set_method_local DIPOLAR_P3M st else st) = method_after st
  /\ params (if negb (is_p3m_method (method st))
             then set_method_local DIPOLAR_P3M st else st) = params st
  /\ box_l (if negb (is_p3m_method (method st))
            then set_method_local DIPOLAR_P3M st else st) = box_l st.
Proof.
  unfold method_after. destruct (is_p3m_method (method st)); repeat split.
Qed.

(** C2 (amended): every invalid input makes [dp3m_set_params] return a
    negative code (-1 for a negative [r_cut], -2 for a negative mesh, -3 for
    [cao] outside [1,7] or above the mesh, -4 for an invalid [alpha], -5 for
    an invalid accuracy); the dipolar method is then [DIPOLAR_P3M] unless it
    already was one of the two P3M methods; the parameter block is untouched
    when the code is -1, -2 or -3, its fields [alpha], [alpha_L] and
    [accuracy] are untouched when the code is -4, and its field [accuracy]
    is untouched when the code is -5; the box is never touched. *)
Theorem dp3m_set_params_rejects (r_cut : Q) (mesh cao : Z) (alpha accuracy : Q)
    (st : Dipolar_state) :
  let res := dp3m_set_params r_cut mesh cao alpha accuracy st in
  let code := fst res in
  let st' := snd res in
  (r_cut < 0 ->
     code = (-1)%Z /\ method st' = method_after st /\
     params st' = params st /\ box_l st' = box_l st) /\
  (0 <= r_cut -> (mesh < 0)%Z ->
     code = (-2)%Z /\ method st' = method_after st /\
     params st' = params st /\ box_l st' = box_l st) /\
  (0 <= r_cut -> (0 <= mesh)%Z -> cao_invalid mesh cao ->
     code = (-3)%Z /\ method st' = method_after st /\
     params st' = params st /\ box_l st' = box_l st) /\
  (0 <= r_cut -> (0 <= mesh)%Z -> ~ cao_invalid mesh cao ->
   alpha <= 0 -> ~ alpha == -1 ->
     code = (-4)%Z /\ method st' = method_after st /\ box_l st' = box_l st /\
     DP3M.alpha (params st') = DP3M.alpha (params st) /\
     alpha_L (params st') = alpha_L (params st) /\
     DP3M.accuracy (params st') = DP3M.accuracy (params st)) /\
  (0 <= r_cut -> (0 <= mesh)%Z -> ~ cao_invalid mesh cao ->
   (0 < alpha \/ alpha == -1) -> accuracy < 0 -> ~ accuracy == -1 ->
     code = (-5)%Z /\ method st' = method_after st /\ box_l st' = box_l st /\
     DP3M.accuracy (params st') = DP3M.accuracy (params st)).
Proof.
  cbv zeta. unfold dp3m_set_params, cao_invalid.
  destruct (st0_method st) as (Hm & Hp & Hb).
  set (st0 := if negb (is_p3m_method (method st))
              then set_method_local DIPOLAR_P3M st else st) in *.
  assert (Hcao : forall m c : Z,
            ~ (c < 1 \/ 7 < c \/ m < c)%Z ->
            ((c <? 1) || (7 <? c) || (m <? c))%Z = false).
  { intros m c H. destruct (Z.ltb_spec c 1); [exfalso; apply H; lia|].
    destruct (Z.ltb_spec 7 c); [exfalso; apply H; lia|].
    destruct (Z.ltb_spec m c); [exfalso; apply H; lia|]. reflexivity. }
  assert (Hneq : forall x : Q, ~ x == -1 -> Qeq_bool x (-1.0) = false).
  { intros x H. destruct (Qeq_bool x (-1.0)) eqn:E; [|reflexivity].
    apply Qeq_bool_iff in E. exfalso. apply H. rewrite E. reflexivity. }
  split; [|split; [|split; [|split]]].
  - intro H. apply Qltb_lt in H. rewrite H. cbn [fst snd]. auto.
  - intros H1 H2. apply Qltb_ge in H1. apply Z.ltb_lt in H2.
    rewrite H1, H2. cbn [fst snd]. auto.
  - intros H1 H2 H3. apply Qltb_ge in H1. apply Z.ltb_ge in H2.
    rewrite H1, H2.
    assert (E : ((cao <? 1) || (7 <? cao) || (mesh <? cao))%Z = true).
    { destruct H3 as [H3|[H3|H3]]; apply Z.ltb_lt in H3; rewrite H3;
        rewrite ?orb_true_r; reflexivity. }
    rewrite E. cbn [fst snd]. auto.
  - intros H1 H2 H3 H4 H5. apply Qltb_ge in H1. apply Z.ltb_ge in H2.
    rewrite H1, H2, (Hcao _ _ H3).
    apply Qgtb_le in H4. rewrite H4, (Hneq _ H5). cbn [negb andb fst snd].
    cbn. rewrite Hm, Hb, Hp. repeat split.
  - intros H1 H2 H3 H4 H5 H6. apply Qltb_ge in H1. apply Z.ltb_ge in H2.
    rewrite H1, H2, (Hcao _ _ H3).
    assert (E : negb (Qgtb alpha 0) && negb (Qeq_bool alpha (-1.0)) = false).
    { destruct H4 as [H4|H4].
      - apply Qgtb_gt in H4. rewrite H4. reflexivity.
      - assert (E1 : Qeq_bool alpha (-1.0) = true).
        { apply Qeq_bool_iff. rewrite H4. reflexivity. }
        rewrite E1. apply andb_false_r. }
    rewrite E. apply Qgeb_lt in H5. rewrite H5, (Hneq _ H6).
    cbn [negb andb fst snd].
    destruct (Qgtb alpha 0); cbn; rewrite Hm, Hb, Hp; repeat split.
Qed.

End SetParams.

(** The claim as the documentation states it ("no global state is mutated")
    fails: with no dipolar method active, a call with a negative [r_cut] is
    rejected with -1 and leaves [DIPOLAR_P3M] as the active method. *)
Definition unset_params : P3MParameters :=
  mkP3M 0 0 (0, 0, 0)%Z (mkV 0 0 0) 0 0 0 0 (mkV 0 0 0) (mkV 0 0 0) (mkV 0 0 0)
        0 0 0.

Definition no_dipoles : Dipolar_state :=
  mkDipolar DIPOLAR_NONE unset_params (mkV 10 10 10).

Lemma dp3m_set_params_switches_method :
  let res := dp3m_set_params (fun st => st) (-1) 32 3 1 0.001 no_dipoles in
  fst res = (-1)%Z /\ method no_dipoles = DIPOLAR_NONE /\
  method (snd res) = DIPOLAR_P3M /\ method (snd res) <> method no_dipoles.
Proof.
  cbv zeta. vm_compute. repeat split. discriminate.
Qed.

(** A call rejected for its [alpha] has already stored [r_cut], the mesh and
    [cao]. *)
Lemma dp3m_set_params_invalid_alpha_stores :
  let res := dp3m_set_params (fun st => st) 3 32 3 (-2) 0.001 no_dipoles in
  fst res = (-4)%Z /\ DP3M.mesh (params (snd res)) = (32, 32, 32)%Z /\
  DP3M.cao (params (snd res)) = 3%Z /\ DP3M.r_cut (params (snd res)) = 3.
Proof.
  cbv zeta. vm_compute. repeat split.
Qed.

Lemma dp3m_set_params_rejects_witness :
  let res := dp3m_set_params (fun st => st) (-1) 32 3 1 0.001 no_dipoles in
  fst res = (-1)%Z /\ method (snd res) = DIPOLAR_P3M /\
  params (snd res) = unset_params /\ box_l (snd res) = mkV 10 10 10.
Proof.
  cbv zeta.
  destruct (dp3m_set_params_rejects (fun st => st) (-1) 32 3 1 0.001 no_dipoles)
    as (H & _).
  apply H. vm_compute. reflexivity.
Defined.

(** *** Influence functions *)

(** [std::round]: to the nearest integer, halfway cases away from zero. *)
Definition round_half_away (x : Q) : Z :=
  if Qltb x 0 then Qceiling (x - 0.5) else Qfloor (x + 0.5).

(** A heap array of doubles, as its contents by index. *)
Definition darray : Type := Z -> Q.

Definition aget (arr : darray) (i : Z) : Q := arr i.

Definition aset (arr : darray) (i : Z) (v : Q) : darray :=
  fun j => if (j =? i)%Z then v else arr j.

(** The part of [dp3m] the influence functions read or write:
    [fft.plan[3].start], [fft.plan[3].new_mesh], the tables [meshift],
    [d_op], [g_force] and [g_energy]. *)
Record dp3m_data : Type := mkData {
  dparams : P3MParameters;
  plan3_start : Z * Z * Z;
  plan3_new_mesh : Z * Z * Z;
  meshift : darray;
  d_op : darray;
  g_force : darray;
  g_energy : darray;
  dbox_l : Vector3d
}.

Definition set_meshift (d : dp3m_data) (t : darray) : dp3m_data :=
  mkData (dparams d) (plan3_start d) (plan3_new_mesh d) t (d_op d) (g_force d)
         (g_energy d) (dbox_l d).

Definition set_d_op (d : dp3m_data) (t : darray) : dp3m_data :=
  mkData (dparams d) (plan3_start d) (plan3_new_mesh d) (meshift d) t (g_force d)
         (g_energy d) (dbox_l d).

Definition set_g_force (d : dp3m_data) (t : darray) : dp3m_data :=
  mkData (dparams d) (plan3_start d) (plan3_new_mesh d) (meshift d) (d_op d) t
         (g_energy d) (dbox_l d).

Definition set_g_energy (d : dp3m_data) (t : darray) : dp3m_data :=
  mkData (dparams d) (plan3_start d) (plan3_new_mesh d) (meshift d) (d_op d)
         (g_force d) t (dbox_l d).

Definition z0 (t : Z * Z * Z) : Z := fst (fst t).
Definition z1 (t : Z * Z * Z) : Z := snd (fst t).
Definition z2 (t : Z * Z * Z) : Z := snd t.

(** [for (i = lo; i < hi; i++)]. *)
Definition for_range (lo hi : Z) : list Z :=
  map (fun k => (lo + Z.of_nat k)%Z) (seq 0 (Z.to_nat (hi - lo))).

(** [dp3m_calc_meshift]. *)
Definition dp3m_calc_meshift (d : dp3m_data) : dp3m_data :=
  let dmesh := inject_Z (mesh0 (dparams d)) in
  set_meshift d
    (fold_left
       (fun t i => aset t i (inject_Z i
                             - inject_Z (round_half_away (inject_Z i / dmesh))
                               * dmesh))
       (for_range 0 (mesh0 (dparams d))) (meshift d)).

(** [dp3m_calc_differential_operator]. *)
Definition dp3m_calc_differential_operator (d : dp3m_data) : dp3m_data :=
  let dmesh := inject_Z (mesh0 (dparams d)) in
  let t := fold_left
             (fun t i => aset t i (inject_Z i
                                   - inject_Z (round_half_away (inject_Z i / dmesh))
                                     * dmesh))
             (for_range 0 (mesh0 (dparams d))) (d_op d) in
  set_d_op d (aset t (Z.quot (mesh0 (dparams d)) 2) 0).

Section Influence.

Variable exp : Q -> Q.
Variable pow : Q -> Q -> Q.
(** [sinc] and [Utils::pi ()] of the utils library, and [P3M_BRILLOUIN] of
    p3m-common.hpp. *)
Variable sinc : Q -> Q.
Variable pi : Q.
Variable P3M_BRILLOUIN : Z.

(** The values [-P3M_BRILLOUIN, ..., P3M_BRILLOUIN] of a Brillouin loop. *)
Definition brillouin : list Q :=
  map inject_Z (for_range (- P3M_BRILLOUIN) (P3M_BRILLOUIN + 1)).

(** The aliasing sums: [(nominator[0], denominator)].  [proj] is what the
    nominator takes of the projection [n_nm]: its cube for the force, its
    square for the energy. *)
Definition aliasing_sums (proj : Q -> Q) (d : dp3m_data) (n : Z * Z * Z)
    : Q * Q :=
  let m0 := inject_Z (mesh0 (dparams d)) in
  let limit := 30 in
  let f1 := 1.0 / m0 in
  let f2 := sqr (pi / alpha_L (dparams d)) in
  let s := fun x => pow (sinc (f1 * x)) (2.0 * inject_Z (cao (dparams d))) in
  fold_left (fun acc mx =>
    let nmx := aget (meshift d) (z0 n) + m0 * mx in
    let sx := s nmx in
    fold_left (fun acc my =>
      let nmy := aget (meshift d) (z1 n) + m0 * my in
      let sy := sx * s nmy in
      fold_left (fun (acc : Q * Q) mz =>
        let nmz := aget (meshift d) (z2 n) + m0 * mz in
        let sz := sy * s nmz in
        let nm2 := sqr nmx + sqr nmy + sqr nmz in
        let expo := f2 * nm2 in
        let f3 := if Qltb expo limit then sz * exp (- expo) / nm2 else 0.0 in
        let n_nm := aget (d_op d) (z0 n) * nmx + aget (d_op d) (z1 n) * nmy
                    + aget (d_op d) (z2 n) * nmz in
        (fst acc + f3 * proj n_nm, snd acc + sz))
        brillouin acc)
      brillouin acc)
    brillouin (0.0, 0.0).

Definition dp3m_perform_aliasing_sums_force (d : dp3m_data) (n : Z * Z * Z)
    : Q * Q :=
  aliasing_sums (fun n_nm => n_nm * n_nm * n_nm) d n.

Definition dp3m_perform_aliasing_sums_energy (d : dp3m_data) (n : Z * Z * Z)
    : Q * Q :=
  aliasing_sums (fun n_nm => n_nm * n_nm) d n.

(** [ind] of the loops over the local reciprocal modes. *)
Definition mode_index (d : dp3m_data) (n : Z * Z * Z) : Z :=
  ((z2 n - z2 (plan3_start d))
   + z2 (plan3_new_mesh d)
     * ((z1 n - z1 (plan3_start d))
        + z1 (plan3_new_mesh d) * (z0 n - z0 (plan3_start d))))%Z.

Definition is_zero_mode (n : Z * Z * Z) : bool :=
  ((z0 n =? 0) && (z1 n =? 0) && (z2 n =? 0))%Z.

(** [n[i] % (mesh[0] / 2) == 0] on the three axes. *)
Definition is_nyquist_mode (d : dp3m_data) (n : Z * Z * Z) : bool :=
  let h := Z.quot (mesh0 (dparams d)) 2 in
  ((Z.rem (z0 n) h =? 0) && (Z.rem (z1 n) h =? 0) && (Z.rem (z2 n) h =? 0))%Z.

(** [fak1], and the value the [else] branch stores, with [e] the exponent
    of the squared differential operator (3 for the force, 2 for the
    energy). *)
Definition fak1 (d : dp3m_data) : Q :=
  let m := mesh0 (dparams d) in
  inject_Z (m * m * m) * 2.0 / (vget (dbox_l d) 0 * vget (dbox_l d) 0).

Definition aliasing_value (e : Q) (sums : Q * Q) (d : dp3m_data)
    (n : Z * Z * Z) : Q :=
  let nominator := fst sums in
  let denominator := snd sums in
  let fak2 := nominator
              / (pow (sqr (aget (d_op d) (z0 n)) + sqr (aget (d_op d) (z1 n))
                      + sqr (aget (d_op d) (z2 n))) e
                 * sqr denominator) in
  fak1 d * fak2.

(** The value stored for mode [n]. *)
Definition influence_entry (e : Q) (sums : dp3m_data -> Z * Z * Z -> Q * Q)
    (d : dp3m_data) (n : Z * Z * Z) : Q :=
  if is_zero_mode n then 0.0
  else if is_nyquist_mode d n then 0.0
  else aliasing_value e (sums d n) d n.

(** The three nested loops over [n[0]], [n[1]], [n[2]], writing
    [entry n] at [ind]. *)
Definition influence_loop (entry : Z * Z * Z -> Q) (d : dp3m_data)
    (g : darray) : darray :=
  let s := plan3_start d in
  let m := plan3_new_mesh d in
  fold_left (fun g n0 =>
    fold_left (fun g n1 =>
      fold_left (fun g n2 => aset g (mode_index d (n0, n1, n2)) (entry (n0, n1, n2)))
                (for_range (z2 s) (z2 s + z2 m)) g)
      (for_range (z1 s) (z1 s + z1 m)) g)
    (for_range (z0 s) (z0 s + z0 m)) g.

Definition dp3m_calc_influence_function_force (d : dp3m_data) : dp3m_data :=
  let d1 := dp3m_calc_meshift d in
  set_g_force d1
    (influence_loop (influence_entry 3 dp3m_perform_aliasing_sums_force d1) d1
                    (g_force d1)).

Definition dp3m_calc_influence_function_energy (d : dp3m_data) : dp3m_data :=
  let d1 := dp3m_calc_meshift d in
  set_g_energy d1
    (influence_loop (influence_entry 2 dp3m_perform_aliasing_sums_energy d1) d1
                    (g_energy d1)).

(** Mode [n] is one of the local modes the loops visit. *)
Definition local_mode (d : dp3m_data) (n : Z * Z * Z) : Prop :=
  (z0 (plan3_start d) <= z0 n < z0 (plan3_start d) + z0 (plan3_new_mesh d) /\
   z1 (plan3_start d) <= z1 n < z1 (plan3_start d) + z1 (plan3_new_mesh d) /\
   z2 (plan3_start d) <= z2 n < z2 (plan3_start d) + z2 (plan3_new_mesh d))%Z.

End Influence.

(** Loops as folds: membership in a range, nested loops as one loop over the
    product of the ranges, and the contents of an array after a loop of
    writes at pairwise distinct places. *)
Lemma in_for_range (lo hi n : Z) : In n (for_range lo hi) <-> (lo <= n < hi)%Z.
Proof.
  unfold for_range. rewrite in_map_iff. split.
  - intros (k & <- & Hk). apply in_seq in Hk. lia.
  - intro H. exists (Z.to_nat (n - lo)). split; [lia|].
    apply in_seq. lia.
Qed.

Lemma fold_left_nested {S A B : Type} (F : S -> A * B -> S) (la : list A)
    (lb : list B) :
  forall g : S,
  fold_left (fun g a => fold_left (fun g b => F g (a, b)) lb g) la g
  = fold_left F (list_prod la lb) g.
Proof.
  induction la as [|x la IH]; intro g; cbn [fold_left list_prod].
  - reflexivity.
  - rewrite fold_left_app, IH. f_equal.
    clear IH. revert g. induction lb as [|y lb IHb]; intro g; cbn.
    + reflexivity.
    + apply IHb.
Qed.

Lemma write_loop_get {K : Type} (f : K -> Z) (v : K -> Q) (l : list K)
    (g : darray) (k0 : K) :
  In k0 l ->
  (forall k, In k l -> f k = f k0 -> k = k0) ->
  aget (fold_left (fun g k => aset g (f k) (v k)) l g) (f k0) = v k0.
Proof.
  revert k0. induction l as [|k l IH] using rev_ind; intros k0 Hin Hinj.
  - destruct Hin.
  - rewrite fold_left_app. cbn [fold_left]. unfold aget, aset.
    destruct (Z.eqb_spec (f k0) (f k)) as [E|E].
    + assert (k = k0) as ->.
      { apply Hinj; [apply in_or_app; right; left; reflexivity | congruence]. }
      reflexivity.
    + apply in_app_or in Hin. destruct Hin as [Hin|[->|[]]]; [|congruence].
      apply (IH k0 Hin). intros k' Hk' Hf. apply Hinj; [|exact Hf].
      apply in_or_app. left. exact Hk'.
Qed.

Lemma row_major_unique (N q1 q2 r1 r2 : Z) :
  (0 <= r1 < N)%Z -> (0 <= r2 < N)%Z ->
  (r1 + N * q1 = r2 + N * q2)%Z -> q1 = q2 /\ r1 = r2.
Proof.
  intros H1 H2 E.
  assert (q1 = q2) by nia. subst q2. split; [reflexivity | lia].
Qed.

Lemma mode_index_injective (d : dp3m_data) (n m : Z * Z * Z) :
  local_mode d n -> local_mode d m ->
  mode_index d n = mode_index d m -> n = m.
Proof.
  destruct n as [[a b] c]. destruct m as [[a' b'] c'].
  unfold local_mode, mode_index, z0, z1, z2. cbn [fst snd].
  intros (Ha & Hb & Hc) (Ha' & Hb' & Hc') E.
  apply row_major_unique in E; [|lia|lia]. destruct E as [E Ec].
  apply row_major_unique in E; [|lia|lia]. destruct E as [Ea Eb].
  repeat f_equal; lia.
Qed.

Lemma influence_loop_get (entry : Z * Z * Z -> Q) (d : dp3m_data) (g : darray)
    (n : Z * Z * Z) :
  local_mode d n ->
  aget (influence_loop entry d g) (mode_index d n) = entry n.
Proof.
  intro Hn. unfold influence_loop. cbv zeta.
  set (r0 := for_range (z0 (plan3_start d)) _).
  set (r1 := for_range (z1 (plan3_start d)) _).
  set (r2 := for_range (z2 (plan3_start d)) _).
  set (F := fun (g : darray) (k : Z * Z * Z) => aset g (mode_index d k) (entry k)).
  change (aget
            (fold_left (fun g n0 =>
               fold_left (fun g n1 =>
                 (fun g (p : Z * Z) =>
                    fold_left (fun g n2 => F g (p, n2)) r2 g) g (n0, n1))
                 r1 g) r0 g)
            (mode_index d n) = entry n).
  rewrite (fold_left_nested
             (fun g (p : Z * Z) => fold_left (fun g n2 => F g (p, n2)) r2 g) r0 r1).
  rewrite (fold_left_nested F (list_prod r0 r1) r2).
  assert (Hin : forall k, In k (list_prod (list_prod r0 r1) r2) <-> local_mode d k).
  { intros [[a b] c]. rewrite !in_prod_iff. unfold r0, r1, r2.
    rewrite !in_for_range. unfold local_mode, z0, z1, z2. cbn [fst snd]. tauto. }
  apply (write_loop_get (mode_index d) entry).
  - apply Hin. exact Hn.
  - intros k Hk E. apply Hin in Hk. apply (mode_index_injective d); assumption.
Qed.

(** The two classes of modes the influence functions set to zero. *)
Lemma is_zero_mode_iff (n : Z * Z * Z) :
  is_zero_mode n = true <-> n = (0, 0, 0)%Z.
Proof.
  destruct n as [[a b] c]. unfold is_zero_mode, z0, z1, z2. cbn [fst snd].
  rewrite !andb_true_iff, !Z.eqb_eq. split.
  - intros [[-> ->] ->]. reflexivity.
  - intro E. injection E as -> -> ->. auto.
Qed.

Lemma is_nyquist_mode_iff (d : dp3m_data) (n : Z * Z * Z) :
  (2 <= mesh0 (dparams d))%Z ->
  (is_nyquist_mode d n = true <->
   let h := (mesh0 (dparams d) / 2)%Z in
   (h | z0 n)%Z /\ (h | z1 n)%Z /\ (h | z2 n)%Z).
Proof.
  intro Hm. unfold is_nyquist_mode. cbv zeta.
  assert (Hq : Z.quot (mesh0 (dparams d)) 2 = (mesh0 (dparams d) / 2)%Z).
  { apply Z.quot_div_nonneg; lia. }
  rewrite Hq.
  assert (Hh : (mesh0 (dparams d) / 2 <> 0)%Z).
  { intro E. pose proof (Z.div_le_mono 2 (mesh0 (dparams d)) 2 ltac:(lia) Hm) as H.
    change (2 / 2)%Z with 1%Z in H. lia. }
  rewrite !andb_true_iff, !Z.eqb_eq.
  rewrite !(Z.rem_divide _ _ Hh). tauto.
Qed.

(** Mode [n] is the zero mode or lies on a mesh-Nyquist point: each of its
    three indices is a multiple of [mesh/2]. *)
Definition zeroed_mode (d : dp3m_data) (n : Z * Z * Z) : Prop :=
  n = (0, 0, 0)%Z \/
  (let h := (mesh0 (dparams d) / 2)%Z in
   (h | z0 n)%Z /\ (h | z1 n)%Z /\ (h | z2 n)%Z).

Lemma influence_entry_cases (pow : Q -> Q -> Q) (e : Q)
    (sums : dp3m_data -> Z * Z * Z -> Q * Q) (d : dp3m_data) (n : Z * Z * Z) :
  (2 <= mesh0 (dparams d))%Z ->
  (zeroed_mode d n -> influence_entry pow e sums d n == 0) /\
  (~ zeroed_mode d n ->
   influence_entry pow e sums d n = aliasing_value pow e (sums d n) d n).
Proof.
  intro Hm. unfold influence_entry, zeroed_mode.
  pose proof (is_zero_mode_iff n) as Hz.
  pose proof (is_nyquist_mode_iff d n Hm) as Hy.
  destruct (is_zero_mode n) eqn:Ez.
  - split; [intros _; reflexivity|].
    intro H. exfalso. apply H. left. apply Hz. reflexivity.
  - destruct (is_nyquist_mode d n) eqn:Ey.
    + split; [intros _; reflexivity|].
      intro H. exfalso. apply H. right. apply Hy. reflexivity.
    + split; [|intros _; reflexivity].
      intros [H|H]; [apply Hz in H | apply Hy in H]; discriminate.
Qed.

(** *** The aliasing sums in closed form *)

Section AliasingSums.

Variable exp : Q -> Q.
Variable pow : Q -> Q -> Q.
Variable sinc : Q -> Q.
Variable pi : Q.
Variable P3M_BRILLOUIN : Z.

Definition Qsum (l : list Q) : Q := fold_right Qplus 0 l.

(** The Brillouin-zone stencil: the images [(mx, my, mz)] with every index
    between [-P3M_BRILLOUIN] and [P3M_BRILLOUIN]. *)
Definition stencil : list (Q * Q * Q) :=
  list_prod (list_prod (brillouin P3M_BRILLOUIN) (brillouin P3M_BRILLOUIN))
            (brillouin P3M_BRILLOUIN).

(** The image [k = n + m * mesh] of mode [n], with [n] taken from the shift
    table. *)
Definition image (d : dp3m_data) (n : Z * Z * Z) (m : Q * Q * Q) : Q * Q * Q :=
  let m0 := inject_Z (mesh0 (dparams d)) in
  (aget (meshift d) (z0 n) + m0 * fst (fst m),
   aget (meshift d) (z1 n) + m0 * snd (fst m),
   aget (meshift d) (z2 n) + m0 * snd m).

Definition norm2_image (k : Q * Q * Q) : Q :=
  sqr (fst (fst k)) + sqr (snd (fst k)) + sqr (snd k).

(** The transform of the assignment function at [k]:
    [sinc (k_i / mesh)^(2 cao)] over the three axes. *)
Definition assignment_transform (d : dp3m_data) (k : Q * Q * Q) : Q :=
  let U := fun x => pow (sinc (1.0 / inject_Z (mesh0 (dparams d)) * x))
                        (2.0 * inject_Z (cao (dparams d))) in
  U (fst (fst k)) * U (snd (fst k)) * U (snd k).

(** The Gaussian damping [exp (-(pi / alpha_L)^2 |k|^2) / |k|^2] of an
    image; images whose exponent reaches 30 are left out. *)
Definition damping (d : dp3m_data) (k : Q * Q * Q) : Q :=
  let expo := sqr (pi / alpha_L (dparams d)) * norm2_image k in
  if Qltb expo 30 then exp (- expo) / norm2_image k else 0.

(** The projection [D . k] of an image on the differential operator of
    mode [n]. *)
Definition projection (d : dp3m_data) (n : Z * Z * Z) (k : Q * Q * Q) : Q :=
  aget (d_op d) (z0 n) * fst (fst k) + aget (d_op d) (z1 n) * snd (fst k)
  + aget (d_op d) (z2 n) * snd k.

(** The two aliasing sums over the stencil, with the projection taken to the
    power [e]. *)
Definition aliasing_nominator (e : Z) (d : dp3m_data) (n : Z * Z * Z) : Q :=
  Qsum (map (fun m => let k := image d n m in
                      assignment_transform d k * damping d k
                      * projection d n k ^ e)
            stencil).

Definition aliasing_denominator (d : dp3m_data) (n : Z * Z * Z) : Q :=
  Qsum (map (fun m => assignment_transform d (image d n m)) stencil).

(** The value of the influence function at a mode that is not zeroed:
    [2 mesh^3 / L^2 * nominator / (|D|^(2e) * denominator^2)], with [e = 3]
    for the force and [e = 2] for the energy. *)
Definition influence_value (e : Z) (d : dp3m_data) (n : Z * Z * Z) : Q :=
  let D2 := sqr (aget (d_op d) (z0 n)) + sqr (aget (d_op d) (z1 n))
            + sqr (aget (d_op d) (z2 n)) in
  2 * inject_Z (mesh0 (dparams d)) ^ 3 / vget (dbox_l d) 0 ^ 2
  * (aliasing_nominator e d n
     / (pow D2 (inject_Z e) * aliasing_denominator d n ^ 2)).

(** A loop that adds to two accumulators computes two sums. *)
Lemma fold_left_pair_sum {A : Type} (f h : A -> Q) (l : list A) :
  forall acc : Q * Q,
  fst (fold_left (fun acc x => (fst acc + f x, snd acc + h x)) l acc)
    == fst acc + Qsum (map f l) /\
  snd (fold_left (fun acc x => (fst acc + f x, snd acc + h x)) l acc)
    == snd acc + Qsum (map h l).
Proof.
  induction l as [|x l IH]; intro acc; cbn [fold_left map Qsum fold_right].
  - split; ring.
  - destruct (IH (fst acc + f x, snd acc + h x)) as [H1 H2].
    rewrite H1, H2. cbn [fst snd]. fold (Qsum (map f l)) (Qsum (map h l)).
    split; ring.
Qed.

Lemma Qsum_map_ext {A : Type} (f h : A -> Q) (l : list A) :
  (forall x, f x == h x) -> Qsum (map f l) == Qsum (map h l).
Proof.
  intro H. induction l as [|x l IH]; cbn [map Qsum fold_right].
  - reflexivity.
  - fold (Qsum (map f l)) (Qsum (map h l)). rewrite IH, (H x). reflexivity.
Qed.

(** The three nested Brillouin loops of [dp3m_perform_aliasing_sums_force]
    and [_energy] compute the two sums over the stencil. *)
Lemma aliasing_sums_closed (proj : Q -> Q) (e : Z) (d : dp3m_data)
    (n : Z * Z * Z) :
  (forall x, proj x == x ^ e) ->
  fst (aliasing_sums exp pow sinc pi P3M_BRILLOUIN proj d n)
    == aliasing_nominator e d n /\
  snd (aliasing_sums exp pow sinc pi P3M_BRILLOUIN proj d n)
    == aliasing_denominator d n.
Proof.
  intro Hproj. unfold aliasing_sums. cbv zeta.
  set (b := brillouin P3M_BRILLOUIN).
  set (f := fun m : Q * Q * Q =>
              let k := image d n m in
              (if Qltb (sqr (pi / alpha_L (dparams d)) * norm2_image k) 30
               then assignment_transform d k
                    * exp (- (sqr (pi / alpha_L (dparams d)) * norm2_image k))
                    / norm2_image k
               else 0.0) * proj (projection d n k)).
  set (h := fun m : Q * Q * Q => assignment_transform d (image d n m)).
  set (F := fun (acc : Q * Q) (m : Q * Q * Q) =>
              (fst acc + f m, snd acc + h m)).
  change (fst (fold_left (fun acc mx =>
                 fold_left (fun acc my =>
                   (fun acc (p : Q * Q) =>
                      fold_left (fun acc mz => F acc (p, mz)) b acc)
                     acc (mx, my))
                   b acc) b (0.0, 0.0))
          == aliasing_nominator e d n /\
          snd (fold_left (fun acc mx =>
                 fold_left (fun acc my =>
                   (fun acc (p : Q * Q) =>
                      fold_left (fun acc mz => F acc (p, mz)) b acc)
                     acc (mx, my))
                   b acc) b (0.0, 0.0))
          == aliasing_denominator d n).
  rewrite (fold_left_nested
             (fun acc (p : Q * Q) => fold_left (fun acc mz => F acc (p, mz)) b acc)
             b b).
  rewrite (fold_left_nested F (list_prod b b) b).
  destruct (fold_left_pair_sum f h (list_prod (list_prod b b) b) (0.0, 0.0))
    as [H1 H2].
  unfold F. rewrite H1, H2. cbn [fst snd].
  unfold aliasing_nominator, aliasing_denominator, stencil. fold b.
  split.
  - assert (E : Qsum (map f (list_prod (list_prod b b) b))
                == Qsum (map (fun m => let k := image d n m in
                                       assignment_transform d k * damping d k
                                       * projection d n k ^ e)
                             (list_prod (list_prod b b) b))).
    { apply Qsum_map_ext. intro m. unfold f, damping. cbv zeta.
      rewrite Hproj.
      destruct (Qltb (sqr (pi / alpha_L (dparams d))
                      * norm2_image (image d n m)) 30);
        unfold Qdiv; ring. }
    rewrite E. transitivity (0 + Qsum (map (fun m => let k := image d n m in
                                       assignment_transform d k * damping d k
                                       * projection d n k ^ e)
                             (list_prod (list_prod b b) b))).
    + apply Qplus_comp; reflexivity.
    + apply Qplus_0_l.
  - fold h. transitivity (0 + Qsum (map h (list_prod (list_prod b b) b))).
    + apply Qplus_comp; reflexivity.
    + apply Qplus_0_l.
Qed.

(** The value the [else] branch stores is the closed form. *)
Lemma aliasing_value_closed (proj : Q -> Q) (e : Z) (d : dp3m_data)
    (n : Z * Z * Z) :
  (forall x, proj x == x ^ e) ->
  aliasing_value pow (inject_Z e)
    (aliasing_sums exp pow sinc pi P3M_BRILLOUIN proj d n) d n
  == influence_value e d n.
Proof.
  intro Hproj.
  destruct (aliasing_sums_closed proj e d n Hproj) as [HN HD].
  unfold aliasing_value, influence_value, fak1. cbv zeta.
  unfold sqr at 4. rewrite HN, HD.
  assert (Hm : inject_Z (mesh0 (dparams d) * mesh0 (dparams d)
                         * mesh0 (dparams d))
               == inject_Z (mesh0 (dparams d)) ^ 3).
  { rewrite !inject_Z_mult. ring. }
  assert (HL : vget (dbox_l d) 0 * vget (dbox_l d) 0
               == vget (dbox_l d) 0 ^ 2) by ring.
  assert (Hd : aliasing_denominator d n * aliasing_denominator d n
               == aliasing_denominator d n ^ 2) by ring.
  rewrite Hm, HL, Hd.
  apply Qmult_comp; [unfold Qdiv; ring | reflexivity].
Qed.

End AliasingSums.

(** C8: after the influence functions have been computed, [g_force] and
    [g_energy] hold exactly 0 at the zero mode and at every local mode whose
    three indices are multiples of [mesh/2], and at every other local mode
    they hold the aliasing-sum value
    [2 mesh^3 / L^2 * nominator / (|d_op|^(2e) * denominator^2)], with
    [e = 3] for the force and [e = 2] for the energy, where the nominator is
    the sum over the Brillouin-zone stencil of
    [assignment transform * damping * (d_op . k)^e] and the denominator the
    sum of the assignment transforms. *)
Theorem influence_functions_zero_modes (exp : Q -> Q) (pow : Q -> Q -> Q)
    (sinc : Q -> Q) (pi : Q) (P3M_BRILLOUIN : Z) (d : dp3m_data)
    (n : Z * Z * Z) :
  (2 <= mesh0 (dparams d))%Z ->
  local_mode d n ->
  let df := dp3m_calc_influence_function_force exp pow sinc pi P3M_BRILLOUIN d in
  let de := dp3m_calc_influence_function_energy exp pow sinc pi P3M_BRILLOUIN d in
  let d1 := dp3m_calc_meshift d in
  let ind := mode_index d n in
  (zeroed_mode d n ->
     aget (g_force df) ind == 0 /\ aget (g_energy de) ind == 0) /\
  (~ zeroed_mode d n ->
     aget (g_force df) ind
       == influence_value exp pow sinc pi P3M_BRILLOUIN 3 d1 n /\
     aget (g_energy de) ind
       == influence_value exp pow sinc pi P3M_BRILLOUIN 2 d1 n).
Proof.
  intros Hm Hn. cbv zeta.
  unfold dp3m_calc_influence_function_force, dp3m_calc_influence_function_energy.
  cbv zeta. cbn [g_force g_energy set_g_force set_g_energy].
  set (d1 := dp3m_calc_meshift d).
  assert (Hn1 : local_mode d1 n) by exact Hn.
  assert (Hm1 : (2 <= mesh0 (dparams d1))%Z) by exact Hm.
  change (mode_index d n) with (mode_index d1 n).
  rewrite !(influence_loop_get _ d1 _ n Hn1).
  destruct (influence_entry_cases pow 3
              (dp3m_perform_aliasing_sums_force exp pow sinc pi P3M_BRILLOUIN)
              d1 n Hm1) as [Hf0 Hf1].
  destruct (influence_entry_cases pow 2
              (dp3m_perform_aliasing_sums_energy exp pow sinc pi P3M_BRILLOUIN)
              d1 n Hm1) as [He0 He1].
  split; intro H; split; auto.
  - rewrite (Hf1 H). unfold dp3m_perform_aliasing_sums_force.
    apply (aliasing_value_closed exp pow sinc pi P3M_BRILLOUIN
             (fun n_nm => n_nm * n_nm * n_nm) 3 d1 n).
    intro x. ring.
  - rewrite (He1 H). unfold dp3m_perform_aliasing_sums_energy.
    apply (aliasing_value_closed exp pow sinc pi P3M_BRILLOUIN
             (fun n_nm => n_nm * n_nm) 2 d1 n).
    intro x. ring.
Qed.

(** A mesh of 4 points per axis held by one rank in a box of length 4, with
    [cao = 1], [alpha_L = 3] and the differential operator [0, 1, 0, -1];
    [pi] is taken as 3, [pow] as the power with the exponent rounded down,
    and [exp] and [sinc] as rational functions. *)
Definition small_mesh : dp3m_data :=
  mkData (mkP3M 3 0.25 (4, 4, 4)%Z (mkV 0 0 0) 1 0 0.001 0 (mkV 0 0 0)
                (mkV 1 1 1) (mkV 1 1 1) 0.25 1 1)
         (0, 0, 0)%Z (4, 4, 4)%Z (fun _ => 0)
         (fun i => if (i =? 1)%Z then 1 else if (i =? 3)%Z then -1 else 0)
         (fun _ => 7) (fun _ => 7) (mkV 4 4 4).

Definition sample_pow (x y : Q) : Q := x ^ Qfloor y.

Definition sample_sinc (x : Q) : Q := 1 - x.

Definition sample_gauss (x : Q) : Q := 1 + x / 32.

(** The mode [(2, 0, 2)] lies on a mesh-Nyquist point; the mode [(1, 0, 0)]
    does not. *)
Lemma influence_functions_zero_modes_witness :
  (aget (g_force (dp3m_calc_influence_function_force
                    sample_gauss sample_pow sample_sinc 3 1 small_mesh))
        (mode_index small_mesh (2, 0, 2)%Z) == 0 /\
   aget (g_energy (dp3m_calc_influence_function_energy
                     sample_gauss sample_pow sample_sinc 3 1 small_mesh))
        (mode_index small_mesh (2, 0, 2)%Z) == 0) /\
  aget (g_force (dp3m_calc_influence_function_force
                   sample_gauss sample_pow sample_sinc 3 1 small_mesh))
       (mode_index small_mesh (1, 0, 0)%Z) == - (10143884 # 924640625) /\
  aget (g_energy (dp3m_calc_influence_function_energy
                    sample_gauss sample_pow sample_sinc 3 1 small_mesh))
       (mode_index small_mesh (1, 0, 0)%Z) == 4189428 # 924640625.
Proof.
  split.
  - destruct (influence_functions_zero_modes sample_gauss sample_pow
                sample_sinc 3 1 small_mesh (2, 0, 2)%Z) as [H _].
    + vm_compute. discriminate.
    + vm_compute. repeat split; discriminate.
    + apply H. right. cbv zeta. repeat split.
      * exists 1%Z. reflexivity.
      * exists 0%Z. reflexivity.
      * exists 1%Z. reflexivity.
  - destruct (influence_functions_zero_modes sample_gauss sample_pow
                sample_sinc 3 1 small_mesh (1, 0, 0)%Z) as [_ H].
    + vm_compute. discriminate.
    + vm_compute. repeat split; discriminate.
    + destruct H as [Hf He].
      * intro Hz. unfold zeroed_mode in Hz. cbv zeta in Hz.
        destruct Hz as [H0|[[q Hq] _]]; [discriminate H0|].
        change (1 = q * 2)%Z in Hq. lia.
      * split.
        -- eapply Qeq_trans; [exact Hf | vm_compute; reflexivity].
        -- eapply Qeq_trans; [exact He | vm_compute; reflexivity].
Defined.


(** *** The mesh tables *)

Lemma Qfloor_unique (x : Q) (z : Z) :
  inject_Z z <= x -> x < inject_Z (z + 1) -> Qfloor x = z.
Proof.
  intros H1 H2.
  pose proof (Qfloor_le x) as Hl. pose proof (Qlt_floor x) as Hu.
  assert (A : inject_Z (Qfloor x) < inject_Z (z + 1)) by lra.
  assert (B : inject_Z z < inject_Z (Qfloor x + 1)) by lra.
  rewrite <- Zlt_Qlt in A, B. lia.
Qed.

(** [std::round (i / mesh)] for an index [0 <= i < mesh]: 0 below the
    middle of the mesh, 1 from the middle on. *)
Lemma round_mesh_index (i m : Z) :
  (0 <= i < m)%Z ->
  round_half_away (inject_Z i / inject_Z m) = if (2 * i <? m)%Z then 0%Z else 1%Z.
Proof.
  intro Hi.
  assert (Hm : 0 < inject_Z m).
  { change 0 with (inject_Z 0). rewrite <- Zlt_Qlt. lia. }
  assert (Hi0 : 0 <= inject_Z i).
  { change 0 with (inject_Z 0). rewrite <- Zle_Qle. lia. }
  assert (Him : inject_Z i < inject_Z m) by (rewrite <- Zlt_Qlt; lia).
  assert (Hx0 : 0 <= inject_Z i / inject_Z m).
  { apply Qle_shift_div_l; [exact Hm | lra]. }
  assert (Hx1 : inject_Z i / inject_Z m < 1).
  { apply Qlt_shift_div_r; [exact Hm | lra]. }
  unfold round_half_away.
  assert (E : Qltb (inject_Z i / inject_Z m) 0 = false)
    by (apply Qltb_ge; exact Hx0).
  rewrite E.
  destruct (Z.ltb_spec (2 * i) m) as [Hlt|Hge].
  - apply Qfloor_unique.
    + change (inject_Z 0) with 0. lra.
    + change (inject_Z (0 + 1)) with 1.
      assert (H2 : inject_Z (2 * i) < inject_Z m) by (rewrite <- Zlt_Qlt; lia).
      rewrite inject_Z_mult in H2. change (inject_Z 2) with 2 in H2.
      assert (H3 : inject_Z i / inject_Z m < 1 # 2).
      { apply Qlt_shift_div_r; [exact Hm | lra]. }
      lra.
  - apply Qfloor_unique.
    + change (inject_Z 1) with 1.
      assert (H2 : inject_Z m <= inject_Z (2 * i)) by (rewrite <- Zle_Qle; lia).
      rewrite inject_Z_mult in H2. change (inject_Z 2) with 2 in H2.
      assert (H3 : 1 # 2 <= inject_Z i / inject_Z m).
      { apply Qle_shift_div_l; [exact Hm | lra]. }
      lra.
    + change (inject_Z (1 + 1)) with 2. lra.
Qed.

(** The entry a mesh table gets at index [i]. *)
Definition mesh_shift (m i : Z) : Q :=
  if (2 * i <? m)%Z then inject_Z i else inject_Z (i - m).

Lemma mesh_table_get (m : Z) (t : darray) (i : Z) :
  (0 <= i < m)%Z ->
  aget (fold_left
          (fun t i => aset t i (inject_Z i
                                - inject_Z (round_half_away
                                              (inject_Z i / inject_Z m))
                                  * inject_Z m))
          (for_range 0 m) t) i
  == mesh_shift m i.
Proof.
  intro Hi.
  rewrite (write_loop_get (fun k : Z => k)
             (fun i => inject_Z i
                       - inject_Z (round_half_away (inject_Z i / inject_Z m))
                         * inject_Z m)
             (for_range 0 m) t i).
  - rewrite round_mesh_index by exact Hi. unfold mesh_shift.
    destruct (2 * i <? m)%Z.
    + change (inject_Z 0) with 0. ring.
    + unfold Zminus. rewrite inject_Z_plus, inject_Z_opp.
      change (inject_Z 1) with 1. ring.
  - apply in_for_range. lia.
  - intros k _ E. exact E.
Qed.

Lemma mesh_table_other (m : Z) (v : Z -> Q) (t : darray) (j : Z) :
  ~ (0 <= j < m)%Z ->
  aget (fold_left (fun t i => aset t i (v i)) (for_range 0 m) t) j = aget t j.
Proof.
  intro Hj.
  assert (H : forall l : list Z, ~ In j l ->
            forall t, aget (fold_left (fun t i => aset t i (v i)) l t) j = aget t j).
  { induction l as [|k l IH]; intros Hn t0; cbn [fold_left]; [reflexivity|].
    rewrite IH by (intro Hin; apply Hn; right; exact Hin).
    unfold aget, aset. destruct (Z.eqb_spec j k) as [E|E]; [|reflexivity].
    exfalso. apply Hn. left. symmetry. exact E. }
  apply H. intro Hin. apply in_for_range in Hin. lia.
Qed.

(** X19: for a mesh of [m >= 1] points, [dp3m_calc_meshift] stores
    [meshift[i] = i] below the middle of the mesh and [i - m] from the
    middle on, and writes no entry outside [0, m).
    [dp3m_calc_differential_operator] stores the same values in [d_op],
    except for the entry [d_op[m / 2] = 0].  For an even mesh [d_op] is
    therefore odd under the reflection of the mesh,
    [d_op[m - i] = - d_op[i]] for [0 < i < m], while [meshift] is not: its
    middle entry is [- m / 2].  For an odd mesh of 3 or more points the
    entry zeroed is that of the mode [(m - 1) / 2], whose mirror entry keeps
    the value [- (m - 1) / 2]. *)
Theorem dp3m_mesh_tables (d : dp3m_data) (i : Z) :
  let m := mesh0 (dparams d) in
  (0 <= i < m)%Z ->
  aget (meshift (dp3m_calc_meshift d)) i == mesh_shift m i /\
  aget (d_op (dp3m_calc_differential_operator d)) i
    == (if (i =? Z.quot m 2)%Z then 0 else mesh_shift m i) /\
  (Z.even m = true ->
   ((0 < i)%Z ->
    aget (d_op (dp3m_calc_differential_operator d)) (m - i)
      == - aget (d_op (dp3m_calc_differential_operator d)) i) /\
   aget (meshift (dp3m_calc_meshift d)) (Z.quot m 2)
     == - inject_Z (Z.quot m 2)) /\
  (Z.even m = false -> (3 <= m)%Z ->
   aget (d_op (dp3m_calc_differential_operator d)) (Z.quot m 2) == 0 /\
   aget (d_op (dp3m_calc_differential_operator d)) (m - Z.quot m 2)
     == - inject_Z (Z.quot m 2)) /\
  (forall j, ~ (0 <= j < m)%Z ->
     aget (meshift (dp3m_calc_meshift d)) j = aget (meshift d) j /\
     aget (d_op (dp3m_calc_differential_operator d)) j = aget (d_op d) j).
Proof.
  intros m Hi.
  assert (Hd : forall k, (0 <= k < m)%Z ->
            aget (d_op (dp3m_calc_differential_operator d)) k
            == (if (k =? Z.quot m 2)%Z then 0 else mesh_shift m k)).
  { intros k Hk. unfold dp3m_calc_differential_operator. cbn [d_op set_d_op].
    fold m. unfold aget at 1, aset at 1.
    destruct (Z.eqb_spec k (Z.quot m 2)); [reflexivity|].
    apply (mesh_table_get m (d_op d) k Hk). }
  assert (Hs : forall k, (0 <= k < m)%Z ->
            aget (meshift (dp3m_calc_meshift d)) k == mesh_shift m k).
  { intros k Hk. unfold dp3m_calc_meshift. cbn [meshift set_meshift].
    apply (mesh_table_get m (meshift d) k Hk). }
  assert (Hq : (m = 2 * Z.quot m 2 + Z.rem m 2 /\ 0 <= Z.rem m 2 < 2)%Z).
  { pose proof (Z.quot_rem' m 2). pose proof (Z.rem_bound_pos m 2). lia. }
  assert (Hpar : Z.rem m 2 = if Z.even m then 0%Z else 1%Z).
  { rewrite Z.rem_mod_nonneg by lia. rewrite Zmod_even. reflexivity. }
  split; [apply Hs; exact Hi|]. split; [apply Hd; exact Hi|].
  split; [|split].
  - intro Hev. rewrite Hev in Hpar. split.
    + intro Hpos. rewrite (Hd (m - i)%Z) by lia. rewrite (Hd i Hi).
      unfold mesh_shift.
      destruct (Z.eqb_spec (m - i) (Z.quot m 2)) as [E1|E1];
        destruct (Z.eqb_spec i (Z.quot m 2)) as [E2|E2];
        destruct (Z.ltb_spec (2 * (m - i)) m);
        destruct (Z.ltb_spec (2 * i) m); try lia;
        try reflexivity;
        try (unfold Zminus; rewrite ?inject_Z_plus, ?inject_Z_opp; ring).
    + rewrite Hs by lia. unfold mesh_shift.
      destruct (Z.ltb_spec (2 * Z.quot m 2) m); [lia|].
      replace (Z.quot m 2 - m)%Z with (- Z.quot m 2)%Z by lia.
      rewrite inject_Z_opp. reflexivity.
  - intros Hodd Hm3. rewrite Hodd in Hpar. split.
    + rewrite Hd by lia. rewrite Z.eqb_refl. reflexivity.
    + rewrite Hd by lia. unfold mesh_shift.
      destruct (Z.eqb_spec (m - Z.quot m 2) (Z.quot m 2)); [lia|].
      destruct (Z.ltb_spec (2 * (m - Z.quot m 2)) m); [lia|].
      replace (m - Z.quot m 2 - m)%Z with (- Z.quot m 2)%Z by lia.
      rewrite inject_Z_opp. reflexivity.
  - intros j Hj. split.
    + unfold dp3m_calc_meshift. cbn [meshift set_meshift]. fold m.
      apply mesh_table_other. exact Hj.
    + unfold dp3m_calc_differential_operator. cbn [d_op set_d_op]. fold m.
      unfold aget at 1, aset at 1.
      destruct (Z.eqb_spec j (Z.quot m 2)); [lia|].
      apply (mesh_table_other m _ (d_op d) j Hj).
Qed.

(** A mesh of 4 points: [meshift = (0, 1, -2, -1)] and
    [d_op = (0, 1, 0, -1)]. *)
Definition mesh4 : dp3m_data :=
  mkData (set_mesh unset_params 4) (0, 0, 0)%Z (4, 4, 4)%Z
         (fun _ => 0) (fun _ => 0) (fun _ => 0) (fun _ => 0) (mkV 10 10 10).

Lemma dp3m_mesh_tables_witness :
  aget (meshift (dp3m_calc_meshift mesh4)) 2 == -2 /\
  aget (d_op (dp3m_calc_differential_operator mesh4)) 2 == 0 /\
  aget (d_op (dp3m_calc_differential_operator mesh4)) 3
    == - aget (d_op (dp3m_calc_differential_operator mesh4)) 1.
Proof.
  destruct (dp3m_mesh_tables mesh4 2) as (H1 & H2 & _).
  - vm_compute. split; [discriminate | reflexivity].
  - destruct (dp3m_mesh_tables mesh4 1) as (_ & _ & H3 & _).
    + vm_compute. split; [discriminate | reflexivity].
    + split; [exact H1|]. split; [exact H2|].
      destruct (H3 eq_refl) as [H4 _]. apply H4. reflexivity.
Defined.


(** *** Tuning of the Ewald parameter by bisection *)





Section Bisection.

Variable exp sqrt : Q -> Q.



End Bisection.







Section BisectionCorrect.

Variable exp sqrt : Q -> Q.
Hypothesis exp_compat : forall x y, x == y -> exp x == exp y.
Hypothesis sqrt_compat : forall x y, x == y -> sqrt x == sqrt y.



End BisectionCorrect.







(** *** Mesh spacing, k-space cutoff and rescaling with the box *)

Definition set_inter (p : P3MParameters) (n : Z) : P3MParameters :=
  mkP3M (alpha_L p) (r_cut_iL p) (mesh p) (mesh_off p) (cao p) n (accuracy p)
        (epsilon p) (cao_cut p) (a p) (ai p) (alpha p) (r_cut p) (cao3 p).

Definition set_a_ai_cao_cut (p : P3MParameters) (a' ai' cc : Vector3d)
    : P3MParameters :=
  mkP3M (alpha_L p) (r_cut_iL p) (mesh p) (mesh_off p) (cao p) (inter p)
        (accuracy p) (epsilon p) cc a' ai' (alpha p) (r_cut p) (cao3 p).

Definition set_scaled (p : P3MParameters) (rc al : Q) : P3MParameters :=
  mkP3M (alpha_L p) (r_cut_iL p) (mesh p) (mesh_off p) (cao p) (inter p)
        (accuracy p) (epsilon p) (cao_cut p) (a p) (ai p) al rc (cao3 p).

(** Component [i] of an [int[3]]. *)
Definition zget (t : Z * Z * Z) (i : nat) : Z :=
  match i with
  | O => z0 t
  | S O => z1 t
  | _ => z2 t
  end.

(** [dp3m_set_tune_params]. *)
Definition dp3m_set_tune_params (r_cut : Q) (mesh cao : Z) (alpha accuracy : Q)
    (n_interpol : Z) (st : Dipolar_state) : Dipolar_state :=
  let p := params st in
  let p := if Qgeb r_cut 0
           then set_r_cut p r_cut (r_cut * (1 / vget (box_l st) 0)) else p in
  let p := if (0 <=? mesh)%Z then set_mesh p mesh else p in
  let p := if (0 <=? cao)%Z then set_cao p cao else p in
  let p := if Qgeb alpha 0
           then set_alpha p alpha (alpha * vget (box_l st) 0) else p in
  let p := if Qgeb accuracy 0 then set_accuracy p accuracy else p in
  let p := if negb (n_interpol =? -1)%Z then set_inter p n_interpol else p in
  set_params st p.

(** [dp3m_init_a_ai_cao_cut], for the box lengths [box]. *)
Definition dp3m_init_a_ai_cao_cut (box : Vector3d) (p : P3MParameters)
    : P3MParameters :=
  fold_left
    (fun p i =>
       let ai' := vset (ai p) i (inject_Z (zget (mesh p) i) / vget box i) in
       let a' := vset (a p) i (1.0 / vget ai' i) in
       let cc := vset (cao_cut p) i (0.5 * vget a' i * inject_Z (cao p)) in
       set_a_ai_cao_cut p a' ai' cc)
    axes p.

Inductive BoxlMessage : Type :=
  | Msg_prefactor_negative
  | Msg_cutoff_half_box (i : nat)
  | Msg_cutoff_local_box (i : nat).

(** [dp3m_sanity_checks_boxl], for the lengths [box] of the box and [local]
    of the local box: the return value and the messages reported. *)
Definition dp3m_sanity_checks_boxl (box local : Vector3d) (p : P3MParameters)
    : bool * list BoxlMessage :=
  fold_left
    (fun (acc : bool * list BoxlMessage) i =>
       let acc :=
         if Qgeb (vget (cao_cut p) i) (0.5 * vget box i)
         then (true, snd acc ++ [Msg_cutoff_half_box i]) else acc in
       if Qgeb (vget (cao_cut p) i) (vget local i)
       then (true, snd acc ++ [Msg_cutoff_local_box i]) else acc)
    axes (false, []).

Lemma init_a_ai_cao_cut_axis (box : Vector3d) (p : P3MParameters) (i : nat) :
  (i < 3)%nat ->
  let p' := dp3m_init_a_ai_cao_cut box p in
  vget (ai p') i = inject_Z (zget (mesh p) i) / vget box i /\
  vget (a p') i = 1.0 / (inject_Z (zget (mesh p) i) / vget box i) /\
  vget (cao_cut p') i
    = 0.5 * (1.0 / (inject_Z (zget (mesh p) i) / vget box i))
      * inject_Z (cao p).
Proof.
  intro Hi. cbv zeta. unfold dp3m_init_a_ai_cao_cut, axes.
  cbn [fold_left set_a_ai_cao_cut ai a cao_cut mesh cao].
  destruct i as [|[|[|i]]]; [| | |lia]; cbn [vget vset vx vy vz];
    repeat split; reflexivity.
Qed.

(** In exact arithmetic the half-box check of an axis is a comparison of
    [cao] with the mesh.  For [cao = mesh] the two sides are equal, and the
    numbers the program stores need not compare the same way. *)
Lemma cutoff_half_box_iff (L : Q) (m c : Z) :
  0 < L -> (0 < m)%Z ->
  Qgeb (0.5 * (1.0 / (inject_Z m / L)) * inject_Z c) (0.5 * L)
  = (m <=? c)%Z.
Proof.
  intros HL Hm.
  assert (Hm' : 0 < inject_Z m).
  { change 0 with (inject_Z 0). rewrite <- Zlt_Qlt. exact Hm. }
  assert (E : 0.5 * (1.0 / (inject_Z m / L)) * inject_Z c
              == 0.5 * L * (inject_Z c / inject_Z m)).
  { field. split; lra. }
  destruct (Z.leb_spec m c) as [Hle|Hgt].
  - apply Qgeb_ge. rewrite E.
    assert (H1 : 1 <= inject_Z c / inject_Z m).
    { apply Qle_shift_div_l; [exact Hm'|]. rewrite Zle_Qle in Hle. lra. }
    nra.
  - apply Qgeb_lt. rewrite E.
    assert (H1 : inject_Z c / inject_Z m < 1).
    { apply Qlt_shift_div_r; [exact Hm'|]. rewrite Zlt_Qlt in Hgt. lra. }
    nra.
Qed.


(** X21: after [dp3m_init_a_ai_cao_cut] on a box of positive lengths with a
    positive mesh, [a[i] * ai[i] = 1] and
    [cao_cut[i] = cao * box_l[i] / (2 * mesh[i])] on every axis.
    [dp3m_sanity_checks_boxl] then reports the k-space cutoff against half
    the box along axis [i] whenever [mesh[i] < cao] and never when
    [cao < mesh[i]]; in both cases [cao_cut[i]] is away from half the box
    by [box_l[i] / (2 * mesh[i])] at least.  (For [cao = mesh[i]] the two
    sides of the test have the same exact value, [cao_cut[i] = box_l[i] / 2],
    and which way the comparison of the stored numbers goes is not stated.)
    The cutoff is reported against the local box exactly when
    [local length <= cao_cut[i]], and the function returns [true] exactly
    when it reports something. *)
Theorem dp3m_cutoff_checks (box local : Vector3d) (p : P3MParameters) :
  (forall i, (i < 3)%nat -> 0 < vget box i) ->
  (forall i, (i < 3)%nat -> (0 < zget (mesh p) i)%Z) ->
  let p' := dp3m_init_a_ai_cao_cut box p in
  let chk := dp3m_sanity_checks_boxl box local p' in
  (forall i, (i < 3)%nat ->
     let m := inject_Z (zget (mesh p) i) in
     vget (a p') i * vget (ai p') i == 1 /\
     vget (cao_cut p') i == inject_Z (cao p) * vget box i / (2 * m) /\
     ((cao p < zget (mesh p) i)%Z ->
        ~ In (Msg_cutoff_half_box i) (snd chk) /\
        vget (cao_cut p') i * m <= 0.5 * vget box i * (m - 1)) /\
     ((zget (mesh p) i < cao p)%Z ->
        In (Msg_cutoff_half_box i) (snd chk) /\
        0.5 * vget box i * (m + 1) <= vget (cao_cut p') i * m) /\
     ((zget (mesh p) i = cao p)%Z ->
        vget (cao_cut p') i == 0.5 * vget box i) /\
     (In (Msg_cutoff_local_box i) (snd chk)
      <-> vget local i <= vget (cao_cut p') i)) /\
  (fst chk = false <-> snd chk = []).
Proof.
  intros Hbox Hmesh. cbv zeta.
  pose proof (init_a_ai_cao_cut_axis box p 0 ltac:(lia)) as (Hai0 & Ha0 & Hc0).
  pose proof (init_a_ai_cao_cut_axis box p 1 ltac:(lia)) as (Hai1 & Ha1 & Hc1).
  pose proof (init_a_ai_cao_cut_axis box p 2 ltac:(lia)) as (Hai2 & Ha2 & Hc2).
  set (p' := dp3m_init_a_ai_cao_cut box p) in *.
  pose proof (Hbox 0%nat ltac:(lia)) as Hb0.
  pose proof (Hbox 1%nat ltac:(lia)) as Hb1.
  pose proof (Hbox 2%nat ltac:(lia)) as Hb2.
  pose proof (Hmesh 0%nat ltac:(lia)) as Hm0.
  pose proof (Hmesh 1%nat ltac:(lia)) as Hm1.
  pose proof (Hmesh 2%nat ltac:(lia)) as Hm2.
  (* the values stored along one axis *)
  assert (Hval : forall (L : Q) (m : Z), 0 < L -> (0 < m)%Z ->
            let c := 0.5 * (1.0 / (inject_Z m / L)) * inject_Z (cao p) in
            1.0 / (inject_Z m / L) * (inject_Z m / L) == 1 /\
            c == inject_Z (cao p) * L / (2 * inject_Z m) /\
            ((cao p < m)%Z -> c * inject_Z m <= 0.5 * L * (inject_Z m - 1)) /\
            ((m < cao p)%Z -> 0.5 * L * (inject_Z m + 1) <= c * inject_Z m) /\
            (m = cao p -> c == 0.5 * L)).
  { intros L m HL Hm. cbv zeta.
    assert (Hm' : 0 < inject_Z m).
    { change 0 with (inject_Z 0). rewrite <- Zlt_Qlt. exact Hm. }
    assert (Hprod : 0.5 * (1.0 / (inject_Z m / L)) * inject_Z (cao p)
                    * inject_Z m == 0.5 * L * inject_Z (cao p)).
    { field. split; lra. }
    split; [field; split; lra|]. split; [field; split; lra|].
    split; [|split].
    - intro Hlt. rewrite Hprod.
      assert (Hc : inject_Z (cao p) <= inject_Z m - 1).
      { assert (Hz : (cao p + 1 <= m)%Z) by lia.
        rewrite Zle_Qle in Hz. rewrite inject_Z_plus in Hz.
        change (inject_Z 1) with 1 in Hz. lra. }
      nra.
    - intro Hlt. rewrite Hprod.
      assert (Hc : inject_Z m + 1 <= inject_Z (cao p)).
      { assert (Hz : (m + 1 <= cao p)%Z) by lia.
        rewrite Zle_Qle in Hz. rewrite inject_Z_plus in Hz.
        change (inject_Z 1) with 1 in Hz. lra. }
      nra.
    - intros <-. field. split; lra. }
  (* the half-box test of every axis, in exact arithmetic *)
  assert (Hchk :
    dp3m_sanity_checks_boxl box local p'
    = fold_left
        (fun (acc : bool * list BoxlMessage) i =>
           let acc :=
             if (zget (mesh p) i <=? cao p)%Z
             then (true, snd acc ++ [Msg_cutoff_half_box i]) else acc in
           if Qgeb (vget (cao_cut p') i) (vget local i)
           then (true, snd acc ++ [Msg_cutoff_local_box i]) else acc)
        axes (false, [])).
  { unfold dp3m_sanity_checks_boxl, axes. cbn [fold_left].
    rewrite Hc0, Hc1, Hc2.
    rewrite !cutoff_half_box_iff by assumption. reflexivity. }
  rewrite Hchk. clear Hchk. unfold axes. cbn [fold_left].
  assert (Hl0 := Qgeb_ge (vget (cao_cut p') 0) (vget local 0)).
  assert (Hl1 := Qgeb_ge (vget (cao_cut p') 1) (vget local 1)).
  assert (Hl2 := Qgeb_ge (vget (cao_cut p') 2) (vget local 2)).
  split.
  - intros i Hi.
    destruct i as [|[|[|i]]]; [| | |lia].
    + rewrite Ha0, Hai0, Hc0.
      destruct (Hval _ _ Hb0 Hm0) as (V1 & V2 & V3 & V4 & V5).
      split; [exact V1|]. split; [exact V2|].
      rewrite <- Hc0.
      destruct (Z.leb_spec (zget (mesh p) 0) (cao p));
        destruct (Z.leb_spec (zget (mesh p) 1) (cao p));
        destruct (Z.leb_spec (zget (mesh p) 2) (cao p));
        destruct (Qgeb (vget (cao_cut p') 0) (vget local 0));
        destruct (Qgeb (vget (cao_cut p') 1) (vget local 1));
        destruct (Qgeb (vget (cao_cut p') 2) (vget local 2));
        cbn [fst snd app In];
        (split; [intro Hlt; split;
                   [first [exfalso; lia | intuition congruence]
                   | rewrite Hc0; apply V3; exact Hlt]|]);
        (split; [intro Hlt; split;
                   [first [exfalso; lia | tauto]
                   | rewrite Hc0; apply V4; exact Hlt]|]);
        (split; [intro Heq; rewrite Hc0; apply V5; exact Heq|]);
        rewrite <- Hl0;
        (split; [intro Hin; first [reflexivity | intuition congruence]
                | intro Hin; first [tauto | discriminate Hin]]).
    + rewrite Ha1, Hai1, Hc1.
      destruct (Hval _ _ Hb1 Hm1) as (V1 & V2 & V3 & V4 & V5).
      split; [exact V1|]. split; [exact V2|].
      rewrite <- Hc1.
      destruct (Z.leb_spec (zget (mesh p) 0) (cao p));
        destruct (Z.leb_spec (zget (mesh p) 1) (cao p));
        destruct (Z.leb_spec (zget (mesh p) 2) (cao p));
        destruct (Qgeb (vget (cao_cut p') 0) (vget local 0));
        destruct (Qgeb (vget (cao_cut p') 1) (vget local 1));
        destruct (Qgeb (vget (cao_cut p') 2) (vget local 2));
        cbn [fst snd app In];
        (split; [intro Hlt; split;
                   [first [exfalso; lia | intuition congruence]
                   | rewrite Hc1; apply V3; exact Hlt]|]);
        (split; [intro Hlt; split;
                   [first [exfalso; lia | tauto]
                   | rewrite Hc1; apply V4; exact Hlt]|]);
        (split; [intro Heq; rewrite Hc1; apply V5; exact Heq|]);
        rewrite <- Hl1;
        (split; [intro Hin; first [reflexivity | intuition congruence]
                | intro Hin; first [tauto | discriminate Hin]]).
    + rewrite Ha2, Hai2, Hc2.
      destruct (Hval _ _ Hb2 Hm2) as (V1 & V2 & V3 & V4 & V5).
      split; [exact V1|]. split; [exact V2|].
      rewrite <- Hc2.
      destruct (Z.leb_spec (zget (mesh p) 0) (cao p));
        destruct (Z.leb_spec (zget (mesh p) 1) (cao p));
        destruct (Z.leb_spec (zget (mesh p) 2) (cao p));
        destruct (Qgeb (vget (cao_cut p') 0) (vget local 0));
        destruct (Qgeb (vget (cao_cut p') 1) (vget local 1));
        destruct (Qgeb (vget (cao_cut p') 2) (vget local 2));
        cbn [fst snd app In];
        (split; [intro Hlt; split;
                   [first [exfalso; lia | intuition congruence]
                   | rewrite Hc2; apply V3; exact Hlt]|]);
        (split; [intro Hlt; split;
                   [first [exfalso; lia | tauto]
                   | rewrite Hc2; apply V4; exact Hlt]|]);
        (split; [intro Heq; rewrite Hc2; apply V5; exact Heq|]);
        rewrite <- Hl2;
        (split; [intro Hin; first [reflexivity | intuition congruence]
                | intro Hin; first [tauto | discriminate Hin]]).
  - destruct (zget (mesh p) 0 <=? cao p)%Z;
      destruct (zget (mesh p) 1 <=? cao p)%Z;
      destruct (zget (mesh p) 2 <=? cao p)%Z;
      destruct (Qgeb (vget (cao_cut p') 0) (vget local 0));
      destruct (Qgeb (vget (cao_cut p') 1) (vget local 1));
      destruct (Qgeb (vget (cao_cut p') 2) (vget local 2));
      cbn [fst snd app]; split; intro H; first [reflexivity | discriminate H].
Qed.


(** A mesh of 4 points per axis in a box of length 10: with [cao = 5] the
    cutoff [25/4] is reported against half the box along x, with [cao = 3]
    the cutoff [15/4] is not. *)
Lemma dp3m_cutoff_checks_witness :
  In (Msg_cutoff_half_box 0)
     (snd (dp3m_sanity_checks_boxl (mkV 10 10 10) (mkV 10 10 10)
             (dp3m_init_a_ai_cao_cut (mkV 10 10 10)
                (set_cao (set_mesh unset_params 4) 5)))) /\
  ~ In (Msg_cutoff_half_box 0)
       (snd (dp3m_sanity_checks_boxl (mkV 10 10 10) (mkV 10 10 10)
               (dp3m_init_a_ai_cao_cut (mkV 10 10 10)
                  (set_cao (set_mesh unset_params 4) 3)))).
Proof.
  split.
  - destruct (dp3m_cutoff_checks (mkV 10 10 10) (mkV 10 10 10)
                (set_cao (set_mesh unset_params 4) 5)) as (H & _).
    + intros i Hi. destruct i as [|[|[|i]]]; reflexivity.
    + intros i Hi. destruct i as [|[|[|i]]]; reflexivity.
    + destruct (H 0%nat ltac:(lia)) as (_ & _ & _ & Hgt & _).
      apply Hgt. reflexivity.
  - destruct (dp3m_cutoff_checks (mkV 10 10 10) (mkV 10 10 10)
                (set_cao (set_mesh unset_params 4) 3)) as (H & _).
    + intros i Hi. destruct i as [|[|[|i]]]; reflexivity.
    + intros i Hi. destruct i as [|[|[|i]]]; reflexivity.
    + destruct (H 0%nat ltac:(lia)) as (_ & _ & Hlt & _).
      apply Hlt. reflexivity.
Defined.

Section ScaleByBox.

Variable exp : Q -> Q.
Variable pow : Q -> Q -> Q.
Variable sinc : Q -> Q.
Variable pi : Q.
Variable P3M_BRILLOUIN : Z.

(** What [dp3m_scaleby_box_l] reads or writes besides [dp3m_data]:
    [dipole.prefactor], [dp3m.local_mesh.ld_ind] and [ld_pos], the lengths
    of the local box, and the messages reported. *)
Record Scale_state : Type := mkScale {
  sdata : dp3m_data;
  prefactor : Q;
  ld_ind : Z * Z * Z;
  ld_pos : Vector3d;
  local_length : Vector3d;
  messages : list BoxlMessage
}.

Definition set_dparams (d : dp3m_data) (p : P3MParameters) : dp3m_data :=
  mkData p (plan3_start d) (plan3_new_mesh d) (meshift d) (d_op d) (g_force d)
         (g_energy d) (dbox_l d).

(** [dp3m_calc_lm_ld_pos]. *)
Definition dp3m_calc_lm_ld_pos (p : P3MParameters) (ld_ind : Z * Z * Z)
    (ld_pos : Vector3d) : Vector3d :=
  fold_left
    (fun v i => vset v i ((inject_Z (zget ld_ind i) + vget (mesh_off p) i)
                          * vget (a p) i))
    axes ld_pos.

(** [dp3m_scaleby_box_l]. *)
Definition dp3m_scaleby_box_l (s : Scale_state) : Scale_state :=
  if Qltb (prefactor s) 0.0 then
    mkScale (sdata s) (prefactor s) (ld_ind s) (ld_pos s) (local_length s)
            (messages s ++ [Msg_prefactor_negative])
  else
    let d := sdata s in
    let L := vget (dbox_l d) 0 in
    let p1 := set_scaled (dparams d) (r_cut_iL (dparams d) * L)
                (alpha_L (dparams d) * (1 / L)) in
    let p2 := dp3m_init_a_ai_cao_cut (dbox_l d) p1 in
    let pos := dp3m_calc_lm_ld_pos p2 (ld_ind s) (ld_pos s) in
    let chk := dp3m_sanity_checks_boxl (dbox_l d) (local_length s) p2 in
    let d1 := dp3m_calc_influence_function_force exp pow sinc pi P3M_BRILLOUIN
                (set_dparams d p2) in
    let d2 := dp3m_calc_influence_function_energy exp pow sinc pi
                P3M_BRILLOUIN d1 in
    mkScale d2 (prefactor s) (ld_ind s) pos (local_length s)
            (messages s ++ snd chk).

(** The box of the state gets the lengths [box]. *)
Definition with_box (box : Vector3d) (s : Scale_state) : Scale_state :=
  mkScale (mkData (dparams (sdata s)) (plan3_start (sdata s))
                  (plan3_new_mesh (sdata s)) (meshift (sdata s))
                  (d_op (sdata s)) (g_force (sdata s)) (g_energy (sdata s))
                  box)
          (prefactor s) (ld_ind s) (ld_pos s) (local_length s) (messages s).

(** X22: [dp3m_scaleby_box_l] with a negative dipolar prefactor reports it
    and changes nothing else.  Otherwise it keeps the reduced parameters
    [r_cut_iL] and [alpha_L], the mesh and [cao], and recomputes the real
    ones for the current box length [L]: [r_cut = r_cut_iL * L] and
    [alpha = alpha_L / L], so that [alpha * r_cut = alpha_L * r_cut_iL] for
    every non-zero box length; the lower left mesh position becomes
    [ld_pos[i] = (ld_ind[i] + mesh_off[i]) * a[i]].  Parameters set by
    [dp3m_set_tune_params] in a box of length [L0] are thus read back as
    [r_cut * L / L0] and [alpha * L0 / L] after the box has changed to [L],
    and unchanged when [L = L0]. *)
Theorem dp3m_scaleby_box_l_rescales (s : Scale_state) :
  let s' := dp3m_scaleby_box_l s in
  let p := dparams (sdata s) in
  let p' := dparams (sdata s') in
  let L := vget (dbox_l (sdata s)) 0 in
  (prefactor s < 0 ->
   sdata s' = sdata s /\ ld_pos s' = ld_pos s /\
   messages s' = messages s ++ [Msg_prefactor_negative]) /\
  (0 <= prefactor s ->
   r_cut_iL p' = r_cut_iL p /\ alpha_L p' = alpha_L p /\
   mesh p' = mesh p /\ cao p' = cao p /\
   dbox_l (sdata s') = dbox_l (sdata s) /\
   r_cut p' == r_cut_iL p * L /\
   alpha p' == alpha_L p / L /\
   (~ L == 0 -> alpha p' * r_cut p' == alpha_L p * r_cut_iL p) /\
   (forall i, (i < 3)%nat ->
      vget (ld_pos s') i
        = (inject_Z (zget (ld_ind s) i) + vget (mesh_off p) i)
          * vget (a p') i) /\
   (forall (rc al : Q) (m c : Z) (acc : Q) (n : Z) (meth : DipolarInteraction)
           (p0 : P3MParameters) (L0 : Q),
      0 <= rc -> 0 <= al -> ~ L0 == 0 -> ~ L == 0 ->
      p = params (dp3m_set_tune_params rc m c al acc n
                    (mkDipolar meth p0 (mkV L0 L0 L0))) ->
      r_cut p' == rc * L / L0 /\ alpha p' == al * L0 / L)).
Proof.
  cbv zeta. unfold dp3m_scaleby_box_l. split.
  - intro Hneg.
    assert (E : Qltb (prefactor s) 0.0 = true) by (apply Qltb_lt; lra).
    rewrite E. cbn [sdata ld_pos messages]. repeat split.
  - intro Hpos.
    assert (E : Qltb (prefactor s) 0.0 = false) by (apply Qltb_ge; lra).
    rewrite E. cbn [sdata ld_pos messages].
    unfold dp3m_calc_influence_function_energy,
      dp3m_calc_influence_function_force, dp3m_calc_meshift, set_dparams.
    cbn [dparams set_g_energy set_g_force set_meshift dbox_l].
    unfold dp3m_init_a_ai_cao_cut, axes.
    cbn [fold_left set_a_ai_cao_cut set_scaled r_cut_iL alpha_L mesh cao
         r_cut alpha mesh_off a ai cao_cut].
    split; [reflexivity|]. split; [reflexivity|]. split; [reflexivity|].
    split; [reflexivity|]. split; [reflexivity|]. split; [reflexivity|].
    split; [unfold Qdiv; ring|]. split; [intro HL; field; exact HL|].
    split.
    + intros i Hi. unfold dp3m_calc_lm_ld_pos, axes.
      cbn [fold_left mesh_off a].
      destruct i as [|[|[|i]]]; [| | |lia]; reflexivity.
    + intros rc al m c acc n meth p0 L0 Hrc Hal HL0 HL Hp.
      assert (Hr : r_cut_iL (dparams (sdata s)) == rc / L0 /\
                   alpha_L (dparams (sdata s)) == al * L0).
      { rewrite Hp. unfold dp3m_set_tune_params.
        cbn [params box_l vget vx set_params].
        apply Qgeb_ge in Hrc. apply Qgeb_ge in Hal. rewrite Hrc, Hal.
        destruct (0 <=? m)%Z; destruct (0 <=? c)%Z; destruct (Qgeb acc 0);
          destruct (negb (n =? -1)%Z);
          cbn [set_r_cut set_mesh set_cao set_alpha set_accuracy set_inter
               r_cut_iL alpha_L];
          (split; [field; exact HL0 | reflexivity]). }
      destruct Hr as [Hr1 Hr2]. rewrite Hr1, Hr2.
      split; field; assumption.
Qed.

End ScaleByBox.

End DP3M.

(** ** Affinity bond model (affinity.hpp) *)

Module Affinity.

(** [ia_params->affinity]. *)
Record Affinity_parameters : Type := mkAffinity {
  type : Z;
  kappa : Q;
  r0 : Q;
  Kon : Q;
  Koff : Q;
  maxBond : Q;
  cut : Q
}.

(** One line appended to [affinity_check.dat]: the values printed. *)
Record CheckLine : Type := mkLine {
  line_sim_time : Q;
  line_period : Z;
  line_type : Z;
  line_Pon : Q;
  line_Kon : Q;
  line_particle : Z;
  line_Poff : Q;
  line_F : Q;
  line_Koff : Q;
  line_K0 : Q;
  line_len : Q
}.

(** Modelled from the spec: [unfolded_position] (not part of the sources at
    hand) gives the absolute unfolded coordinate of a particle: its folded
    position plus its image count times the box length, per axis. *)
Definition unfolded_position (p : Vector3d) (i : Z * Z * Z) (box : Vector3d)
    : Vector3d :=
  mkV (vx p + inject_Z (fst (fst i)) * vx box)
      (vy p + inject_Z (snd (fst i)) * vy box)
      (vz p + inject_Z (snd i) * vz box).

(** The sentinel [{-1, -1, -1}] of an unbonded particle. *)
Definition unbonded : Vector3d := mkV (-1) (-1) (-1).

(** "Checking whether any bond exists": every component of [bond_site] is
    non-negative. *)
Definition bond_exists (p : Particle) : bool :=
  Qgeb (vx (bond_site p)) 0 && Qgeb (vy (bond_site p)) 0
  && Qgeb (vz (bond_site p)) 0.

Section AffinityForce.

Variable exp : Q -> Q.
Variable sqrt : Q -> Q.
(** The random number generator of random.hpp: [d_random ()] returns a
    sample and advances the generator. *)
Variable RNG : Type.
Variable d_random : RNG -> Q * RNG.
(** [box_geo.length ()], [time_step] and [sim_time]. *)
Variable box_l : Vector3d.
Variable time_step : Q.
Variable sim_time : Q.

(** The accumulator [force], a [double[3]]: three numbers, or no longer
    finite.  A quotient by zero is an infinity or NaN; multiplied with
    [vec] and added to the force it leaves an infinity or NaN in every
    component, and nothing that is added later makes one of them finite
    again. *)
Inductive Force : Type :=
  | finite (f : Vector3d)
  | not_finite.

(** What the routine mutates: the particle [p1], the accumulated [force],
    the random generator and the check file. *)
Record State : Type := mkState {
  p1 : Particle;
  force : Force;
  rng : RNG;
  check_file : list CheckLine
}.

Definition set_site (st : State) (b : Vector3d) : State :=
  mkState (set_bond_site (p1 st) b) (force st) (rng st) (check_file st).

(** [a / b] in doubles: the quotient, or no finite number when [b] is
    zero. *)
Definition fdiv (a b : Q) : option Q :=
  if Qeq_bool b 0 then None else Some (a / b).

(** [force += c * vec]. *)
Definition pull (f : Force) (c : option Q) (vec : Vector3d) : Force :=
  match c, f with
  | Some c, finite v => finite (vadd v (vscale c vec))
  | _, _ => not_finite
  end.

Definition add_force (st : State) (c : option Q) (vec : Vector3d) : State :=
  mkState (p1 st) (pull (force st) c vec) (rng st) (check_file st).

Definition set_rng (st : State) (r : RNG) : State :=
  mkState (p1 st) (force st) r (check_file st).

Definition append_line (st : State) (l : CheckLine) : State :=
  mkState (p1 st) (force st) (rng st) (check_file st ++ [l]).

(** [double decide = d_random (); if (decide < P) p1->p.bond_site = site]. *)
Definition decide_site (P : Q) (site : Vector3d) (st : State) : State :=
  let (decide, r) := d_random (rng st) in
  let st1 := set_rng st r in
  if Qltb decide P then set_site st1 site else st1.

(** The rupture decision of the variants with a force-dependent off rate:
    below [0.8 * cut] the bond breaks with probability [Poff], beyond it the
    bond always breaks. *)
Definition rupture_within (bound Poff len : Q) (st : State) : State :=
  if Qltb len bound then decide_site Poff unbonded st
  else set_site st unbonded.

(** "Checkpoint output": one line when the step number is a multiple of the
    period (and [extra] holds). *)
Definition checkpoint_output (ia : Affinity_parameters) (period t : Z)
    (extra : bool) (Poff tmpF tmpKoff tmpK0 len : Q) (st : State) : State :=
  if (0 <? period)%Z then
    if (Z.rem (Qfloor (sim_time / time_step)) period =? 0)%Z && extra then
      let tmpPon := 1.0 - exp (- Kon ia * time_step) in
      append_line st
        (mkLine sim_time period t tmpPon (Kon ia) (identity (p1 st)) Poff tmpF
                tmpKoff tmpK0 len)
    else st
  else st.

(** Creation of a bond with probability [Pon = 1 - exp (-Kon * dt)]. *)
Definition stochastic_creation (ia : Affinity_parameters)
    (unfolded_pos d : Vector3d) (st : State) : State :=
  let Pon := 1.0 - exp (- Kon ia * time_step) in
  decide_site Pon (vsub unfolded_pos d) st.

(** What follows [force += ...] in the variants 2, 4, 5 and 6: the
    force-dependent off rate, the rupture decision and the output. *)
Definition force_dependent_rupture (ia : Affinity_parameters) (period t : Z)
    (extra : bool) (fac len : Q) (st : State) : State :=
  let tmpF := fac in
  let tmpK0 := Koff ia in
  let tmpFd := maxBond ia in
  let tmpKoff := tmpK0 * exp (tmpF / tmpFd) in
  let Poff := 1.0 - exp (- tmpKoff * time_step) in
  let st1 := rupture_within (0.8 * cut ia) Poff len st in
  checkpoint_output ia period t extra Poff tmpF tmpKoff tmpK0 len st1.

(** Variant 1: deterministic creation, rupture beyond [maxBond]. *)
Definition variant1 (ia : Affinity_parameters) (unfolded_pos vec d : Vector3d)
    (len dist : Q) (st : State) : State :=
  if Qltb dist (cut ia) then
    if Qgtb dist 0.0 then
      if bond_exists (p1 st) then
        let fac := if Qgtb len (r0 ia) then kappa ia * (len - r0 ia) else 0.0 in
        let st1 := add_force st (fdiv fac len) vec in
        if Qgtb len (maxBond ia) then set_site st1 unbonded else st1
      else if Qltb dist (r0 ia) then set_site st (vsub unfolded_pos d)
      else st
    else st
  else st.

(** Variant 2: stochastic creation, force-dependent stochastic rupture. *)
Definition variant2 (ia : Affinity_parameters) (period t : Z)
    (unfolded_pos vec d : Vector3d) (len dist : Q) (st : State) : State :=
  if Qltb dist (cut ia) then
    if Qgtb dist 0.0 then
      if bond_exists (p1 st) then
        let fac := if Qgtb len (r0 ia) then kappa ia * (len - r0 ia) else 0.0 in
        let st1 := add_force st (fdiv fac len) vec in
        force_dependent_rupture ia period t (Qgtb len (r0 ia)) fac len st1
      else if Qltb dist (r0 ia) then stochastic_creation ia unfolded_pos d st
      else st
    else st
  else st.

(** Variant 3: stochastic creation, rupture at a constant rate below
    [maxBond] and always beyond it.  Here the quotient by [len] is taken
    only for a bond longer than [r0]. *)
Definition variant3 (ia : Affinity_parameters) (unfolded_pos vec d : Vector3d)
    (len dist : Q) (st : State) : State :=
  if Qltb dist (cut ia) then
    if Qgtb dist 0.0 then
      if bond_exists (p1 st) then
        let fac := if Qgtb len (r0 ia)
                   then fdiv (kappa ia * (len - r0 ia)) len else Some 0.0 in
        let st1 := add_force st fac vec in
        let Poff := 1.0 - exp (- Koff ia * time_step) in
        rupture_within (maxBond ia) Poff len st1
      else if Qltb dist (r0 ia) then stochastic_creation ia unfolded_pos d st
      else st
    else st
  else st.

(** Variant 4: like variant 2 with the force proportional to the bond
    length. *)
Definition variant4 (ia : Affinity_parameters) (period t : Z)
    (unfolded_pos vec d : Vector3d) (len dist : Q) (st : State) : State :=
  if Qltb dist (cut ia) then
    if Qgtb dist 0.0 then
      if bond_exists (p1 st) then
        let fac := kappa ia * len in
        let st1 := add_force st (fdiv fac len) vec in
        force_dependent_rupture ia period t true fac len st1
      else if Qltb dist (r0 ia) then stochastic_creation ia unfolded_pos d st
      else st
    else st
  else st.

(** Variant 5: like variant 2 with the rest length [0.75 * r0]. *)
Definition variant5 (ia : Affinity_parameters) (period t : Z)
    (unfolded_pos vec d : Vector3d) (len dist : Q) (st : State) : State :=
  if Qltb dist (cut ia) then
    if Qgtb dist 0.0 then
      if bond_exists (p1 st) then
        let fac := if Qgtb len (0.75 * r0 ia)
                   then kappa ia * (len - 0.75 * r0 ia) else 0.0 in
        let st1 := add_force st (fdiv fac len) vec in
        force_dependent_rupture ia period t (Qgtb len (r0 ia)) fac len st1
      else if Qltb dist (r0 ia) then stochastic_creation ia unfolded_pos d st
      else st
    else st
  else st.

(** Variant 6: like variant 2 with the rest length [1.0 * r0]. *)
Definition variant6 (ia : Affinity_parameters) (period t : Z)
    (unfolded_pos vec d : Vector3d) (len dist : Q) (st : State) : State :=
  if Qltb dist (cut ia) then
    if Qgtb dist 0.0 then
      if bond_exists (p1 st) then
        let fac := if Qgtb len (1.0 * r0 ia)
                   then kappa ia * (len - 1.0 * r0 ia) else 0.0 in
        let st1 := add_force st (fdiv fac len) vec in
        force_dependent_rupture ia period t (Qgtb len (r0 ia)) fac len st1
      else if Qltb dist (r0 ia) then stochastic_creation ia unfolded_pos d st
      else st
    else st
  else st.

(** [aff_type_extracted] and [period_for_output]. *)
Definition aff_type_extracted (ia : Affinity_parameters) : Z :=
  if (10 <? type ia)%Z then Z.rem (type ia) 10 else type ia.

Definition period_for_output (ia : Affinity_parameters) : Z :=
  if (10 <? type ia)%Z then (type ia - aff_type_extracted ia)%Z else (-1)%Z.

(** [vec = p1->p.bond_site - unfolded_pos] and [len = vec.norm ()]. *)
Definition bond_vec (p : Particle) : Vector3d :=
  vsub (bond_site p) (unfolded_position (pos p) (img p) box_l).

Definition bond_len (p : Particle) : Q := sqrt (norm2 (bond_vec p)).

(** [add_affinity_pair_force]. *)
Definition add_affinity_pair_force (ia : Affinity_parameters) (d : Vector3d)
    (dist : Q) (st : State) : State :=
  let t := aff_type_extracted ia in
  let period := period_for_output ia in
  let unfolded_pos := unfolded_position (pos (p1 st)) (img (p1 st)) box_l in
  let vec := bond_vec (p1 st) in
  let len := bond_len (p1 st) in
  let s1 := if (t =? 1)%Z then variant1 ia unfolded_pos vec d len dist st else st in
  let s2 := if (t =? 2)%Z then variant2 ia period t unfolded_pos vec d len dist s1
            else s1 in
  let s3 := if (t =? 3)%Z then variant3 ia unfolded_pos vec d len dist s2 else s2 in
  let s4 := if (t =? 4)%Z then variant4 ia period t unfolded_pos vec d len dist s3
            else s3 in
  let s5 := if (t =? 5)%Z then variant5 ia period t unfolded_pos vec d len dist s4
            else s4 in
  if (t =? 6)%Z then variant6 ia period t unfolded_pos vec d len dist s5 else s5.

(** *** The force contribution *)

(** The rest-length reference of variant [t]. *)
Definition rest_length (ia : Affinity_parameters) (t : Z) : Q :=
  match t with
  | 1%Z | 2%Z | 3%Z => r0 ia
  | 4%Z => 0
  | 5%Z => 0.75 * r0 ia
  | 6%Z => 1.0 * r0 ia
  | _ => 0
  end.

(** The factor of [vec] that variant [t] adds to the force of a bonded
    particle inside the cutoff. *)
Definition pull_coefficient (ia : Affinity_parameters) (t : Z) (len : Q)
    : option Q :=
  match t with
  | 1%Z | 2%Z =>
      fdiv (if Qgtb len (r0 ia) then kappa ia * (len - r0 ia) else 0.0) len
  | 3%Z => if Qgtb len (r0 ia) then fdiv (kappa ia * (len - r0 ia)) len
           else Some 0.0
  | 4%Z => fdiv (kappa ia * len) len
  | 5%Z => fdiv (if Qgtb len (0.75 * r0 ia)
                 then kappa ia * (len - 0.75 * r0 ia) else 0.0) len
  | 6%Z => fdiv (if Qgtb len (1.0 * r0 ia)
                 then kappa ia * (len - 1.0 * r0 ia) else 0.0) len
  | _ => Some 0
  end.

(** The tests that guard the force: inside the cutoff, at a positive
    distance, with a bond. *)
Definition maintains_bond (ia : Affinity_parameters) (dist : Q) (st : State)
    : bool :=
  Qltb dist (cut ia) && Qgtb dist 0.0 && bond_exists (p1 st).

Lemma force_decide_site (P : Q) (site : Vector3d) (st : State) :
  force (decide_site P site st) = force st.
Proof.
  unfold decide_site. destruct (d_random (rng st)) as [x r].
  destruct (Qltb x P); reflexivity.
Qed.

Lemma force_rupture_within (b P len : Q) (st : State) :
  force (rupture_within b P len st) = force st.
Proof.
  unfold rupture_within. destruct (Qltb len b);
    [apply force_decide_site | reflexivity].
Qed.

Lemma force_checkpoint_output (ia : Affinity_parameters) (period t : Z)
    (extra : bool) (a b c e f : Q) (st : State) :
  force (checkpoint_output ia period t extra a b c e f st) = force st.
Proof.
  unfold checkpoint_output. destruct (0 <? period)%Z; [|reflexivity].
  destruct (_ && extra); reflexivity.
Qed.

Lemma force_force_dependent_rupture (ia : Affinity_parameters) (period t : Z)
    (extra : bool) (fac len : Q) (st : State) :
  force (force_dependent_rupture ia period t extra fac len st) = force st.
Proof.
  unfold force_dependent_rupture. cbv zeta.
  rewrite force_checkpoint_output. apply force_rupture_within.
Qed.

Lemma force_stochastic_creation (ia : Affinity_parameters) (u d : Vector3d)
    (st : State) :
  force (stochastic_creation ia u d st) = force st.
Proof. apply force_decide_site. Qed.

(** The force after the call, for each of the six variants. *)
Lemma force_after (ia : Affinity_parameters) (d : Vector3d) (dist : Q)
    (st : State) :
  (1 <= aff_type_extracted ia <= 6)%Z ->
  force (add_affinity_pair_force ia d dist st) =
  if maintains_bond ia dist st
  then pull (force st)
            (pull_coefficient ia (aff_type_extracted ia) (bond_len (p1 st)))
            (bond_vec (p1 st))
  else force st.
Proof.
  intro Ht. unfold add_affinity_pair_force, maintains_bond. cbv zeta.
  set (t := aff_type_extracted ia) in *.
  assert (Hcases : t = 1%Z \/ t = 2%Z \/ t = 3%Z \/ t = 4%Z \/ t = 5%Z \/ t = 6%Z)
    by lia.
  destruct Hcases as [E|[E|[E|[E|[E|E]]]]]; rewrite E; cbn [Z.eqb Pos.eqb];
    unfold variant1, variant2, variant3, variant4, variant5, variant6,
      pull_coefficient;
    destruct (Qltb dist (cut ia)); cbn [andb]; try reflexivity;
    destruct (Qgtb dist 0.0); cbn [andb]; try reflexivity;
    destruct (bond_exists (p1 st)); cbn [andb];
    try (destruct (Qltb dist (r0 ia));
         [rewrite ?force_stochastic_creation; reflexivity | reflexivity]);
    rewrite ?force_force_dependent_rupture, ?force_rupture_within;
    try reflexivity.
  destruct (Qgtb (bond_len (p1 st)) (maxBond ia)); reflexivity.
Qed.

Lemma Qdiv_nonneg (x y : Q) : 0 <= x -> 0 <= y -> 0 <= x / y.
Proof.
  intros Hx Hy. unfold Qdiv.
  apply Qmult_le_0_compat; [exact Hx | apply Qinv_le_0_compat; exact Hy].
Qed.

Lemma Qdiv_zero_num (x y : Q) : x == 0 -> x / y == 0.
Proof. intro H. unfold Qdiv. rewrite H. ring. Qed.

Lemma fdiv_zero (a b : Q) : b == 0 -> fdiv a b = None.
Proof.
  intro H. unfold fdiv. apply Qeq_bool_iff in H. rewrite H. reflexivity.
Qed.

Lemma fdiv_nonzero (a b : Q) : ~ b == 0 -> fdiv a b = Some (a / b).
Proof.
  intro H. unfold fdiv. destruct (Qeq_bool b 0) eqn:E; [|reflexivity].
  exfalso. apply H. apply Qeq_bool_iff. exact E.
Qed.

(** For a bond length that is not zero the coefficient is a number: it
    vanishes unless the bond is longer than the rest length, is never
    negative for a spring constant that is not, and is
    [kappa * (len - rest) / len] otherwise.  Variant 3 gives zero also at
    the length zero, for a rest length that is not negative; all other
    cases of the length zero divide by it. *)
Lemma pull_coefficient_spec (ia : Affinity_parameters) (t : Z) (len : Q) :
  (1 <= t <= 6)%Z -> 0 <= len ->
  let rest := rest_length ia t in
  (~ len == 0 \/ (t = 3%Z /\ 0 <= r0 ia) ->
   exists c : Q,
     pull_coefficient ia t len = Some c /\
     (~ rest < len -> c == 0) /\
     (rest < len -> c == kappa ia * (len - rest) / len) /\
     (0 <= kappa ia -> 0 <= c)) /\
  (len == 0 -> (t = 3%Z -> r0 ia < 0) -> pull_coefficient ia t len = None).
Proof.
  intros Ht Hlen. cbv zeta.
  assert (Hgen : forall rest : Q,
    let num := if Qgtb len rest then kappa ia * (len - rest) else 0.0 in
    (~ len == 0 ->
     exists c : Q,
       fdiv num len = Some c /\
       (~ rest < len -> c == 0) /\
       (rest < len -> c == kappa ia * (len - rest) / len) /\
       (0 <= kappa ia -> 0 <= c)) /\
    (len == 0 -> fdiv num len = None)).
  { intro rest. cbv zeta. split; [|apply fdiv_zero].
    intro Hnz. rewrite (fdiv_nonzero _ _ Hnz). eexists. split; [reflexivity|].
    destruct (Qgtb len rest) eqn:E.
    - apply Qgtb_gt in E. split; [|split].
      + intro H. contradiction.
      + intros _. reflexivity.
      + intro Hk. apply Qdiv_nonneg; [|exact Hlen].
        apply Qmult_le_0_compat; [exact Hk | lra].
    - apply Qgtb_le in E. split; [|split].
      + intros _. apply Qdiv_zero_num. reflexivity.
      + intro H. exfalso. apply (Qlt_not_le _ _ H E).
      + intros _. apply Qdiv_nonneg; [discriminate | exact Hlen]. }
  assert (Hcases : t = 1%Z \/ t = 2%Z \/ t = 3%Z \/ t = 4%Z \/ t = 5%Z \/ t = 6%Z)
    by lia.
  destruct Hcases as [E|[E|[E|[E|[E|E]]]]]; subst t;
    cbn [pull_coefficient rest_length];
    try (destruct (Hgen (r0 ia)) as [G1 G2];
         split; [intros [Hnz|[Hab _]]; [exact (G1 Hnz) | discriminate Hab]
                | intros Hz _; exact (G2 Hz)]);
    try (destruct (Hgen (0.75 * r0 ia)) as [G1 G2];
         split; [intros [Hnz|[Hab _]]; [exact (G1 Hnz) | discriminate Hab]
                | intros Hz _; exact (G2 Hz)]);
    try (destruct (Hgen (1.0 * r0 ia)) as [G1 G2];
         split; [intros [Hnz|[Hab _]]; [exact (G1 Hnz) | discriminate Hab]
                | intros Hz _; exact (G2 Hz)]).
  - (* variant 3 *)
    destruct (Qgtb len (r0 ia)) eqn:E.
    + apply Qgtb_gt in E. split.
      * intros [Hnz|[_ Hr]].
        -- rewrite (fdiv_nonzero _ _ Hnz). eexists. split; [reflexivity|].
           split; [|split].
           ++ intro H. contradiction.
           ++ intros _. reflexivity.
           ++ intro Hk. apply Qdiv_nonneg; [|exact Hlen].
              apply Qmult_le_0_compat; [exact Hk | lra].
        -- assert (Hnz : ~ len == 0) by lra.
           rewrite (fdiv_nonzero _ _ Hnz). eexists. split; [reflexivity|].
           split; [|split].
           ++ intro H. contradiction.
           ++ intros _. reflexivity.
           ++ intro Hk. apply Qdiv_nonneg; [|exact Hlen].
              apply Qmult_le_0_compat; [exact Hk | lra].
      * intros Hz _. apply fdiv_zero. exact Hz.
    + apply Qgtb_le in E. split.
      * intros _. eexists. split; [reflexivity|]. split; [|split].
        -- intros _. reflexivity.
        -- intro H. exfalso. apply (Qlt_not_le _ _ H E).
        -- intros _. discriminate.
      * intros Hz Hr. exfalso. specialize (Hr eq_refl). lra.
  - (* variant 4 *)
    split.
    + intros [Hnz|[Hab _]]; [|discriminate Hab].
      rewrite (fdiv_nonzero _ _ Hnz). eexists. split; [reflexivity|].
      split; [|split].
      * intro H. exfalso. apply H. lra.
      * intros _. apply Qdiv_comp; [ring | reflexivity].
      * intro Hk. apply Qdiv_nonneg; [|exact Hlen].
        apply Qmult_le_0_compat; assumption.
    + intros Hz _. apply fdiv_zero. exact Hz.
Qed.

Lemma veq_refl (v : Vector3d) : veq v v.
Proof. unfold veq. repeat split; reflexivity. Qed.

Lemma veq_sym (u v : Vector3d) : veq u v -> veq v u.
Proof.
  unfold veq. intros (H1 & H2 & H3). repeat split; symmetry; assumption.
Qed.

Lemma vadd_zero_scale (f v : Vector3d) (c : Q) :
  c == 0 -> veq (vadd f (vscale c v)) f.
Proof.
  intro H. unfold veq, vadd, vscale. cbn [vx vy vz].
  rewrite H. repeat split; ring.
Qed.

(** [libm]'s square root is never negative. *)
Hypothesis sqrt_nonneg : forall x : Q, 0 <= sqrt x.

(** C9: the force [add_affinity_pair_force] adds to a finite [force].  For
    a bond whose length is not zero (and where no bond is maintained at
    all) every variant adds a multiple [c] of the vector [vec] from the
    particle to its bond site; [c] is zero, and the force unchanged, unless
    a bond exists (every component of [bond_site] is >= 0) and the bond
    length exceeds the rest-length reference of the variant ([r0] for the
    variants 1 to 3, 0 for variant 4, [0.75 r0] for variant 5, [1.0 r0] for
    variant 6); [c] is never negative when [kappa] is not: the bond only
    pulls.  Variant 3 does so also for a bond of length zero, since it
    divides by the length only when that exceeds [r0].  The variants 1, 2,
    4, 5 and 6 divide by the length of every bond they maintain: for a bond
    of length zero the force is no longer finite afterwards, where the
    contribution should be zero. *)
Theorem affinity_force_one_sided (ia : Affinity_parameters) (d : Vector3d)
    (dist : Q) (st : State) (f : Vector3d) :
  (1 <= aff_type_extracted ia <= 6)%Z ->
  force st = finite f ->
  let st' := add_affinity_pair_force ia d dist st in
  let t := aff_type_extracted ia in
  let len := bond_len (p1 st) in
  let rest := rest_length ia t in
  (maintains_bond ia dist st = false \/ ~ len == 0 \/
   (t = 3%Z /\ 0 <= r0 ia) ->
   exists (c : Q) (f' : Vector3d),
     force st' = finite f' /\
     veq f' (vadd f (vscale c (bond_vec (p1 st)))) /\
     (~ (bond_exists (p1 st) = true /\ rest < len) -> veq f' f) /\
     (0 <= kappa ia -> 0 <= c) /\
     (~ c == 0 ->
        bond_exists (p1 st) = true /\ rest < len /\
        c == kappa ia * (len - rest) / len)) /\
  (maintains_bond ia dist st = true -> len == 0 ->
   (t = 3%Z -> r0 ia < 0) ->
   force st' = not_finite).
Proof.
  intros Ht Hf. cbv zeta. rewrite (force_after ia d dist st Ht), Hf.
  destruct (pull_coefficient_spec ia (aff_type_extracted ia) (bond_len (p1 st)) Ht
              (sqrt_nonneg _)) as (Hnum & Hnan).
  destruct (maintains_bond ia dist st) eqn:Em.
  - assert (Hb : bond_exists (p1 st) = true).
    { unfold maintains_bond in Em. apply andb_true_iff in Em. apply Em. }
    split.
    + intros [Hab|Hok]; [discriminate Hab|].
      destruct (Hnum Hok) as (c & Ec & Hz & Hv & Hk).
      rewrite Ec. cbn [pull].
      exists c, (vadd f (vscale c (bond_vec (p1 st)))).
      split; [reflexivity|]. split; [apply veq_refl|].
      split; [|split; [exact Hk|]].
      * intro Hn. apply vadd_zero_scale. apply Hz. intro Hlt. apply Hn.
        split; assumption.
      * intro Hc.
        destruct (Qlt_le_dec (rest_length ia (aff_type_extracted ia))
                             (bond_len (p1 st))) as [Hlt|Hle].
        -- repeat split; [exact Hb | exact Hlt | apply Hv; exact Hlt].
        -- exfalso. apply Hc. apply Hz. apply Qle_not_lt. exact Hle.
    + intros _ Hz H3. rewrite (Hnan Hz H3). reflexivity.
  - split.
    + intros _. exists 0, f. split; [reflexivity|]. split; [|split; [|split]].
      * apply veq_sym.
        apply (vadd_zero_scale f (bond_vec (p1 st)) 0). reflexivity.
      * intros _. apply veq_refl.
      * intros _. apply Qle_refl.
      * intro Hc. exfalso. apply Hc. reflexivity.
    + intro Hab. discriminate Hab.
Qed.


(** *** What a call may change *)

(** Unfolds a call into the tests it performs, one case per outcome. *)
Ltac affinity_cases t :=
  unfold add_affinity_pair_force; cbv zeta;
  destruct (Z.eqb_spec t 1) as [E1|E1];
    [rewrite ?E1; cbn [Z.eqb Pos.eqb]
    |destruct (Z.eqb_spec t 2) as [E2|E2];
      [rewrite ?E2; cbn [Z.eqb Pos.eqb]
      |destruct (Z.eqb_spec t 3) as [E3|E3];
        [rewrite ?E3; cbn [Z.eqb Pos.eqb]
        |destruct (Z.eqb_spec t 4) as [E4|E4];
          [rewrite ?E4; cbn [Z.eqb Pos.eqb]
          |destruct (Z.eqb_spec t 5) as [E5|E5];
            [rewrite ?E5; cbn [Z.eqb Pos.eqb]
            |destruct (Z.eqb_spec t 6) as [E6|E6];
              [rewrite ?E6; cbn [Z.eqb Pos.eqb]|]]]]]];
  unfold variant1, variant2, variant3, variant4, variant5, variant6,
    force_dependent_rupture, rupture_within, stochastic_creation,
    checkpoint_output, decide_site; cbv zeta;
  cbn [p1 rng force check_file add_force set_site set_rng append_line];
  repeat match goal with
         | |- context [let (_, _) := d_random ?r in _] =>
             let x := fresh "x" in
             let r' := fresh "r" in
             let E := fresh "Ernd" in
             destruct (d_random r) as [x r'] eqn:E
         | |- context [if ?b then _ else _] =>
             let E := fresh "Eb" in
             destruct b eqn:E
         end;
  cbn [p1 rng force check_file add_force set_site set_rng append_line
       fst snd].

(** X23: outside the cutoff ([dist >= cut]), at a distance that is not
    positive, for a type that selects none of the six variants, and for a
    particle without a bond at [dist >= r0], [add_affinity_pair_force]
    changes nothing: neither the particle, nor the force, nor the random
    generator, nor the check file. *)
Theorem affinity_idle (ia : Affinity_parameters) (d : Vector3d) (dist : Q)
    (st : State) :
  cut ia <= dist \/ dist <= 0 \/
  ~ (1 <= aff_type_extracted ia <= 6)%Z \/
  (bond_exists (p1 st) = false /\ r0 ia <= dist) ->
  add_affinity_pair_force ia d dist st = st.
Proof.
  intro Hidle.
  assert (Hcond : Qltb dist (cut ia) = false \/ Qgtb dist 0.0 = false \/
                  ~ (1 <= aff_type_extracted ia <= 6)%Z \/
                  (bond_exists (p1 st) = false /\ Qltb dist (r0 ia) = false)).
  { destruct Hidle as [H|[H|[H|[H1 H2]]]].
    - left. apply Qltb_ge. exact H.
    - right; left. apply Qgtb_le. lra.
    - right; right; left. exact H.
    - right; right; right. split; [exact H1 | apply Qltb_ge; exact H2]. }
  clear Hidle.
  affinity_cases (aff_type_extracted ia);
    try reflexivity;
    destruct Hcond as [H|[H|[H|[H1 H2]]]]; try congruence; lia.
Qed.


Ltac affinity_facts :=
  repeat match goal with
         | H : Qltb _ _ = true |- _ => apply Qltb_lt in H
         | H : Qltb _ _ = false |- _ => apply Qltb_ge in H
         | H : Qgtb _ _ = true |- _ => apply Qgtb_gt in H
         | H : Qgtb _ _ = false |- _ => apply Qgtb_le in H
         end.

(** X24: the life cycle of a bond.  A call changes nothing of the particle
    but its [bond_site].  For a particle with a bond the site is kept or
    reset to the sentinel [(-1, -1, -1)]; it is never moved.  For a particle
    without a bond neither the force nor the check file changes, and the
    site is either left alone or set to [unfolded position - d], the latter
    only at a distance [0 < dist < cut] with [dist < r0]. *)
Theorem affinity_bond_life_cycle (ia : Affinity_parameters) (d : Vector3d)
    (dist : Q) (st : State) :
  let st' := add_affinity_pair_force ia d dist st in
  let site := vsub (unfolded_position (pos (p1 st)) (img (p1 st)) box_l) d in
  (bond_exists (p1 st) = true ->
   p1 st' = p1 st \/ p1 st' = set_bond_site (p1 st) unbonded) /\
  (bond_exists (p1 st) = false ->
   force st' = force st /\ check_file st' = check_file st /\
   (p1 st' = p1 st \/
    0 < dist /\ dist < cut ia /\ dist < r0 ia /\
    p1 st' = set_bond_site (p1 st) site)).
Proof.
  cbv zeta.
  affinity_cases (aff_type_extracted ia);
    (split; intro Hb; try congruence);
    affinity_facts;
    try (first [left; reflexivity | right; reflexivity]);
    (split; [reflexivity|]; split; [reflexivity|]);
    first [left; reflexivity
          | right; split; [lra|]; split; [assumption|];
            split; [assumption | reflexivity]].
Qed.

(** X25: random numbers.  A call draws at most one random number.  Variant 1
    draws none: it is deterministic.  The other variants draw none either
    when they break a bond by force: the variants 2, 4, 5 and 6 at a bond
    length of [0.8 * cut] or more, variant 3 at [maxBond] or more; the bond
    site is then the sentinel. *)
Theorem affinity_random_draws (ia : Affinity_parameters) (d : Vector3d)
    (dist : Q) (st : State) :
  let st' := add_affinity_pair_force ia d dist st in
  let t := aff_type_extracted ia in
  let len := bond_len (p1 st) in
  (rng st' = rng st \/ rng st' = snd (d_random (rng st))) /\
  (t = 1%Z -> rng st' = rng st) /\
  (maintains_bond ia dist st = true ->
   (t = 2%Z \/ t = 4%Z \/ t = 5%Z \/ t = 6%Z) /\ 0.8 * cut ia <= len \/
   t = 3%Z /\ maxBond ia <= len ->
   rng st' = rng st /\ bond_site (p1 st') = unbonded).
Proof.
  cbv zeta. unfold maintains_bond.
  affinity_cases (aff_type_extracted ia);
    (split; [first [left; reflexivity | right; reflexivity]|]);
    (split; [intro Ht; first [reflexivity | discriminate Ht | lia]|]);
    intros Hm Hforced;
    first [discriminate Hm | idtac];
    affinity_facts;
    first [split; reflexivity
          | exfalso; destruct Hforced as [[Ht Hlen]|[Ht Hlen]];
            first [discriminate Ht | lia | lra
                  | destruct Ht as [Ht|[Ht|[Ht|Ht]]];
                    first [discriminate Ht | lia | lra]]].
Qed.

(** X26: the check file.  A call appends at most one line to
    [affinity_check.dat] and never rewrites it.  A line is written only for
    a type above 10, whose tens give the period of the output, in one of the
    variants 2, 4, 5 and 6, for a particle that has a bond inside the
    cutoff, and when the step number [floor (sim_time / time_step)] is a
    multiple of the period; the line names the particle. *)
Theorem affinity_check_file (ia : Affinity_parameters) (d : Vector3d)
    (dist : Q) (st : State) :
  let st' := add_affinity_pair_force ia d dist st in
  let t := aff_type_extracted ia in
  let period := period_for_output ia in
  check_file st' = check_file st \/
  exists l : CheckLine,
    check_file st' = check_file st ++ [l] /\
    (10 < type ia)%Z /\ period = (type ia - t)%Z /\ (0 < period)%Z /\
    (t = 2%Z \/ t = 4%Z \/ t = 5%Z \/ t = 6%Z) /\
    maintains_bond ia dist st = true /\
    Z.rem (Qfloor (sim_time / time_step)) period = 0%Z /\
    line_particle l = identity (p1 st) /\ line_period l = period /\
    line_type l = t /\ line_len l = bond_len (p1 st).
Proof.
  cbv zeta. unfold maintains_bond.
  assert (Hper : (0 <? period_for_output ia)%Z = true ->
                 (10 < type ia)%Z /\
                 period_for_output ia = (type ia - aff_type_extracted ia)%Z /\
                 (0 < period_for_output ia)%Z).
  { unfold period_for_output. destruct (Z.ltb_spec 10 (type ia)).
    - intro H0. apply Z.ltb_lt in H0. repeat split; [assumption | exact H0].
    - intro H0. discriminate H0. }
  affinity_cases (aff_type_extracted ia);
    try (left; reflexivity);
    right; eexists; (split; [reflexivity|]);
    cbn [line_particle line_period line_type line_len];
    destruct (Hper eq_refl) as (Hp1 & Hp2 & Hp3);
    match goal with
    | H : (_ =? 0)%Z && _ = true |- _ =>
        apply andb_true_iff in H; destruct H as [Hrem Hextra];
        apply Z.eqb_eq in Hrem
    end;
    try discriminate Hextra;
    rewrite ?E2, ?E4, ?E5, ?E6 in *;
    repeat (split; [first [assumption | reflexivity | tauto | lia]|]);
    first [assumption | reflexivity | tauto | lia].
Qed.

End AffinityForce.

(** A particle at the origin bonded to the site [(3, 4, 0)] (bond length
    5), variant 1 with [kappa = 2] and [r0 = 1]: the force grows by
    [2 * (5 - 1) / 5] times the bond vector. *)
Definition bonded_particle : Particle :=
  mkParticle 0 1 0 false (mkV 3 4 0) (mkV 0 0 0) (mkV 0 0 0) (mkV 0 0 0)
             (mkV 0 0 0) (0, 0, 0)%Z (mkV 0 0 0)
             (mkRot (1, 0, 0, 0) (mkV 0 0 0)).

Definition bonded_state : State nat :=
  mkState nat bonded_particle (finite (mkV 0 0 0)) 0%nat [].

(** A particle sitting on its bond site [(3, 4, 0)]: a bond of length
    zero. *)
Definition resting_particle : Particle :=
  mkParticle 0 1 0 false (mkV 3 4 0) (mkV 3 4 0) (mkV 0 0 0) (mkV 0 0 0)
             (mkV 0 0 0) (0, 0, 0)%Z (mkV 0 0 0)
             (mkRot (1, 0, 0, 0) (mkV 0 0 0)).

Definition resting_state : State nat :=
  mkState nat resting_particle (finite (mkV 0 0 0)) 0%nat [].

Lemma affinity_force_one_sided_witness :
  let ia := mkAffinity 1 2 1 1 1 10 3 in
  let run := add_affinity_pair_force (fun _ => 1) sqrt_exact nat
               (fun n => (1, S n)) (mkV 10 10 10) 0.01 0 ia (mkV 1 0 0) 1 in
  (exists (c : Q) (f' : Vector3d),
     force nat (run bonded_state) = finite f' /\
     veq f' (vadd (mkV 0 0 0)
                  (vscale c (bond_vec (mkV 10 10 10) bonded_particle))) /\
     0 <= c) /\
  (exists f' : Vector3d,
     force nat (run bonded_state) = finite f' /\
     veq f' (mkV (24#5) (32#5) 0)) /\
  force nat (run resting_state) = not_finite.
Proof.
  cbv zeta. split; [|split].
  - destruct (affinity_force_one_sided (fun _ => 1) sqrt_exact nat
                (fun n => (1, S n)) (mkV 10 10 10) 0.01 0 sqrt_exact_nonneg
                (mkAffinity 1 2 1 1 1 10 3) (mkV 1 0 0) 1 bonded_state
                (mkV 0 0 0)) as [H _].
    + vm_compute. split; discriminate.
    + reflexivity.
    + destruct H as (c & f' & Hf & Hc & _ & Hk & _).
      * right. left. vm_compute. discriminate.
      * exists c, f'. split; [exact Hf|]. split; [exact Hc|].
        apply Hk. vm_compute. discriminate.
  - eexists. split; [vm_compute; reflexivity|].
    vm_compute. repeat split; reflexivity.
  - destruct (affinity_force_one_sided (fun _ => 1) sqrt_exact nat
                (fun n => (1, S n)) (mkV 10 10 10) 0.01 0 sqrt_exact_nonneg
                (mkAffinity 1 2 1 1 1 10 3) (mkV 1 0 0) 1 resting_state
                (mkV 0 0 0)) as [_ H].
    + vm_compute. split; discriminate.
    + reflexivity.
    + apply H.
      * vm_compute. reflexivity.
      * vm_compute. reflexivity.
      * intro E. discriminate E.
Defined.


(** Variant 1 with a cutoff of 3: at the distance 5 the bonded particle is
    left as it is. *)
Lemma affinity_idle_witness :
  add_affinity_pair_force (fun _ => 1) sqrt_exact nat (fun n => (1, S n))
    (mkV 10 10 10) 0.01 0 (mkAffinity 1 2 1 1 1 10 3) (mkV 5 0 0) 5
    bonded_state
  = bonded_state.
Proof.
  apply affinity_idle. left. vm_compute. discriminate.
Defined.

End Affinity.
